(** * Maze generation, search and MDP solvers: a shallow embedding

    The development follows the layout of the Python sources:

    - Python values: exceptions, list indexing, floats as an interface;
    - [utils/priority_queue.py]: the lazy decrease-key priority queue;
    - [maze/generator.py]: the recursive-backtracker carving loop;
    - [maze/env.py]: graph view and MDP view of a maze;
    - [analytics/metrics.py]: the metrics accumulator;
    - [solvers/*.py]: BFS, DFS, A*, value iteration, policy iteration.

    Python integers are [Z], lists are [list], dictionaries are [gmap]
    (association lists where insertion order is observable), sets are
    [gset].  Code that can raise returns a [result]; loops that are not
    bounded by the source itself take a fuel argument.

    Part I holds the embedding and the vocabulary of the statements,
    Part II the lemmas and theorems. *)

From Stdlib Require Import ZArith Lia PrimFloat QArith Qcanon.
From stdpp Require Import numbers gmap strings list fin_maps relations sorting.

Local Open Scope Z_scope.

(** * Part I: the embedding *)

(** ** Python exceptions and results *)

(** The exceptions the modelled code can raise.  [OutOfFuel] is not a
    Python exception: it marks a loop of the model that was cut off by
    its fuel argument. *)
Inductive exn : Type :=
  | IndexError
  | KeyError
  | ValueError
  | OutOfFuel.

Inductive result (A : Type) : Type :=
  | Ok (a : A)
  | Raise (e : exn).
Arguments Ok {A} a.
Arguments Raise {A} e.

Definition rbind {A B : Type} (c : result A) (k : A -> result B) : result B :=
  match c with
  | Ok a => k a
  | Raise e => Raise e
  end.

Notation "'let!' x := c 'in' k" := (rbind c (fun x => k))
  (at level 10, x name, c at level 100, k at level 200).
Notation "'let!' ' p := c 'in' k" := (rbind c (fun x => let 'p := x in k))
  (at level 10, p pattern, c at level 100, k at level 200).

(** ** Priorities and floats *)

(** [utils/priority_queue.py] compares priorities with [<] and [==].
    The queue is generic in the priority type. *)
Class PrioOps (P : Type) : Type := {
  plt : P -> P -> bool;
  peq : P -> P -> bool
}.

(** What the lemmas on the queue need from the two comparisons: [==]
    decides equality and [<] is a strict total order. *)
Record PriorityOrder (P : Type) `{PrioOps P} : Prop := {
  peq_eq : forall a b : P, peq a b = true <-> a = b;
  plt_irrefl : forall a : P, plt a a = false;
  plt_trans : forall a b c : P, plt a b = true -> plt b c = true -> plt a c = true;
  plt_total : forall a b : P, plt a b = true \/ a = b \/ plt b a = true
}.

#[export] Instance Z_PrioOps : PrioOps Z := {| plt := Z.ltb; peq := Z.eqb |}.

(** Python floats, by the operations the sources use on them.
    [f_of_Z n] is [float(n)], the literals [0.0], [1.0] and [2.0] are
    [f_of_Z 0], [f_of_Z 1] and [f_of_Z 2]. *)
Class FloatOps (F : Type) : Type := {
  f_of_Z : Z -> F;
  fadd : F -> F -> F;
  fsub : F -> F -> F;
  fmul : F -> F -> F;
  fdiv : F -> F -> F;
  fltb : F -> F -> bool;
  fleb : F -> F -> bool;
  feqb : F -> F -> bool
}.

(** [abs], [math.sqrt] and [float("-inf")]. *)
Class FloatLib (F : Type) : Type := {
  fabs : F -> F;
  fsqrt : F -> F;
  fneg_inf : F
}.

(** [a > b] is [b < a]; the builtin [max(a, b)] keeps [a] unless [b] is
    greater. *)
Definition fgtb {F : Type} `{FloatOps F} (a b : F) : bool := fltb b a.

Definition fmax {F : Type} `{FloatOps F} (a b : F) : F :=
  if fgtb b a then b else a.

(** Floats as priorities of the queue. *)
#[export] Instance float_PrioOps {F : Type} `{FloatOps F} : PrioOps F :=
  {| plt := fltb; peq := feqb |}.

(** What holds of the float operations when no rounding takes place. *)
Record ExactArith (F : Type) `{FloatOps F} : Prop := {
  fadd_0_l : forall x : F, fadd (f_of_Z 0) x = x;
  fadd_assoc : forall x y z : F, fadd (fadd x y) z = fadd x (fadd y z);
  fsub_add : forall x y : F, fadd (fsub x y) y = x;
  fhalf_add : forall x : F, fadd (fdiv x (f_of_Z 2)) (fdiv x (f_of_Z 2)) = x
}.

(** IEEE 754 binary64, the floats of CPython. *)

(** Exact for the integers below [2^53], which binary64 holds. *)
Fixpoint float_of_pos (p : positive) : PrimFloat.float :=
  match p with
  | xH => PrimFloat.one
  | xO p' => PrimFloat.mul PrimFloat.two (float_of_pos p')
  | xI p' => PrimFloat.add (PrimFloat.mul PrimFloat.two (float_of_pos p')) PrimFloat.one
  end.

(** [float(n)] for [n > 0]: an integer of more than 53 bits is rounded
    once, to the nearest float and to the even one of two nearest.  The
    53 leading bits [q] are rounded up when the [e] bits cut off are
    more than half a unit, or just half and [q] is odd; the result is
    [q * 2^e].  (Where CPython raises [OverflowError], beyond the
    largest float, the result here is the infinity.) *)
Definition float_of_positive (p : positive) : PrimFloat.float :=
  let n := Zpos p in
  let e := Z.log2 n + 1 - 53 in
  if e <=? 0 then float_of_pos p
  else
    let q := Z.shiftr n e in
    let rem := Z.land n (Z.ones e) in
    let half := Z.shiftl 1 (e - 1) in
    let q := if orb (half <? rem) (andb (rem =? half) (Z.odd q)) then q + 1 else q in
    Z.iter e (PrimFloat.mul PrimFloat.two)
      match q with
      | Zpos q' => float_of_pos q'
      | _ => PrimFloat.zero
      end.

Definition float_of_Z (n : Z) : PrimFloat.float :=
  match n with
  | Z0 => PrimFloat.zero
  | Zpos p => float_of_positive p
  | Zneg p => PrimFloat.opp (float_of_positive p)
  end.

#[export] Instance binary64_FloatOps : FloatOps PrimFloat.float := {|
  f_of_Z := float_of_Z;
  fadd := PrimFloat.add;
  fsub := PrimFloat.sub;
  fmul := PrimFloat.mul;
  fdiv := PrimFloat.div;
  fltb := PrimFloat.ltb;
  fleb := PrimFloat.leb;
  feqb := PrimFloat.eqb
|}.

#[export] Instance binary64_FloatLib : FloatLib PrimFloat.float := {|
  fabs := PrimFloat.abs;
  fsqrt := PrimFloat.sqrt;
  fneg_inf := PrimFloat.neg_infinity
|}.

(** Exact rational arithmetic, where [ExactArith] holds. *)
#[export] Instance Qc_FloatOps : FloatOps Qc := {|
  f_of_Z := fun n => Qc_of_Z n;
  fadd := Qcplus;
  fsub := Qcminus;
  fmul := Qcmult;
  fdiv := Qcdiv;
  fltb := fun a b => bool_decide (a < b)%Qc;
  fleb := fun a b => bool_decide (a <= b)%Qc;
  feqb := fun a b => bool_decide (a = b)
|}.

(** ** utils/priority_queue.py *)

Module PQ.
Section PriorityQueue.
Context {T : Type} `{Countable T}.
Context {P : Type} `{PrioOps P}.

(** [_PQItem]: ordered by [(priority, tie)]; [item] does not take part
    in comparisons. *)
Record PQItem : Type := mkItem {
  priority : P;
  tie : nat;
  item : T
}.

(** Tuple comparison of [(priority, tie)]: the first components decide
    unless they are equal. *)
Definition item_lt (a b : PQItem) : bool :=
  if peq (priority a) (priority b) then Nat.ltb (tie a) (tie b)
  else plt (priority a) (priority b).

(** [heapq] is the Python standard library's binary heap.  It is
    modelled by its contract: the heap is represented by the sequence
    of its entries in ascending order, [heappush] inserts an entry at
    its place and [heappop] removes the smallest one, the head. *)
Fixpoint heappush (h : list PQItem) (e : PQItem) : list PQItem :=
  match h with
  | [] => [e]
  | x :: h' => if item_lt e x then e :: x :: h' else x :: heappush h' e
  end.

Record PriorityQueue : Type := mkPQ {
  _heap : list PQItem;
  _tie : nat;
  _best : gmap T P
}.

(** [PriorityQueue.__init__] *)
Definition new : PriorityQueue :=
  {| _heap := []; _tie := 0%nat; _best := ∅ |}.

Definition enqueue (q : PriorityQueue) (x : T) (p : P) : PriorityQueue :=
  {| _heap := heappush (_heap q) (mkItem p (_tie q) x);
     _tie := S (_tie q);
     _best := <[x := p]> (_best q) |}.

(** [PriorityQueue.push] *)
Definition push (q : PriorityQueue) (x : T) (p : P) : PriorityQueue :=
  match _best q !! x with
  | None => enqueue q x p
  | Some best => if plt p best then enqueue q x p else q
  end.

(** [self._best.get(top.item) == top.priority] *)
Definition live (best : gmap T P) (e : PQItem) : bool :=
  match best !! item e with
  | Some b => peq b (priority e)
  | None => false
  end.

(** The [while self._heap] loop of [pop]: each round [heappop]s the
    head [top]; the answer and the heap that is left. *)
Fixpoint pop_loop (best : gmap T P) (h : list PQItem)
  : result (T * P) * list PQItem :=
  match h with
  | [] => (Raise IndexError, [])
  | top :: rest =>
      if live best top then (Ok (item top, priority top), rest)
      else pop_loop best rest
  end.

(** [PriorityQueue.pop]; the queue is mutated also when it raises. *)
Definition pop (q : PriorityQueue) : result (T * P) * PriorityQueue :=
  let '(r, h) := pop_loop (_best q) (_heap q) in
  (r, {| _heap := h; _tie := _tie q; _best := _best q |}).

(** [PriorityQueue.empty] *)
Definition empty (q : PriorityQueue) : bool :=
  (size (_best q) =? 0)%nat
  || forallb (fun e => negb (live (_best q) e)) (_heap q).

(** [PriorityQueue.__len__] *)
Definition len (q : PriorityQueue) : Z := Z.of_nat (size (_best q)).

(** [PriorityQueue.peek_priority] *)
Definition peek_priority (q : PriorityQueue) (x : T) : option P :=
  _best q !! x.

(** Sequences of operations on a queue that starts empty. *)
Inductive op : Type :=
  | Push (x : T) (p : P)
  | Pop.

Definition apply_op (q : PriorityQueue) (o : op) : PriorityQueue :=
  match o with
  | Push x p => push q x p
  | Pop => snd (pop q)
  end.

Definition run (ops : list op) : PriorityQueue := foldl apply_op new ops.

(** An entry of the heap is live when its priority is its item's
    best-known one, stale otherwise. *)
Definition live_entries (q : PriorityQueue) : list PQItem :=
  filter (fun e => live (_best q) e = true) (_heap q).

(** The invariant of the queues that [run] builds. *)
Record wf (q : PriorityQueue) : Prop := {
  wf_sorted : StronglySorted (fun a b => item_lt a b = true) (_heap q);
  wf_tie : Forall (fun e => (tie e < _tie q)%nat) (_heap q);
  wf_best : Forall (fun e => exists b, _best q !! item e = Some b
                               /\ plt (priority e) b = false) (_heap q);
  wf_once : forall e1 e2, e1 ∈ _heap q -> e2 ∈ _heap q ->
              item e1 = item e2 -> priority e1 = priority e2 -> e1 = e2
}.

End PriorityQueue.
End PQ.

(** ** Python lists *)

(** [l[i]] for a list of length [n]: a negative index counts from the
    end, an index outside [-n .. n-1] raises [IndexError]. *)
Definition py_index (n : nat) (i : Z) : result nat :=
  let len := Z.of_nat n in
  if (0 <=? i) && (i <? len) then Ok (Z.to_nat i)
  else if (- len <=? i) && (i <? 0) then Ok (Z.to_nat (i + len))
  else Raise IndexError.

Definition getitem {A : Type} (l : list A) (i : Z) : result A :=
  let! k := py_index (length l) i in
  match l !! k with
  | Some x => Ok x
  | None => Raise IndexError
  end.

Definition setitem {A : Type} (l : list A) (i : Z) (x : A) : result (list A) :=
  let! k := py_index (length l) i in
  Ok (<[k := x]> l).

(** A grid is a list of rows; [g[r][c]] and [g[r][c] = x]. *)
Definition grid_get {A : Type} (g : list (list A)) (r c : Z) : result A :=
  let! row := getitem g r in
  getitem row c.

Definition grid_set {A : Type} (g : list (list A)) (r c : Z) (x : A)
  : result (list (list A)) :=
  let! row := getitem g r in
  let! row' := setitem row c x in
  setitem g r row'.

(** ** The seeded random source *)

(** [random.Random] is the Python standard library's generator.  It is
    used through [Random(seed)] and [choice], which draws an index with
    [_randbelow(len(seq))]. *)
Class RandomSource (R : Type) : Type := {
  Random : option Z -> R;
  randbelow : R -> nat -> nat * R
}.

(** The contract of [_randbelow(n)]: an index below [n]. *)
Record RandomSourceOk (R : Type) `{RandomSource R} : Prop := {
  randbelow_lt : forall (g : R) (n : nat), (0 < n)%nat -> (fst (randbelow g n) < n)%nat
}.

(** [rng.choice(seq)] *)
Definition choice {R : Type} `{RandomSource R} {A : Type} (g : R) (seq : list A)
  : result (A * R) :=
  match seq with
  | [] => Raise IndexError
  | _ =>
      let '(i, g') := randbelow g (length seq) in
      match seq !! i with
      | Some x => Ok (x, g')
      | None => Raise IndexError
      end
  end.

(** A linear congruential generator, to run the generator on examples. *)
#[export] Instance lcg_RandomSource : RandomSource Z := {|
  Random := fun seed => match seed with Some s => s | None => 0 end;
  randbelow := fun g n =>
    (Z.to_nat ((g / 65536) mod Z.of_nat n), (1103515245 * g + 12345) mod 2147483648)
|}.

(** ** maze/generator.py *)

Definition Coord : Type := Z * Z.

Record Maze : Type := mkMaze {
  rows : Z;
  cols : Z;
  walls : list (list Z);
  start : Coord;
  goal : Coord
}.

(** Wall bit flags *)
Definition N : Z := 1.
Definition E : Z := 2.
Definition S : Z := 4.
Definition W : Z := 8.

Definition DIRS : list (Z * Z * Z * Z) :=
  [ (-1, 0, N, S);
    (0, 1, E, W);
    (1, 0, S, N);
    (0, -1, W, E) ].

(** The variables of the carving loop.  The stack is kept with its top
    first: [stack[-1]] is the head, [append] conses, [pop] takes the
    tail. *)
Record carve_state (R : Type) : Type := mkCarve {
  c_walls : list (list Z);
  c_visited : list (list bool);
  c_stack : list Coord;
  c_rng : R
}.
Arguments mkCarve {R}.
Arguments c_walls {R}.
Arguments c_visited {R}.
Arguments c_stack {R}.
Arguments c_rng {R}.

(** The [for dr, dc, w_curr, w_next in DIRS] loop that collects the
    unvisited neighbours of [(r, c)]. *)
Fixpoint collect_neigh (rows cols : Z) (visited : list (list bool)) (r c : Z)
    (dirs : list (Z * Z * Z * Z)) : result (list (Z * Z * Z * Z)) :=
  match dirs with
  | [] => Ok []
  | (dr, dc, w_curr, w_next) :: dirs' =>
      let nr := r + dr in
      let nc := c + dc in
      let! keep :=
        (if (0 <=? nr) && (nr <? rows) && (0 <=? nc) && (nc <? cols)
         then let! v := grid_get visited nr nc in Ok (negb v)
         else Ok false) in
      let! rest := collect_neigh rows cols visited r c dirs' in
      Ok (if keep then (nr, nc, w_curr, w_next) :: rest else rest)
  end.

(** One round of [while stack]; with an empty stack the loop is over and
    the state stays as it is. *)
Definition carve_step {R : Type} `{RandomSource R} (rows cols : Z)
    (st : carve_state R) : result (carve_state R) :=
  match c_stack st with
  | [] => Ok st
  | (r, c) :: below =>
      let! neigh := collect_neigh rows cols (c_visited st) r c DIRS in
      match neigh with
      | [] => Ok (mkCarve (c_walls st) (c_visited st) below (c_rng st))
      | _ =>
          let! '((nr, nc, w_curr, w_next), g') := choice (c_rng st) neigh in
          let! m := grid_get (c_walls st) r c in
          let! walls1 := grid_set (c_walls st) r c (Z.land m (Z.lnot w_curr)) in
          let! m' := grid_get walls1 nr nc in
          let! walls2 := grid_set walls1 nr nc (Z.land m' (Z.lnot w_next)) in
          let! visited' := grid_set (c_visited st) nr nc true in
          Ok (mkCarve walls2 visited' ((nr, nc) :: (r, c) :: below) g')
      end
  end.

Fixpoint carve_loop {R : Type} `{RandomSource R} (fuel : nat) (rows cols : Z)
    (st : carve_state R) : result (carve_state R) :=
  match c_stack st with
  | [] => Ok st
  | _ :: _ =>
      match fuel with
      | O => Raise OutOfFuel
      | Datatypes.S fuel' =>
          let! st' := carve_step rows cols st in
          carve_loop fuel' rows cols st'
      end
  end.

(** The state in which the loop is entered. *)
Definition carve_init {R : Type} `{RandomSource R} (rows cols : Z)
    (seed : option Z) (start : Coord) : result (carve_state R) :=
  let rng := Random seed in
  let walls :=
    replicate (Z.to_nat rows)
      (replicate (Z.to_nat cols) (Z.lor (Z.lor (Z.lor N E) S) W)) in
  let visited := replicate (Z.to_nat rows) (replicate (Z.to_nat cols) false) in
  let '(sr, sc) := start in
  let! visited := grid_set visited sr sc true in
  Ok (mkCarve walls visited [(sr, sc)] rng).

Definition generate_maze (R : Type) `{RandomSource R} (fuel : nat)
    (rows cols : Z) (seed : option Z) (start : Coord) (goal : option Coord)
  : result Maze :=
  if (rows <? 2) || (cols <? 2) then Raise ValueError
  else
    let goal := match goal with
                | None => (rows - 1, cols - 1)
                | Some g => g
                end in
    let! st0 := carve_init (R := R) rows cols seed start in
    let! st := carve_loop fuel rows cols st0 in
    Ok (mkMaze rows cols (c_walls st) start goal).

(** [has_wall] *)
Definition has_wall (maze : Maze) (r c : Z) (direction_bit : Z) : result bool :=
  let! m := grid_get (walls maze) r c in
  Ok (negb (Z.land m direction_bit =? 0)).

(** The states the carving loop goes through. *)
Definition carve_next {R : Type} `{RandomSource R} (rows cols : Z)
    (st st' : carve_state R) : Prop :=
  c_stack st <> [] /\ carve_step rows cols st = Ok st'.

Definition carve_reaches {R : Type} `{RandomSource R} (rows cols : Z)
    (seed : option Z) (start : Coord) (st : carve_state R) : Prop :=
  exists st0, carve_init rows cols seed start = Ok st0
              /\ rtc (carve_next rows cols) st0 st.

(** ** The open-cell graph of a wall grid *)

Definition in_grid (rows cols : Z) (p : Coord) : Prop :=
  0 <= p.1 < rows /\ 0 <= p.2 < cols.

(** The cell of a grid at a position inside it. *)
Definition cell {A : Type} (g : list (list A)) (p : Coord) : option A :=
  row ← g !! Z.to_nat p.1; row !! Z.to_nat p.2.

(** [rows] rows of [cols] cells each. *)
Definition grid_dims {A : Type} (g : list (list A)) (rows cols : Z) : Prop :=
  Z.of_nat (length g) = rows
  /\ Forall (fun row => Z.of_nat (length row) = cols) g.

(** No wall on side [bit] of the cell at [p]. *)
Definition no_wall (walls : list (list Z)) (p : Coord) (bit : Z) : bool :=
  match cell walls p with
  | Some m => Z.land m bit =? 0
  | None => false
  end.

(** [b] is the grid neighbour of [a] on a side of [a] that has no wall,
    both inside the grid: the edges that [MazeEnv.neighbors] follows. *)
Definition open_adj (rows cols : Z) (walls : list (list Z)) (a b : Coord) : Prop :=
  in_grid rows cols a /\ in_grid rows cols b
  /\ exists dr dc w w', (dr, dc, w, w') ∈ DIRS
       /\ b = (a.1 + dr, a.2 + dc) /\ no_wall walls a w = true.

Definition maze_adj (m : Maze) : Coord -> Coord -> Prop :=
  open_adj (rows m) (cols m) (walls m).

(** [a :: p] is a walk from [a] to [b]. *)
Fixpoint walk {V : Type} (adj : V -> V -> Prop) (a : V) (p : list V)
    (b : V) : Prop :=
  match p with
  | [] => a = b
  | x :: p' => adj a x /\ walk adj x p' b
  end.

(** A simple path visits no cell twice. *)
Definition simple_path {V : Type} (adj : V -> V -> Prop) (a : V)
    (p : list V) (b : V) : Prop :=
  walk adj a p b /\ NoDup (a :: p).

(** All cells in row-major order, and the pairs of grid-adjacent cells,
    each pair once (to the east and to the south of its first cell). *)
Definition Zrange (n : Z) : list Z := Z.of_nat <$> seq 0 (Z.to_nat n).

Definition all_cells (rows cols : Z) : list Coord :=
  r ← Zrange rows; (fun c => (r, c)) <$> Zrange cols.

Definition grid_edges (rows cols : Z) : list (Coord * Coord) :=
  p ← all_cells rows cols;
  (if p.2 + 1 <? cols then [(p, (p.1, p.2 + 1))] else [])
  ++ (if p.1 + 1 <? rows then [(p, (p.1 + 1, p.2))] else []).

(** An edge is open when neither of its two cells has a wall on the
    shared side. *)
Definition edge_open (walls : list (list Z)) (e : Coord * Coord) : bool :=
  let '(a, b) := e in
  if b.1 =? a.1 then no_wall walls a E && no_wall walls b W
  else no_wall walls a S && no_wall walls b N.

Definition open_edges (rows cols : Z) (walls : list (list Z))
  : list (Coord * Coord) :=
  filter (fun e => edge_open walls e = true) (grid_edges rows cols).

(** No one-way walls: the two cells of every pair of grid neighbours
    agree on the wall between them. *)
Definition walls_symmetric (rows cols : Z) (walls : list (list Z)) : Prop :=
  forall a b dr dc w w',
    in_grid rows cols a -> in_grid rows cols b ->
    (dr, dc, w, w') ∈ DIRS -> b = (a.1 + dr, a.2 + dc) ->
    no_wall walls a w = no_wall walls b w'.

(** The grid with the cell at [p] replaced: what [grid_set] computes for
    a position inside the grid. *)
Definition cell_set {A : Type} (g : list (list A)) (p : Coord) (x : A)
  : list (list A) :=
  alter (fun row => <[Z.to_nat p.2 := x]> row) (Z.to_nat p.1) g.

(** The cells marked in a grid of booleans. *)
Definition marked (v : list (list bool)) (p : Coord) : Prop :=
  cell v p = Some true.

Definition marked_cells (rows cols : Z) (v : list (list bool)) : list Coord :=
  filter (fun p => cell v p = Some true) (all_cells rows cols).

(** The cells next to each other in the grid, walls or not. *)
Definition grid_adj (rows cols : Z) (a b : Coord) : Prop :=
  in_grid rows cols a /\ in_grid rows cols b
  /\ exists dr dc w w', (dr, dc, w, w') ∈ DIRS /\ b = (a.1 + dr, a.2 + dc).

(** The invariant of the carving loop, for a start cell inside the
    grid.  The marked cells are the cells of the tree carved so far. *)
Record carve_inv {R : Type} (rows cols : Z) (start : Coord)
    (st : carve_state R) : Prop := {
  inv_walls_dims : grid_dims (c_walls st) rows cols;
  inv_visited_dims : grid_dims (c_visited st) rows cols;
  inv_start : in_grid rows cols start /\ marked (c_visited st) start;
  inv_stack :
    Forall (fun p => in_grid rows cols p /\ marked (c_visited st) p) (c_stack st);
  inv_closed :
    forall p, in_grid rows cols p -> cell (c_visited st) p = Some false ->
              cell (c_walls st) p = Some 15;
  inv_sym : walls_symmetric rows cols (c_walls st);
  inv_done :
    forall p q, marked (c_visited st) p -> p ∉ c_stack st ->
                grid_adj rows cols p q -> marked (c_visited st) q;
  inv_tree :
    forall a b, in_grid rows cols a -> marked (c_visited st) a ->
                in_grid rows cols b -> marked (c_visited st) b ->
      exists p, simple_path (open_adj rows cols (c_walls st)) a p b
        /\ forall q, simple_path (open_adj rows cols (c_walls st)) a q b -> q = p;
  inv_count :
    length (marked_cells rows cols (c_visited st))
    = Datatypes.S (length (open_edges rows cols (c_walls st)))
}.

(** Rounds the loop has left at most: two for every unmarked cell (one
    to push it, one to pop it) and one for every cell on the stack. *)
Definition carve_measure {R : Type} (rows cols : Z) (st : carve_state R) : nat :=
  (2 * (length (all_cells rows cols)
        - length (marked_cells rows cols (c_visited st)))
   + length (c_stack st))%nat.

(** ** maze/env.py *)

Record MazeEnv (F : Type) : Type := mkEnv {
  maze : Maze;
  step_reward : F;
  goal_reward : F;
  wall_reward : F;
  gamma : F;
  slip_prob : F
}.
Arguments mkEnv {F}.
Arguments maze {F}.
Arguments step_reward {F}.
Arguments goal_reward {F}.
Arguments wall_reward {F}.
Arguments gamma {F}.
Arguments slip_prob {F}.

(** The dataclass field [ACTIONS] keeps its default in every
    construction of a [MazeEnv]. *)
Definition ACTIONS : list string := ["U"; "R"; "D"; "L"]%string.

(** Dictionaries whose insertion order is observed ([list(d.items())]):
    association lists; a new key goes to the end, an old key keeps its
    place. *)
Fixpoint dict_get {K V : Type} `{EqDecision K} (d : list (K * V)) (k : K)
    (default : V) : V :=
  match d with
  | [] => default
  | (k', v) :: d' => if decide (k' = k) then v else dict_get d' k default
  end.

Fixpoint dict_set {K V : Type} `{EqDecision K} (d : list (K * V)) (k : K)
    (v : V) : list (K * V) :=
  match d with
  | [] => [(k, v)]
  | (k', v') :: d' =>
      if decide (k' = k) then (k, v) :: d' else (k', v') :: dict_set d' k v
  end.

Section Env.
Context {F : Type} `{FloatOps F}.

Definition in_bounds (env : MazeEnv F) (s : Coord) : bool :=
  let '(r, c) := s in
  (0 <=? r) && (r <? rows (maze env)) && (0 <=? c) && (c <? cols (maze env)).

Definition is_goal (env : MazeEnv F) (s : Coord) : bool :=
  bool_decide (s = goal (maze env)).

(** [neighbors]: north, east, south, west.  In [not has_wall(...) and
    bound] the wall test comes first, so each test reads the wall grid. *)
Definition neighbors (env : MazeEnv F) (s : Coord) : result (list Coord) :=
  let '(r, c) := s in
  let out := [] in
  let! wN := has_wall (maze env) r c N in
  let out := if negb wN && (0 <=? r - 1) then out ++ [(r - 1, c)] else out in
  let! wE := has_wall (maze env) r c E in
  let out := if negb wE && (c + 1 <? cols (maze env))
             then out ++ [(r, c + 1)] else out in
  let! wS := has_wall (maze env) r c S in
  let out := if negb wS && (r + 1 <? rows (maze env))
             then out ++ [(r + 1, c)] else out in
  let! wW := has_wall (maze env) r c W in
  let out := if negb wW && (0 <=? c - 1) then out ++ [(r, c - 1)] else out in
  Ok out.

Definition cost (env : MazeEnv F) (s s2 : Coord) : F := f_of_Z 1.

(** [states]: every call yields the cells in row-major order. *)
Definition states (env : MazeEnv F) : list Coord :=
  all_cells (rows (maze env)) (cols (maze env)).

Definition _move (env : MazeEnv F) (s : Coord) (a : string) : result Coord :=
  let '(r, c) := s in
  if String.eqb a "U" then
    let! wall := has_wall (maze env) r c N in
    if wall || (r - 1 <? 0) then Ok s else Ok (r - 1, c)
  else if String.eqb a "R" then
    let! wall := has_wall (maze env) r c E in
    if wall || (cols (maze env) <=? c + 1) then Ok s else Ok (r, c + 1)
  else if String.eqb a "D" then
    let! wall := has_wall (maze env) r c S in
    if wall || (rows (maze env) <=? r + 1) then Ok s else Ok (r + 1, c)
  else if String.eqb a "L" then
    let! wall := has_wall (maze env) r c W in
    if wall || (c - 1 <? 0) then Ok s else Ok (r, c - 1)
  else Raise ValueError.

Definition reward (env : MazeEnv F) (s : Coord) (a : string) (s2 : Coord) : F :=
  if is_goal env s then f_of_Z 0
  else if is_goal env s2 then goal_reward env
  else if bool_decide (s2 = s) && bool_decide (a ∈ ACTIONS) then wall_reward env
  else step_reward env.

(** The literal dictionary of side actions, indexed by [a]. *)
Definition side_actions (a : string) : result (string * string) :=
  if String.eqb a "U" then Ok ("L", "R")%string
  else if String.eqb a "R" then Ok ("U", "D")%string
  else if String.eqb a "D" then Ok ("L", "R")%string
  else if String.eqb a "L" then Ok ("U", "D")%string
  else Raise KeyError.

Definition transitions (env : MazeEnv F) (s : Coord) (a : string)
  : result (list (Coord * F)) :=
  if is_goal env s then Ok [(s, f_of_Z 1)]
  else if fleb (slip_prob env) (f_of_Z 0) then
    let! s2 := _move env s a in
    Ok [(s2, f_of_Z 1)]
  else
    let! side := side_actions a in
    let p_main := fsub (f_of_Z 1) (slip_prob env) in
    let p_side := fdiv (slip_prob env) (f_of_Z 2) in
    let! ns_main := _move env s a in
    let! ns_s1 := _move env s side.1 in
    let! ns_s2 := _move env s side.2 in
    let probs : list (Coord * F) := [] in
    let probs := dict_set probs ns_main
                   (fadd (dict_get probs ns_main (f_of_Z 0)) p_main) in
    let probs := dict_set probs ns_s1
                   (fadd (dict_get probs ns_s1 (f_of_Z 0)) p_side) in
    let probs := dict_set probs ns_s2
                   (fadd (dict_get probs ns_s2 (f_of_Z 0)) p_side) in
    Ok probs.

(** [V[s2]] *)
Definition dict_item {K V : Type} `{Countable K} (d : gmap K V) (k : K)
  : result V :=
  match d !! k with
  | Some v => Ok v
  | None => Raise KeyError
  end.

Fixpoint expected_return_loop (env : MazeEnv F) (V : gmap Coord F) (s : Coord)
    (a : string) (outcomes : list (Coord * F)) (total : F) : result F :=
  match outcomes with
  | [] => Ok total
  | (s2, p) :: rest =>
      let r := reward env s a s2 in
      let! v2 := dict_item V s2 in
      expected_return_loop env V s a rest
        (fadd total (fmul p (fadd r (fmul (gamma env) v2))))
  end.

Definition expected_return (env : MazeEnv F) (V : gmap Coord F) (s : Coord)
    (a : string) : result F :=
  let! outcomes := transitions env s a in
  expected_return_loop env V s a outcomes (f_of_Z 0).

(** The probability that the weighted outcomes [raw] give to the cell
    [s2]: the sum, from [0.0] on and in their order, of the weights of
    the outcomes that land on [s2]. *)
Definition merged_prob (raw : list (Coord * F)) (s2 : Coord) : F :=
  foldl fadd (f_of_Z 0) (snd <$> filter (fun o => o.1 = s2) raw).

(** The sum of the probabilities of a list of outcomes. *)
Definition prob_sum (outcomes : list (Coord * F)) : F :=
  foldl fadd (f_of_Z 0) (snd <$> outcomes).

End Env.

(** ** analytics/metrics.py *)

Module RunMetrics.

(** The dataclass [RunMetrics]; its fields are mutated in place by the
    solvers, which is modelled by passing the record along. *)
Record t (F : Type) : Type := mk {
  algorithm : string;
  maze_rows : Z;
  maze_cols : Z;
  random_seed : Z;
  solved : bool;
  execution_time_ms : F;
  peak_memory_kb : option Z;
  solution_path_length : Z;
  solution_cost : F;
  path_cost_ratio : option F;
  states_expanded : Z;
  states_generated : Z;
  unique_states_visited : Z;
  maximum_frontier_size : Z;
  average_frontier_size : option F;
  estimated_branching_factor : option F;
  heuristic_type : option string;
  heuristic_evaluations : Z;
  repeated_state_updates : Z;
  _frontier_total : Z;
  _frontier_samples : Z;
  discount_factor : option F;
  convergence_threshold : option F;
  step_reward : option F;
  goal_reward : option F;
  wall_penalty : option F;
  total_bellman_updates : option Z;
  final_convergence_error : option F;
  policy_reaches_goal : option bool;
  value_iteration_steps : option Z;
  policy_iteration_steps : option Z;
  policy_evaluation_steps : option Z;
  notes : option string
}.
Arguments mk {F}.
Arguments algorithm {F}.
Arguments maze_rows {F}.
Arguments maze_cols {F}.
Arguments random_seed {F}.
Arguments solved {F}.
Arguments execution_time_ms {F}.
Arguments peak_memory_kb {F}.
Arguments solution_path_length {F}.
Arguments solution_cost {F}.
Arguments path_cost_ratio {F}.
Arguments states_expanded {F}.
Arguments states_generated {F}.
Arguments unique_states_visited {F}.
Arguments maximum_frontier_size {F}.
Arguments average_frontier_size {F}.
Arguments estimated_branching_factor {F}.
Arguments heuristic_type {F}.
Arguments heuristic_evaluations {F}.
Arguments repeated_state_updates {F}.
Arguments _frontier_total {F}.
Arguments _frontier_samples {F}.
Arguments discount_factor {F}.
Arguments convergence_threshold {F}.
Arguments step_reward {F}.
Arguments goal_reward {F}.
Arguments wall_penalty {F}.
Arguments total_bellman_updates {F}.
Arguments final_convergence_error {F}.
Arguments policy_reaches_goal {F}.
Arguments value_iteration_steps {F}.
Arguments policy_iteration_steps {F}.
Arguments policy_evaluation_steps {F}.
Arguments notes {F}.

(** [m.field = x] *)
Definition set_solved {F : Type} (x : bool) (m : t F) : t F :=
  mk (algorithm m) (maze_rows m) (maze_cols m) (random_seed m) x (execution_time_ms m) (peak_memory_kb m) (solution_path_length m) (solution_cost m) (path_cost_ratio m) (states_expanded m) (states_generated m) (unique_states_visited m) (maximum_frontier_size m) (average_frontier_size m) (estimated_branching_factor m) (heuristic_type m) (heuristic_evaluations m) (repeated_state_updates m) (_frontier_total m) (_frontier_samples m) (discount_factor m) (convergence_threshold m) (step_reward m) (goal_reward m) (wall_penalty m) (total_bellman_updates m) (final_convergence_error m) (policy_reaches_goal m) (value_iteration_steps m) (policy_iteration_steps m) (policy_evaluation_steps m) (notes m).

Definition set_solution_path_length {F : Type} (x : Z) (m : t F) : t F :=
  mk (algorithm m) (maze_rows m) (maze_cols m) (random_seed m) (solved m) (execution_time_ms m) (peak_memory_kb m) x (solution_cost m) (path_cost_ratio m) (states_expanded m) (states_generated m) (unique_states_visited m) (maximum_frontier_size m) (average_frontier_size m) (estimated_branching_factor m) (heuristic_type m) (heuristic_evaluations m) (repeated_state_updates m) (_frontier_total m) (_frontier_samples m) (discount_factor m) (convergence_threshold m) (step_reward m) (goal_reward m) (wall_penalty m) (total_bellman_updates m) (final_convergence_error m) (policy_reaches_goal m) (value_iteration_steps m) (policy_iteration_steps m) (policy_evaluation_steps m) (notes m).

Definition set_solution_cost {F : Type} (x : F) (m : t F) : t F :=
  mk (algorithm m) (maze_rows m) (maze_cols m) (random_seed m) (solved m) (execution_time_ms m) (peak_memory_kb m) (solution_path_length m) x (path_cost_ratio m) (states_expanded m) (states_generated m) (unique_states_visited m) (maximum_frontier_size m) (average_frontier_size m) (estimated_branching_factor m) (heuristic_type m) (heuristic_evaluations m) (repeated_state_updates m) (_frontier_total m) (_frontier_samples m) (discount_factor m) (convergence_threshold m) (step_reward m) (goal_reward m) (wall_penalty m) (total_bellman_updates m) (final_convergence_error m) (policy_reaches_goal m) (value_iteration_steps m) (policy_iteration_steps m) (policy_evaluation_steps m) (notes m).

Definition set_path_cost_ratio {F : Type} (x : option F) (m : t F) : t F :=
  mk (algorithm m) (maze_rows m) (maze_cols m) (random_seed m) (solved m) (execution_time_ms m) (peak_memory_kb m) (solution_path_length m) (solution_cost m) x (states_expanded m) (states_generated m) (unique_states_visited m) (maximum_frontier_size m) (average_frontier_size m) (estimated_branching_factor m) (heuristic_type m) (heuristic_evaluations m) (repeated_state_updates m) (_frontier_total m) (_frontier_samples m) (discount_factor m) (convergence_threshold m) (step_reward m) (goal_reward m) (wall_penalty m) (total_bellman_updates m) (final_convergence_error m) (policy_reaches_goal m) (value_iteration_steps m) (policy_iteration_steps m) (policy_evaluation_steps m) (notes m).

Definition set_states_expanded {F : Type} (x : Z) (m : t F) : t F :=
  mk (algorithm m) (maze_rows m) (maze_cols m) (random_seed m) (solved m) (execution_time_ms m) (peak_memory_kb m) (solution_path_length m) (solution_cost m) (path_cost_ratio m) x (states_generated m) (unique_states_visited m) (maximum_frontier_size m) (average_frontier_size m) (estimated_branching_factor m) (heuristic_type m) (heuristic_evaluations m) (repeated_state_updates m) (_frontier_total m) (_frontier_samples m) (discount_factor m) (convergence_threshold m) (step_reward m) (goal_reward m) (wall_penalty m) (total_bellman_updates m) (final_convergence_error m) (policy_reaches_goal m) (value_iteration_steps m) (policy_iteration_steps m) (policy_evaluation_steps m) (notes m).

Definition set_states_generated {F : Type} (x : Z) (m : t F) : t F :=
  mk (algorithm m) (maze_rows m) (maze_cols m) (random_seed m) (solved m) (execution_time_ms m) (peak_memory_kb m) (solution_path_length m) (solution_cost m) (path_cost_ratio m) (states_expanded m) x (unique_states_visited m) (maximum_frontier_size m) (average_frontier_size m) (estimated_branching_factor m) (heuristic_type m) (heuristic_evaluations m) (repeated_state_updates m) (_frontier_total m) (_frontier_samples m) (discount_factor m) (convergence_threshold m) (step_reward m) (goal_reward m) (wall_penalty m) (total_bellman_updates m) (final_convergence_error m) (policy_reaches_goal m) (value_iteration_steps m) (policy_iteration_steps m) (policy_evaluation_steps m) (notes m).

Definition set_unique_states_visited {F : Type} (x : Z) (m : t F) : t F :=
  mk (algorithm m) (maze_rows m) (maze_cols m) (random_seed m) (solved m) (execution_time_ms m) (peak_memory_kb m) (solution_path_length m) (solution_cost m) (path_cost_ratio m) (states_expanded m) (states_generated m) x (maximum_frontier_size m) (average_frontier_size m) (estimated_branching_factor m) (heuristic_type m) (heuristic_evaluations m) (repeated_state_updates m) (_frontier_total m) (_frontier_samples m) (discount_factor m) (convergence_threshold m) (step_reward m) (goal_reward m) (wall_penalty m) (total_bellman_updates m) (final_convergence_error m) (policy_reaches_goal m) (value_iteration_steps m) (policy_iteration_steps m) (policy_evaluation_steps m) (notes m).

Definition set_maximum_frontier_size {F : Type} (x : Z) (m : t F) : t F :=
  mk (algorithm m) (maze_rows m) (maze_cols m) (random_seed m) (solved m) (execution_time_ms m) (peak_memory_kb m) (solution_path_length m) (solution_cost m) (path_cost_ratio m) (states_expanded m) (states_generated m) (unique_states_visited m) x (average_frontier_size m) (estimated_branching_factor m) (heuristic_type m) (heuristic_evaluations m) (repeated_state_updates m) (_frontier_total m) (_frontier_samples m) (discount_factor m) (convergence_threshold m) (step_reward m) (goal_reward m) (wall_penalty m) (total_bellman_updates m) (final_convergence_error m) (policy_reaches_goal m) (value_iteration_steps m) (policy_iteration_steps m) (policy_evaluation_steps m) (notes m).

Definition set_average_frontier_size {F : Type} (x : option F) (m : t F) : t F :=
  mk (algorithm m) (maze_rows m) (maze_cols m) (random_seed m) (solved m) (execution_time_ms m) (peak_memory_kb m) (solution_path_length m) (solution_cost m) (path_cost_ratio m) (states_expanded m) (states_generated m) (unique_states_visited m) (maximum_frontier_size m) x (estimated_branching_factor m) (heuristic_type m) (heuristic_evaluations m) (repeated_state_updates m) (_frontier_total m) (_frontier_samples m) (discount_factor m) (convergence_threshold m) (step_reward m) (goal_reward m) (wall_penalty m) (total_bellman_updates m) (final_convergence_error m) (policy_reaches_goal m) (value_iteration_steps m) (policy_iteration_steps m) (policy_evaluation_steps m) (notes m).

Definition set_estimated_branching_factor {F : Type} (x : option F) (m : t F) : t F :=
  mk (algorithm m) (maze_rows m) (maze_cols m) (random_seed m) (solved m) (execution_time_ms m) (peak_memory_kb m) (solution_path_length m) (solution_cost m) (path_cost_ratio m) (states_expanded m) (states_generated m) (unique_states_visited m) (maximum_frontier_size m) (average_frontier_size m) x (heuristic_type m) (heuristic_evaluations m) (repeated_state_updates m) (_frontier_total m) (_frontier_samples m) (discount_factor m) (convergence_threshold m) (step_reward m) (goal_reward m) (wall_penalty m) (total_bellman_updates m) (final_convergence_error m) (policy_reaches_goal m) (value_iteration_steps m) (policy_iteration_steps m) (policy_evaluation_steps m) (notes m).

Definition set_heuristic_type {F : Type} (x : option string) (m : t F) : t F :=
  mk (algorithm m) (maze_rows m) (maze_cols m) (random_seed m) (solved m) (execution_time_ms m) (peak_memory_kb m) (solution_path_length m) (solution_cost m) (path_cost_ratio m) (states_expanded m) (states_generated m) (unique_states_visited m) (maximum_frontier_size m) (average_frontier_size m) (estimated_branching_factor m) x (heuristic_evaluations m) (repeated_state_updates m) (_frontier_total m) (_frontier_samples m) (discount_factor m) (convergence_threshold m) (step_reward m) (goal_reward m) (wall_penalty m) (total_bellman_updates m) (final_convergence_error m) (policy_reaches_goal m) (value_iteration_steps m) (policy_iteration_steps m) (policy_evaluation_steps m) (notes m).

Definition set_heuristic_evaluations {F : Type} (x : Z) (m : t F) : t F :=
  mk (algorithm m) (maze_rows m) (maze_cols m) (random_seed m) (solved m) (execution_time_ms m) (peak_memory_kb m) (solution_path_length m) (solution_cost m) (path_cost_ratio m) (states_expanded m) (states_generated m) (unique_states_visited m) (maximum_frontier_size m) (average_frontier_size m) (estimated_branching_factor m) (heuristic_type m) x (repeated_state_updates m) (_frontier_total m) (_frontier_samples m) (discount_factor m) (convergence_threshold m) (step_reward m) (goal_reward m) (wall_penalty m) (total_bellman_updates m) (final_convergence_error m) (policy_reaches_goal m) (value_iteration_steps m) (policy_iteration_steps m) (policy_evaluation_steps m) (notes m).

Definition set_repeated_state_updates {F : Type} (x : Z) (m : t F) : t F :=
  mk (algorithm m) (maze_rows m) (maze_cols m) (random_seed m) (solved m) (execution_time_ms m) (peak_memory_kb m) (solution_path_length m) (solution_cost m) (path_cost_ratio m) (states_expanded m) (states_generated m) (unique_states_visited m) (maximum_frontier_size m) (average_frontier_size m) (estimated_branching_factor m) (heuristic_type m) (heuristic_evaluations m) x (_frontier_total m) (_frontier_samples m) (discount_factor m) (convergence_threshold m) (step_reward m) (goal_reward m) (wall_penalty m) (total_bellman_updates m) (final_convergence_error m) (policy_reaches_goal m) (value_iteration_steps m) (policy_iteration_steps m) (policy_evaluation_steps m) (notes m).

Definition set_frontier_total {F : Type} (x : Z) (m : t F) : t F :=
  mk (algorithm m) (maze_rows m) (maze_cols m) (random_seed m) (solved m) (execution_time_ms m) (peak_memory_kb m) (solution_path_length m) (solution_cost m) (path_cost_ratio m) (states_expanded m) (states_generated m) (unique_states_visited m) (maximum_frontier_size m) (average_frontier_size m) (estimated_branching_factor m) (heuristic_type m) (heuristic_evaluations m) (repeated_state_updates m) x (_frontier_samples m) (discount_factor m) (convergence_threshold m) (step_reward m) (goal_reward m) (wall_penalty m) (total_bellman_updates m) (final_convergence_error m) (policy_reaches_goal m) (value_iteration_steps m) (policy_iteration_steps m) (policy_evaluation_steps m) (notes m).

Definition set_frontier_samples {F : Type} (x : Z) (m : t F) : t F :=
  mk (algorithm m) (maze_rows m) (maze_cols m) (random_seed m) (solved m) (execution_time_ms m) (peak_memory_kb m) (solution_path_length m) (solution_cost m) (path_cost_ratio m) (states_expanded m) (states_generated m) (unique_states_visited m) (maximum_frontier_size m) (average_frontier_size m) (estimated_branching_factor m) (heuristic_type m) (heuristic_evaluations m) (repeated_state_updates m) (_frontier_total m) x (discount_factor m) (convergence_threshold m) (step_reward m) (goal_reward m) (wall_penalty m) (total_bellman_updates m) (final_convergence_error m) (policy_reaches_goal m) (value_iteration_steps m) (policy_iteration_steps m) (policy_evaluation_steps m) (notes m).

Definition set_discount_factor {F : Type} (x : option F) (m : t F) : t F :=
  mk (algorithm m) (maze_rows m) (maze_cols m) (random_seed m) (solved m) (execution_time_ms m) (peak_memory_kb m) (solution_path_length m) (solution_cost m) (path_cost_ratio m) (states_expanded m) (states_generated m) (unique_states_visited m) (maximum_frontier_size m) (average_frontier_size m) (estimated_branching_factor m) (heuristic_type m) (heuristic_evaluations m) (repeated_state_updates m) (_frontier_total m) (_frontier_samples m) x (convergence_threshold m) (step_reward m) (goal_reward m) (wall_penalty m) (total_bellman_updates m) (final_convergence_error m) (policy_reaches_goal m) (value_iteration_steps m) (policy_iteration_steps m) (policy_evaluation_steps m) (notes m).

Definition set_convergence_threshold {F : Type} (x : option F) (m : t F) : t F :=
  mk (algorithm m) (maze_rows m) (maze_cols m) (random_seed m) (solved m) (execution_time_ms m) (peak_memory_kb m) (solution_path_length m) (solution_cost m) (path_cost_ratio m) (states_expanded m) (states_generated m) (unique_states_visited m) (maximum_frontier_size m) (average_frontier_size m) (estimated_branching_factor m) (heuristic_type m) (heuristic_evaluations m) (repeated_state_updates m) (_frontier_total m) (_frontier_samples m) (discount_factor m) x (step_reward m) (goal_reward m) (wall_penalty m) (total_bellman_updates m) (final_convergence_error m) (policy_reaches_goal m) (value_iteration_steps m) (policy_iteration_steps m) (policy_evaluation_steps m) (notes m).

Definition set_step_reward {F : Type} (x : option F) (m : t F) : t F :=
  mk (algorithm m) (maze_rows m) (maze_cols m) (random_seed m) (solved m) (execution_time_ms m) (peak_memory_kb m) (solution_path_length m) (solution_cost m) (path_cost_ratio m) (states_expanded m) (states_generated m) (unique_states_visited m) (maximum_frontier_size m) (average_frontier_size m) (estimated_branching_factor m) (heuristic_type m) (heuristic_evaluations m) (repeated_state_updates m) (_frontier_total m) (_frontier_samples m) (discount_factor m) (convergence_threshold m) x (goal_reward m) (wall_penalty m) (total_bellman_updates m) (final_convergence_error m) (policy_reaches_goal m) (value_iteration_steps m) (policy_iteration_steps m) (policy_evaluation_steps m) (notes m).

Definition set_goal_reward {F : Type} (x : option F) (m : t F) : t F :=
  mk (algorithm m) (maze_rows m) (maze_cols m) (random_seed m) (solved m) (execution_time_ms m) (peak_memory_kb m) (solution_path_length m) (solution_cost m) (path_cost_ratio m) (states_expanded m) (states_generated m) (unique_states_visited m) (maximum_frontier_size m) (average_frontier_size m) (estimated_branching_factor m) (heuristic_type m) (heuristic_evaluations m) (repeated_state_updates m) (_frontier_total m) (_frontier_samples m) (discount_factor m) (convergence_threshold m) (step_reward m) x (wall_penalty m) (total_bellman_updates m) (final_convergence_error m) (policy_reaches_goal m) (value_iteration_steps m) (policy_iteration_steps m) (policy_evaluation_steps m) (notes m).

Definition set_wall_penalty {F : Type} (x : option F) (m : t F) : t F :=
  mk (algorithm m) (maze_rows m) (maze_cols m) (random_seed m) (solved m) (execution_time_ms m) (peak_memory_kb m) (solution_path_length m) (solution_cost m) (path_cost_ratio m) (states_expanded m) (states_generated m) (unique_states_visited m) (maximum_frontier_size m) (average_frontier_size m) (estimated_branching_factor m) (heuristic_type m) (heuristic_evaluations m) (repeated_state_updates m) (_frontier_total m) (_frontier_samples m) (discount_factor m) (convergence_threshold m) (step_reward m) (goal_reward m) x (total_bellman_updates m) (final_convergence_error m) (policy_reaches_goal m) (value_iteration_steps m) (policy_iteration_steps m) (policy_evaluation_steps m) (notes m).

Definition set_final_convergence_error {F : Type} (x : option F) (m : t F) : t F :=
  mk (algorithm m) (maze_rows m) (maze_cols m) (random_seed m) (solved m) (execution_time_ms m) (peak_memory_kb m) (solution_path_length m) (solution_cost m) (path_cost_ratio m) (states_expanded m) (states_generated m) (unique_states_visited m) (maximum_frontier_size m) (average_frontier_size m) (estimated_branching_factor m) (heuristic_type m) (heuristic_evaluations m) (repeated_state_updates m) (_frontier_total m) (_frontier_samples m) (discount_factor m) (convergence_threshold m) (step_reward m) (goal_reward m) (wall_penalty m) (total_bellman_updates m) x (policy_reaches_goal m) (value_iteration_steps m) (policy_iteration_steps m) (policy_evaluation_steps m) (notes m).

Definition set_value_iteration_steps {F : Type} (x : option Z) (m : t F) : t F :=
  mk (algorithm m) (maze_rows m) (maze_cols m) (random_seed m) (solved m) (execution_time_ms m) (peak_memory_kb m) (solution_path_length m) (solution_cost m) (path_cost_ratio m) (states_expanded m) (states_generated m) (unique_states_visited m) (maximum_frontier_size m) (average_frontier_size m) (estimated_branching_factor m) (heuristic_type m) (heuristic_evaluations m) (repeated_state_updates m) (_frontier_total m) (_frontier_samples m) (discount_factor m) (convergence_threshold m) (step_reward m) (goal_reward m) (wall_penalty m) (total_bellman_updates m) (final_convergence_error m) (policy_reaches_goal m) x (policy_iteration_steps m) (policy_evaluation_steps m) (notes m).

Definition set_policy_iteration_steps {F : Type} (x : option Z) (m : t F) : t F :=
  mk (algorithm m) (maze_rows m) (maze_cols m) (random_seed m) (solved m) (execution_time_ms m) (peak_memory_kb m) (solution_path_length m) (solution_cost m) (path_cost_ratio m) (states_expanded m) (states_generated m) (unique_states_visited m) (maximum_frontier_size m) (average_frontier_size m) (estimated_branching_factor m) (heuristic_type m) (heuristic_evaluations m) (repeated_state_updates m) (_frontier_total m) (_frontier_samples m) (discount_factor m) (convergence_threshold m) (step_reward m) (goal_reward m) (wall_penalty m) (total_bellman_updates m) (final_convergence_error m) (policy_reaches_goal m) (value_iteration_steps m) x (policy_evaluation_steps m) (notes m).

Definition set_policy_evaluation_steps {F : Type} (x : option Z) (m : t F) : t F :=
  mk (algorithm m) (maze_rows m) (maze_cols m) (random_seed m) (solved m) (execution_time_ms m) (peak_memory_kb m) (solution_path_length m) (solution_cost m) (path_cost_ratio m) (states_expanded m) (states_generated m) (unique_states_visited m) (maximum_frontier_size m) (average_frontier_size m) (estimated_branching_factor m) (heuristic_type m) (heuristic_evaluations m) (repeated_state_updates m) (_frontier_total m) (_frontier_samples m) (discount_factor m) (convergence_threshold m) (step_reward m) (goal_reward m) (wall_penalty m) (total_bellman_updates m) (final_convergence_error m) (policy_reaches_goal m) (value_iteration_steps m) (policy_iteration_steps m) x (notes m).

(** [record_frontier] *)
Definition record_frontier {F : Type} (size : Z) (m : t F) : t F :=
  let m := set_maximum_frontier_size (Z.max (maximum_frontier_size m) size) m in
  let m := set_frontier_total (_frontier_total m + size) m in
  set_frontier_samples (_frontier_samples m + 1) m.

(** [finalize] *)
Definition finalize {F : Type} `{FloatOps F} (m : t F) : t F :=
  let m := if 0 <? _frontier_samples m
           then set_average_frontier_size
                  (Some (fdiv (f_of_Z (_frontier_total m))
                           (f_of_Z (_frontier_samples m)))) m
           else m in
  let m := if 0 <? states_expanded m
           then set_estimated_branching_factor
                  (Some (fdiv (f_of_Z (states_generated m))
                           (f_of_Z (states_expanded m)))) m
           else m in
  if 0 <? solution_path_length m
  then set_path_cost_ratio
         (Some (fdiv (solution_cost m) (f_of_Z (solution_path_length m)))) m
  else m.

(** A fresh accumulator, as [main.py] builds it. *)
Definition fresh {F : Type} `{FloatOps F} (algorithm : string)
    (maze_rows maze_cols random_seed : Z) : t F :=
  mk algorithm maze_rows maze_cols random_seed false (f_of_Z 0) None
     0 (f_of_Z 0) None 0 0 0 0 None None None 0 0 0 0
     None None None None None None None None None None None None.

End RunMetrics.

(** ** solvers/common.py *)

Record SolveResult : Type := mkResult {
  path : list Coord;
  visited_order : list Coord;
  parents : gmap Coord (option Coord)
}.

(** A round of a solver's main loop either goes on with a new state or
    returns; the state in which it returned is kept for the statements. *)
Inductive round (St : Type) : Type :=
  | Continue (st : St)
  | Return (res : SolveResult) (st : St).
Arguments Continue {St} st.
Arguments Return {St} res st.

(** The [while cur is not None] loop of [reconstruct_path];
    [parents.get(cur)] is [None] for a missing key. *)
Fixpoint follow_parents (fuel : nat) (parents : gmap Coord (option Coord))
    (cur : option Coord) (out : list Coord) : result (list Coord) :=
  match cur with
  | None => Ok out
  | Some c =>
      match fuel with
      | O => Raise OutOfFuel
      | Datatypes.S fuel' =>
          follow_parents fuel' parents (mjoin (parents !! c)) (out ++ [c])
      end
  end.

(** [reconstruct_path].  The loop is given one round more than the
    dictionary has keys: a chain that takes more rounds has entered a
    cycle, on which the Python loop does not terminate. *)
Definition reconstruct_path (parents : gmap Coord (option Coord))
    (start goal : Coord) : result (list Coord) :=
  match parents !! goal with
  | None => Ok []
  | Some _ =>
      let! out := follow_parents (Datatypes.S (size parents)) parents (Some goal) [] in
      let out := reverse out in
      match out with
      | x :: _ => if bool_decide (x = start) then Ok out else Ok []
      | [] => Ok []
      end
  end.

Section Search.
Context {F : Type} `{FloatOps F} `{FloatLib F}.

(** ** solvers/bfs.py and solvers/dfs.py *)

(** The variables of BFS and DFS.  [frontier] is the deque [q] of BFS
    (front first) and the list [stack] of DFS (top first). *)
Record search_state : Type := mkSearch {
  frontier : list Coord;
  visited : gset Coord;
  s_parents : gmap Coord (option Coord);
  s_visited_order : list Coord;
  s_metrics : RunMetrics.t F
}.

Definition search_init (env : MazeEnv F) (metrics : RunMetrics.t F)
  : search_state :=
  let start := start (maze env) in
  let q := [start] in
  mkSearch q {[start]} {[start := None]} []
    (RunMetrics.record_frontier (Z.of_nat (length q)) metrics).

(** The [return] of a solved run. *)
Definition search_solved (env : MazeEnv F) (st : search_state)
  : result (round search_state) :=
  let! path := reconstruct_path (s_parents st) (start (maze env)) (goal (maze env)) in
  let m := s_metrics st in
  let m := RunMetrics.set_unique_states_visited (Z.of_nat (size (visited st))) m in
  let m := RunMetrics.set_solution_path_length
             (Z.max 0 (Z.of_nat (length path) - 1)) m in
  let m := RunMetrics.set_solution_cost
             (f_of_Z (RunMetrics.solution_path_length m)) m in
  let m := RunMetrics.set_solved true m in
  Ok (Return (mkResult path (s_visited_order st) (s_parents st))
        (mkSearch (frontier st) (visited st) (s_parents st)
           (s_visited_order st) m)).

(** The code after the loop: the frontier ran empty. *)
Definition search_unsolved (st : search_state) : round search_state :=
  let m := s_metrics st in
  let m := RunMetrics.set_unique_states_visited (Z.of_nat (size (visited st))) m in
  let m := RunMetrics.set_solved false m in
  Return (mkResult [] (s_visited_order st) (s_parents st))
    (mkSearch (frontier st) (visited st) (s_parents st) (s_visited_order st) m).

(** [for nb in env.neighbors(s)] of BFS: a new cell goes to the back of
    the queue. *)
Fixpoint bfs_expand (s : Coord) (nbs : list Coord) (st : search_state)
  : search_state :=
  match nbs with
  | [] => st
  | nb :: nbs' =>
      let m := RunMetrics.set_states_generated
                 (RunMetrics.states_generated (s_metrics st) + 1) (s_metrics st) in
      if bool_decide (nb ∈ visited st) then
        bfs_expand s nbs'
          (mkSearch (frontier st) (visited st) (s_parents st)
             (s_visited_order st) m)
      else
        bfs_expand s nbs'
          (mkSearch (frontier st ++ [nb]) (visited st ∪ {[nb]})
             (<[nb := Some s]> (s_parents st)) (s_visited_order st) m)
  end.

(** [for nb in reversed(nbs)] of DFS: a new cell goes on top of the
    stack. *)
Fixpoint dfs_expand (s : Coord) (nbs : list Coord) (st : search_state)
  : search_state :=
  match nbs with
  | [] => st
  | nb :: nbs' =>
      let m := RunMetrics.set_states_generated
                 (RunMetrics.states_generated (s_metrics st) + 1) (s_metrics st) in
      if bool_decide (nb ∈ visited st) then
        dfs_expand s nbs'
          (mkSearch (frontier st) (visited st) (s_parents st)
             (s_visited_order st) m)
      else
        dfs_expand s nbs'
          (mkSearch (nb :: frontier st) (visited st ∪ {[nb]})
             (<[nb := Some s]> (s_parents st)) (s_visited_order st) m)
  end.

(** One round of [while q] / [while stack], from the test of the loop
    on. *)
Definition search_step (dfs : bool) (env : MazeEnv F) (st : search_state)
  : result (round search_state) :=
  match frontier st with
  | [] => Ok (search_unsolved st)
  | s :: rest =>
      let m := RunMetrics.set_states_expanded
                 (RunMetrics.states_expanded (s_metrics st) + 1) (s_metrics st) in
      let st := mkSearch rest (visited st) (s_parents st)
                  (s_visited_order st ++ [s]) m in
      if bool_decide (s = goal (maze env)) then search_solved env st
      else
        let! nbs := neighbors env s in
        let st := if dfs then dfs_expand s (reverse nbs) st
                  else bfs_expand s nbs st in
        Ok (Continue
              (mkSearch (frontier st) (visited st) (s_parents st)
                 (s_visited_order st)
                 (RunMetrics.record_frontier (Z.of_nat (length (frontier st)))
                    (s_metrics st))))
  end.

Definition bfs_step : MazeEnv F -> search_state -> result (round search_state) :=
  search_step false.

Definition dfs_step : MazeEnv F -> search_state -> result (round search_state) :=
  search_step true.

(** A main loop: rounds until one returns. *)
Fixpoint run_loop {St : Type} (step : St -> result (round St)) (fuel : nat)
    (st : St) : result (SolveResult * St) :=
  match fuel with
  | O => Raise OutOfFuel
  | Datatypes.S fuel' =>
      let! r := step st in
      match r with
      | Continue st' => run_loop step fuel' st'
      | Return res st' => Ok (res, st')
      end
  end.

(** [n] rounds of a loop lead from [st] to [st'] without returning. *)
Fixpoint rounds {St : Type} (step : St -> result (round St)) (n : nat)
    (st st' : St) : Prop :=
  match n with
  | O => st = st'
  | Datatypes.S n' =>
      exists st1, step st = Ok (Continue st1) /\ rounds step n' st1 st'
  end.

Definition bfs_loop (fuel : nat) (env : MazeEnv F) (st : search_state)
  : result (SolveResult * search_state) :=
  run_loop (bfs_step env) fuel st.

Definition dfs_loop (fuel : nat) (env : MazeEnv F) (st : search_state)
  : result (SolveResult * search_state) :=
  run_loop (dfs_step env) fuel st.

(** [solve_bfs] and [solve_dfs]: the result and the metrics accumulator
    as the run leaves it. *)
Definition solve_bfs (fuel : nat) (env : MazeEnv F) (metrics : RunMetrics.t F)
  : result (SolveResult * RunMetrics.t F) :=
  let! '(res, st) := bfs_loop fuel env (search_init env metrics) in
  Ok (res, s_metrics st).

Definition solve_dfs (fuel : nat) (env : MazeEnv F) (metrics : RunMetrics.t F)
  : result (SolveResult * RunMetrics.t F) :=
  let! '(res, st) := dfs_loop fuel env (search_init env metrics) in
  Ok (res, s_metrics st).

(** ** solvers/astar.py *)

(** [_h]: the estimate and the metrics with one more evaluation
    counted; the count is made before the kind is looked at. *)
Definition _h (a b : Coord) (kind : string) (metrics : RunMetrics.t F)
  : result F * RunMetrics.t F :=
  let '(r1, c1) := a in
  let '(r2, c2) := b in
  let dr := Z.abs (r1 - r2) in
  let dc := Z.abs (c1 - c2) in
  let metrics := RunMetrics.set_heuristic_evaluations
                   (RunMetrics.heuristic_evaluations metrics + 1) metrics in
  if String.eqb kind "manhattan" then (Ok (f_of_Z (dr + dc)), metrics)
  else if String.eqb kind "euclidean" then
    (Ok (fsqrt (f_of_Z (dr * dr + dc * dc))), metrics)
  else (Raise ValueError, metrics).

Record astar_state : Type := mkAstar {
  openpq : @PQ.PriorityQueue Coord _ _ F;
  g : gmap Coord F;
  a_parents : gmap Coord (option Coord);
  closed : gset Coord;
  a_visited_order : list Coord;
  a_metrics : RunMetrics.t F
}.

Definition astar_init (env : MazeEnv F) (metrics : RunMetrics.t F)
    (heuristic : string) : result astar_state :=
  let start := start (maze env) in
  let goal := goal (maze env) in
  let metrics := RunMetrics.set_heuristic_type (Some heuristic) metrics in
  let '(h0, metrics) := _h start goal heuristic metrics in
  let! h0 := h0 in
  let openpq := PQ.push PQ.new start h0 in
  Ok (mkAstar openpq {[start := f_of_Z 0]} {[start := None]} ∅ []
        (RunMetrics.record_frontier (PQ.len openpq) metrics)).

Definition astar_finish (solved : bool) (path : list Coord) (st : astar_state)
  : round astar_state :=
  let m := a_metrics st in
  let m := RunMetrics.set_unique_states_visited (Z.of_nat (size (g st))) m in
  let m := if solved then
             let m := RunMetrics.set_solution_path_length
                        (Z.max 0 (Z.of_nat (length path) - 1)) m in
             RunMetrics.set_solution_cost
               (f_of_Z (RunMetrics.solution_path_length m)) m
           else m in
  let m := RunMetrics.set_solved solved m in
  Return (mkResult path (a_visited_order st) (a_parents st))
    (mkAstar (openpq st) (g st) (a_parents st) (closed st)
       (a_visited_order st) m).

(** [for nb in env.neighbors(s)] of A*. *)
Fixpoint astar_expand (env : MazeEnv F) (heuristic : string) (s : Coord)
    (nbs : list Coord) (st : astar_state) : result astar_state :=
  match nbs with
  | [] => Ok st
  | nb :: nbs' =>
      let m := RunMetrics.set_states_generated
                 (RunMetrics.states_generated (a_metrics st) + 1) (a_metrics st) in
      let! gs := dict_item (g st) s in
      let tentative := fadd gs (cost env s nb) in
      let improves := match g st !! nb with
                      | Some gnb => fltb tentative gnb
                      | None => false
                      end in
      let m := if improves
               then RunMetrics.set_repeated_state_updates
                      (RunMetrics.repeated_state_updates m + 1) m
               else m in
      if bool_decide (g st !! nb = None) || improves then
        let '(h, m) := _h nb (goal (maze env)) heuristic m in
        let! h := h in
        let f := fadd tentative h in
        astar_expand env heuristic s nbs'
          (mkAstar (PQ.push (openpq st) nb f) (<[nb := tentative]> (g st))
             (<[nb := Some s]> (a_parents st)) (closed st)
             (a_visited_order st) m)
      else
        astar_expand env heuristic s nbs'
          (mkAstar (openpq st) (g st) (a_parents st) (closed st)
             (a_visited_order st) m)
  end.

(** One round of [while True].  [IndexError] from [pop] is caught and
    leaves the loop; [pop] raises nothing else. *)
Definition astar_step (env : MazeEnv F) (heuristic : string) (st : astar_state)
  : result (round astar_state) :=
  match PQ.pop (openpq st) with
  | (Raise IndexError, pq) =>
      Ok (astar_finish false []
            (mkAstar pq (g st) (a_parents st) (closed st)
               (a_visited_order st) (a_metrics st)))
  | (Raise e, _) => Raise e
  | (Ok (s, _), pq) =>
      let st := mkAstar pq (g st) (a_parents st) (closed st)
                  (a_visited_order st) (a_metrics st) in
      if bool_decide (s ∈ closed st) then Ok (Continue st)
      else
        let m := RunMetrics.set_states_expanded
                   (RunMetrics.states_expanded (a_metrics st) + 1) (a_metrics st) in
        let st := mkAstar (openpq st) (g st) (a_parents st) (closed st ∪ {[s]})
                    (a_visited_order st ++ [s]) m in
        if bool_decide (s = goal (maze env)) then
          let! path := reconstruct_path (a_parents st) (start (maze env))
                         (goal (maze env)) in
          Ok (astar_finish true path st)
        else
          let! nbs := neighbors env s in
          let! st := astar_expand env heuristic s nbs st in
          Ok (Continue
                (mkAstar (openpq st) (g st) (a_parents st) (closed st)
                   (a_visited_order st)
                   (RunMetrics.record_frontier (PQ.len (openpq st))
                      (a_metrics st))))
  end.

Definition astar_loop (fuel : nat) (env : MazeEnv F) (heuristic : string)
    (st : astar_state) : result (SolveResult * astar_state) :=
  run_loop (astar_step env heuristic) fuel st.

Definition solve_astar (fuel : nat) (env : MazeEnv F) (metrics : RunMetrics.t F)
    (heuristic : string) : result (SolveResult * RunMetrics.t F) :=
  let! st0 := astar_init env metrics heuristic in
  let! '(res, st) := astar_loop fuel env heuristic st0 in
  Ok (res, a_metrics st).

(** Every item of the open queue has a cost on record, and so has every
    closed state. *)
Definition astar_inv (st : astar_state) : Prop :=
  (forall e : @PQ.PQItem Coord F,
     e ∈ PQ._heap (openpq st) -> PQ.item e ∈ dom (g st))
  /\ closed st ⊆ dom (g st).

(** A maze as the solvers expect it: a wall grid of the declared size,
    start and goal inside the grid, the goal reachable from the start in
    the open-cell graph. *)
Record maze_ok (m : Maze) : Prop := {
  ok_dims : grid_dims (walls m) (rows m) (cols m);
  ok_start : in_grid (rows m) (cols m) (start m);
  ok_goal : in_grid (rows m) (cols m) (goal m);
  ok_reach : rtc (maze_adj m) (start m) (goal m)
}.

(** The invariant of BFS.  [d] gives the depth at which a cell was
    discovered, [lo] is the depth of the cell under expansion (or of the
    front of the queue), [cur] holds the cell under expansion while its
    neighbours are being scanned. *)
Record bfs_inv (env : MazeEnv F) (d : Coord -> nat) (lo : nat)
    (cur : list Coord) (st : search_state) : Prop := {
  bi_start : start (maze env) ∈ visited st /\ d (start (maze env)) = 0%nat
             /\ s_parents st !! start (maze env) = Some None;
  bi_grid : forall x, x ∈ visited st ->
              in_grid (rows (maze env)) (cols (maze env)) x;
  bi_dom : forall x, x ∈ visited st <-> is_Some (s_parents st !! x);
  bi_parent : forall x, x ∈ visited st -> x <> start (maze env) ->
                exists p, s_parents st !! x = Some (Some p) /\ p ∈ visited st
                          /\ maze_adj (maze env) p x /\ d x = Datatypes.S (d p);
  bi_opt : forall x q, x ∈ visited st ->
             walk (maze_adj (maze env)) (start (maze env)) q x ->
             (d x <= length q)%nat;
  bi_front : forall x, x ∈ frontier st ->
               x ∈ visited st /\ (lo <= d x <= Datatypes.S lo)%nat;
  bi_sorted : StronglySorted (fun a b => (d a <= d b)%nat) (frontier st);
  bi_closed : forall x y, x ∈ visited st -> x ∉ frontier st -> x ∉ cur ->
                maze_adj (maze env) x y -> y ∈ visited st;
  bi_cur : forall x, x ∈ cur -> x ∈ visited st /\ (lo <= d x)%nat;
  bi_goal : goal (maze env) ∉ s_visited_order st;
  bi_expanded : forall x, x ∈ visited st -> x ∉ frontier st ->
                  x ∈ s_visited_order st
}.

(** Rounds BFS has left at most: one for every cell not yet discovered
    and one for every cell in the queue. *)
Definition bfs_measure (env : MazeEnv F) (st : search_state) : nat :=
  (length (all_cells (rows (maze env)) (cols (maze env))) - size (visited st)
   + length (frontier st))%nat.

End Search.

(** ** solvers/value_iteration.py and solvers/policy_iteration.py *)

Section MDP.
Context {F : Type} `{FloatOps F} `{FloatLib F}.

(** [for a in env.ACTIONS: best = max(best, env.expected_return(V, s, a))] *)
Fixpoint best_value (env : MazeEnv F) (V : gmap Coord F) (s : Coord)
    (actions : list string) (best : F) : result F :=
  match actions with
  | [] => Ok best
  | a :: actions' =>
      let! q := expected_return env V s a in
      best_value env V s actions' (fmax best q)
  end.

(** [for a in env.ACTIONS: ... if q > best_q: best_q = q; best_a = a] *)
Fixpoint best_action (env : MazeEnv F) (V : gmap Coord F) (s : Coord)
    (actions : list string) (best_a : option string) (best_q : F)
  : result (option string) :=
  match actions with
  | [] => Ok best_a
  | a :: actions' =>
      let! q := expected_return env V s a in
      if fgtb q best_q then best_action env V s actions' (Some a) q
      else best_action env V s actions' best_a best_q
  end.

(** [_derive_policy] *)
Fixpoint derive_policy_loop (env : MazeEnv F) (V : gmap Coord F)
    (ss : list Coord) (policy : gmap Coord string)
  : result (gmap Coord string) :=
  match ss with
  | [] => Ok policy
  | s :: ss' =>
      if is_goal env s then
        derive_policy_loop env V ss' (<[s := "U"%string]> policy)
      else
        let! best_a := best_action env V s ACTIONS None fneg_inf in
        derive_policy_loop env V ss'
          (<[s := match best_a with Some a => a | None => "U"%string end]> policy)
  end.

Definition _derive_policy (env : MazeEnv F) (V : gmap Coord F)
  : result (gmap Coord string) :=
  derive_policy_loop env V (states env) ∅.

(** [_follow_policy], the same in both files; [steps] rounds of the
    [for _ in range(max_steps)] loop are left. *)
Fixpoint follow_policy_loop (env : MazeEnv F) (policy : gmap Coord string)
    (steps : nat) (s : Coord) (path : list Coord) : result (list Coord) :=
  match steps with
  | O => Ok path
  | Datatypes.S steps' =>
      if is_goal env s then Ok path
      else
        let a := default "U"%string (policy !! s) in
        let! outcomes := transitions env s a in
        match outcomes with
        | [] => Raise IndexError
        | (s2, _) :: _ =>
            let path := path ++ [s2] in
            if bool_decide (s2 = s) then Ok path
            else follow_policy_loop env policy steps' s2 path
        end
  end.

Definition _follow_policy (env : MazeEnv F) (policy : gmap Coord string)
    (max_steps : Z) : result (list Coord) :=
  let s := start (maze env) in
  follow_policy_loop env policy (Z.to_nat max_steps) s [s].

(** [V = {s: 0.0 for s in env.states()}] *)
Definition zero_values (env : MazeEnv F) : gmap Coord F :=
  list_to_map ((fun s => (s, f_of_Z 0)) <$> states env).

(** One sweep of value iteration over the states [ss], in place. *)
Fixpoint vi_sweep (env : MazeEnv F) (ss : list Coord) (V : gmap Coord F)
    (delta : F) (visited_order : list Coord)
  : result (gmap Coord F * F * list Coord) :=
  match ss with
  | [] => Ok (V, delta, visited_order)
  | s :: ss' =>
      if is_goal env s then vi_sweep env ss' V delta visited_order
      else
        let! v_old := dict_item V s in
        let! best := best_value env V s ACTIONS fneg_inf in
        let V := <[s := best]> V in
        let! v_new := dict_item V s in
        let delta := fmax delta (fabs (fsub v_old v_new)) in
        vi_sweep env ss' V delta (visited_order ++ [s])
  end.

(** [for it in range(1, max_iters + 1)] with [n] rounds left; [it] and
    [delta] are the variables as the loop found them. *)
Fixpoint vi_loop (env : MazeEnv F) (theta : F) (n : nat) (it : Z)
    (V : gmap Coord F) (delta : F) (visited_order : list Coord)
  : result (gmap Coord F * Z * F * list Coord) :=
  match n with
  | O => Ok (V, it, delta, visited_order)
  | Datatypes.S n' =>
      let it := it + 1 in
      let delta := f_of_Z 0 in
      let! '(V, delta, visited_order) :=
        vi_sweep env (states env) V delta visited_order in
      if fltb delta theta then Ok (V, it, delta, visited_order)
      else vi_loop env theta n' it V delta visited_order
  end.

(** The tail of both solvers: the path of the policy and the metrics of
    the outcome. *)
Definition policy_result (env : MazeEnv F) (policy : gmap Coord string)
    (visited_order : list Coord) (metrics : RunMetrics.t F)
  : result (SolveResult * RunMetrics.t F) :=
  let! path := _follow_policy env policy
                 (rows (maze env) * cols (maze env) * 4) in
  let solved := (0 <? Z.of_nat (length path))
                && bool_decide (last path = Some (goal (maze env))) in
  let metrics := RunMetrics.set_solved solved metrics in
  let metrics := RunMetrics.set_solution_path_length
                   (if solved then Z.max 0 (Z.of_nat (length path) - 1) else 0)
                   metrics in
  let metrics := RunMetrics.set_solution_cost
                   (f_of_Z (RunMetrics.solution_path_length metrics)) metrics in
  Ok (mkResult (if solved then path else []) visited_order ∅, metrics).

(** The five parameters both solvers record at entry. *)
Definition record_parameters (env : MazeEnv F) (theta : F)
    (metrics : RunMetrics.t F) : RunMetrics.t F :=
  let metrics := RunMetrics.set_discount_factor (Some (gamma env)) metrics in
  let metrics := RunMetrics.set_convergence_threshold (Some theta) metrics in
  let metrics := RunMetrics.set_step_reward (Some (step_reward env)) metrics in
  let metrics := RunMetrics.set_goal_reward (Some (goal_reward env)) metrics in
  RunMetrics.set_wall_penalty (Some (wall_reward env)) metrics.

(** [solve_value_iteration]; the order of the last assignments to the
    metrics, which touch different fields, is immaterial. *)
Definition solve_value_iteration (env : MazeEnv F) (metrics : RunMetrics.t F)
    (theta : F) (max_iters : nat) : result (SolveResult * RunMetrics.t F) :=
  let metrics := record_parameters env theta metrics in
  let V := zero_values env in
  let! '(V, it, delta, visited_order) :=
    vi_loop env theta max_iters 0 V (f_of_Z 0) [] in
  let! policy := _derive_policy env V in
  let metrics := RunMetrics.set_value_iteration_steps (Some it) metrics in
  let metrics := RunMetrics.set_final_convergence_error (Some delta) metrics in
  policy_result env policy visited_order metrics.

(** One sweep of policy evaluation over the states [ss], in place. *)
Fixpoint pe_sweep (env : MazeEnv F) (policy : gmap Coord string)
    (ss : list Coord) (V : gmap Coord F) (delta : F)
  : result (gmap Coord F * F) :=
  match ss with
  | [] => Ok (V, delta)
  | s :: ss' =>
      if is_goal env s then pe_sweep env policy ss' V delta
      else
        let! v_old := dict_item V s in
        let! a := dict_item policy s in
        let! v := expected_return env V s a in
        let V := <[s := v]> V in
        let! v_new := dict_item V s in
        let delta := fmax delta (fabs (fsub v_old v_new)) in
        pe_sweep env policy ss' V delta
  end.

Fixpoint pe_loop (env : MazeEnv F) (policy : gmap Coord string) (theta : F)
    (n : nat) (it : Z) (V : gmap Coord F) (delta : F)
  : result (gmap Coord F * F * Z) :=
  match n with
  | O => Ok (V, delta, it)
  | Datatypes.S n' =>
      let it := it + 1 in
      let delta := f_of_Z 0 in
      let! '(V, delta) := pe_sweep env policy (states env) V delta in
      if fltb delta theta then Ok (V, delta, it)
      else pe_loop env policy theta n' it V delta
  end.

(** [_policy_evaluation] *)
Definition _policy_evaluation (env : MazeEnv F) (policy : gmap Coord string)
    (theta : F) (max_eval_iters : nat) : result (gmap Coord F * F * Z) :=
  pe_loop env policy theta max_eval_iters 0 (zero_values env) (f_of_Z 0).

(** [_policy_improvement]: the policy, mutated in place in the source,
    and the flag [stable]. *)
Fixpoint policy_improvement_loop (env : MazeEnv F) (V : gmap Coord F)
    (ss : list Coord) (policy : gmap Coord string) (stable : bool)
  : result (gmap Coord string * bool) :=
  match ss with
  | [] => Ok (policy, stable)
  | s :: ss' =>
      if is_goal env s then policy_improvement_loop env V ss' policy stable
      else
        let! old := dict_item policy s in
        (* best_a = old *)
        let! best_a := best_action env V s ACTIONS (Some old) fneg_inf in
        let best_a := default old best_a in
        let policy := <[s := best_a]> policy in
        let stable := if bool_decide (best_a = old) then stable else false in
        policy_improvement_loop env V ss' policy stable
  end.

Definition _policy_improvement (env : MazeEnv F) (V : gmap Coord F)
    (policy : gmap Coord string) : result (gmap Coord string * bool) :=
  policy_improvement_loop env V (states env) policy true.

(** The variables of the outer loop of policy iteration. *)
Record pi_state : Type := mkPI {
  pi_policy : gmap Coord string;
  pi_visited_order : list Coord;
  pi_final_delta : F;
  pi_total_eval_sweeps : Z;
  pi_metrics : RunMetrics.t F
}.

(** [for pi_it in range(1, max_policy_iters + 1)] with [n] rounds
    left. *)
Fixpoint pi_loop (env : MazeEnv F) (theta : F) (max_eval_iters : nat)
    (n : nat) (pi_it : Z) (st : pi_state) : result pi_state :=
  match n with
  | O => Ok st
  | Datatypes.S n' =>
      let pi_it := pi_it + 1 in
      let! '(V, delta, eval_iters) :=
        _policy_evaluation env (pi_policy st) theta max_eval_iters in
      let final_delta := delta in
      let total_eval_sweeps := pi_total_eval_sweeps st + eval_iters in
      let visited_order := pi_visited_order st ++ states env in
      let! '(policy, stable) := _policy_improvement env V (pi_policy st) in
      if stable then
        let metrics := pi_metrics st in
        let metrics := RunMetrics.set_policy_iteration_steps (Some pi_it) metrics in
        let metrics := RunMetrics.set_final_convergence_error
                         (Some final_delta) metrics in
        let metrics := RunMetrics.set_policy_evaluation_steps
                         (Some total_eval_sweeps) metrics in
        Ok (mkPI policy visited_order final_delta total_eval_sweeps metrics)
      else
        pi_loop env theta max_eval_iters n' pi_it
          (mkPI policy visited_order final_delta total_eval_sweeps
             (pi_metrics st))
  end.

(** [policy[s] = "R"] for every state. *)
Definition initial_policy (env : MazeEnv F) : gmap Coord string :=
  list_to_map ((fun s => (s, "R"%string)) <$> states env).

Definition pi_run (env : MazeEnv F) (metrics : RunMetrics.t F) (theta : F)
    (max_policy_iters max_eval_iters : nat) : result pi_state :=
  let metrics := record_parameters env theta metrics in
  pi_loop env theta max_eval_iters max_policy_iters 0
    (mkPI (initial_policy env) [] (f_of_Z 0) 0 metrics).

Definition solve_policy_iteration (env : MazeEnv F) (metrics : RunMetrics.t F)
    (theta : F) (max_policy_iters max_eval_iters : nat)
  : result (SolveResult * RunMetrics.t F) :=
  let! st := pi_run env metrics theta max_policy_iters max_eval_iters in
  policy_result env (pi_policy st) (pi_visited_order st) (pi_metrics st).

(** The parameters of the run as the accumulator holds them. *)
Definition recorded_parameters (metrics : RunMetrics.t F)
  : option F * option F * option F * option F * option F :=
  (RunMetrics.discount_factor metrics,
   RunMetrics.convergence_threshold metrics,
   RunMetrics.step_reward metrics,
   RunMetrics.goal_reward metrics,
   RunMetrics.wall_penalty metrics).

Definition env_parameters (env : MazeEnv F) (theta : F)
  : option F * option F * option F * option F * option F :=
  (Some (gamma env), Some theta, Some (step_reward env),
   Some (goal_reward env), Some (wall_reward env)).

End MDP.

(** ** Draining a priority queue *)

Section drain_def.
Context {T : Type} `{Countable T}.
Context {P : Type} `{PrioOps P}.

(** Popping until [IndexError], as a client does that empties the queue
    ([while True: try: pop() except IndexError: break]); at most [n]
    pops. *)
Fixpoint drain_loop (n : nat) (q : @PQ.PriorityQueue T _ _ P) : list (T * P) :=
  match n with
  | O => []
  | Datatypes.S n' =>
      match PQ.pop q with
      | (Ok xp, q') => xp :: drain_loop n' q'
      | (Raise _, _) => []
      end
  end.

(** Every successful pop takes an entry off the heap, so as many pops
    as the heap has entries empty the queue. *)
Definition drain (q : @PQ.PriorityQueue T _ _ P) : list (T * P) :=
  drain_loop (Datatypes.S (length (PQ._heap q))) q.

(** What [pop] returns for an entry. *)
Definition entry_pair (e : @PQ.PQItem T P) : T * P :=
  (PQ.item e, PQ.priority e).

End drain_def.

(** ** What a computation raises *)

Definition raises_only {A} (E : exn -> Prop) (r : result A) : Prop :=
  forall e, r = Raise e -> E e.

Definition index_error (e : exn) : Prop := e = IndexError.

(** Every cell of the grid keeps its wall on the sides that face the
    outside. *)
Definition border_walled (rows cols : Z) (walls : list (list Z)) : Prop :=
  forall p dr dc w w',
    in_grid rows cols p -> (dr, dc, w, w') ∈ DIRS ->
    ~ in_grid rows cols (p.1 + dr, p.2 + dc) ->
    no_wall walls p w = false.

(** Every wall mask is a value of the four wall bits. *)
Definition masks_4bit (rows cols : Z) (walls : list (list Z)) : Prop :=
  forall p x, in_grid rows cols p -> cell walls p = Some x -> 0 <= x <= 15.

(** ** Recording a run of frontier sizes *)

(** [record_frontier] called once for each size of a list, in order. *)
Definition record_all {F : Type} (sizes : list Z) (m : RunMetrics.t F)
  : RunMetrics.t F :=
  foldl (fun m size => RunMetrics.record_frontier size m) m sizes.

Definition Zsum (l : list Z) : Z := foldr Z.add 0 l.

(** ** Accounting invariants of the search solvers *)

Section SearchAccounting.
Context {F : Type} `{FloatOps F} `{FloatLib F}.

(** BFS and DFS: the discovered states are the expanded ones and the
    ones in the frontier, each once; one expansion is counted for each
    state of [visited_order]. *)
Definition search_acc (metrics : RunMetrics.t F) (st : @search_state F)
  : Prop :=
  NoDup (s_visited_order st ++ frontier st)
  /\ (forall x, x ∈ visited st <-> x ∈ s_visited_order st ++ frontier st)
  /\ RunMetrics.states_expanded (s_metrics st)
     = RunMetrics.states_expanded metrics
       + Z.of_nat (length (s_visited_order st))
  /\ dom (s_parents st) = visited st.

End SearchAccounting.

(** ** Accounting invariants of A* *)

Section AstarAccounting.
Context {F : Type} `{FloatOps F} `{FloatLib F}.

(** A*: what holds of the variables while the neighbours of a state are
    scanned, relative to the accumulator [metrics] the run started
    with. *)
Definition astar_acc_scan (metrics : RunMetrics.t F) (heuristic : string)
    (st : @astar_state F) : Prop :=
  NoDup (a_visited_order st)
  /\ (forall x, x ∈ a_visited_order st <-> x ∈ closed st)
  /\ RunMetrics.states_expanded (a_metrics st)
     = RunMetrics.states_expanded metrics
       + Z.of_nat (length (a_visited_order st))
  /\ dom (PQ._best (openpq st)) = dom (g st)
  /\ dom (a_parents st) = dom (g st)
  /\ RunMetrics.heuristic_evaluations (a_metrics st)
     + RunMetrics.repeated_state_updates metrics
     = RunMetrics.heuristic_evaluations metrics
       + RunMetrics.repeated_state_updates (a_metrics st)
       + Z.of_nat (size (g st))
  /\ RunMetrics.heuristic_type (a_metrics st) = Some heuristic.

(** Between rounds the largest frontier on record is the number of
    states with a cost on record, unless the accumulator came with a
    larger one. *)
Definition astar_acc (metrics : RunMetrics.t F) (heuristic : string)
    (st : @astar_state F) : Prop :=
  astar_acc_scan metrics heuristic st
  /\ RunMetrics.maximum_frontier_size (a_metrics st)
     = Z.max (RunMetrics.maximum_frontier_size metrics)
         (Z.of_nat (size (g st))).

End AstarAccounting.

(** The heuristics that [_h] knows. *)
Definition known_heuristic (kind : string) : Prop :=
  kind = "manhattan"%string \/ kind = "euclidean"%string.

(** ** The search tree of BFS and DFS *)

Section SearchTree.
Context {F : Type} `{FloatOps F} `{FloatLib F}.

(** What BFS and DFS have in common.  [d] numbers the discovered cells
    in the order of their discovery, [cur] holds the cell under
    expansion while its neighbours are being scanned. *)
Record tree_inv (env : MazeEnv F) (d : Coord -> nat) (cur : list Coord)
    (st : @search_state F) : Prop := {
  ti_start : start (maze env) ∈ visited st
             /\ s_parents st !! start (maze env) = Some None;
  ti_grid : forall x, x ∈ visited st ->
              in_grid (rows (maze env)) (cols (maze env)) x;
  ti_dom : forall x, x ∈ visited st <-> is_Some (s_parents st !! x);
  ti_parent : forall x, x ∈ visited st -> x <> start (maze env) ->
                exists p, s_parents st !! x = Some (Some p) /\ p ∈ visited st
                          /\ maze_adj (maze env) p x /\ (d p < d x)%nat;
  ti_rank : forall x, x ∈ visited st -> (d x < size (visited st))%nat;
  ti_reach : forall x, x ∈ visited st ->
               rtc (maze_adj (maze env)) (start (maze env)) x;
  ti_front : forall x, x ∈ frontier st -> x ∈ visited st;
  ti_closed : forall x y, x ∈ visited st -> x ∉ frontier st -> x ∉ cur ->
                maze_adj (maze env) x y -> y ∈ visited st;
  ti_cur : forall x, x ∈ cur -> x ∈ visited st;
  ti_goal : goal (maze env) ∉ s_visited_order st;
  ti_expanded : forall x, x ∈ visited st -> x ∉ frontier st ->
                  x ∈ s_visited_order st;
  ti_order : forall x, x ∈ s_visited_order st -> x ∈ visited st
}.

(** The scan of the neighbours in either solver. *)
Definition search_expand (dfs : bool) (s : Coord) (nbs : list Coord)
    (st : @search_state F) : @search_state F :=
  if dfs then dfs_expand s nbs st else bfs_expand s nbs st.

(** How a run of BFS or DFS ends. *)
Definition search_outcome (env : MazeEnv F) (res : SolveResult)
    (st' : @search_state F) : Prop :=
  (path res = []
   /\ RunMetrics.solved (s_metrics st') = false
   /\ (forall x, x ∈ visited_order res
                 <-> rtc (maze_adj (maze env)) (start (maze env)) x)
   /\ ~ rtc (maze_adj (maze env)) (start (maze env)) (goal (maze env)))
  \/ (exists p pre,
        path res = start (maze env) :: p
        /\ simple_path (maze_adj (maze env)) (start (maze env)) p
             (goal (maze env))
        /\ visited_order res = pre ++ [goal (maze env)]
        /\ (goal (maze env) ∉ pre)
        /\ RunMetrics.solved (s_metrics st') = true
        /\ RunMetrics.solution_path_length (s_metrics st')
           = Z.of_nat (length p)).

End SearchTree.

(** ** Concrete inputs *)

(** The maze that [generate_maze(3, 3, seed=42)] builds over the linear
    congruential generator. *)
Definition maze_3x3 : Maze :=
  mkMaze 3 3 [[13; 3; 11]; [9; 6; 10]; [12; 5; 6]] (0, 0) (2, 2).

(** A 2x2 grid with every wall standing, over binary64 floats, and a
    fresh accumulator. *)
Definition env_walled : MazeEnv PrimFloat.float :=
  mkEnv (mkMaze 2 2 [[15; 15]; [15; 15]] (0, 0) (1, 1))
    (-0.01)%float 1%float (-0.05)%float 0.99%float 0%float.

Definition metrics0 : RunMetrics.t PrimFloat.float :=
  RunMetrics.fresh "run" 2 2 0.

(** The state of BFS on the walled grid after its first round. *)
Definition walled_after_one : search_state :=
  match bfs_step env_walled (search_init env_walled metrics0) with
  | Ok (Continue st) => st
  | _ => search_init env_walled metrics0
  end.

(** The maze of [generate_maze(3, 3, seed=2)] over the linear
    congruential generator, as an environment over binary64 floats. *)
Definition maze_3x3_seed2 : Maze :=
  match generate_maze Z 18 3 3 (Some 2) (0, 0) None with
  | Ok m => m
  | Raise _ => mkMaze 0 0 [] (0, 0) (0, 0)
  end.

Definition env_3x3_seed2 : MazeEnv PrimFloat.float :=
  mkEnv maze_3x3_seed2 (-0.01)%float 1%float (-0.05)%float 0.99%float 0%float.

Definition metrics_3x3 : RunMetrics.t PrimFloat.float :=
  RunMetrics.fresh "astar_manhattan" 3 3 2.

(** The run of A* with the Manhattan heuristic on that maze: the state
    the loop starts in, and the result and the state it returns with. *)
Definition astar_3x3_init : astar_state :=
  match astar_init env_3x3_seed2 metrics_3x3 "manhattan" with
  | Ok st0 => st0
  | Raise _ => mkAstar PQ.new ∅ ∅ ∅ [] metrics_3x3
  end.

Definition astar_3x3_run : SolveResult * astar_state :=
  match astar_loop 20 env_3x3_seed2 "manhattan" astar_3x3_init with
  | Ok r => r
  | Raise _ => (mkResult [] [] ∅, astar_3x3_init)
  end.

(** The 3x3 maze of seed 42 with slip probability 1/5, over exact
    rationals. *)
Definition env_3x3_slip : MazeEnv Qc :=
  mkEnv maze_3x3 (Q2Qc (-1 # 100)) (Q2Qc 1) (Q2Qc (-5 # 100)) (Q2Qc (99 # 100))
    (Q2Qc (1 # 5)).


(** The default threshold [1e-6] of the MDP solvers, as the binary64
    value nearest to it, and the default cap on evaluation sweeps. *)
Definition theta_default : PrimFloat.float := 0x1.0c6f7a0b5ed8dp-20%float.

Definition max_eval_iters_default : nat := Z.to_nat 50000.

(** A fresh accumulator for policy iteration on the 3x3 maze of seed 2. *)
Definition metrics_pi : RunMetrics.t PrimFloat.float :=
  RunMetrics.fresh "policy_iteration" 3 3 2.


(** The 3x3 maze of seed 2 with slip probability [0.15], over binary64
    floats.  Its cell (0, 0) has walls to the north, south and west. *)
Definition env_3x3_slip15 : MazeEnv PrimFloat.float :=
  mkEnv maze_3x3_seed2 (-0.01)%float 1%float (-0.05)%float 0.99%float
    0.15%float.
(** * Part II: lemmas and theorems *)

Lemma rbind_Ok_inv {A B} (c : result A) (k : A -> result B) (b : B) :
  rbind c k = Ok b -> exists a, c = Ok a /\ k a = Ok b.
Proof. destruct c as [a|e]; simpl; [eauto | discriminate]. Qed.

Lemma Z_PriorityOrder : PriorityOrder Z.
Proof.
  split; simpl.
  - intros a b. apply Z.eqb_eq.
  - intros a. apply Z.ltb_irrefl.
  - intros a b c. rewrite !Z.ltb_lt. lia.
  - intros a b. rewrite !Z.ltb_lt. lia.
Qed.

(** ** The priority queue *)

Section PQ_facts.
Context {T : Type} `{Countable T}.
Context {P : Type} `{PrioOps P}.
Context (HP : PriorityOrder P).

Abbreviation PQItem := (@PQ.PQItem T P).
Abbreviation PriorityQueue := (@PQ.PriorityQueue T _ _ P).
Abbreviation entry_lt := (fun a b : PQItem => PQ.item_lt a b = true).

Lemma peq_refl (a : P) : peq a a = true.
Proof. by apply (peq_eq P HP). Qed.

Lemma peq_false (a b : P) : a ≠ b -> peq a b = false.
Proof.
  intros Hne. destruct (peq a b) eqn:E; [|done].
  by apply (peq_eq P HP) in E.
Qed.

Lemma plt_asym (a b : P) : plt a b = true -> plt b a = false.
Proof.
  intros Hab. destruct (plt b a) eqn:E; [|done].
  pose proof (plt_trans P HP _ _ _ Hab E) as Haa.
  by rewrite (plt_irrefl P HP) in Haa.
Qed.

Lemma item_lt_spec (a b : PQItem) :
  PQ.item_lt a b = true <->
  plt (PQ.priority a) (PQ.priority b) = true
  \/ (PQ.priority a = PQ.priority b /\ (PQ.tie a < PQ.tie b)%nat).
Proof.
  unfold PQ.item_lt. destruct (peq (PQ.priority a) (PQ.priority b)) eqn:E.
  - apply (peq_eq P HP) in E. rewrite Nat.ltb_lt. split.
    + intros; by right.
    + intros [Hlt|[_ ?]]; [|done].
      rewrite E, (plt_irrefl P HP) in Hlt. done.
  - split; [by left|]. intros [?|[Heq _]]; [done|].
    rewrite Heq, peq_refl in E. done.
Qed.

Lemma item_lt_trans (a b c : PQItem) :
  PQ.item_lt a b = true -> PQ.item_lt b c = true -> PQ.item_lt a c = true.
Proof.
  rewrite !item_lt_spec.
  intros [Hab|[Hab ?]] [Hbc|[Hbc ?]].
  - left. eapply (plt_trans P HP); eauto.
  - left. by rewrite <- Hbc.
  - left. by rewrite Hab.
  - right. split; [congruence | lia].
Qed.

Lemma item_lt_total (a b : PQItem) :
  PQ.tie a ≠ PQ.tie b -> PQ.item_lt a b = false -> PQ.item_lt b a = true.
Proof.
  intros Hne Hab. apply item_lt_spec.
  destruct (plt_total P HP (PQ.priority a) (PQ.priority b)) as [Hlt|[Heq|Hlt]].
  - assert (PQ.item_lt a b = true) by (apply item_lt_spec; by left). congruence.
  - destruct (decide (PQ.tie a < PQ.tie b)%nat).
    + assert (PQ.item_lt a b = true) by (apply item_lt_spec; by right). congruence.
    + right. split; [done | lia].
  - by left.
Qed.

Lemma elem_of_heappush (h : list PQItem) (e e' : PQItem) :
  e' ∈ PQ.heappush h e <-> e' = e \/ e' ∈ h.
Proof.
  clear HP. induction h as [|x h IH]; simpl.
  - rewrite list_elem_of_singleton. set_solver.
  - destruct (PQ.item_lt e x); rewrite ?elem_of_cons, ?IH; set_solver.
Qed.

Lemma heappush_sorted (h : list PQItem) (e : PQItem) :
  StronglySorted entry_lt h ->
  Forall (fun x => PQ.tie x ≠ PQ.tie e) h ->
  StronglySorted entry_lt (PQ.heappush h e).
Proof.
  induction 1 as [|x h Hs IH Hx]; intros Hties; simpl.
  - repeat constructor.
  - apply Forall_cons in Hties as [Hxe Hties].
    destruct (PQ.item_lt e x) eqn:E.
    + constructor; [by constructor|].
      constructor; [done|].
      eapply Forall_impl; [exact Hx|]. intros y Hy. simpl in *.
      eapply item_lt_trans; eauto.
    + constructor; [by apply IH|].
      apply Forall_forall. intros y Hy.
      apply elem_of_heappush in Hy as [->|Hy].
      * apply item_lt_total; [done|done].
      * rewrite Forall_forall in Hx. by apply Hx.
Qed.

Lemma wf_new : PQ.wf (@PQ.new T _ _ P).
Proof.
  split; simpl; try constructor.
  intros e1 e2 He1. by apply elem_of_nil in He1.
Qed.

Lemma wf_enqueue (q : PriorityQueue) (x : T) (p : P) :
  PQ.wf q ->
  (forall b, PQ._best q !! x = Some b -> plt p b = true) ->
  PQ.wf (PQ.enqueue q x p).
Proof.
  intros [Hs Ht Hb Ho] Hp.
  assert (Hold : forall e, e ∈ PQ._heap q -> PQ.item e = x ->
                   plt (PQ.priority e) p = false /\ PQ.priority e ≠ p).
  { intros e He Hx. rewrite Forall_forall in Hb.
    destruct (Hb e He) as (b & Hbx & Hnlt). rewrite Hx in Hbx.
    specialize (Hp b Hbx). split.
    - destruct (plt (PQ.priority e) p) eqn:E; [|done].
      rewrite (plt_trans P HP _ _ _ E Hp) in Hnlt. done.
    - intros Heq. congruence. }
  split; simpl.
  - apply heappush_sorted; [done|].
    eapply Forall_impl; [exact Ht|]. simpl. intros; lia.
  - apply Forall_forall. intros e He.
    apply elem_of_heappush in He as [->|He]; simpl; [lia|].
    rewrite Forall_forall in Ht. specialize (Ht e He). lia.
  - apply Forall_forall. intros e He.
    apply elem_of_heappush in He as [->|He]; simpl.
    + exists p. rewrite lookup_insert_eq. split; [done|]. apply (plt_irrefl P HP).
    + destruct (decide (PQ.item e = x)) as [Hx|Hx].
      * exists p. rewrite <- Hx, lookup_insert_eq. split; [done|].
        by apply Hold.
      * rewrite lookup_insert_ne by done.
        rewrite Forall_forall in Hb. by apply Hb.
  - intros e1 e2 He1 He2 Hi Hpr.
    apply elem_of_heappush in He1 as [->|He1];
      apply elem_of_heappush in He2 as [->|He2]; simpl in *.
    + done.
    + symmetry in Hi, Hpr. destruct (Hold e2 He2 Hi) as [_ ?]. done.
    + destruct (Hold e1 He1 Hi) as [_ ?]. done.
    + by apply Ho.
Qed.

Lemma wf_push (q : PriorityQueue) (x : T) (p : P) :
  PQ.wf q -> PQ.wf (PQ.push q x p).
Proof.
  intros Hq. unfold PQ.push.
  destruct (PQ._best q !! x) as [b|] eqn:E.
  - destruct (plt p b) eqn:Hlt; [|done].
    apply wf_enqueue; [done|]. intros b' Hb'. congruence.
  - apply wf_enqueue; [done|]. intros b' Hb'. congruence.
Qed.

(** What the loop of [pop] does to the heap: it drops a prefix of stale
    entries and stops at the first live one. *)
Lemma pop_loop_Ok (best : gmap T P) (h rest : list PQItem) (x : T) (p : P) :
  PQ.pop_loop best h = (Ok (x, p), rest) ->
  exists pre e, h = pre ++ e :: rest /\ PQ.item e = x /\ PQ.priority e = p
    /\ PQ.live best e = true /\ Forall (fun e' => PQ.live best e' = false) pre.
Proof.
  induction h as [|top h IH]; simpl; [done|].
  destruct (PQ.live best top) eqn:E.
  - intros [= <- <- <-]. exists [], top. by repeat split.
  - intros Hl. destruct (IH Hl) as (pre & e & -> & ? & ? & ? & ?).
    exists (top :: pre), e. repeat split; try done. by constructor.
Qed.

Lemma pop_loop_Raise (best : gmap T P) (h rest : list PQItem) (err : exn) :
  PQ.pop_loop best h = (Raise err, rest) ->
  err = IndexError /\ rest = [] /\ Forall (fun e' => PQ.live best e' = false) h.
Proof.
  induction h as [|top h IH]; simpl.
  - intros [= <- <-]. by repeat split.
  - destruct (PQ.live best top) eqn:E; [done|].
    intros Hl. destruct (IH Hl) as (? & ? & ?). repeat split; try done.
    by constructor.
Qed.

Lemma wf_pop (q : PriorityQueue) : PQ.wf q -> PQ.wf (snd (PQ.pop q)).
Proof.
  intros [Hs Ht Hb Ho]. unfold PQ.pop.
  destruct (PQ.pop_loop (PQ._best q) (PQ._heap q)) as [[[x p]|err] rest] eqn:E;
    simpl.
  - apply pop_loop_Ok in E as (pre & e & Hh & _).
    rewrite Hh in *. 
    assert (Hsub : forall y, y ∈ rest -> y ∈ pre ++ e :: rest) by set_solver.
    split; simpl.
    + apply StronglySorted_app_1_r in Hs. by apply StronglySorted_inv in Hs as [? _].
    + apply Forall_app in Ht as [_ Ht]. by apply Forall_cons in Ht as [_ ?].
    + apply Forall_app in Hb as [_ Hb]. by apply Forall_cons in Hb as [_ ?].
    + intros e1 e2 ? ?. apply Ho; by apply Hsub.
  - apply pop_loop_Raise in E as (_ & -> & _).
    split; simpl; try constructor.
    intros e1 e2 He1. by apply elem_of_nil in He1.
Qed.

Lemma wf_run (ops : list (@PQ.op T P)) : PQ.wf (PQ.run ops).
Proof.
  unfold PQ.run. induction ops as [|o ops IH] using rev_ind; simpl.
  - apply wf_new.
  - rewrite foldl_app. simpl. destruct o; simpl.
    + by apply wf_push.
    + by apply wf_pop.
Qed.

Lemma live_entries_nil (q : PriorityQueue) :
  PQ.live_entries q = [] <->
  Forall (fun e => PQ.live (PQ._best q) e = false) (PQ._heap q).
Proof.
  unfold PQ.live_entries. rewrite Forall_forall. split.
  - intros Hnil e He. destruct (PQ.live (PQ._best q) e) eqn:E; [|done].
    assert (e ∈ filter (fun e => PQ.live (PQ._best q) e = true) (PQ._heap q))
      as Hin by (apply list_elem_of_filter; done).
    rewrite Hnil in Hin. by apply elem_of_nil in Hin.
  - intros Hall. destruct (filter _ _) as [|e l] eqn:E; [done|].
    assert (e ∈ filter (fun e => PQ.live (PQ._best q) e = true) (PQ._heap q))
      as Hin by (rewrite E; left).
    apply list_elem_of_filter in Hin as [Hl Hin].
    rewrite (Hall e Hin) in Hl. done.
Qed.

(** [pop] on a well-formed queue. *)
Lemma pop_spec (q : PriorityQueue) :
  PQ.wf q ->
  match PQ.pop q with
  | (Ok (x, p), q') =>
      exists e, e ∈ PQ._heap q /\ PQ.item e = x /\ PQ.priority e = p
        /\ PQ._best q !! x = Some p
        /\ (forall e', e' ∈ PQ._heap q -> PQ.live (PQ._best q) e' = true ->
              e' ≠ e -> PQ.item_lt e e' = true)
        /\ PQ._best q' = PQ._best q
        /\ (forall e', e' ∈ PQ._heap q' -> e' ∈ PQ._heap q /\ PQ.item e' ≠ x
                                          \/ e' ∈ PQ._heap q /\ PQ.live (PQ._best q) e' = false)
  | (Raise err, q') =>
      err = IndexError /\ PQ.live_entries q = [] /\ PQ._heap q' = []
      /\ PQ._best q' = PQ._best q
  end.
Proof.
  intros [Hs Ht Hb Ho]. unfold PQ.pop.
  destruct (PQ.pop_loop (PQ._best q) (PQ._heap q)) as [[[x p]|err] rest] eqn:E.
  - apply pop_loop_Ok in E as (pre & e & Hh & Hx & Hp & Hlive & Hpre).
    exists e. rewrite Hh in *. simpl.
    assert (Hbx : PQ._best q !! x = Some p).
    { unfold PQ.live in Hlive. rewrite Hx in Hlive.
      destruct (PQ._best q !! x) as [b|]; [|done].
      apply (peq_eq P HP) in Hlive. congruence. }
    repeat split; try done.
    + set_solver.
    + intros e' He' Hl' Hne.
      apply elem_of_app in He' as [He'|He'].
      * rewrite Forall_forall in Hpre. rewrite (Hpre e' He') in Hl'. done.
      * apply elem_of_cons in He' as [->|He']; [done|].
        apply StronglySorted_app_1_r in Hs.
        apply StronglySorted_inv in Hs as [_ Hs].
        rewrite Forall_forall in Hs. by apply Hs.
    + intros e' He'.
      assert (He'' : e' ∈ pre ++ e :: rest) by set_solver.
      destruct (decide (PQ.item e' = x)) as [Hix|Hix]; [|left; done].
      right. split; [done|].
      destruct (PQ.live (PQ._best q) e') eqn:Hl'; [|done].
      exfalso.
      assert (PQ.priority e' = p).
      { unfold PQ.live in Hl'. rewrite Hix, Hbx in Hl'.
        by apply (peq_eq P HP) in Hl'. }
      assert (e' = e) as ->.
      { apply Ho; [done| set_solver | congruence | congruence]. }
      apply StronglySorted_app_1_r in Hs.
      apply StronglySorted_inv in Hs as [_ Hs].
      rewrite Forall_forall in Hs. specialize (Hs e He').
      apply item_lt_spec in Hs as [Hs|[_ Hs]]; [|lia].
      rewrite (plt_irrefl P HP) in Hs. done.
  - apply pop_loop_Raise in E as (-> & -> & Hall). simpl.
    repeat split; try done. by apply live_entries_nil.
Qed.

End PQ_facts.

(** C3.  For every sequence of operations on a queue that starts empty,
    [pop] returns an entry [(x, p)] that is not stale ([p] is the
    best-known priority of [x]) and that is minimal among the live
    entries: every other live entry has a higher priority, or the same
    priority and a later insertion number; it raises [IndexError] (the
    empty-queue condition) exactly when no live entry remains.  The
    insertion numbers are given out in push order.  In particular after
    [push(x,p5); push(x,p3); push(y,p4)] with [p3 < p4 < p5] the pops
    yield [(x,p3)], then [(y,p4)], and the third one raises: the stale
    [(x,p5)] never comes out. *)
Theorem pq_pop_min_live {T : Type} `{Countable T} {P : Type} `{PrioOps P}
    (HP : PriorityOrder P) (ops : list (@PQ.op T P)) :
  let q := PQ.run ops in
  match PQ.pop q with
  | (Ok (x, p), q') =>
      exists e, e ∈ PQ._heap q /\ PQ.item e = x /\ PQ.priority e = p
        /\ PQ._best q !! x = Some p
        /\ (forall e', e' ∈ PQ._heap q -> PQ.live (PQ._best q) e' = true ->
              e' ≠ e ->
              plt p (PQ.priority e') = true
              \/ (PQ.priority e' = p /\ (PQ.tie e < PQ.tie e')%nat))
  | (Raise err, q') => err = IndexError /\ PQ.live_entries q = []
  end
  /\ (PQ.live_entries q = [] -> fst (PQ.pop q) = Raise IndexError)
  /\ (forall x p e, e ∈ PQ._heap (PQ.push q x p) ->
        e ∈ PQ._heap q /\ (PQ.tie e < PQ._tie q)%nat
        \/ e = PQ.mkItem p (PQ._tie q) x)
  /\ (forall (x y : T) (p3 p4 p5 : P),
        x ≠ y -> plt p3 p4 = true -> plt p4 p5 = true ->
        let q0 := PQ.run [PQ.Push x p5; PQ.Push x p3; PQ.Push y p4] in
        let q1 := snd (PQ.pop q0) in
        let q2 := snd (PQ.pop q1) in
        fst (PQ.pop q0) = Ok (x, p3)
        /\ fst (PQ.pop q1) = Ok (y, p4)
        /\ fst (PQ.pop q2) = Raise IndexError).
Proof.
  intros q. pose proof (wf_run HP ops) as Hwf. fold q in Hwf.
  pose proof (pop_spec HP q Hwf) as Hpop.
  split; [|split; [|split]].
  - destruct (PQ.pop q) as [[[x p]|err] q']; [|naive_solver].
    destruct Hpop as (e & He & Hx & Hp & Hb & Hmin & _).
    exists e. repeat split; try done.
    intros e' He' Hl' Hne. specialize (Hmin e' He' Hl' Hne).
    apply (item_lt_spec HP) in Hmin. rewrite Hp in Hmin. naive_solver.
  - intros Hnil. destruct (PQ.pop q) as [[[x p]|err] q']; [|naive_solver].
    destruct Hpop as (e & He & Hx & Hp & Hb & _).
    apply live_entries_nil in Hnil. rewrite Forall_forall in Hnil.
    specialize (Hnil e He). unfold PQ.live in Hnil.
    rewrite Hx, Hb, Hp, (peq_refl HP) in Hnil. done.
  - intros x p e. destruct Hwf as [_ Ht _ _]. rewrite Forall_forall in Ht.
    unfold PQ.push.
    destruct (PQ._best q !! x) as [b|]; [destruct (plt p b)|]; simpl;
      rewrite ?elem_of_heappush; naive_solver.
  - intros x y p3 p4 p5 Hxy H34 H45.
    assert (H35 : plt p3 p5 = true) by (eapply (plt_trans P HP); eauto).
    assert (N35 : peq p3 p5 = false).
    { apply (peq_false HP). intros ->. by rewrite (plt_irrefl P HP) in H35. }
    assert (N43 : peq p4 p3 = false).
    { apply (peq_false HP). intros ->. by rewrite (plt_irrefl P HP) in H34. }
    assert (N45 : peq p4 p5 = false).
    { apply (peq_false HP). intros ->. by rewrite (plt_irrefl P HP) in H45. }
    pose proof (plt_asym HP _ _ H34) as A43.
    set (b1 := <[x:=p5]> (∅ : gmap T P)).
    set (b2 := <[x:=p3]> b1). set (b3 := <[y:=p4]> b2).
    assert (E1 : PQ.push PQ.new x p5 = PQ.mkPQ [PQ.mkItem p5 0 x] 1 b1).
    { unfold PQ.push. simpl. by rewrite lookup_empty. }
    assert (E2 : PQ.push (PQ.mkPQ [PQ.mkItem p5 0 x] 1 b1) x p3
                 = PQ.mkPQ [PQ.mkItem p3 1 x; PQ.mkItem p5 0 x] 2 b2).
    { unfold PQ.push, PQ.enqueue, b1. simpl. rewrite lookup_insert_eq, H35.
      unfold PQ.item_lt. simpl. by rewrite N35, H35. }
    assert (E3 : PQ.push (PQ.mkPQ [PQ.mkItem p3 1 x; PQ.mkItem p5 0 x] 2 b2) y p4
                 = PQ.mkPQ [PQ.mkItem p3 1 x; PQ.mkItem p4 2 y; PQ.mkItem p5 0 x]
                     3 b3).
    { unfold PQ.push, PQ.enqueue, b2, b1. simpl.
      rewrite !lookup_insert_ne, lookup_empty by done.
      unfold PQ.item_lt. simpl. by rewrite N43, A43, N45, H45. }
    assert (Bx : b3 !! x = Some p3).
    { unfold b3, b2. by rewrite lookup_insert_ne, lookup_insert_eq. }
    assert (By : b3 !! y = Some p4).
    { unfold b3. by rewrite lookup_insert_eq. }
    cbn [PQ.run foldl PQ.apply_op]. rewrite E1, E2, E3.
    assert (L1 : PQ.live b3 (PQ.mkItem p3 1 x) = true).
    { unfold PQ.live. simpl. by rewrite Bx, (peq_refl HP). }
    assert (L2 : PQ.live b3 (PQ.mkItem p4 2 y) = true).
    { unfold PQ.live. simpl. by rewrite By, (peq_refl HP). }
    assert (L3 : PQ.live b3 (PQ.mkItem p5 0 x) = false).
    { unfold PQ.live. simpl. by rewrite Bx, N35. }
    unfold PQ.pop. simpl. rewrite L1. simpl. rewrite L2. simpl.
    rewrite L3. done.
Qed.

(** The queue of the example of C3 over integer items and priorities. *)
Lemma pq_pop_min_live_witness :
  PriorityOrder Z
  /\ fst (PQ.pop (PQ.run [PQ.Push 1 5; PQ.Push 1 3; PQ.Push 2 4]))
     = Ok (1, 3).
Proof.
  split; [exact Z_PriorityOrder|].
  destruct (pq_pop_min_live Z_PriorityOrder (T := Z) []) as (_ & _ & _ & Hex).
  apply (Hex 1 2 3 4 5); done.
Defined.

(** C10.  [pop] keeps the best-known priority of the item it returns.
    So when [push(x, p)] is followed by a [pop] that returns [(x, p)],
    a later [push(x, q)] with [q >= p] (that is, not [q < p]) changes
    nothing: no live entry for [x] is in the heap, and when the queue
    held no other live entry the next [pop] raises [IndexError]. *)
Theorem pq_pop_retains_best {T : Type} `{Countable T} {P : Type} `{PrioOps P}
    (HP : PriorityOrder P) (ops : list (@PQ.op T P)) (x : T) (p q : P)
    (Q1 : @PQ.PriorityQueue T _ _ P) :
  let Q := PQ.run ops in
  PQ.pop (PQ.push Q x p) = (Ok (x, p), Q1) ->
  plt q p = false ->
  PQ._best Q1 !! x = Some p
  /\ PQ.push Q1 x q = Q1
  /\ (forall e, e ∈ PQ._heap (PQ.push Q1 x q) -> PQ.item e = x ->
        PQ.live (PQ._best (PQ.push Q1 x q)) e = false)
  /\ (PQ.live_entries Q = [] ->
      fst (PQ.pop (PQ.push Q1 x q)) = Raise IndexError).
Proof.
  intros Q Hpop Hq.
  assert (Hwf : PQ.wf (PQ.push Q x p)) by (apply (wf_push HP), (wf_run HP)).
  pose proof (pop_spec HP _ Hwf) as Hspec. rewrite Hpop in Hspec.
  destruct Hspec as (e & He & Hx & Hp & Hb & Hmin & Hbest & Hrest).
  assert (Hb1 : PQ._best Q1 !! x = Some p) by (by rewrite Hbest).
  assert (Hpush : PQ.push Q1 x q = Q1).
  { unfold PQ.push. by rewrite Hb1, Hq. }
  assert (Hnolive : forall e', e' ∈ PQ._heap Q1 -> PQ.item e' = x ->
                      PQ.live (PQ._best Q1) e' = false).
  { intros e' He' Hx'. rewrite Hbest.
    destruct (Hrest e' He') as [[_ ?]|[_ ?]]; done. }
  repeat split; try done.
  - rewrite Hpush. exact Hnolive.
  - intros Hnil. rewrite Hpush.
    assert (Hwf1 : PQ.wf Q1).
    { replace Q1 with (snd (PQ.pop (PQ.push Q x p))) by (by rewrite Hpop).
      by apply (wf_pop HP). }
    pose proof (pq_min_live_aux := pop_spec HP Q1 Hwf1).
    destruct (PQ.pop Q1) as [[[x' p']|err] Q2]; [|naive_solver].
    exfalso. destruct pq_min_live_aux as (e' & He' & Hx' & Hp' & Hb' & _).
    assert (Hl' : PQ.live (PQ._best Q1) e' = true).
    { unfold PQ.live. by rewrite Hx', Hb', Hp', (peq_refl HP). }
    destruct (decide (x' = x)) as [->|Hne].
    { rewrite Hnolive in Hl'; done. }
    destruct (Hrest e' He') as [[Hin _]|[_ Hst]];
      [|rewrite Hbest in Hl'; congruence].
    (* an entry of another item was in the heap of [Q], and live there *)
    assert (Hin0 : e' ∈ PQ._heap Q).
    { revert Hin. unfold PQ.push.
      destruct (PQ._best Q !! x) as [b0|]; [destruct (plt p b0)|]; simpl;
        rewrite ?elem_of_heappush; intros Hin;
        try destruct Hin as [->|?]; simpl in *; done. }
    assert (Hl0 : PQ.live (PQ._best Q) e' = true).
    { revert Hl'. rewrite Hbest. unfold PQ.live, PQ.push.
      destruct (PQ._best Q !! x) as [b0|]; [destruct (plt p b0)|]; simpl;
        rewrite ?Hx', ?lookup_insert_ne by done; done. }
    apply live_entries_nil in Hnil. rewrite Forall_forall in Hnil.
    rewrite (Hnil e' Hin0) in Hl0. done.
Qed.

(** A queue with one push, one pop and a second push of the same item at
    the same priority. *)
Lemma pq_pop_retains_best_witness :
  PriorityOrder Z
  /\ fst (PQ.pop (PQ.push (snd (PQ.pop (PQ.push PQ.new 7 2))) 7 2))
     = Raise IndexError.
Proof.
  split; [exact Z_PriorityOrder|].
  refine (proj2 (proj2 (proj2
    (pq_pop_retains_best Z_PriorityOrder (T := Z) [] 7 2 2 _ _ _))) _);
    reflexivity.
Defined.

(** C7, as the code has it: [pop] leaves [_best] alone, so [len()] never
    goes down; after [push(7, 2)] and one [pop] the queue reports length
    1 although no live entry is left and [empty()] holds. *)
Theorem pq_len_counts_popped_items :
  (forall (T : Type) `(Countable T) (P : Type) `(PrioOps P)
          (q : @PQ.PriorityQueue T _ _ P),
      PQ.len (snd (PQ.pop q)) = PQ.len q)
  /\ (let q1 : @PQ.PriorityQueue Z _ _ Z := snd (PQ.pop (PQ.push PQ.new 7 2)) in
      fst (PQ.pop (PQ.push PQ.new 7 2)) = Ok (7, 2)
      /\ PQ.len q1 = 1 /\ PQ.live_entries q1 = [] /\ PQ.empty q1 = true).
Proof.
  split.
  - intros T ? ? P ? q. unfold PQ.pop, PQ.len.
    by destruct (PQ.pop_loop (PQ._best q) (PQ._heap q)).
  - vm_compute. done.
Qed.

(** ** Lists and grids *)

Lemma py_index_in (n : nat) (i : Z) :
  0 <= i < Z.of_nat n -> py_index n i = Ok (Z.to_nat i).
Proof.
  intros Hi. unfold py_index.
  destruct (0 <=? i) eqn:E1; [|lia].
  destruct (i <? Z.of_nat n) eqn:E2; [done|lia].
Qed.

Lemma getitem_in {A} (l : list A) (i : Z) (x : A) :
  0 <= i -> l !! Z.to_nat i = Some x -> getitem l i = Ok x.
Proof.
  intros Hi Hx. unfold getitem.
  apply lookup_lt_Some in Hx as Hlt.
  rewrite py_index_in by lia. simpl. by rewrite Hx.
Qed.

Lemma setitem_in {A} (l : list A) (i : Z) (x : A) :
  0 <= i < Z.of_nat (length l) -> setitem l i x = Ok (<[Z.to_nat i := x]> l).
Proof. intros Hi. unfold setitem. by rewrite py_index_in. Qed.

Lemma cell_is_Some {A} (g : list (list A)) (rows cols : Z) (p : Coord) :
  grid_dims g rows cols -> in_grid rows cols p -> is_Some (cell g p).
Proof.
  intros [Hr Hc] [H1 H2]. unfold cell.
  destruct (lookup_lt_is_Some_2 g (Z.to_nat p.1)) as [row Hrow]; [lia|].
  rewrite Hrow. simpl.
  rewrite Forall_forall in Hc.
  assert (Z.of_nat (length row) = cols)
    by (apply Hc; eapply list_elem_of_lookup_2; eauto).
  apply lookup_lt_is_Some_2. lia.
Qed.

Lemma grid_get_cell {A} (g : list (list A)) (r c : Z) (x : A) :
  0 <= r -> 0 <= c -> cell g (r, c) = Some x -> grid_get g r c = Ok x.
Proof.
  set (p := (r, c)). change r with p.1. change c with p.2. clearbody p.
  intros H1 H2. unfold cell, grid_get.
  destruct (g !! Z.to_nat p.1) as [row|] eqn:Hrow; [|done]. simpl.
  intros Hx. rewrite (getitem_in g p.1 row) by done. simpl.
  by apply getitem_in.
Qed.

Lemma grid_set_cell {A} (g : list (list A)) (rows cols : Z) (r c : Z) (x : A) :
  grid_dims g rows cols -> in_grid rows cols (r, c) ->
  grid_set g r c x = Ok (cell_set g (r, c) x).
Proof.
  set (p := (r, c)). change r with p.1. change c with p.2. clearbody p.
  intros [Hr Hc] [H1 H2]. unfold grid_set, cell_set.
  destruct (lookup_lt_is_Some_2 g (Z.to_nat p.1)) as [row Hrow]; [lia|].
  rewrite (getitem_in g p.1 row) by (done || lia). simpl.
  rewrite Forall_forall in Hc.
  assert (Z.of_nat (length row) = cols)
    by (apply Hc; eapply list_elem_of_lookup_2; eauto).
  rewrite setitem_in by lia. simpl.
  rewrite setitem_in by lia. f_equal.
  apply list_eq. intros i.
  destruct (decide (i = Z.to_nat p.1)) as [->|Hne].
  - rewrite list_lookup_insert_eq by (apply lookup_lt_Some in Hrow; lia).
    by rewrite list_lookup_alter_eq, Hrow.
  - by rewrite list_lookup_insert_ne, list_lookup_alter_ne.
Qed.

Lemma grid_dims_cell_set {A} (g : list (list A)) (rows cols : Z) (p : Coord) (x : A) :
  grid_dims g rows cols -> grid_dims (cell_set g p x) rows cols.
Proof.
  intros [Hr Hc]. unfold cell_set. split.
  - by rewrite length_alter.
  - rewrite Forall_forall in *. intros row Hrow.
    apply list_elem_of_lookup in Hrow as [i Hi].
    destruct (decide (i = Z.to_nat p.1)) as [->|Hne].
    + rewrite list_lookup_alter_eq in Hi.
      destruct (g !! Z.to_nat p.1) as [row0|] eqn:E; [|done].
      injection Hi as <-. rewrite length_insert.
      apply Hc. eapply list_elem_of_lookup_2; eauto.
    + rewrite list_lookup_alter_ne in Hi by done.
      apply Hc. eapply list_elem_of_lookup_2; eauto.
Qed.

Lemma cell_cell_set_eq {A} (g : list (list A)) (rows cols : Z) (p : Coord) (x : A) :
  grid_dims g rows cols -> in_grid rows cols p ->
  cell (cell_set g p x) p = Some x.
Proof.
  intros Hd Hp. destruct (cell_is_Some g rows cols p Hd Hp) as [y Hy].
  revert Hy. unfold cell, cell_set. rewrite list_lookup_alter_eq.
  destruct (g !! Z.to_nat p.1) as [row|]; [|done]. simpl.
  intros Hy. apply list_lookup_insert_eq. by apply lookup_lt_Some in Hy.
Qed.

Lemma cell_cell_set_ne {A} (g : list (list A)) (p q : Coord) (x : A) :
  0 <= p.1 -> 0 <= p.2 -> 0 <= q.1 -> 0 <= q.2 -> p <> q ->
  cell (cell_set g p x) q = cell g q.
Proof.
  intros ? ? ? ? Hne. unfold cell, cell_set.
  destruct (decide (Z.to_nat p.1 = Z.to_nat q.1)) as [Heq|Hr].
  - rewrite <- Heq, list_lookup_alter_eq.
    destruct (g !! Z.to_nat p.1) as [row|]; [|done]. simpl.
    apply list_lookup_insert_ne. intros Hc.
    apply Hne. destruct p, q; simpl in *. f_equal; lia.
  - by rewrite list_lookup_alter_ne.
Qed.

Lemma grid_dims_replicate {A} (rows cols : Z) (x : A) :
  0 <= rows -> 0 <= cols ->
  grid_dims (replicate (Z.to_nat rows) (replicate (Z.to_nat cols) x)) rows cols.
Proof.
  intros. split.
  - rewrite length_replicate. lia.
  - apply Forall_forall. intros row Hrow.
    apply elem_of_replicate in Hrow as [-> _]. rewrite length_replicate. lia.
Qed.

Lemma cell_replicate {A} (rows cols : Z) (x : A) (p : Coord) :
  in_grid rows cols p ->
  cell (replicate (Z.to_nat rows) (replicate (Z.to_nat cols) x)) p = Some x.
Proof.
  intros [H1 H2]. unfold cell.
  rewrite lookup_replicate_2 by lia. simpl.
  apply lookup_replicate_2. lia.
Qed.


(** ** Wall bits and directions *)

Lemma DIRS_cases (d : Z * Z * Z * Z) :
  d ∈ DIRS ->
  d = (-1, 0, N, S) \/ d = (0, 1, E, W) \/ d = (1, 0, S, N) \/ d = (0, -1, W, E).
Proof.
  unfold DIRS. rewrite !elem_of_cons, elem_of_nil. tauto.
Qed.

Ltac dirs_cases H :=
  apply DIRS_cases in H as [H|[H|[H|H]]]; injection H as -> -> -> ->.

Lemma DIRS_east : (0, 1, E, W) ∈ DIRS.
Proof. unfold DIRS. set_solver. Qed.

Lemma DIRS_south : (1, 0, S, N) ∈ DIRS.
Proof. unfold DIRS. set_solver. Qed.

Lemma DIRS_opposite (dr dc w w' : Z) :
  (dr, dc, w, w') ∈ DIRS -> (- dr, - dc, w', w) ∈ DIRS.
Proof. intros Hd. dirs_cases Hd; unfold DIRS; set_solver. Qed.

(** A side determines its direction, and a direction its side. *)
Lemma DIRS_side_inj (dr dc w w' dr2 dc2 w2' : Z) :
  (dr, dc, w, w') ∈ DIRS -> (dr2, dc2, w, w2') ∈ DIRS ->
  dr2 = dr /\ dc2 = dc /\ w2' = w'.
Proof.
  intros H1 H2. apply DIRS_cases in H1, H2. unfold N, E, S, W in *.
  destruct H1 as [H1|[H1|[H1|H1]]], H2 as [H2|[H2|[H2|H2]]];
    simplify_eq; done.
Qed.

Lemma DIRS_delta_inj (dr dc w w' w2 w2' : Z) :
  (dr, dc, w, w') ∈ DIRS -> (dr, dc, w2, w2') ∈ DIRS -> w2 = w /\ w2' = w'.
Proof.
  intros H1 H2. apply DIRS_cases in H1, H2. unfold N, E, S, W in *.
  destruct H1 as [H1|[H1|[H1|H1]]], H2 as [H2|[H2|[H2|H2]]];
    simplify_eq; done.
Qed.

Lemma DIRS_step_ne (dr dc w w' : Z) (a : Coord) :
  (dr, dc, w, w') ∈ DIRS -> (a.1 + dr, a.2 + dc) <> a.
Proof.
  intros Hd Heq. destruct a as [r c]. simpl in Heq.
  dirs_cases Hd; injection Heq; lia.
Qed.

(** [m & ~w] has side [w] cleared and the other sides as in [m]. *)
Lemma land_lnot_side (m w w' : Z) (dr dc x dr' dc' x' : Z) :
  (dr, dc, w, x) ∈ DIRS -> (dr', dc', w', x') ∈ DIRS ->
  (Z.land (Z.land m (Z.lnot w)) w' =? 0) = (w =? w') || (Z.land m w' =? 0).
Proof.
  intros H1 H2. rewrite <- Z.land_assoc.
  dirs_cases H1; dirs_cases H2; unfold N, E, S, W; simpl;
    try (rewrite Z.land_0_r; reflexivity); reflexivity.
Qed.

Lemma land_all_walls (w : Z) (dr dc x : Z) :
  (dr, dc, w, x) ∈ DIRS -> (Z.land 15 w =? 0) = false.
Proof. intros H1. dirs_cases H1; reflexivity. Qed.

Lemma no_wall_cell_set_eq (g : list (list Z)) (rows cols : Z) (p : Coord) (x bit : Z) :
  grid_dims g rows cols -> in_grid rows cols p ->
  no_wall (cell_set g p x) p bit = (Z.land x bit =? 0).
Proof.
  intros Hd Hp. unfold no_wall. by rewrite (cell_cell_set_eq g rows cols).
Qed.

Lemma no_wall_cell_set_ne (g : list (list Z)) (rows cols : Z) (p q : Coord) (x bit : Z) :
  in_grid rows cols p -> in_grid rows cols q -> p <> q ->
  no_wall (cell_set g p x) q bit = no_wall g q bit.
Proof.
  intros [? ?] [? ?] Hne. unfold no_wall.
  rewrite cell_cell_set_ne by (done || lia). done.
Qed.

(** ** The neighbour scan *)

Lemma collect_neigh_spec (rows cols : Z) (v : list (list bool)) (r c : Z)
    (dirs : list (Z * Z * Z * Z)) :
  grid_dims v rows cols ->
  exists l, collect_neigh rows cols v r c dirs = Ok l
    /\ forall x, x ∈ l <->
         exists dr dc w w', (dr, dc, w, w') ∈ dirs
           /\ x = (r + dr, c + dc, w, w')
           /\ in_grid rows cols (r + dr, c + dc)
           /\ cell v (r + dr, c + dc) = Some false.
Proof.
  intros Hd. induction dirs as [|[[[dr dc] w] w'] dirs (l & Hl & IH)].
  - exists []. split; [done|]. intros x. split.
    + intros Hx. by apply elem_of_nil in Hx.
    + intros (? & ? & ? & ? & Hx & _). by apply elem_of_nil in Hx.
  - simpl.
    destruct ((0 <=? r + dr) && (r + dr <? rows) && (0 <=? c + dc)
              && (c + dc <? cols)) eqn:Hin.
    + assert (Hg : in_grid rows cols (r + dr, c + dc)).
      { unfold in_grid. simpl. lia. }
      destruct (cell_is_Some v rows cols _ Hd Hg) as [b Hb].
      rewrite (grid_get_cell v (r + dr) (c + dc) b) by (lia || done).
      simpl. rewrite Hl. simpl. eexists. split; [done|].
      intros x. destruct b; simpl.
      * rewrite IH. split.
        -- intros (dr0 & dc0 & w0 & w0' & Hd0 & ?).
           exists dr0, dc0, w0, w0'. split; [by right | done].
        -- intros (dr0 & dc0 & w0 & w0' & Hd0 & -> & Hg0 & Hv0).
           apply elem_of_cons in Hd0 as [Heq|Hd0].
           ++ injection Heq as -> -> -> ->. congruence.
           ++ exists dr0, dc0, w0, w0'. done.
      * rewrite elem_of_cons, IH. split.
        -- intros [->|(dr0 & dc0 & w0 & w0' & Hd0 & ?)].
           ++ exists dr, dc, w, w'. split; [by left | done].
           ++ exists dr0, dc0, w0, w0'. split; [by right | done].
        -- intros (dr0 & dc0 & w0 & w0' & Hd0 & -> & Hg0 & Hv0).
           apply elem_of_cons in Hd0 as [Heq|Hd0].
           ++ injection Heq as -> -> -> ->. by left.
           ++ right. exists dr0, dc0, w0, w0'. done.
    + simpl. rewrite Hl. simpl. eexists. split; [done|].
      intros x. rewrite IH. split.
      * intros (dr0 & dc0 & w0 & w0' & Hd0 & ?).
        exists dr0, dc0, w0, w0'. split; [by right | done].
      * intros (dr0 & dc0 & w0 & w0' & Hd0 & -> & Hg0 & Hv0).
        apply elem_of_cons in Hd0 as [Heq|Hd0].
        -- injection Heq as -> -> -> ->.
           unfold in_grid in Hg0. simpl in Hg0. lia.
        -- exists dr0, dc0, w0, w0'. done.
Qed.

Lemma choice_spec {R} `{RandomSource R} (HR : RandomSourceOk R) {A}
    (g : R) (seq : list A) :
  seq <> [] -> exists x g', choice g seq = Ok (x, g') /\ x ∈ seq.
Proof.
  intros Hne. unfold choice. destruct seq as [|y seq]; [done|].
  pose proof (randbelow_lt R HR g (length (y :: seq))) as Hlt.
  destruct (randbelow g (length (y :: seq))) as [i g'].
  simpl in Hlt.
  destruct (lookup_lt_is_Some_2 (y :: seq) i) as [x Hx]; [simpl; lia|].
  rewrite Hx. exists x, g'. split; [done|].
  eapply list_elem_of_lookup_2; eauto.
Qed.


(** ** Cells and edges of the grid *)

Lemma elem_of_Zrange (n x : Z) : x ∈ Zrange n <-> 0 <= x < n.
Proof.
  unfold Zrange. rewrite list_elem_of_fmap. split.
  - intros (k & -> & Hk). apply elem_of_seq in Hk. lia.
  - intros Hx. exists (Z.to_nat x). split; [lia|]. apply elem_of_seq. lia.
Qed.

Lemma NoDup_Zrange (n : Z) : NoDup (Zrange n).
Proof.
  unfold Zrange. apply NoDup_fmap_2; [apply Nat2Z.inj' | apply NoDup_seq].
Qed.

Lemma length_Zrange (n : Z) : length (Zrange n) = Z.to_nat n.
Proof. unfold Zrange. by rewrite length_fmap, length_seq. Qed.

Lemma elem_of_all_cells (rows cols : Z) (p : Coord) :
  p ∈ all_cells rows cols <-> in_grid rows cols p.
Proof.
  unfold all_cells, in_grid. rewrite list_elem_of_bind. split.
  - intros (r & Hp & Hr). apply list_elem_of_fmap in Hp as (c & -> & Hc).
    apply elem_of_Zrange in Hr, Hc. done.
  - intros [Hr Hc]. exists p.1. rewrite elem_of_Zrange. split; [|done].
    apply list_elem_of_fmap. exists p.2. rewrite elem_of_Zrange.
    split; [by destruct p | done].
Qed.

Lemma NoDup_all_cells (rows cols : Z) : NoDup (all_cells rows cols).
Proof.
  unfold all_cells. apply NoDup_bind.
  - intros r1 r2 p _ _ H1 H2.
    apply list_elem_of_fmap in H1 as (c1 & -> & _).
    apply list_elem_of_fmap in H2 as (c2 & Heq & _). congruence.
  - intros r _. apply NoDup_fmap_2; [|apply NoDup_Zrange].
    intros c1 c2 Heq. congruence.
  - apply NoDup_Zrange.
Qed.

Lemma length_all_cells (rows cols : Z) :
  length (all_cells rows cols) = (Z.to_nat rows * Z.to_nat cols)%nat.
Proof.
  unfold all_cells. rewrite <- (length_Zrange rows).
  generalize (Zrange rows). intros l.
  induction l as [|r l IH]; [done|].
  rewrite bind_cons, length_app, length_fmap, length_Zrange. simpl.
  f_equal. exact IH.
Qed.

Lemma elem_of_grid_edges (rows cols : Z) (a b : Coord) :
  (a, b) ∈ grid_edges rows cols <->
  in_grid rows cols a
  /\ ((b = (a.1, a.2 + 1) /\ a.2 + 1 < cols)
      \/ (b = (a.1 + 1, a.2) /\ a.1 + 1 < rows)).
Proof.
  unfold grid_edges. rewrite list_elem_of_bind. split.
  - intros (p & He & Hp). apply elem_of_all_cells in Hp.
    apply elem_of_app in He as [He|He].
    + destruct (p.2 + 1 <? cols) eqn:E; [|by apply elem_of_nil in He].
      apply list_elem_of_singleton in He. injection He as -> ->.
      split; [done|]. left. split; [done|lia].
    + destruct (p.1 + 1 <? rows) eqn:E; [|by apply elem_of_nil in He].
      apply list_elem_of_singleton in He. injection He as -> ->.
      split; [done|]. right. split; [done|lia].
  - intros [Ha [[-> Hc]|[-> Hr]]]; exists a;
      (split; [|by apply elem_of_all_cells]); apply elem_of_app.
    + left. destruct (a.2 + 1 <? cols) eqn:E; [|lia].
      by apply list_elem_of_singleton.
    + right. destruct (a.1 + 1 <? rows) eqn:E; [|lia].
      by apply list_elem_of_singleton.
Qed.

Lemma NoDup_grid_edges (rows cols : Z) : NoDup (grid_edges rows cols).
Proof.
  unfold grid_edges. apply NoDup_bind.
  - intros p1 p2 [a b] _ _ H1 H2.
    assert (Hfst : forall p : Coord,
      (a, b) ∈ (if p.2 + 1 <? cols then [(p, (p.1, p.2 + 1))] else [])
               ++ (if p.1 + 1 <? rows then [(p, (p.1 + 1, p.2))] else []) ->
      a = p).
    { intros p Hp. apply elem_of_app in Hp as [Hp|Hp].
      - destruct (p.2 + 1 <? cols); [|by apply elem_of_nil in Hp].
        apply list_elem_of_singleton in Hp. congruence.
      - destruct (p.1 + 1 <? rows); [|by apply elem_of_nil in Hp].
        apply list_elem_of_singleton in Hp. congruence. }
    rewrite <- (Hfst p1 H1). by apply Hfst.
  - intros p _. destruct (p.2 + 1 <? cols), (p.1 + 1 <? rows); simpl;
      repeat constructor; rewrite ?elem_of_cons, ?elem_of_nil; try tauto.
    intros [Heq|[]]. injection Heq. lia.
  - apply NoDup_all_cells.
Qed.

Lemma filter_ext_in {A} (P Q : A -> Prop) `{!forall x, Decision (P x)}
    `{!forall x, Decision (Q x)} (l : list A) :
  (forall y, y ∈ l -> Q y <-> P y) -> filter Q l = filter P l.
Proof.
  induction l as [|x l IH]; intros Hsame; [done|].
  rewrite !filter_cons.
  rewrite IH by (intros y Hy; apply Hsame; by right).
  pose proof (Hsame x (list_elem_of_here x l)).
  destruct (decide (Q x)), (decide (P x)); tauto.
Qed.

(** Switching the test on for one element of a duplicate-free list adds
    one to the number of elements that pass. *)
Lemma filter_length_switch {A} (P Q : A -> Prop) `{!forall x, Decision (P x)}
    `{!forall x, Decision (Q x)} (l : list A) (x : A) :
  NoDup l -> x ∈ l -> ~ P x -> Q x ->
  (forall y, y ∈ l -> y <> x -> Q y <-> P y) ->
  length (filter Q l) = Datatypes.S (length (filter P l)).
Proof.
  intros Hnd Hx HP HQ Hrest.
  induction l as [|y l IH]; [by apply elem_of_nil in Hx|].
  apply NoDup_cons in Hnd as [Hy Hnd].
  rewrite !filter_cons.
  apply elem_of_cons in Hx as [->|Hx].
  - destruct (decide (Q y)); [|done]. destruct (decide (P y)); [done|].
    simpl. f_equal. f_equal. apply filter_ext_in. intros z Hz.
    apply Hrest; [by right | intros ->; done].
  - assert (y <> x) by (intros ->; done).
    pose proof (Hrest y (list_elem_of_here y l)).
    assert (IH' : length (filter Q l) = Datatypes.S (length (filter P l))).
    { apply IH; try done. intros z Hz Hne. apply Hrest; [by right | done]. }
    destruct (decide (Q y)), (decide (P y)); simpl; rewrite ?IH'; tauto.
Qed.

(** From one point of an interval every point is reached by unit steps. *)
Lemma Z_interval_reach (Q : Z -> Prop) (lo hi a : Z) :
  lo <= a < hi -> Q a ->
  (forall x, lo <= x < hi -> lo <= x + 1 < hi -> Q x -> Q (x + 1)) ->
  (forall x, lo <= x < hi -> lo <= x - 1 < hi -> Q x -> Q (x - 1)) ->
  forall x, lo <= x < hi -> Q x.
Proof.
  intros Ha HQ Hup Hdown x Hx.
  assert (Hupn : forall n : nat, a + Z.of_nat n < hi -> Q (a + Z.of_nat n)).
  { induction n as [|n IH]; intros Hn.
    - by replace (a + Z.of_nat 0) with a by lia.
    - replace (a + Z.of_nat (Datatypes.S n)) with (a + Z.of_nat n + 1) by lia.
      apply Hup; [lia|lia|]. apply IH. lia. }
  assert (Hdownn : forall n : nat, lo <= a - Z.of_nat n -> Q (a - Z.of_nat n)).
  { induction n as [|n IH]; intros Hn.
    - by replace (a - Z.of_nat 0) with a by lia.
    - replace (a - Z.of_nat (Datatypes.S n)) with (a - Z.of_nat n - 1) by lia.
      apply Hdown; [lia|lia|]. apply IH. lia. }
  destruct (Z_le_gt_dec a x) as [Hle|Hgt].
  - replace x with (a + Z.of_nat (Z.to_nat (x - a))) by lia. apply Hupn. lia.
  - replace x with (a - Z.of_nat (Z.to_nat (a - x))) by lia. apply Hdownn. lia.
Qed.


(** ** Walks, and trees that grow by a leaf *)

Lemma walk_last {V} (adj : V -> V -> Prop) (a b : V) (p : list V) :
  walk adj a p b -> b ∈ a :: p.
Proof.
  revert a. induction p as [|x p IH]; simpl; intros a.
  - intros ->. left.
  - intros [_ Hw]. right. by apply IH.
Qed.

Lemma walk_app {V} (adj : V -> V -> Prop) (a b c : V) (p q : list V) :
  walk adj a p b -> walk adj b q c -> walk adj a (p ++ q) c.
Proof.
  revert a. induction p as [|x p IH]; simpl; intros a.
  - by intros ->.
  - intros [Hax Hw] Hq. split; [done|]. by apply IH.
Qed.

Lemma walk_impl {V} (adj adj' : V -> V -> Prop) (a b : V) (p : list V) :
  (forall x y, x ∈ a :: p -> y ∈ p -> adj x y -> adj' x y) ->
  walk adj a p b -> walk adj' a p b.
Proof.
  revert a. induction p as [|x p IH]; simpl; intros a Himp; [done|].
  intros [Hax Hw]. split.
  - apply Himp; [left | left | done].
  - apply IH; [|done]. intros y z Hy Hz. apply Himp; by right.
Qed.

Lemma walk_rtc {V} (adj : V -> V -> Prop) (a b : V) (p : list V) :
  walk adj a p b -> rtc adj a b.
Proof.
  revert a. induction p as [|x p IH]; simpl; intros a.
  - intros ->. done.
  - intros [Hax Hw]. eapply rtc_l; eauto.
Qed.

Section leaf.
Context {V : Type} `{EqDecision V}.
Variables (adj adj' : V -> V -> Prop) (vis : V -> Prop) (u v : V).
Hypothesis adj'_iff :
  forall a b, adj' a b <-> adj a b \/ (a = u /\ b = v) \/ (a = v /\ b = u).
Hypothesis adj_vis : forall a b, adj a b -> vis a /\ vis b.
Hypothesis vis_u : vis u.
Hypothesis not_vis_v : ~ vis v.
Hypothesis tree :
  forall a b, vis a -> vis b ->
    exists p, simple_path adj a p b /\ forall q, simple_path adj a q b -> q = p.

Lemma leaf_u_ne_v : u <> v.
Proof. intros ->. done. Qed.

Lemma leaf_walk_vis (a b : V) (p : list V) :
  walk adj a p b -> Forall vis p.
Proof.
  revert a. induction p as [|x p IH]; simpl; intros a; [done|].
  intros [Hax Hw]. constructor; [by apply adj_vis in Hax as [_ ?] | eauto].
Qed.

Lemma leaf_old_new (a b : V) (p : list V) :
  walk adj a p b -> walk adj' a p b.
Proof.
  apply walk_impl. intros x y _ _ Hxy. apply adj'_iff. by left.
Qed.

Lemma leaf_new_old (a b : V) (p : list V) :
  walk adj' a p b -> v ∉ a :: p -> walk adj a p b.
Proof.
  intros Hw Hv. eapply walk_impl; [|exact Hw].
  intros x y Hx Hy Hxy. apply adj'_iff in Hxy as [?|[[_ ->]|[-> _]]]; [done| |].
  - exfalso. apply Hv. by right.
  - done.
Qed.

Lemma leaf_adj'_to_v (a : V) : adj' a v -> a = u.
Proof.
  intros Ha. apply adj'_iff in Ha as [Ha|[[-> _]|[_ Hvu]]]; [|done|].
  - apply adj_vis in Ha as [_ ?]. done.
  - exfalso. by apply leaf_u_ne_v.
Qed.

Lemma leaf_adj'_from_v (b : V) : adj' v b -> b = u.
Proof.
  intros Hb. apply adj'_iff in Hb as [Hb|[[Hvu _]|[_ ->]]]; [| |done].
  - apply adj_vis in Hb as [? _]. done.
  - exfalso. by apply leaf_u_ne_v.
Qed.

(** A simple path from [v] to [v] has no step. *)
Lemma leaf_path_v_v (p : list V) : simple_path adj' v p v -> p = [].
Proof.
  intros [Hw Hnd]. destruct p as [|x p]; [done|]. exfalso.
  destruct Hw as [_ Hw]. apply walk_last in Hw.
  apply NoDup_cons in Hnd as [Hv _]. done.
Qed.

(** A simple path that starts at the leaf goes through [u]. *)
Lemma leaf_path_from_v (b : V) (p : list V) :
  simple_path adj' v p b -> b <> v ->
  exists p', p = u :: p' /\ simple_path adj u p' b.
Proof.
  intros [Hw Hnd] Hb. destruct p as [|x p]; [done|].
  destruct Hw as [Hvx Hw]. apply leaf_adj'_from_v in Hvx as ->.
  exists p. split; [done|].
  apply NoDup_cons in Hnd as [Hv Hnd]. split; [|done].
  by apply leaf_new_old.
Qed.

(** A simple path that ends at the leaf comes through [u]. *)
Lemma leaf_path_to_v (a : V) (p : list V) :
  simple_path adj' a p v -> a <> v ->
  exists p', p = p' ++ [v] /\ simple_path adj a p' u.
Proof.
  revert a. induction p as [|x p IH]; intros a [Hw Hnd] Ha; [done|].
  destruct Hw as [Hax Hw]. apply NoDup_cons in Hnd as [Ha' Hnd].
  destruct (decide (x = v)) as [->|Hx].
  - assert (p = []) as -> by (by apply leaf_path_v_v).
    apply leaf_adj'_to_v in Hax as ->.
    exists []. split; [done|]. split; [done|]. apply NoDup_singleton.
  - destruct (IH x) as (p' & -> & Hw' & Hnd'); [done|done|].
    exists (x :: p'). split; [done|]. split.
    + split; [|done]. apply adj'_iff in Hax as [?|[[_ ?]|[? _]]]; done.
    + apply NoDup_cons. split; [|done].
      intros Hin. apply Ha'. rewrite app_comm_cons. apply elem_of_app. by left.
Qed.

(** Hanging the new leaf [v] on [u] keeps the paths unique. *)
Lemma leaf_tree (a b : V) :
  vis a \/ a = v -> vis b \/ b = v ->
  exists p, simple_path adj' a p b /\ forall q, simple_path adj' a q b -> q = p.
Proof.
  assert (Hne : forall x, vis x -> x <> v) by (intros x Hx ->; done).
  assert (Hold : forall x y p, vis x -> simple_path adj x p y -> v ∉ x :: p).
  { intros x y p Hx [Hw _] Hin. apply leaf_walk_vis in Hw.
    apply elem_of_cons in Hin as [->|Hin]; [done|].
    rewrite Forall_forall in Hw. by apply Hw in Hin. }
  intros [Ha| ->] [Hb| ->].
  - destruct (tree a b Ha Hb) as (p & Hp & Huniq).
    exists p. split.
    + destruct Hp as [Hw Hnd]. split; [by apply leaf_old_new | done].
    + intros q [Hw Hnd]. apply Huniq. split; [|done].
      apply leaf_new_old; [done|]. intros Hin.
      apply elem_of_cons in Hin as [Heq|Hin]; [by apply (Hne a)|].
      (* [v] inside [q]: the cell after it would be [u], and so would be
         the cell before it *)
      clear Huniq Hp p. revert a Ha Hw Hnd Hin.
      induction q as [|x q IH]; intros a Ha Hw Hnd Hin;
        [by apply elem_of_nil in Hin|].
      destruct Hw as [Hax Hw]. apply NoDup_cons in Hnd as [Ha' Hnd].
      destruct (decide (x = v)) as [->|Hx].
      * apply leaf_adj'_to_v in Hax as ->.
        destruct q as [|y q]; [simpl in Hw; by apply (Hne b)|].
        destruct Hw as [Hvy _]. apply leaf_adj'_from_v in Hvy as ->.
        apply Ha'. right. left.
      * apply elem_of_cons in Hin as [?|Hin]; [done|].
        apply (IH x); try done.
        apply adj'_iff in Hax as [Hax|[[_ ?]|[? _]]]; [|done|by apply Hne in Ha].
        by apply adj_vis in Hax as [_ ?].
  - destruct (tree a u Ha vis_u) as (p & Hp & Huniq).
    exists (p ++ [v]). split.
    + destruct Hp as [Hw Hnd]. split.
      * eapply walk_app; [by apply leaf_old_new|]. simpl. split; [|done].
        apply adj'_iff. right. by left.
      * rewrite app_comm_cons. apply NoDup_app. split; [done|]. split.
        -- intros x Hx Hxv. apply list_elem_of_singleton in Hxv as ->.
           by apply (Hold a u p).
        -- apply NoDup_singleton.
    + intros q Hq. apply leaf_path_to_v in Hq as (q' & -> & Hq'); [|by apply Hne].
      f_equal. by apply Huniq.
  - destruct (tree u b vis_u Hb) as (p & Hp & Huniq).
    exists (u :: p). split.
    + destruct Hp as [Hw Hnd]. split.
      * simpl. split; [|by apply leaf_old_new].
        apply adj'_iff. right. by right.
      * apply NoDup_cons. split; [|done]. by apply (Hold u b p).
    + intros q Hq. apply leaf_path_from_v in Hq as (q' & -> & Hq'); [|by apply Hne].
      f_equal. by apply Huniq.
  - exists []. split.
    + split; [done | apply NoDup_singleton].
    + apply leaf_path_v_v.
Qed.

End leaf.

(** ** One carve *)

Section carve_push.
Variables (rows cols : Z) (w : list (list Z)) (cur nxt : Coord).
Variables (dr dc wc wn m : Z).
Hypothesis Hw : grid_dims w rows cols.
Hypothesis Hcur : in_grid rows cols cur.
Hypothesis Hnxt : in_grid rows cols nxt.
Hypothesis Hd : (dr, dc, wc, wn) ∈ DIRS.
Hypothesis Hstep : nxt = (cur.1 + dr, cur.2 + dc).
Hypothesis Hm : cell w cur = Some m.
Hypothesis Hfull : cell w nxt = Some 15.

Let w2 : list (list Z) :=
  cell_set (cell_set w cur (Z.land m (Z.lnot wc))) nxt (Z.land 15 (Z.lnot wn)).

Lemma carve_cur_ne_nxt : cur <> nxt.
Proof. rewrite Hstep. intros Heq. by eapply DIRS_step_ne. Qed.

Lemma carve_back : cur = (nxt.1 - dr, nxt.2 - dc).
Proof. rewrite Hstep. destruct cur. simpl. f_equal; lia. Qed.

Lemma carve_dims : grid_dims w2 rows cols.
Proof. unfold w2. by do 2 apply grid_dims_cell_set. Qed.

Lemma carve_no_wall (p : Coord) (bit : Z) (dr' dc' x' : Z) :
  in_grid rows cols p -> (dr', dc', bit, x') ∈ DIRS ->
  no_wall w2 p bit = true <->
  (p = cur /\ bit = wc) \/ (p = nxt /\ bit = wn) \/ no_wall w p bit = true.
Proof.
  intros Hp Hbit. pose proof carve_cur_ne_nxt as Hne.
  pose proof (DIRS_opposite _ _ _ _ Hd) as Hd'.
  unfold w2. destruct (decide (p = nxt)) as [->|Hpn].
  - rewrite (no_wall_cell_set_eq _ rows cols)
      by (by apply grid_dims_cell_set || done).
    rewrite (land_lnot_side 15 wn bit _ _ _ _ _ _ Hd' Hbit).
    replace (Z.land 15 bit =? 0) with false
      by (symmetry; eapply (land_all_walls bit); eauto).
    rewrite orb_false_r, Z.eqb_eq.
    unfold no_wall at 1. rewrite Hfull.
    replace (Z.land 15 bit =? 0) with false
      by (symmetry; eapply (land_all_walls bit); eauto).
    split; [intros ->; right; by left | intros [[? _]|[[_ ->]|?]]; done].
  - rewrite (no_wall_cell_set_ne _ rows cols) by done.
    destruct (decide (p = cur)) as [->|Hpc].
    + rewrite (no_wall_cell_set_eq _ rows cols) by done.
      rewrite (land_lnot_side m wc bit _ _ _ _ _ _ Hd Hbit).
      rewrite orb_true_iff, Z.eqb_eq. unfold no_wall. rewrite Hm.
      split; [intros [->|?]; [by left | by right; right]
             | intros [[_ ->]|[[? _]|?]]; [by left | done | by right]].
    + rewrite (no_wall_cell_set_ne _ rows cols) by done.
      split; [by right; right | intros [[? _]|[[? _]|?]]; done].
Qed.

Lemma carve_open_adj (a b : Coord) :
  open_adj rows cols w2 a b <->
  open_adj rows cols w a b \/ (a = cur /\ b = nxt) \/ (a = nxt /\ b = cur).
Proof.
  pose proof (DIRS_opposite _ _ _ _ Hd) as Hd'.
  unfold open_adj. split.
  - intros (Ha & Hb & dr' & dc' & bit & x' & Hbit & -> & Hopen).
    apply (carve_no_wall a bit dr' dc' x' Ha Hbit) in Hopen
      as [[-> ->]|[[-> ->]|Hopen]].
    + destruct (DIRS_side_inj _ _ _ _ _ _ _ Hd Hbit) as (-> & -> & _).
      right. left. by rewrite Hstep.
    + destruct (DIRS_side_inj _ _ _ _ _ _ _ Hd' Hbit) as (-> & -> & _).
      right. right. split; [done|]. rewrite carve_back.
      f_equal; lia.
    + left. split; [done|]. split; [done|]. exists dr', dc', bit, x'. done.
  - intros [(Ha & Hb & dr' & dc' & bit & x' & Hbit & -> & Hopen)|[[-> ->]|[-> ->]]].
    + split; [done|]. split; [done|]. exists dr', dc', bit, x'.
      split; [done|]. split; [done|].
      apply (carve_no_wall a bit dr' dc' x' Ha Hbit). by right; right.
    + split; [done|]. split; [done|]. exists dr, dc, wc, wn.
      split; [done|]. split; [done|].
      apply (carve_no_wall cur wc dr dc wn Hcur Hd). by left.
    + split; [done|]. split; [done|]. exists (- dr), (- dc), wn, wc.
      split; [done|]. split.
      * rewrite carve_back at 1. simpl. f_equal; lia.
      * apply (carve_no_wall nxt wn _ _ wc Hnxt Hd'). right. by left.
Qed.

Lemma carve_symmetric :
  walls_symmetric rows cols w -> walls_symmetric rows cols w2.
Proof.
  intros Hsym a b dr' dc' bit bit' Ha Hb Hbit Hab.
  pose proof (DIRS_opposite _ _ _ _ Hd) as Hd'.
  pose proof (DIRS_opposite _ _ _ _ Hbit) as Hbit'.
  assert (Hba : a = (b.1 - dr', b.2 - dc')).
  { rewrite Hab. destruct a. simpl. f_equal; lia. }
  apply Bool.eq_iff_eq_true.
  rewrite (carve_no_wall a bit dr' dc' bit' Ha Hbit).
  rewrite (carve_no_wall b bit' _ _ bit Hb Hbit').
  rewrite (Hsym a b dr' dc' bit bit' Ha Hb Hbit Hab).
  split.
  - intros [[-> ->]|[[-> ->]|?]]; [| |by right; right].
    + destruct (DIRS_side_inj _ _ _ _ _ _ _ Hd Hbit) as (-> & -> & ->).
      right. left. by rewrite Hab, Hstep.
    + destruct (DIRS_side_inj _ _ _ _ _ _ _ Hd' Hbit) as (-> & -> & ->).
      left. split; [|done]. rewrite Hab, carve_back. f_equal; lia.
  - intros [[-> ->]|[[-> ->]|?]]; [| |by right; right].
    + destruct (DIRS_side_inj _ _ _ _ _ _ _ Hd Hbit') as (Hr & Hc & ->).
      right. left. split; [|done]. rewrite Hba, Hstep. f_equal; lia.
    + destruct (DIRS_side_inj _ _ _ _ _ _ _ Hd' Hbit') as (Hr & Hc & ->).
      left. split; [|done]. rewrite Hba, carve_back. f_equal; lia.
Qed.

Lemma carve_edge_open (a b : Coord) (er ec we we' : Z) :
  in_grid rows cols a -> in_grid rows cols b ->
  (er, ec, we, we') ∈ DIRS -> b = (a.1 + er, a.2 + ec) ->
  no_wall w2 a we && no_wall w2 b we' = true <->
  no_wall w a we && no_wall w b we' = true
  \/ (a = cur /\ b = nxt) \/ (a = nxt /\ b = cur).
Proof.
  intros Ha Hb Hbit Hab.
  pose proof (DIRS_opposite _ _ _ _ Hd) as Hd'.
  pose proof (DIRS_opposite _ _ _ _ Hbit) as Hbit'.
  assert (Hba : a = (b.1 - er, b.2 - ec)).
  { rewrite Hab. destruct a. simpl. f_equal; lia. }
  rewrite !andb_true_iff.
  rewrite (carve_no_wall a we er ec we' Ha Hbit).
  rewrite (carve_no_wall b we' _ _ we Hb Hbit').
  split.
  - intros [[[-> ->]|[[-> ->]|Oa]] [[Hb1 Hb2]|[[Hb1 Hb2]|Ob]]];
      try (left; done);
      try (destruct (DIRS_side_inj _ _ _ _ _ _ _ Hd Hbit) as (-> & -> & ->);
           right; left; split; [done|]; by rewrite Hab, Hstep);
      try (destruct (DIRS_side_inj _ _ _ _ _ _ _ Hd' Hbit) as (-> & -> & ->);
           right; right; split; [done|]; rewrite Hab, carve_back; f_equal; lia).
    + rewrite Hb2 in Hbit'.
      destruct (DIRS_side_inj _ _ _ _ _ _ _ Hd Hbit') as (Hr & Hc & _).
      right. right. split; [|done]. rewrite Hba, Hb1, Hstep. f_equal; lia.
    + rewrite Hb2 in Hbit'.
      destruct (DIRS_side_inj _ _ _ _ _ _ _ Hd' Hbit') as (Hr & Hc & _).
      right. left. split; [|done]. rewrite Hba, Hb1, carve_back.
      simpl. f_equal; lia.
  - intros [[Oa Ob]|[[-> ->]|[-> ->]]].
    + split; by right; right.
    + assert (er = dr /\ ec = dc) as [-> ->].
      { rewrite Hstep in Hab. injection Hab. lia. }
      destruct (DIRS_delta_inj _ _ _ _ _ _ Hd Hbit) as [-> ->].
      split; [by left | right; by left].
    + assert (er = - dr /\ ec = - dc) as [-> ->].
      { rewrite carve_back in Hab. injection Hab. lia. }
      destruct (DIRS_delta_inj _ _ _ _ _ _ Hd' Hbit) as [-> ->].
      split; [right; by left | by left].
Qed.

Lemma carve_grid_edge_open (a b : Coord) :
  (a, b) ∈ grid_edges rows cols ->
  edge_open w2 (a, b) = true <->
  edge_open w (a, b) = true \/ (a = cur /\ b = nxt) \/ (a = nxt /\ b = cur).
Proof.
  intros He. apply elem_of_grid_edges in He as [Ha [[-> Hc]|[-> Hr]]].
  - unfold edge_open. simpl. rewrite Z.eqb_refl.
    apply (carve_edge_open a _ 0 1 E W); try done.
    + destruct Ha. split; simpl; lia.
    + apply DIRS_east.
    + f_equal; lia.
  - unfold edge_open. simpl.
    replace (a.1 + 1 =? a.1) with false by (symmetry; apply Z.eqb_neq; lia).
    apply (carve_edge_open a _ 1 0 S N); try done.
    + destruct Ha. split; simpl; lia.
    + apply DIRS_south.
    + f_equal; lia.
Qed.

Lemma carve_edge_in_grid :
  ((cur, nxt) ∈ grid_edges rows cols /\ (nxt, cur) ∉ grid_edges rows cols)
  \/ ((nxt, cur) ∈ grid_edges rows cols /\ (cur, nxt) ∉ grid_edges rows cols).
Proof.
  rewrite !elem_of_grid_edges. destruct Hcur as [? ?], Hnxt as [? ?].
  destruct cur as [r c]. subst nxt. simpl in *.
  pose proof Hd as Hd0. dirs_cases Hd0.
  - right. split.
    + split; [done|]. right. split; [f_equal; lia | lia].
    + intros [_ [[Heq _]|[Heq _]]]; injection Heq; lia.
  - left. split.
    + split; [done|]. left. split; [f_equal; lia | lia].
    + intros [_ [[Heq _]|[Heq _]]]; injection Heq; lia.
  - left. split.
    + split; [done|]. right. split; [f_equal; lia | lia].
    + intros [_ [[Heq _]|[Heq _]]]; injection Heq; lia.
  - right. split.
    + split; [done|]. left. split; [f_equal; lia | lia].
    + intros [_ [[Heq _]|[Heq _]]]; injection Heq; lia.
Qed.

Lemma carve_closed_edge (a b : Coord) :
  a = nxt \/ b = nxt -> edge_open w (a, b) = false.
Proof.
  assert (Hn : forall bit dr' dc' x', (dr', dc', bit, x') ∈ DIRS ->
                 no_wall w nxt bit = false).
  { intros bit dr' dc' x' Hbit. unfold no_wall. rewrite Hfull.
    eapply (land_all_walls bit); eauto. }
  pose proof DIRS_east as HE. pose proof DIRS_south as HS.
  pose proof (DIRS_opposite _ _ _ _ HE) as HW.
  pose proof (DIRS_opposite _ _ _ _ HS) as HN.
  unfold edge_open. intros [-> | ->]; destruct (_ =? _);
    rewrite ?(Hn _ _ _ _ HE), ?(Hn _ _ _ _ HS), ?(Hn _ _ _ _ HW),
      ?(Hn _ _ _ _ HN), ?andb_false_r; done.
Qed.

(** A carve opens exactly one edge. *)
Lemma carve_edges :
  length (open_edges rows cols w2)
  = Datatypes.S (length (open_edges rows cols w)).
Proof.
  unfold open_edges.
  destruct carve_edge_in_grid as [[Hin Hout]|[Hin Hout]].
  - apply (filter_length_switch _ _ _ (cur, nxt)).
    + apply NoDup_grid_edges.
    + done.
    + rewrite carve_closed_edge; [done | by right].
    + apply carve_grid_edge_open; [done|]. right. by left.
    + intros [a b] He Hne. rewrite carve_grid_edge_open by done.
      split; [|by left]. intros [?|[[-> ->]|[-> ->]]]; done.
  - apply (filter_length_switch _ _ _ (nxt, cur)).
    + apply NoDup_grid_edges.
    + done.
    + rewrite carve_closed_edge; [done | by left].
    + apply carve_grid_edge_open; [done|]. right. by right.
    + intros [a b] He Hne. rewrite carve_grid_edge_open by done.
      split; [|by left]. intros [?|[[-> ->]|[-> ->]]]; done.
Qed.

End carve_push.

(** ** The marked cells *)

Lemma marked_cell_set_eq (v : list (list bool)) (rows cols : Z) (p : Coord) :
  grid_dims v rows cols -> in_grid rows cols p -> marked (cell_set v p true) p.
Proof. intros. unfold marked. by eapply cell_cell_set_eq. Qed.

Lemma marked_cell_set_iff (v : list (list bool)) (rows cols : Z) (p q : Coord) :
  grid_dims v rows cols -> in_grid rows cols p -> in_grid rows cols q ->
  marked (cell_set v p true) q <-> q = p \/ marked v q.
Proof.
  intros Hd Hp Hq. destruct (decide (q = p)) as [->|Hne].
  - split; [by left|]. intros _. by eapply marked_cell_set_eq.
  - unfold marked. destruct Hp, Hq.
    rewrite cell_cell_set_ne by (done || lia). naive_solver.
Qed.

Lemma marked_cells_cell_set (v : list (list bool)) (rows cols : Z) (p : Coord) :
  grid_dims v rows cols -> in_grid rows cols p -> cell v p = Some false ->
  length (marked_cells rows cols (cell_set v p true))
  = Datatypes.S (length (marked_cells rows cols v)).
Proof.
  intros Hd Hp Hv. unfold marked_cells.
  apply (filter_length_switch _ _ _ p).
  - apply NoDup_all_cells.
  - by apply elem_of_all_cells.
  - congruence.
  - by eapply cell_cell_set_eq.
  - intros q Hq Hne. apply elem_of_all_cells in Hq.
    destruct Hp, Hq. rewrite cell_cell_set_ne by (done || lia). done.
Qed.

Lemma marked_cells_le (rows cols : Z) (v : list (list bool)) :
  (length (marked_cells rows cols v) <= length (all_cells rows cols))%nat.
Proof. unfold marked_cells. apply length_filter. Qed.

(** ** One round of the carving loop *)

Lemma carve_step_cases {R} `{RandomSource R} (HR : RandomSourceOk R)
    (rows cols : Z) (start : Coord) (st : carve_state R)
    (cur : Coord) (below : list Coord) :
  carve_inv rows cols start st -> c_stack st = cur :: below ->
  (carve_step rows cols st
     = Ok (mkCarve (c_walls st) (c_visited st) below (c_rng st))
   /\ forall q, grid_adj rows cols cur q -> marked (c_visited st) q)
  \/ (exists dr dc wc wn g' m,
        let nxt := (cur.1 + dr, cur.2 + dc) in
        (dr, dc, wc, wn) ∈ DIRS /\ in_grid rows cols nxt
        /\ cell (c_visited st) nxt = Some false
        /\ cell (c_walls st) cur = Some m
        /\ carve_step rows cols st
           = Ok (mkCarve
                   (cell_set (cell_set (c_walls st) cur (Z.land m (Z.lnot wc)))
                      nxt (Z.land 15 (Z.lnot wn)))
                   (cell_set (c_visited st) nxt true)
                   (nxt :: cur :: below) g')).
Proof.
  intros Hinv Hstack. destruct Hinv as [Hwd Hvd _ Hst Hclosed _ _ _ _].
  rewrite Hstack in Hst. apply Forall_cons in Hst as [[Hcur _] _].
  unfold carve_step. rewrite Hstack. destruct cur as [r c].
  destruct (collect_neigh_spec rows cols (c_visited st) r c DIRS Hvd)
    as (l & -> & Hl).
  simpl. destruct l as [|x l].
  - left. split; [done|].
    intros q (_ & Hq & dr & dc & w & w' & Hd & ->). simpl in *.
    destruct (cell_is_Some _ rows cols _ Hvd Hq) as [[|] Hb]; [done|].
    exfalso. eapply elem_of_nil. apply Hl. exists dr, dc, w, w'. done.
  - right.
    destruct (choice_spec HR (c_rng st) (x :: l)) as (y & g' & -> & Hy); [done|].
    apply Hl in Hy as (dr & dc & wc & wn & Hd & -> & Hnxt & Hfalse).
    simpl.
    destruct (cell_is_Some _ rows cols _ Hwd Hcur) as [m Hm].
    exists dr, dc, wc, wn, g', m. simpl.
    do 4 (split; [done|]).
    assert (Hne : (r, c) <> (r + dr, c + dc)).
    { intros Heq. symmetry in Heq. by eapply (DIRS_step_ne _ _ _ _ (r, c)). }
    rewrite (grid_get_cell _ r c m) by (destruct Hcur; simpl in *; lia || done).
    simpl. rewrite (grid_set_cell _ rows cols) by done. simpl.
    assert (Hm' : cell (cell_set (c_walls st) (r, c) (Z.land m (Z.lnot wc)))
                    (r + dr, c + dc) = Some 15).
    { destruct Hcur, Hnxt. rewrite cell_cell_set_ne by (simpl in *; lia || done).
      by apply Hclosed. }
    rewrite (grid_get_cell _ _ _ 15)
      by (destruct Hnxt; simpl in *; lia || done).
    simpl. rewrite (grid_set_cell _ rows cols)
      by (by apply grid_dims_cell_set || done).
    simpl. rewrite (grid_set_cell _ rows cols) by done. done.
Qed.


Lemma open_adj_marked {R} (rows cols : Z) (start : Coord) (st : carve_state R)
    (a b : Coord) :
  carve_inv rows cols start st ->
  open_adj rows cols (c_walls st) a b ->
  (in_grid rows cols a /\ marked (c_visited st) a)
  /\ (in_grid rows cols b /\ marked (c_visited st) b).
Proof.
  intros [Hwd Hvd _ _ Hclosed Hsym _ _ _].
  intros (Ha & Hb & dr & dc & bit & bit' & Hd & Hab & Hopen).
  assert (Hmk : forall p s dr' dc' s', in_grid rows cols p ->
            (dr', dc', s, s') ∈ DIRS -> no_wall (c_walls st) p s = true ->
            marked (c_visited st) p).
  { intros p s dr' dc' s' Hp Hs Hno.
    destruct (cell_is_Some _ rows cols _ Hvd Hp) as [[|] Hv]; [done|].
    exfalso. unfold no_wall in Hno. rewrite (Hclosed p Hp Hv) in Hno.
    by rewrite (land_all_walls s dr' dc' s' Hs) in Hno. }
  split; (split; [done|]).
  - by eapply Hmk.
  - eapply (Hmk b bit'); [done | by eapply DIRS_opposite |].
    by rewrite <- (Hsym a b dr dc bit bit' Ha Hb Hd Hab).
Qed.

Lemma carve_step_inv {R} `{RandomSource R} (HR : RandomSourceOk R)
    (rows cols : Z) (start : Coord) (st : carve_state R) :
  carve_inv rows cols start st -> c_stack st <> [] ->
  exists st', carve_step rows cols st = Ok st'
    /\ carve_inv rows cols start st'
    /\ (carve_measure rows cols st' < carve_measure rows cols st)%nat.
Proof.
  intros Hinv Hne. destruct (c_stack st) as [|cur below] eqn:Hstack; [done|].
  destruct (carve_step_cases HR rows cols start st cur below Hinv Hstack)
    as [[Hstep Hall]|(dr & dc & wc & wn & g' & m & Hd & Hnxt & Hfalse & Hm & Hstep)].
  - (* backtrack *)
    eexists. split; [exact Hstep|].
    destruct Hinv as [Hwd Hvd Hstart Hst Hclosed Hsym Hdone Htree Hcount].
    rewrite Hstack in Hst, Hdone. split.
    + split; simpl; try done.
      * by apply Forall_cons in Hst as [_ ?].
      * intros p q Hp Hnin Hadj.
        destruct (decide (p = cur)) as [->|Hpc]; [by apply Hall|].
        apply (Hdone p q); try done. by apply not_elem_of_cons.
    + unfold carve_measure. rewrite Hstack. simpl. lia.
  - (* carve towards an unvisited neighbour *)
    set (nxt := (cur.1 + dr, cur.2 + dc)) in *.
    eexists. split; [exact Hstep|].
    pose proof Hinv as [Hwd Hvd Hstart Hst Hclosed Hsym Hdone Htree Hcount].
    rewrite Hstack in Hst, Hdone.
    pose proof Hst as Hst0. apply Forall_cons in Hst0 as [[Hcur Hcurm] _].
    assert (Hfull : cell (c_walls st) nxt = Some 15) by (by apply Hclosed).
    assert (Hcn : cur <> nxt).
    { by eapply (carve_cur_ne_nxt cur nxt dr dc wc wn). }
    assert (Hmono : forall p, in_grid rows cols p -> marked (c_visited st) p ->
                      marked (cell_set (c_visited st) nxt true) p).
    { intros p Hp Hmk. apply (marked_cell_set_iff _ rows cols); try done.
      by right. }
    split.
    + split; simpl.
      * by eapply carve_dims.
      * by apply grid_dims_cell_set.
      * destruct Hstart. split; [done|]. by apply Hmono.
      * constructor.
        -- split; [done|]. by eapply marked_cell_set_eq.
        -- eapply Forall_impl; [exact Hst|]. simpl. intros p [? ?].
           split; [done|]. by apply Hmono.
      * intros p Hp Hv.
        assert (Hpn : p <> nxt).
        { intros ->. rewrite (cell_cell_set_eq _ rows cols) in Hv; done. }
        destruct Hp as [? ?], Hnxt as [? ?], Hcur as [? ?].
        rewrite cell_cell_set_ne in Hv by (done || lia).
        assert (Hpc : p <> cur).
        { intros ->. unfold marked in Hcurm. congruence. }
        rewrite !cell_cell_set_ne by (done || lia).
        by apply Hclosed.
      * by eapply (carve_symmetric rows cols (c_walls st) cur nxt dr dc wc wn m).
      * intros p q Hp Hnin Hadj.
        apply not_elem_of_cons in Hnin as [Hpn Hnin].
        pose proof Hadj as (Hpg & Hqg & _).
        apply (marked_cell_set_iff _ rows cols) in Hp as [?|Hp]; try done.
        apply Hmono; [done|]. by apply (Hdone p q).
      * intros a b Ha Ham Hb Hbm.
        apply (leaf_tree (open_adj rows cols (c_walls st)) _
                 (fun p => in_grid rows cols p /\ marked (c_visited st) p)
                 cur nxt).
        -- intros x y.
           by apply (carve_open_adj rows cols (c_walls st) cur nxt dr dc wc wn m).
        -- intros x y Hxy. by eapply open_adj_marked.
        -- done.
        -- intros [_ Hmk]. unfold marked in Hmk. congruence.
        -- intros x y [? ?] [? ?]. by apply Htree.
        -- apply (marked_cell_set_iff _ rows cols) in Ham as [?|?]; try done;
             [by right | by left].
        -- apply (marked_cell_set_iff _ rows cols) in Hbm as [?|?]; try done;
             [by right | by left].
      * rewrite (marked_cells_cell_set _ rows cols) by done.
        rewrite (carve_edges rows cols (c_walls st) cur nxt dr dc wc wn m)
          by done.
        by rewrite Hcount.
    + unfold carve_measure. simpl. rewrite Hstack. simpl.
      pose proof (marked_cells_le rows cols (cell_set (c_visited st) nxt true)).
      rewrite (marked_cells_cell_set _ rows cols) in * by done. lia.
Qed.


(** ** The whole loop *)

Lemma simple_path_refl {V} (adj : V -> V -> Prop) (a : V) (p : list V) :
  simple_path adj a p a -> p = [].
Proof.
  intros [Hw Hnd]. destruct p as [|x p]; [done|]. exfalso.
  destruct Hw as [_ Hw]. apply walk_last in Hw.
  apply NoDup_cons in Hnd as [Ha _]. done.
Qed.

Lemma filter_none {A} (P : A -> Prop) `{!forall x, Decision (P x)} (l : list A) :
  (forall x, x ∈ l -> ~ P x) -> filter P l = [].
Proof.
  induction l as [|x l IH]; intros Hno; [done|].
  rewrite filter_cons. destruct (decide (P x)) as [HP|_].
  - exfalso. by apply (Hno x); [left|].
  - apply IH. intros y Hy. apply Hno. by right.
Qed.

Lemma filter_all {A} (P : A -> Prop) `{!forall x, Decision (P x)} (l : list A) :
  (forall x, x ∈ l -> P x) -> filter P l = l.
Proof.
  induction l as [|x l IH]; intros Hall; [done|].
  rewrite filter_cons. destruct (decide (P x)) as [_|HP].
  - f_equal. apply IH. intros y Hy. apply Hall. by right.
  - exfalso. apply HP, Hall. left.
Qed.

Lemma carve_init_inv {R} `{RandomSource R} (rows cols : Z) (seed : option Z)
    (start : Coord) :
  in_grid rows cols start ->
  exists st0, carve_init rows cols seed start = Ok st0
    /\ carve_inv rows cols start st0
    /\ (carve_measure rows cols st0 < 2 * Z.to_nat rows * Z.to_nat cols)%nat.
Proof.
  intros Hstart. unfold carve_init. destruct start as [sr sc].
  assert (0 <= rows /\ 0 <= cols) as [Hr Hc] by (destruct Hstart; simpl in *; lia).
  set (w0 := replicate (Z.to_nat rows) (replicate (Z.to_nat cols) 15)).
  set (v0 := replicate (Z.to_nat rows) (replicate (Z.to_nat cols) false)).
  change (Z.lor (Z.lor (Z.lor N E) S) W) with 15. fold w0.
  assert (Hwd : grid_dims w0 rows cols) by (by apply grid_dims_replicate).
  assert (Hvd : grid_dims v0 rows cols) by (by apply grid_dims_replicate).
  rewrite (grid_set_cell v0 rows cols) by done. simpl.
  eexists. split; [done|].
  assert (Hnw : forall p bit dr dc x, in_grid rows cols p ->
                  (dr, dc, bit, x) ∈ DIRS -> no_wall w0 p bit = false).
  { intros p bit dr dc x Hp Hbit. unfold no_wall, w0.
    rewrite cell_replicate by done. by eapply land_all_walls. }
  assert (Hmk : forall p, in_grid rows cols p ->
                  marked (cell_set v0 (sr, sc) true) p -> p = (sr, sc)).
  { intros p Hp Hm. apply (marked_cell_set_iff _ rows cols) in Hm as [?|Hm];
      try done.
    unfold marked, v0 in Hm. rewrite cell_replicate in Hm; done. }
  assert (Hedges : open_edges rows cols w0 = []).
  { unfold open_edges. apply filter_none. intros [a b] He.
    apply elem_of_grid_edges in He as [Ha _].
    unfold edge_open. destruct (b.1 =? a.1).
    - by rewrite (Hnw a E _ _ _ Ha DIRS_east).
    - by rewrite (Hnw a S _ _ _ Ha DIRS_south). }
  assert (Hcount : length (marked_cells rows cols (cell_set v0 (sr, sc) true))
                   = 1%nat).
  { rewrite (marked_cells_cell_set _ rows cols); try done.
    - unfold marked_cells. rewrite filter_none; [done|].
      intros p Hp. apply elem_of_all_cells in Hp.
      unfold v0. by rewrite cell_replicate.
    - unfold v0. by apply cell_replicate. }
  split.
  - split; simpl.
    + done.
    + by apply grid_dims_cell_set.
    + split; [done|]. by eapply marked_cell_set_eq.
    + constructor; [|done]. split; [done|]. by eapply marked_cell_set_eq.
    + intros p Hp _. unfold w0. by apply cell_replicate.
    + intros a b dr dc bit bit' Ha Hb Hd Hab.
      rewrite (Hnw a bit dr dc bit') by done.
      rewrite (Hnw b bit' (- dr) (- dc) bit); [done|done|].
      by apply DIRS_opposite.
    + intros p q Hp Hnin (Hpg & _). apply Hmk in Hp; [|done]. subst p.
      exfalso. apply Hnin. left.
    + intros a b Ha Ham Hb Hbm.
      apply Hmk in Ham, Hbm; try done. subst a b.
      exists []. split.
      * split; [done | apply NoDup_singleton].
      * apply simple_path_refl.
    + by rewrite Hcount, Hedges.
  - unfold carve_measure. simpl. rewrite Hcount, length_all_cells.
    destruct Hstart; simpl in *.
    assert (1 <= Z.to_nat rows * Z.to_nat cols)%nat by nia. lia.
Qed.

Lemma carve_loop_fuel_mono {R} `{RandomSource R} (rows cols : Z)
    (fuel fuel' : nat) (st st' : carve_state R) :
  carve_loop fuel rows cols st = Ok st' -> (fuel <= fuel')%nat ->
  carve_loop fuel' rows cols st = Ok st'.
Proof.
  revert fuel' st. induction fuel as [|fuel IH]; intros fuel' st.
  - destruct fuel'; simpl; destruct (c_stack st); done.
  - intros Hloop Hle. destruct fuel' as [|fuel']; [lia|].
    simpl in *. destruct (c_stack st); [done|].
    destruct (carve_step rows cols st) as [st1|e]; [|done]. simpl in *.
    apply IH; [done|lia].
Qed.

Lemma carve_loop_reaches {R} `{RandomSource R} (rows cols : Z)
    (fuel : nat) (st st' : carve_state R) :
  carve_loop fuel rows cols st = Ok st' ->
  rtc (carve_next rows cols) st st' /\ c_stack st' = [].
Proof.
  revert st. induction fuel as [|fuel IH]; intros st; simpl.
  - destruct (c_stack st) eqn:Hs; [|done]. intros [= <-]. done.
  - destruct (c_stack st) eqn:Hs; [intros [= <-]; done|].
    destruct (carve_step rows cols st) as [st1|e] eqn:Hstep; [|done]. simpl.
    intros Hloop. destruct (IH st1 Hloop) as [Hrtc Hnil]. split; [|done].
    eapply rtc_l; [|exact Hrtc]. split; [|done]. by rewrite Hs.
Qed.

Lemma carve_reach_inv {R} `{RandomSource R} (HR : RandomSourceOk R)
    (rows cols : Z) (start : Coord) (st st' : carve_state R) :
  carve_inv rows cols start st -> rtc (carve_next rows cols) st st' ->
  carve_inv rows cols start st'.
Proof.
  intros Hinv Hrtc. induction Hrtc as [|st st1 st' [Hne Hstep] _ IH]; [done|].
  apply IH. destruct (carve_step_inv HR rows cols start st Hinv Hne)
    as (st2 & Hstep2 & Hinv2 & _). congruence.
Qed.

Lemma carve_loop_terminates {R} `{RandomSource R} (HR : RandomSourceOk R)
    (rows cols : Z) (start : Coord) (fuel : nat) (st : carve_state R) :
  carve_inv rows cols start st ->
  (carve_measure rows cols st <= fuel)%nat ->
  exists st', carve_loop fuel rows cols st = Ok st'.
Proof.
  revert st. induction fuel as [|fuel IH]; intros st Hinv Hle.
  - exists st. simpl. destruct (c_stack st) eqn:Hs; [done|].
    unfold carve_measure in Hle. rewrite Hs in Hle. simpl in Hle. lia.
  - simpl. destruct (c_stack st) eqn:Hs; [by exists st|].
    destruct (carve_step_inv HR rows cols start st Hinv) as (st1 & -> & Hinv1 & Hlt).
    { by rewrite Hs. }
    simpl. apply IH; [done|lia].
Qed.

(** When the stack is empty every cell of the grid is marked. *)
Lemma carve_all_marked {R} (rows cols : Z) (start : Coord) (st : carve_state R) :
  carve_inv rows cols start st -> c_stack st = [] ->
  forall p, in_grid rows cols p -> marked (c_visited st) p.
Proof.
  intros [_ _ [Hstart Hsm] _ _ _ Hdone _ _] Hnil.
  rewrite Hnil in Hdone.
  assert (Hadj : forall p q, marked (c_visited st) p -> grid_adj rows cols p q ->
                   marked (c_visited st) q).
  { intros p q Hp. apply Hdone; [done|]. apply not_elem_of_nil. }
  destruct start as [sr sc]. destruct Hstart as [Hsr Hsc]. simpl in *.
  assert (Hcol : forall r, 0 <= r < rows -> marked (c_visited st) (r, sc)).
  { apply (Z_interval_reach _ 0 rows sr); try done.
    - intros r Hr Hr' Hm. apply (Hadj (r, sc)); [done|].
      split; [done|]. split; [done|]. exists 1, 0, S, N.
      split; [apply DIRS_south|]. simpl. f_equal; lia.
    - intros r Hr Hr' Hm. apply (Hadj (r, sc)); [done|].
      split; [done|]. split; [done|]. exists (-1), 0, N, S.
      split; [unfold DIRS; set_solver|]. simpl. f_equal; lia. }
  intros [r c] [Hr Hc]. simpl in *.
  apply (Z_interval_reach (fun c => marked (c_visited st) (r, c)) 0 cols sc);
    try done.
  - by apply Hcol.
  - intros x Hx Hx' Hm. apply (Hadj (r, x)); [done|].
    split; [done|]. split; [done|]. exists 0, 1, E, W.
    split; [apply DIRS_east|]. simpl. f_equal; lia.
  - intros x Hx Hx' Hm. apply (Hadj (r, x)); [done|].
    split; [done|]. split; [done|]. exists 0, (-1), W, E.
    split; [unfold DIRS; set_solver|]. simpl. f_equal; lia.
Qed.


(** ** The generated maze *)

Lemma open_adj_side (rows cols : Z) (w : list (list Z)) (a b : Coord)
    (dr dc s s' : Z) :
  in_grid rows cols a -> in_grid rows cols b ->
  (dr, dc, s, s') ∈ DIRS -> b = (a.1 + dr, a.2 + dc) ->
  open_adj rows cols w a b <-> no_wall w a s = true.
Proof.
  intros Ha Hb Hd Hab. split.
  - intros (_ & _ & dr' & dc' & t & t' & Hd' & Hab' & Hopen).
    assert (dr' = dr /\ dc' = dc) as [-> ->].
    { rewrite Hab in Hab'. injection Hab'. lia. }
    by destruct (DIRS_delta_inj _ _ _ _ _ _ Hd Hd') as [-> _].
  - intros Hopen. split; [done|]. split; [done|]. by exists dr, dc, s, s'.
Qed.

(** Under wall symmetry an edge of the grid is open exactly when its two
    cells are neighbours in the open-cell graph, in either direction. *)
Lemma edge_open_adj (rows cols : Z) (w : list (list Z)) (a b : Coord) :
  walls_symmetric rows cols w -> (a, b) ∈ grid_edges rows cols ->
  (edge_open w (a, b) = true <-> open_adj rows cols w a b)
  /\ (edge_open w (a, b) = true <-> open_adj rows cols w b a).
Proof.
  intros Hsym He. apply elem_of_grid_edges in He as [Ha [[-> Hc]|[-> Hr]]].
  - set (b := (a.1, a.2 + 1)).
    assert (Hb : in_grid rows cols b) by (destruct Ha; split; simpl; lia).
    assert (Hab : b = (a.1 + 0, a.2 + 1)) by (unfold b; f_equal; lia).
    assert (Hba : a = (b.1 + - 0, b.2 + - (1))).
    { unfold b. destruct a. simpl. f_equal; lia. }
    pose proof DIRS_east as HE. pose proof (DIRS_opposite _ _ _ _ HE) as HW.
    rewrite (open_adj_side rows cols w a b 0 1 E W) by done.
    rewrite (open_adj_side rows cols w b a _ _ W E) by done.
    unfold edge_open. simpl. rewrite Z.eqb_refl.
    rewrite (Hsym a b 0 1 E W) by done.
    rewrite andb_diag. done.
  - set (b := (a.1 + 1, a.2)).
    assert (Hb : in_grid rows cols b) by (destruct Ha; split; simpl; lia).
    assert (Hab : b = (a.1 + 1, a.2 + 0)) by (unfold b; f_equal; lia).
    assert (Hba : a = (b.1 + - (1), b.2 + - 0)).
    { unfold b. destruct a. simpl. f_equal; lia. }
    pose proof DIRS_south as HS. pose proof (DIRS_opposite _ _ _ _ HS) as HN.
    rewrite (open_adj_side rows cols w a b 1 0 S N) by done.
    rewrite (open_adj_side rows cols w b a _ _ N S) by done.
    unfold edge_open. simpl.
    replace (a.1 + 1 =? a.1) with false by (symmetry; apply Z.eqb_neq; lia).
    rewrite (Hsym a b 1 0 S N) by done.
    rewrite andb_diag. done.
Qed.

Lemma has_wall_no_wall (m : Maze) (p : Coord) (bit : Z) :
  grid_dims (walls m) (rows m) (cols m) -> in_grid (rows m) (cols m) p ->
  has_wall m p.1 p.2 bit = Ok (negb (no_wall (walls m) p bit)).
Proof.
  intros Hd Hp. destruct (cell_is_Some _ _ _ _ Hd Hp) as [x Hx].
  unfold has_wall, no_wall. destruct p as [r c]. destruct Hp. simpl in *.
  rewrite (grid_get_cell _ r c x) by (lia || done). simpl. by rewrite Hx.
Qed.

(** The run of [generate_maze] from a start cell inside the grid: the
    loop ends with an empty stack in a state that satisfies the
    invariant, whatever the fuel above twice the number of cells. *)
Lemma generate_maze_run {R} `{RandomSource R} (HR : RandomSourceOk R)
    (rows cols : Z) (seed : option Z) (start : Coord) (goal : option Coord) :
  2 <= rows -> 2 <= cols -> in_grid rows cols start ->
  exists st,
    carve_reaches rows cols seed start st
    /\ carve_inv rows cols start st
    /\ c_stack st = []
    /\ forall fuel, (2 * Z.to_nat rows * Z.to_nat cols <= fuel)%nat ->
         generate_maze R fuel rows cols seed start goal
         = Ok (mkMaze rows cols (c_walls st) start
                 (match goal with
                  | None => (rows - 1, cols - 1)
                  | Some g => g
                  end)).
Proof.
  intros Hr Hc Hstart.
  destruct (carve_init_inv rows cols seed start Hstart) as (st0 & Hinit & Hinv0 & Hm0).
  set (fuel0 := (2 * Z.to_nat rows * Z.to_nat cols)%nat) in *.
  destruct (carve_loop_terminates HR rows cols start fuel0 st0 Hinv0)
    as (st & Hloop); [lia|].
  destruct (carve_loop_reaches rows cols fuel0 st0 st Hloop) as [Hrtc Hnil].
  exists st. split; [by exists st0|]. split; [by eapply carve_reach_inv|].
  split; [done|].
  intros fuel Hfuel. unfold generate_maze.
  replace ((rows <? 2) || (cols <? 2)) with false by (symmetry; lia).
  rewrite Hinit. simpl.
  by rewrite (carve_loop_fuel_mono rows cols fuel0 fuel st0 st Hloop Hfuel).
Qed.

(** C1.  For [rows, cols >= 2], every seed (and every random source that
    keeps the contract of [_randbelow]) and every start cell inside the
    grid, the default [(0, 0)] among them, [generate_maze] returns a maze
    [m] as soon as the fuel covers the loop.  Its open-cell graph is
    connected, it has exactly [rows*cols - 1] open edges, where an edge
    of the grid is open exactly when its two cells are neighbours in the
    open-cell graph, and exactly one simple path joins any two cells. *)
Theorem generate_maze_spanning_tree {R} `{RandomSource R}
    (HR : RandomSourceOk R) (rows cols : Z) (seed : option Z)
    (start : Coord) (goal : option Coord) :
  2 <= rows -> 2 <= cols -> in_grid rows cols start ->
  exists m,
    (forall fuel, (2 * Z.to_nat rows * Z.to_nat cols <= fuel)%nat ->
       generate_maze R fuel rows cols seed start goal = Ok m)
    /\ (forall a b, in_grid rows cols a -> in_grid rows cols b ->
          rtc (maze_adj m) a b)
    /\ Z.of_nat (length (open_edges rows cols (walls m))) = rows * cols - 1
    /\ (forall a b, (a, b) ∈ grid_edges rows cols ->
          (edge_open (walls m) (a, b) = true <-> maze_adj m a b)
          /\ (edge_open (walls m) (a, b) = true <-> maze_adj m b a))
    /\ (forall a b, in_grid rows cols a -> in_grid rows cols b ->
          exists p, simple_path (maze_adj m) a p b
            /\ forall q, simple_path (maze_adj m) a q b -> q = p).
Proof.
  intros Hr Hc Hstart.
  destruct (generate_maze_run HR rows cols seed start goal Hr Hc Hstart)
    as (st & _ & Hinv & Hnil & Hgen).
  eexists. split; [exact Hgen|].
  pose proof (carve_all_marked rows cols start st Hinv Hnil) as Hall.
  destruct Hinv as [Hwd Hvd _ _ _ Hsym _ Htree Hcount].
  unfold maze_adj. simpl.
  assert (Htree' : forall a b, in_grid rows cols a -> in_grid rows cols b ->
            exists p, simple_path (open_adj rows cols (c_walls st)) a p b
              /\ forall q, simple_path (open_adj rows cols (c_walls st)) a q b ->
                           q = p).
  { intros a b Ha Hb. apply Htree; try done; by apply Hall. }
  split; [|split; [|split]]; [| | |done].
  - intros a b Ha Hb. destruct (Htree' a b Ha Hb) as (p & [Hw _] & _).
    by eapply walk_rtc.
  - unfold marked_cells in Hcount. rewrite filter_all in Hcount.
    + rewrite length_all_cells in Hcount. nia.
    + intros p Hp. apply Hall. by apply elem_of_all_cells.
  - intros a b He. by apply edge_open_adj.
Qed.

(** The 3x3 maze of seed 42 over the linear congruential generator. *)
Lemma lcg_RandomSourceOk : RandomSourceOk Z.
Proof.
  split. intros g n Hn. simpl.
  pose proof (Z.mod_pos_bound (g / 65536) (Z.of_nat n)). lia.
Qed.

Lemma generate_maze_3x3 :
  generate_maze Z 18 3 3 (Some 42) (0, 0) None = Ok maze_3x3.
Proof. vm_compute. reflexivity. Qed.

Lemma generate_maze_spanning_tree_witness :
  exists m, generate_maze Z 18 3 3 (Some 42) (0, 0) None = Ok m
    /\ Z.of_nat (length (open_edges 3 3 (walls m))) = 3 * 3 - 1.
Proof.
  destruct (generate_maze_spanning_tree lcg_RandomSourceOk 3 3 (Some 42)
              (0, 0) None) as (m & Hgen & _ & Hcount & _).
  - lia.
  - lia.
  - unfold in_grid. simpl. lia.
  - exists m. split; [|exact Hcount]. apply Hgen. simpl. lia.
Defined.


Lemma generate_maze_Ok_inv {R} `{RandomSource R} (fuel : nat) (nr nc : Z)
    (seed : option Z) (s0 : Coord) (g0 : option Coord) (m : Maze) :
  generate_maze R fuel nr nc seed s0 g0 = Ok m ->
  exists st0 st,
    carve_init nr nc seed s0 = Ok st0
    /\ carve_loop fuel nr nc st0 = Ok st
    /\ rows m = nr /\ cols m = nc /\ walls m = c_walls st
    /\ start m = s0
    /\ goal m = match g0 with None => (nr - 1, nc - 1) | Some g => g end.
Proof.
  unfold generate_maze. destruct ((nr <? 2) || (nc <? 2)); [done|].
  destruct (carve_init nr nc seed s0) as [st0|e]; [|done]. simpl.
  destruct (carve_loop fuel nr nc st0) as [st|e] eqn:Hloop; [|done]. simpl.
  intros [= <-]. by exists st0, st.
Qed.

(** C9.  For a start cell inside the grid, the wall grid has no one-way
    wall in any state the carving loop goes through, and none in the
    maze that [generate_maze] returns: for grid neighbours [a] and [b],
    [has_wall] answers the same for the side of [a] towards [b] and for
    the opposite side of [b]. *)
Theorem carve_walls_symmetric {R} `{RandomSource R} (HR : RandomSourceOk R)
    (nr nc : Z) (seed : option Z) (s0 : Coord) (g0 : option Coord) :
  2 <= nr -> 2 <= nc -> in_grid nr nc s0 ->
  (forall st, carve_reaches nr nc seed s0 st ->
     walls_symmetric nr nc (c_walls st))
  /\ (forall fuel m,
        generate_maze R fuel nr nc seed s0 g0 = Ok m ->
        walls_symmetric (rows m) (cols m) (walls m)
        /\ forall a b dr dc w w',
             in_grid (rows m) (cols m) a -> in_grid (rows m) (cols m) b ->
             (dr, dc, w, w') ∈ DIRS -> b = (a.1 + dr, a.2 + dc) ->
             exists wall : bool,
               has_wall m a.1 a.2 w = Ok wall
               /\ has_wall m b.1 b.2 w' = Ok wall).
Proof.
  intros Hr Hc Hstart.
  destruct (carve_init_inv nr nc seed s0 Hstart) as (st0 & Hinit & Hinv0 & _).
  assert (Hreach : forall st, carve_reaches nr nc seed s0 st ->
                     carve_inv nr nc s0 st).
  { intros st (st0' & Hinit' & Hrtc).
    assert (st0' = st0) as -> by congruence.
    by eapply carve_reach_inv. }
  split.
  - intros st Hst. by destruct (Hreach st Hst).
  - intros fuel m Hgen.
    apply generate_maze_Ok_inv in Hgen
      as (st0' & st & Hinit' & Hloop & Hrows & Hcols & Hwalls & _).
    apply carve_loop_reaches in Hloop as [Hrtc _].
    assert (Hinv : carve_inv nr nc s0 st).
    { apply Hreach. by exists st0'. }
    destruct Hinv as [Hwd _ _ _ _ Hsym _ _ _].
    rewrite Hrows, Hcols, Hwalls. split; [done|].
    intros a b dr dc w w' Ha Hb Hd Hab.
    exists (negb (no_wall (c_walls st) a w)).
    rewrite !has_wall_no_wall by (rewrite ?Hrows, ?Hcols, ?Hwalls; done).
    rewrite Hwalls. split; [done|].
    by rewrite (Hsym a b dr dc w w' Ha Hb Hd Hab).
Qed.

Lemma carve_walls_symmetric_witness :
  2 <= 3 /\ in_grid 3 3 (0, 0)
  /\ walls_symmetric (rows maze_3x3) (cols maze_3x3) (walls maze_3x3).
Proof.
  assert (H0 : in_grid 3 3 (0, 0)) by (unfold in_grid; simpl; lia).
  split; [lia|]. split; [exact H0|].
  refine (proj1 (proj2 (carve_walls_symmetric lcg_RandomSourceOk 3 3 (Some 42)
                          (0, 0) None _ _ H0) 18%nat maze_3x3
                   generate_maze_3x3)); lia.
Defined.

(** ** The environment *)

Lemma Qc_ExactArith : ExactArith Qc.
Proof.
  split; simpl; intros.
  - rewrite Z2Qc_inj_0. apply Qcplus_0_l.
  - symmetry. apply Qcplus_assoc.
  - ring.
  - rewrite Z2Qc_inj_2. field. done.
Qed.

Section env_facts.
Context {F : Type} `{FloatOps F}.

Lemma move_Ok (env : MazeEnv F) (s : Coord) (a : string) :
  grid_dims (walls (maze env)) (rows (maze env)) (cols (maze env)) ->
  in_grid (rows (maze env)) (cols (maze env)) s -> a ∈ ACTIONS ->
  exists s2, _move env s a = Ok s2
             /\ in_grid (rows (maze env)) (cols (maze env)) s2.
Proof.
  intros Hd Hs Ha. unfold _move. destruct s as [r c].
  pose proof (has_wall_no_wall (maze env) (r, c)) as Hw. simpl in Hw.
  destruct Hs as [Hr Hc]. simpl in Hr, Hc.
  assert (Hs : in_grid (rows (maze env)) (cols (maze env)) (r, c)) by done.
  unfold ACTIONS in Ha.
  repeat (apply elem_of_cons in Ha as [->|Ha]); [| | | |by apply elem_of_nil in Ha];
    simpl; rewrite Hw by done; simpl;
    match goal with
    | |- context [if ?b then _ else _] => destruct b eqn:Hb
    end; eexists; (split; [done|]); try done;
    apply orb_false_iff in Hb as [_ Hb]; split; simpl; lia.
Qed.

Lemma side_actions_Ok (a : string) :
  a ∈ ACTIONS ->
  exists a1 a2, side_actions a = Ok (a1, a2)
    /\ (a, a1, a2) ∈ [("U", "L", "R"); ("R", "U", "D");
                      ("D", "L", "R"); ("L", "U", "D")]%string
    /\ a1 ∈ ACTIONS /\ a2 ∈ ACTIONS.
Proof.
  intros Ha. unfold ACTIONS in *.
  repeat (apply elem_of_cons in Ha as [->|Ha]); [| | | |by apply elem_of_nil in Ha];
    eexists _, _; (split; [reflexivity|]); set_solver.
Qed.

(** The dictionary [probs] after its three updates. *)
Lemma merge_three (k0 k1 k2 : Coord) (p0 p1 : F) :
  let zero := f_of_Z 0 in
  let raw := [(k0, p0); (k1, p1); (k2, p1)] in
  let d1 := dict_set [] k0 (fadd (dict_get [] k0 zero) p0) in
  let d2 := dict_set d1 k1 (fadd (dict_get d1 k1 zero) p1) in
  let d3 := dict_set d2 k2 (fadd (dict_get d2 k2 zero) p1) in
  (length d3 <= 3)%nat
  /\ NoDup (fst <$> d3)
  /\ (exists p rest, d3 = (k0, p) :: rest)
  /\ (forall k, k ∈ fst <$> d3 <-> k ∈ fst <$> raw)
  /\ (forall k p, (k, p) ∈ d3 -> p = merged_prob raw k)
  /\ (ExactArith F -> prob_sum d3 = fadd (fadd p0 p1) p1).
Proof.
  intros zero raw d1 d2 d3. unfold d3, d2, d1, raw, merged_prob, prob_sum.
  simpl.
  destruct (decide (k0 = k1)) as [<-|H01]; simpl;
    destruct (decide (k0 = k2)) as [<-|H02]; simpl;
    try (destruct (decide (k1 = k2)) as [<-|H12]; simpl);
    try done;
    (split; [lia|]);
    (split; [repeat (apply NoDup_cons; split; [set_solver|]); apply NoDup_nil_2|]);
    (split; [by eexists _, _|]);
    (split; [set_solver|]);
    (split;
     [intros k p Hin;
      repeat (apply elem_of_cons in Hin as [[= -> ->]|Hin]);
      try (by apply elem_of_nil in Hin);
      rewrite !filter_cons, filter_nil; simpl;
      repeat (case_decide; try done; simpl); done
     |intros HE; simpl; unfold zero;
      repeat rewrite (fadd_0_l F HE); repeat rewrite (fadd_assoc F HE); done]).
Qed.

End env_facts.
(** C5.  For a state [s] of the grid and an action [a] of the action
    set, [transitions] returns a list of outcomes.  It is [[(s, 1.0)]]
    when [s] is the goal; else [[(move(s, a), 1.0)]] when
    [slip_prob <= 0]; else it merges the intended move, with weight
    [1 - slip_prob], and the moves of the two side actions of [a], with
    weight [slip_prob / 2] each: at most three outcomes, the intended
    one first, no cell twice, and the probability of a cell is the sum
    of the weights of the moves that land on it.  The probabilities sum
    to [1.0] where the arithmetic is exact; the additions of binary64
    round, and there the sum of the merged weights can miss [1.0]
    ([transitions_sum_is_not_one]). *)
Theorem transitions_distribution {F : Type} `{FloatOps F} (env : MazeEnv F)
    (s : Coord) (a : string) :
  grid_dims (walls (maze env)) (rows (maze env)) (cols (maze env)) ->
  in_grid (rows (maze env)) (cols (maze env)) s ->
  a ∈ ACTIONS ->
  exists outcomes,
    transitions env s a = Ok outcomes
    /\ (ExactArith F -> prob_sum outcomes = f_of_Z 1)
    /\ (s = goal (maze env) -> outcomes = [(s, f_of_Z 1)])
    /\ (s <> goal (maze env) ->
        fleb (slip_prob env) (f_of_Z 0) = true ->
        exists s2, _move env s a = Ok s2 /\ outcomes = [(s2, f_of_Z 1)])
    /\ (s <> goal (maze env) ->
        fleb (slip_prob env) (f_of_Z 0) = false ->
        exists a1 a2 ns_main ns_s1 ns_s2,
          side_actions a = Ok (a1, a2)
          /\ (a, a1, a2) ∈ [("U", "L", "R"); ("R", "U", "D");
                            ("D", "L", "R"); ("L", "U", "D")]%string
          /\ _move env s a = Ok ns_main
          /\ _move env s a1 = Ok ns_s1
          /\ _move env s a2 = Ok ns_s2
          /\ let raw := [(ns_main, fsub (f_of_Z 1) (slip_prob env));
                         (ns_s1, fdiv (slip_prob env) (f_of_Z 2));
                         (ns_s2, fdiv (slip_prob env) (f_of_Z 2))] in
             (length outcomes <= 3)%nat
             /\ NoDup (fst <$> outcomes)
             /\ (exists p rest, outcomes = (ns_main, p) :: rest)
             /\ (forall s2, s2 ∈ fst <$> outcomes <-> s2 ∈ fst <$> raw)
             /\ (forall s2 p, (s2, p) ∈ outcomes -> p = merged_prob raw s2)).
Proof.
  intros Hd Hs Ha. unfold transitions, is_goal.
  destruct (decide (s = goal (maze env))) as [Hg|Hg].
  - rewrite bool_decide_eq_true_2 by done.
    eexists. split; [done|]. split; [|split; [done|split; done]].
    intros HE. unfold prob_sum. simpl. apply (fadd_0_l F HE).
  - rewrite bool_decide_eq_false_2 by done.
    destruct (move_Ok env s a Hd Hs Ha) as (ns_main & Hmain & _).
    destruct (fleb (slip_prob env) (f_of_Z 0)) eqn:Hslip.
    + rewrite Hmain. simpl. eexists. split; [done|].
      split; [|split; [done|split; [|done]]].
      * intros HE. unfold prob_sum. simpl. apply (fadd_0_l F HE).
      * intros _ _. by exists ns_main.
    + destruct (side_actions_Ok a Ha) as (a1 & a2 & Hside & Htable & Ha1 & Ha2).
      destruct (move_Ok env s a1 Hd Hs Ha1) as (ns_s1 & Hs1 & _).
      destruct (move_Ok env s a2 Hd Hs Ha2) as (ns_s2 & Hs2 & _).
      pose proof (merge_three ns_main ns_s1 ns_s2
                    (fsub (f_of_Z 1) (slip_prob env))
                    (fdiv (slip_prob env) (f_of_Z 2))) as Hm.
      cbv zeta in Hm.
      match type of Hm with
      | (length ?d3 <= 3)%nat /\ _ => exists d3
      end.
      destruct Hm as (Hlen & Hnd & Hhead & Hkeys & Hprob & Hsum).
      split; [by rewrite Hside; simpl; rewrite Hmain, Hs1, Hs2|].
      split; [|split; [done|split; [done|]]].
      * intros HE. rewrite (Hsum HE).
        by rewrite (fadd_assoc F HE), (fhalf_add F HE), (fsub_add F HE).
      * intros _ _. exists a1, a2, ns_main, ns_s1, ns_s2. done.
Qed.

(** The walls of the 3x3 maze of seed 2. *)
Lemma maze_3x3_seed2_walls :
  maze_3x3_seed2 = mkMaze 3 3 [[13; 5; 3]; [11; 9; 6]; [12; 4; 7]] (0, 0) (2, 2).
Proof. vm_compute. reflexivity. Qed.

(** Two instances.  Over binary64, at the walled corner (0, 0) of the
    3x3 maze of seed 2 with slip probability [0.15], the intended move
    left and both side moves stay in the cell, and the outcomes are the
    merged ones.  Over exact rationals, at the start cell of the 3x3
    maze of seed 42 with slip probability 1/5, the probabilities sum to
    one. *)
Lemma transitions_distribution_witness :
  (exists outcomes,
     transitions env_3x3_slip15 (0, 0) "L" = Ok outcomes
     /\ (length outcomes <= 3)%nat
     /\ NoDup (fst <$> outcomes)
     /\ (forall s2 p, (s2, p) ∈ outcomes ->
         p = merged_prob [((0, 0), fsub (f_of_Z 1) (slip_prob env_3x3_slip15));
                          ((0, 0), fdiv (slip_prob env_3x3_slip15) (f_of_Z 2));
                          ((0, 0), fdiv (slip_prob env_3x3_slip15) (f_of_Z 2))]
               s2))
  /\ (exists outcomes,
        transitions env_3x3_slip (0, 0) "U" = Ok outcomes
        /\ prob_sum outcomes = f_of_Z 1).
Proof.
  split.
  - destruct (transitions_distribution env_3x3_slip15 (0, 0) "L")
      as (outcomes & Htr & _ & _ & _ & Hst).
    + change (maze env_3x3_slip15) with maze_3x3_seed2.
      rewrite maze_3x3_seed2_walls.
      split; [reflexivity|]. repeat constructor.
    + change (maze env_3x3_slip15) with maze_3x3_seed2.
      rewrite maze_3x3_seed2_walls. unfold in_grid. simpl. lia.
    + unfold ACTIONS. set_solver.
    + destruct Hst
        as (a1 & a2 & m0 & m1 & m2 & Hside & _ & H0 & H1 & H2 & Hlen & Hnd & _ & _ & Hp).
      * change (maze env_3x3_slip15) with maze_3x3_seed2.
        rewrite maze_3x3_seed2_walls. simpl. intros [=].
      * vm_compute. reflexivity.
      * assert ((a1, a2) = ("U", "D")%string) as [= -> ->]
          by (vm_compute in Hside; congruence).
        assert (m0 = (0, 0)) as -> by (vm_compute in H0; congruence).
        assert (m1 = (0, 0)) as -> by (vm_compute in H1; congruence).
        assert (m2 = (0, 0)) as -> by (vm_compute in H2; congruence).
        exists outcomes. split; [exact Htr|]. split; [exact Hlen|].
        split; [exact Hnd|exact Hp].
  - destruct (transitions_distribution env_3x3_slip (0, 0) "U")
      as (outcomes & Htr & Hsum & _).
    + split; [reflexivity|]. repeat constructor.
    + unfold in_grid. simpl. lia.
    + unfold ACTIONS. set_solver.
    + exists outcomes. split; [exact Htr|]. apply Hsum. exact Qc_ExactArith.
Defined.

(** At the corner (0, 0) of the 3x3 maze of seed 2, walled to the
    north, south and west, the move left and the two side moves up and
    down all stay in the cell.  With slip probability [0.15] the single
    outcome carries [(0.85 + 0.075) + 0.075], which binary64 rounds to
    [0.9999999999999999], the float just below [1.0]. *)
Lemma transitions_slip15_corner :
  transitions env_3x3_slip15 (0, 0) "L"
  = Ok [((0, 0), 0x1.fffffffffffffp-1%float)].
Proof. vm_compute. reflexivity. Qed.

(** C5, as first stated: for every state of the grid and every action,
    the probabilities of the outcomes of [transitions] sum to [1.0].
    Over binary64, the floats of the program, this fails at that
    corner: the sum there is [0.9999999999999999]. *)
Lemma transitions_sum_is_not_one :
  ~ (forall (env : MazeEnv PrimFloat.float) (s : Coord) (a : string),
       grid_dims (walls (maze env)) (rows (maze env)) (cols (maze env)) ->
       in_grid (rows (maze env)) (cols (maze env)) s ->
       a ∈ ACTIONS ->
       exists outcomes,
         transitions env s a = Ok outcomes
         /\ prob_sum outcomes = f_of_Z 1).
Proof.
  intros Hall.
  destruct (Hall env_3x3_slip15 (0, 0) "L"%string) as (outcomes & Htr & Hsum).
  - change (maze env_3x3_slip15) with maze_3x3_seed2.
    rewrite maze_3x3_seed2_walls.
    split; [reflexivity|]. repeat constructor.
  - change (maze env_3x3_slip15) with maze_3x3_seed2.
    rewrite maze_3x3_seed2_walls. unfold in_grid. simpl. lia.
  - unfold ACTIONS. set_solver.
  - rewrite transitions_slip15_corner in Htr. injection Htr as <-.
    apply (f_equal (fun x => PrimFloat.eqb x 1%float)) in Hsum.
    vm_compute in Hsum. discriminate.
Qed.
(** ** Main loops *)

Lemma run_loop_rounds {St} (step : St -> result (round St)) (n fuel : nat)
    (st st' st'' : St) (res : SolveResult) :
  rounds step n st st' -> step st' = Ok (Return res st'') -> (n < fuel)%nat ->
  run_loop step fuel st = Ok (res, st'').
Proof.
  revert fuel st. induction n as [|n IH]; intros fuel st; simpl.
  - intros -> Hret Hfuel. destruct fuel as [|fuel]; [lia|].
    simpl. by rewrite Hret.
  - intros (st1 & Hstep & Hrounds) Hret Hfuel.
    destruct fuel as [|fuel]; [lia|]. simpl. rewrite Hstep. simpl.
    apply IH; [done|done|lia].
Qed.

Lemma rounds_inv {St} (step : St -> result (round St)) (I : St -> Prop)
    (n : nat) (st st' : St) :
  (forall s s', I s -> step s = Ok (Continue s') -> I s') ->
  I st -> rounds step n st st' -> I st'.
Proof.
  intros Hstep. revert st. induction n as [|n IH]; intros st HI; simpl.
  - by intros <-.
  - intros (st1 & Hs & Hr). eapply IH; [|exact Hr]. by eapply Hstep.
Qed.

Lemma run_loop_inv {St} (step : St -> result (round St)) (I : St -> Prop)
    (Q : SolveResult -> St -> Prop) (fuel : nat) (st st' : St)
    (res : SolveResult) :
  (forall s s', I s -> step s = Ok (Continue s') -> I s') ->
  (forall s r s', I s -> step s = Ok (Return r s') -> Q r s') ->
  I st -> run_loop step fuel st = Ok (res, st') -> Q res st'.
Proof.
  intros Hcont Hret. revert st. induction fuel as [|fuel IH]; intros st HI;
    simpl; [done|].
  destruct (step st) as [[st1|r st1]|e] eqn:Hstep; simpl; [| |done].
  - apply IH. by eapply Hcont.
  - intros [= <- <-]. by eapply Hret.
Qed.

(** A run that returns went through some rounds and returned from the
    last state. *)
Lemma run_loop_Ok_rounds {St} (step : St -> result (round St)) (fuel : nat)
    (st st'' : St) (res : SolveResult) :
  run_loop step fuel st = Ok (res, st'') ->
  exists n st', (n < fuel)%nat /\ rounds step n st st'
                /\ step st' = Ok (Return res st'').
Proof.
  revert st. induction fuel as [|fuel IH]; intros st; simpl; [done|].
  destruct (step st) as [[st1|r st1]|e] eqn:Hstep; simpl; [| |done].
  - intros Hloop. destruct (IH st1 Hloop) as (n & st' & Hn & Hr & Hret).
    exists (Datatypes.S n), st'. split; [lia|]. split; [|done].
    simpl. by exists st1.
  - intros [= <- <-]. exists 0%nat, st. split; [lia|]. done.
Qed.

(** ** Failing open *)

Lemma pop_Raise_IndexError {T} `{Countable T} {P} `{PrioOps P}
    (q q' : @PQ.PriorityQueue T _ _ P) (e : exn) :
  PQ.pop q = (Raise e, q') -> e = IndexError.
Proof.
  unfold PQ.pop.
  destruct (PQ.pop_loop (PQ._best q) (PQ._heap q)) as [r h] eqn:Hl.
  intros [= -> <-]. revert Hl. generalize (PQ._heap q). intros l.
  induction l as [|top l IH]; simpl.
  - by intros [= <- _].
  - destruct (PQ.live (PQ._best q) top); [done | exact IH].
Qed.

Section fail_open.
Context {F : Type} `{FloatOps F} `{FloatLib F}.

Lemma search_step_empty (dfs : bool) (env : MazeEnv F) (st : search_state) :
  frontier st = [] -> search_step dfs env st = Ok (search_unsolved st).
Proof. intros Hq. unfold search_step. by rewrite Hq. Qed.

Lemma astar_step_empty (env : MazeEnv F) (heuristic : string)
    (st : astar_state) (e : exn) :
  fst (PQ.pop (openpq st)) = Raise e ->
  exists res st',
    astar_step env heuristic st = Ok (Return res st')
    /\ path res = [] /\ visited_order res = a_visited_order st
    /\ parents res = a_parents st
    /\ RunMetrics.solved (a_metrics st') = false.
Proof.
  intros Hpop. unfold astar_step.
  destruct (PQ.pop (openpq st)) as [r pq] eqn:Hp. simpl in Hpop. subst r.
  apply pop_Raise_IndexError in Hp as ->.
  eexists _, _. split; [done|]. done.
Qed.

End fail_open.

(** C4.  Whatever the environment and the accumulator: when after [n]
    rounds the frontier of BFS or of DFS is empty, or the [pop] of the
    priority queue of A* raises, the solver returns (for every fuel above
    [n]) instead of raising, with an empty path and [solved = False]; the
    [IndexError] of the queue does not reach the caller. *)
Theorem solvers_fail_open {F : Type} `{FloatOps F} `{FloatLib F}
    (env : MazeEnv F) (metrics : RunMetrics.t F) (n fuel : nat) :
  (n < fuel)%nat ->
  (forall st, rounds (bfs_step env) n (search_init env metrics) st ->
     frontier st = [] ->
     exists m', solve_bfs fuel env metrics
                = Ok (mkResult [] (s_visited_order st) (s_parents st), m')
                /\ RunMetrics.solved m' = false)
  /\ (forall st, rounds (dfs_step env) n (search_init env metrics) st ->
        frontier st = [] ->
        exists m', solve_dfs fuel env metrics
                   = Ok (mkResult [] (s_visited_order st) (s_parents st), m')
                   /\ RunMetrics.solved m' = false)
  /\ (forall heuristic st0 st e,
        astar_init env metrics heuristic = Ok st0 ->
        rounds (astar_step env heuristic) n st0 st ->
        fst (PQ.pop (openpq st)) = Raise e ->
        exists m', solve_astar fuel env metrics heuristic
                   = Ok (mkResult [] (a_visited_order st) (a_parents st), m')
                   /\ RunMetrics.solved m' = false).
Proof.
  intros Hfuel. split; [|split].
  - intros st Hr Hq. unfold solve_bfs, bfs_loop.
    rewrite (run_loop_rounds _ n fuel _ st _ _ Hr
               (search_step_empty false env st Hq) Hfuel).
    simpl. eexists. split; done.
  - intros st Hr Hq. unfold solve_dfs, dfs_loop.
    rewrite (run_loop_rounds _ n fuel _ st _ _ Hr
               (search_step_empty true env st Hq) Hfuel).
    simpl. eexists. split; done.
  - intros heuristic st0 st e Hinit Hr Hpop.
    destruct (astar_step_empty env heuristic st e Hpop)
      as (res & st' & Hstep & Hpath & Hvo & Hpar & Hsolved).
    unfold solve_astar, astar_loop. rewrite Hinit. simpl.
    rewrite (run_loop_rounds _ n fuel _ st _ _ Hr Hstep Hfuel). simpl.
    exists (a_metrics st'). split; [|done].
    destruct res as [p vo par]. simpl in *. by subst.
Qed.

(** In the walled 2x2 grid the start cell has no neighbour: after one
    round the frontier of BFS is empty. *)
Lemma solvers_fail_open_witness :
  frontier walled_after_one = []
  /\ exists m', solve_bfs 2 env_walled metrics0
             = Ok (mkResult [] (s_visited_order walled_after_one)
                     (s_parents walled_after_one), m')
             /\ RunMetrics.solved m' = false.
Proof.
  split; [reflexivity|].
  refine (proj1 (solvers_fail_open env_walled metrics0 1 2 _)
            walled_after_one _ _).
  - lia.
  - simpl. exists walled_after_one.
    split; [vm_compute; reflexivity | reflexivity].
  - reflexivity.
Defined.

(** ** What [unique_states_visited] counts *)

Section unique_visited.
Context {F : Type} `{FloatOps F} `{FloatLib F}.

Lemma search_step_Return (dfs : bool) (env : MazeEnv F) (st st' : search_state)
    (res : SolveResult) :
  search_step dfs env st = Ok (Return res st') ->
  RunMetrics.unique_states_visited (s_metrics st') = Z.of_nat (size (visited st'))
  /\ (RunMetrics.solved (s_metrics st') = false -> path res = []).
Proof.
  unfold search_step. destruct (frontier st) as [|s rest].
  - intros [= <- <-]. done.
  - destruct (bool_decide (s = goal (maze env))).
    + unfold search_solved. simpl.
      destruct (reconstruct_path _ _ _) as [p|e]; [|done]. simpl.
      intros [= <- <-]. done.
    + destruct (neighbors env s) as [nbs|e]; [|done]. simpl. done.
Qed.

Lemma push_heap_item (q : @PQ.PriorityQueue Coord _ _ F) (x : Coord) (p : F)
    (e : @PQ.PQItem Coord F) :
  e ∈ PQ._heap (PQ.push q x p) -> e ∈ PQ._heap q \/ PQ.item e = x.
Proof.
  unfold PQ.push.
  destruct (PQ._best q !! x) as [b|]; [destruct (plt p b)|]; simpl;
    rewrite ?elem_of_heappush; intros Hin; try destruct Hin as [->|?];
    simpl; auto.
Qed.

Lemma pop_heap_item (q q' : @PQ.PriorityQueue Coord _ _ F) (x : Coord) (p : F) :
  PQ.pop q = (Ok (x, p), q') ->
  (exists e, e ∈ PQ._heap q /\ PQ.item e = x)
  /\ (forall e, e ∈ PQ._heap q' -> e ∈ PQ._heap q).
Proof.
  unfold PQ.pop.
  destruct (PQ.pop_loop (PQ._best q) (PQ._heap q)) as [r h] eqn:Hl.
  intros [= -> <-]. simpl.
  revert Hl. generalize (PQ._heap q). intros l.
  induction l as [|top l IH]; simpl; [done|].
  destruct (PQ.live (PQ._best q) top).
  - intros [= <- _ <-]. split; [exists top; split; [left | done]|].
    intros e He. by right.
  - intros Hl. destruct (IH Hl) as [(e & He & Hx) Hsub]. split.
    + exists e. split; [by right | done].
    + intros e' He'. right. by apply Hsub.
Qed.

Lemma astar_init_inv (env : MazeEnv F) (metrics : RunMetrics.t F)
    (heuristic : string) (st0 : astar_state) :
  astar_init env metrics heuristic = Ok st0 -> astar_inv st0.
Proof.
  unfold astar_init.
  destruct (_h _ _ _ _) as [[h0|e] m]; [|done]. simpl. intros [= <-].
  split; simpl.
  - intros e He. apply push_heap_item in He as [He| ->].
    + by apply elem_of_nil in He.
    + rewrite dom_singleton_L. set_solver.
  - set_solver.
Qed.

Lemma astar_expand_inv (env : MazeEnv F) (heuristic : string) (s : Coord)
    (nbs : list Coord) (st st' : astar_state) :
  astar_expand env heuristic s nbs st = Ok st' ->
  astar_inv st -> astar_inv st'.
Proof.
  revert st. induction nbs as [|nb nbs IH]; intros st; simpl.
  - by intros [= <-].
  - destruct (dict_item (g st) s) as [gs|e]; [|done]. simpl.
    destruct (bool_decide (g st !! nb = None) || _).
    + destruct (_h _ _ _ _) as [[h|e] m]; [|done]. simpl.
      intros Hexp [Hheap Hclosed]. apply (IH _ Hexp). split; simpl.
      * intros e He. rewrite dom_insert_L.
        apply push_heap_item in He as [He| ->]; [|set_solver].
        apply Hheap in He. set_solver.
      * rewrite dom_insert_L. set_solver.
    + intros Hexp Hinv. by apply (IH _ Hexp).
Qed.

Lemma astar_step_Continue (env : MazeEnv F) (heuristic : string)
    (st st' : astar_state) :
  astar_inv st -> astar_step env heuristic st = Ok (Continue st') ->
  astar_inv st'.
Proof.
  intros [Hheap Hclosed]. unfold astar_step.
  destruct (PQ.pop (openpq st)) as [[[s p]|e] pq] eqn:Hpop.
  - apply pop_heap_item in Hpop as [(e & He & Hs) Hsub].
    simpl. destruct (bool_decide (s ∈ closed st)); simpl.
    + intros [= Heq]. subst st'. split; simpl; [|done].
      intros e' He'. by apply Hheap, Hsub.
    + destruct (bool_decide (s = goal (maze env))).
      * destruct (reconstruct_path _ _ _); done.
      * destruct (neighbors env s) as [nbs|?]; [|done]. simpl.
        destruct (astar_expand _ _ _ _ _) as [st1|?] eqn:Hexp; [|done]. simpl.
        intros [= Heq]. subst st'.
        apply astar_expand_inv in Hexp as [Hheap1 Hclosed1]; [done|].
        split; simpl.
        -- intros e' He'. by apply Hheap, Hsub.
        -- apply Hheap in He. set_solver.
  - destruct e; done.
Qed.

Lemma astar_step_Return (env : MazeEnv F) (heuristic : string)
    (st st' : astar_state) (res : SolveResult) :
  astar_inv st -> astar_step env heuristic st = Ok (Return res st') ->
  RunMetrics.unique_states_visited (a_metrics st') = Z.of_nat (size (g st'))
  /\ closed st' ⊆ dom (g st').
Proof.
  intros [Hheap Hclosed]. unfold astar_step.
  destruct (PQ.pop (openpq st)) as [[[s p]|e] pq] eqn:Hpop.
  - apply pop_heap_item in Hpop as [(e & He & Hs) Hsub].
    simpl. destruct (bool_decide (s ∈ closed st)); simpl; [done|].
    destruct (bool_decide (s = goal (maze env))).
    + destruct (reconstruct_path _ _ _) as [p'|?]; [|done]. simpl.
      intros [= <- <-]. simpl. split; [done|].
      apply Hheap in He. set_solver.
    + destruct (neighbors env s) as [nbs|?]; [|done]. simpl.
      destruct (astar_expand _ _ _ _ _); done.
  - destruct e; try done. intros [= <- <-]. simpl. done.
Qed.

End unique_visited.

(** C6, as the code has it.  Whether the run ends solved or not, BFS
    and DFS leave in [unique_states_visited] the size of their [visited]
    set.  A* leaves there the size of [g], the dictionary of the states
    that have a cost on record (every state discovered so far); the
    closed set is a part of these states, so the count is never below
    the size of the closed set. *)
Theorem unique_states_visited_counts_discovered {F : Type} `{FloatOps F}
    `{FloatLib F} (fuel : nat) (env : MazeEnv F) (metrics : RunMetrics.t F) :
  (forall res st,
     bfs_loop fuel env (search_init env metrics) = Ok (res, st) ->
     solve_bfs fuel env metrics = Ok (res, s_metrics st)
     /\ RunMetrics.unique_states_visited (s_metrics st)
        = Z.of_nat (size (visited st)))
  /\ (forall res st,
        dfs_loop fuel env (search_init env metrics) = Ok (res, st) ->
        solve_dfs fuel env metrics = Ok (res, s_metrics st)
        /\ RunMetrics.unique_states_visited (s_metrics st)
           = Z.of_nat (size (visited st)))
  /\ (forall heuristic st0 res st,
        astar_init env metrics heuristic = Ok st0 ->
        astar_loop fuel env heuristic st0 = Ok (res, st) ->
        solve_astar fuel env metrics heuristic = Ok (res, a_metrics st)
        /\ RunMetrics.unique_states_visited (a_metrics st)
           = Z.of_nat (size (g st))
        /\ closed st ⊆ dom (g st)
        /\ (size (closed st) <= size (g st))%nat).
Proof.
  split; [|split].
  - intros res st Hloop. split.
    + unfold solve_bfs. by rewrite Hloop.
    + apply (run_loop_inv (bfs_step env) (fun _ => True)
               (fun _ st => RunMetrics.unique_states_visited (s_metrics st)
                            = Z.of_nat (size (visited st)))
               fuel (search_init env metrics) st res); try done.
      intros s r s' _ Hret. by apply search_step_Return in Hret as [? _].
  - intros res st Hloop. split.
    + unfold solve_dfs. by rewrite Hloop.
    + apply (run_loop_inv (dfs_step env) (fun _ => True)
               (fun _ st => RunMetrics.unique_states_visited (s_metrics st)
                            = Z.of_nat (size (visited st)))
               fuel (search_init env metrics) st res); try done.
      intros s r s' _ Hret. by apply search_step_Return in Hret as [? _].
  - intros heuristic st0 res st Hinit Hloop. split.
    + unfold solve_astar. by rewrite Hinit; simpl; rewrite Hloop.
    + assert (Hq : RunMetrics.unique_states_visited (a_metrics st)
                   = Z.of_nat (size (g st)) /\ closed st ⊆ dom (g st)).
      { apply (run_loop_inv (astar_step env heuristic) astar_inv
                 (fun _ st => RunMetrics.unique_states_visited (a_metrics st)
                              = Z.of_nat (size (g st))
                              /\ closed st ⊆ dom (g st))
                 fuel st0 st res); try done.
        - intros s s'. apply astar_step_Continue.
        - intros s r s'. apply astar_step_Return.
        - by eapply astar_init_inv. }
      destruct Hq as [Hu Hsub]. split; [done|]. split; [done|].
      rewrite <- size_dom. by apply subseteq_size.
Qed.


Lemma astar_3x3_init_eq :
  astar_init env_3x3_seed2 metrics_3x3 "manhattan" = Ok astar_3x3_init.
Proof. vm_compute. reflexivity. Qed.

Lemma astar_3x3_run_eq :
  astar_loop 20 env_3x3_seed2 "manhattan" astar_3x3_init
  = Ok (astar_3x3_run.1, astar_3x3_run.2).
Proof. vm_compute. reflexivity. Qed.

(** On the 3x3 maze of seed 2, A* ends with eight states on record in
    [g] and reports eight, but its closed set has seven states. *)
Lemma astar_unique_is_not_closed_size :
  ~ (forall (env : MazeEnv PrimFloat.float) (metrics : RunMetrics.t PrimFloat.float)
            (heuristic : string) (fuel : nat) (st0 : astar_state)
            (res : SolveResult) (st : astar_state),
       astar_init env metrics heuristic = Ok st0 ->
       astar_loop fuel env heuristic st0 = Ok (res, st) ->
       RunMetrics.unique_states_visited (a_metrics st)
       = Z.of_nat (size (closed st))).
Proof.
  intros Hall.
  specialize (Hall env_3x3_seed2 metrics_3x3 "manhattan"%string 20%nat
                astar_3x3_init astar_3x3_run.1 astar_3x3_run.2
                astar_3x3_init_eq astar_3x3_run_eq).
  vm_compute in Hall. discriminate Hall.
Qed.

Lemma unique_states_visited_counts_discovered_witness :
  RunMetrics.unique_states_visited (a_metrics astar_3x3_run.2)
  = Z.of_nat (size (g astar_3x3_run.2))
  /\ (size (closed astar_3x3_run.2) <= size (g astar_3x3_run.2))%nat.
Proof.
  destruct (proj2 (proj2 (unique_states_visited_counts_discovered 20
                            env_3x3_seed2 metrics_3x3))
              "manhattan"%string astar_3x3_init astar_3x3_run.1
              astar_3x3_run.2 astar_3x3_init_eq astar_3x3_run_eq)
    as (_ & Hu & _ & Hle).
  split; [exact Hu | exact Hle].
Defined.

(** ** Breadth-first search *)

Section bfs.
Context {F : Type} `{FloatOps F} `{FloatLib F}.

(** On a cell inside a well-sized grid [neighbors] lists the neighbours
    in the open-cell graph. *)
Lemma neighbors_spec (env : MazeEnv F) (s : Coord) :
  grid_dims (walls (maze env)) (rows (maze env)) (cols (maze env)) ->
  in_grid (rows (maze env)) (cols (maze env)) s ->
  exists l, neighbors env s = Ok l
            /\ forall b, b ∈ l <-> maze_adj (maze env) s b.
Proof.
  intros Hd Hs. unfold neighbors. destruct s as [r c].
  pose proof (has_wall_no_wall (maze env) (r, c)) as Hw. simpl in Hw.
  rewrite !Hw by done. simpl. rewrite !negb_involutive.
  set (w := walls (maze env)).
  set (cN := no_wall w (r, c) N && (0 <=? r - 1)).
  set (cE := no_wall w (r, c) E && (c + 1 <? cols (maze env))).
  set (cS := no_wall w (r, c) S && (r + 1 <? rows (maze env))).
  set (cW := no_wall w (r, c) W && (0 <=? c - 1)).
  eexists. split; [done|].
  intros b. unfold maze_adj, open_adj. fold w.
  destruct Hs as [Hr Hc]. simpl in Hr, Hc.
  assert (HN : cN = true <-> no_wall w (r, c) N = true /\ 0 <= r - 1)
    by (unfold cN; rewrite andb_true_iff, Z.leb_le; done).
  assert (HE : cE = true <-> no_wall w (r, c) E = true /\ c + 1 < cols (maze env))
    by (unfold cE; rewrite andb_true_iff, Z.ltb_lt; done).
  assert (HS : cS = true <-> no_wall w (r, c) S = true /\ r + 1 < rows (maze env))
    by (unfold cS; rewrite andb_true_iff, Z.ltb_lt; done).
  assert (HW : cW = true <-> no_wall w (r, c) W = true /\ 0 <= c - 1)
    by (unfold cW; rewrite andb_true_iff, Z.leb_le; done).
  assert (Hl : b ∈ (if cW
                    then (if cS
                          then (if cE then (if cN then [] ++ [(r - 1, c)] else [])
                                          ++ [(r, c + 1)]
                                else if cN then [] ++ [(r - 1, c)] else [])
                               ++ [(r + 1, c)]
                          else if cE then (if cN then [] ++ [(r - 1, c)] else [])
                                          ++ [(r, c + 1)]
                               else if cN then [] ++ [(r - 1, c)] else [])
                         ++ [(r, c - 1)]
                    else if cS
                         then (if cE then (if cN then [] ++ [(r - 1, c)] else [])
                                         ++ [(r, c + 1)]
                               else if cN then [] ++ [(r - 1, c)] else [])
                              ++ [(r + 1, c)]
                         else if cE then (if cN then [] ++ [(r - 1, c)] else [])
                                         ++ [(r, c + 1)]
                              else if cN then [] ++ [(r - 1, c)] else [])
                <-> (cN = true /\ b = (r - 1, c)) \/ (cE = true /\ b = (r, c + 1))
                    \/ (cS = true /\ b = (r + 1, c)) \/ (cW = true /\ b = (r, c - 1))).
  { destruct cN, cE, cS, cW; simpl;
      rewrite ?elem_of_cons, ?elem_of_nil; naive_solver. }
  rewrite Hl, HN, HE, HS, HW. clear Hl. simpl. split.
  - intros [[[Hno Hb] ->]|[[[Hno Hb] ->]|[[[Hno Hb] ->]|[[Hno Hb] ->]]]].
    + split; [done|]. split; [split; simpl; lia|].
      exists (-1), 0, N, S. split; [unfold DIRS; set_solver|].
      split; [f_equal; lia | done].
    + split; [done|]. split; [split; simpl; lia|].
      exists 0, 1, E, W. split; [apply DIRS_east|].
      split; [f_equal; lia | done].
    + split; [done|]. split; [split; simpl; lia|].
      exists 1, 0, S, N. split; [apply DIRS_south|].
      split; [f_equal; lia | done].
    + split; [done|]. split; [split; simpl; lia|].
      exists 0, (-1), W, E. split; [unfold DIRS; set_solver|].
      split; [f_equal; lia | done].
  - intros (_ & [Hbr Hbc] & dr & dc & s & s' & Hdir & -> & Hno).
    simpl in Hbr, Hbc. dirs_cases Hdir.
    + left. split; [split; [done|lia]|]. f_equal; lia.
    + right. left. split; [split; [done|lia]|]. f_equal; lia.
    + right. right. left. split; [split; [done|lia]|]. f_equal; lia.
    + right. right. right. split; [split; [done|lia]|]. f_equal; lia.
Qed.

(** A walk that leaves a set has an edge from a cell inside to a cell
    outside, reached by a shorter walk. *)
Lemma walk_exit {V} (adj : V -> V -> Prop) (P : V -> Prop)
    `{!forall x, Decision (P x)} (a b : V) (q : list V) :
  walk adj a q b -> P a -> ~ P b ->
  exists q1 x y, walk adj a q1 x /\ P x /\ adj x y /\ ~ P y
                 /\ (length q1 < length q)%nat.
Proof.
  revert a. induction q as [|z q IH]; simpl; intros a.
  - intros -> Ha Hb. done.
  - intros [Haz Hw] Ha Hb. destruct (decide (P z)) as [Hz|Hz].
    + destruct (IH z Hw Hz Hb) as (q1 & x & y & Hw1 & Hx & Hxy & Hy & Hlen).
      exists (z :: q1), x, y. simpl. repeat split; try done. lia.
    + exists [], a, z. simpl. repeat split; try done. lia.
Qed.

Lemma StronglySorted_ext_in {A} (R R' : A -> A -> Prop) (l : list A) :
  (forall x y, x ∈ l -> y ∈ l -> R x y -> R' x y) ->
  StronglySorted R l -> StronglySorted R' l.
Proof.
  intros Himp Hs. induction Hs as [|x l Hs IH Hx]; constructor.
  - apply IH. intros y z Hy Hz. apply Himp; by right.
  - rewrite Forall_forall in *. intros y Hy.
    apply Himp; [left | by right | by apply Hx].
Qed.

(** A cell [nb] that is discovered from the cell [s] under expansion. *)
Lemma bfs_discover (env : MazeEnv F) (d : Coord -> nat) (lo : nat)
    (s nb : Coord) (st : search_state) (m : RunMetrics.t F) :
  bfs_inv env d lo [s] st -> d s = lo ->
  maze_adj (maze env) s nb -> nb ∉ visited st ->
  bfs_inv env (fun x => if decide (x = nb) then Datatypes.S lo else d x) lo [s]
    (mkSearch (frontier st ++ [nb]) (visited st ∪ {[nb]})
       (<[nb := Some s]> (s_parents st)) (s_visited_order st) m).
Proof.
  intros [Hstart Hgrid Hdom Hpar Hopt Hfront Hsorted Hclosed Hcur Hgoal Hexp]
    Hds Hadj Hnb.
  destruct (Hcur s) as [Hsv _]; [left|].
  assert (Hd' : forall x, x ∈ visited st ->
            (if decide (x = nb) then Datatypes.S lo else d x) = d x).
  { intros x Hx. destruct (decide (x = nb)) as [->|]; done. }
  split; simpl.
  - destruct Hstart as (Hs1 & Hs2 & Hs3). split; [set_solver|].
    split; [by rewrite Hd'|].
    rewrite lookup_insert_ne; [done|]. intros Heq. apply Hnb. by rewrite Heq.
  - intros x Hx. apply elem_of_union in Hx as [Hx|Hx]; [by apply Hgrid|].
    apply elem_of_singleton in Hx as ->. by destruct Hadj as (_ & ? & _).
  - intros x. rewrite elem_of_union, elem_of_singleton, Hdom.
    destruct (decide (x = nb)) as [->|Hne].
    + rewrite lookup_insert_eq. split; [by eexists | by right].
    + rewrite lookup_insert_ne by done. naive_solver.
  - intros x Hx Hne. apply elem_of_union in Hx as [Hx|Hx].
    + destruct (Hpar x Hx Hne) as (p & Hp & Hpv & Hpx & Hdx).
      exists p. rewrite lookup_insert_ne by (intros Heq; apply Hnb; by rewrite Heq).
      rewrite !Hd' by done. split; [done|]. split; [set_solver|]. done.
    + apply elem_of_singleton in Hx as ->. exists s.
      rewrite lookup_insert_eq. split; [done|]. split; [set_solver|].
      split; [done|]. rewrite (Hd' s) by done.
      destruct (decide (nb = nb)); [|done]. by rewrite Hds.
  - intros x q Hx Hw. apply elem_of_union in Hx as [Hx|Hx].
    + rewrite Hd' by done. by apply Hopt.
    + apply elem_of_singleton in Hx as ->.
      destruct (decide (nb = nb)); [|done].
      destruct (walk_exit _ (fun x => x ∈ visited st) _ _ _ Hw)
        as (q1 & x & y & Hw1 & Hx & Hxy & Hy & Hlen);
        [by destruct Hstart | done |].
      assert (lo <= d x)%nat.
      { destruct (decide (x ∈ frontier st)) as [Hin|Hnin];
          [by apply Hfront in Hin as [_ [? _]]|].
        destruct (decide (x ∈ [s])) as [Hin'|Hnin']; [by apply Hcur|].
        exfalso. apply Hy. by apply (Hclosed x y). }
      pose proof (Hopt x q1 Hx Hw1). lia.
  - intros x Hx. apply elem_of_app in Hx as [Hx|Hx].
    + destruct (Hfront x Hx) as [Hv Hdx]. rewrite Hd' by done.
      split; [set_solver | done].
    + apply list_elem_of_singleton in Hx as ->.
      destruct (decide (nb = nb)); [|done]. split; [set_solver | lia].
  - apply StronglySorted_app_2.
    + intros x y Hx Hy. apply list_elem_of_singleton in Hy as ->.
      destruct (Hfront x Hx) as [Hv Hdx]. rewrite Hd' by done.
      destruct (decide (nb = nb)); [|done]. lia.
    + apply (StronglySorted_ext_in (fun a b => (d a <= d b)%nat));
        [|exact Hsorted]. simpl.
      intros x y Hx Hy Hxy.
      rewrite !Hd' by (by apply Hfront). done.
    + repeat constructor.
  - intros x y Hx Hnf Hnc Hxy.
    assert (x <> nb).
    { intros ->. apply Hnf. apply elem_of_app. right. left. }
    assert (x ∈ visited st) by set_solver.
    assert (x ∉ frontier st).
    { intros Hin. apply Hnf. apply elem_of_app. by left. }
    apply elem_of_union. left. by apply (Hclosed x y).
  - intros x Hx. destruct (Hcur x Hx) as [Hv Hlo].
    rewrite Hd' by done. split; [set_solver | done].
  - done.
  - intros x Hx Hnf.
    assert (x <> nb).
    { intros ->. apply Hnf. apply elem_of_app. right. left. }
    apply Hexp; [set_solver|]. intros Hin. apply Hnf. apply elem_of_app. by left.
Qed.

(** The invariant does not look at the metrics. *)
Lemma bfs_inv_metrics (env : MazeEnv F) (d : Coord -> nat) (lo : nat)
    (cur : list Coord) (st : search_state) (m : RunMetrics.t F) :
  bfs_inv env d lo cur st ->
  bfs_inv env d lo cur
    (mkSearch (frontier st) (visited st) (s_parents st) (s_visited_order st) m).
Proof. intros [? ? ? ? ? ? ? ? ? ? ?]. by split. Qed.

(** The scan of the neighbours of the cell [s] under expansion. *)
Lemma bfs_expand_inv (env : MazeEnv F) (lo : nat) (s : Coord)
    (nbs : list Coord) (st : search_state) (d : Coord -> nat) :
  bfs_inv env d lo [s] st -> d s = lo ->
  (forall nb, nb ∈ nbs -> maze_adj (maze env) s nb) ->
  exists d',
    bfs_inv env d' lo [s] (bfs_expand s nbs st) /\ d' s = lo
    /\ (forall nb, nb ∈ nbs -> nb ∈ visited (bfs_expand s nbs st))
    /\ visited st ⊆ visited (bfs_expand s nbs st)
    /\ (size (visited (bfs_expand s nbs st)) + length (frontier st)
        = size (visited st) + length (frontier (bfs_expand s nbs st)))%nat
    /\ s_visited_order (bfs_expand s nbs st) = s_visited_order st.
Proof.
  revert st d. induction nbs as [|nb nbs IH]; intros st d Hinv Hds Hadj.
  - exists d. simpl. split; [done|]. split; [done|].
    split; [intros nb Hnb; by apply elem_of_nil in Hnb|].
    split; [done|]. split; [lia | done].
  - simpl. destruct (bool_decide (nb ∈ visited st)) eqn:Hvis.
    + apply bool_decide_eq_true in Hvis.
      match goal with
      | |- context [bfs_expand s nbs ?st1] =>
          destruct (IH st1 d) as (d' & Hinv' & Hds' & Hall & Hsub & Hsize & Hvo)
      end.
      { by apply bfs_inv_metrics. }
      { done. }
      { intros x Hx. apply Hadj. by right. }
      exists d'. simpl in *. split; [done|]. split; [done|].
      split; [|done].
      intros x Hx. apply elem_of_cons in Hx as [->|Hx]; [by apply Hsub | by apply Hall].
    + apply bool_decide_eq_false in Hvis.
      assert (Hs_ne : s <> nb).
      { intros ->. apply Hvis. destruct (bi_cur _ _ _ _ _ Hinv nb); [left | done]. }
      match goal with
      | |- context [bfs_expand s nbs ?st1] =>
          destruct (IH st1 (fun x => if decide (x = nb)
                                     then Datatypes.S lo else d x))
            as (d' & Hinv' & Hds' & Hall & Hsub & Hsize & Hvo)
      end.
      { apply bfs_discover; try done. apply Hadj. left. }
      { destruct (decide (s = nb)); done. }
      { intros x Hx. apply Hadj. by right. }
      exists d'. simpl in *. split; [done|]. split; [done|].
      split; [|split; [|split; [|done]]].
      * intros x Hx. apply elem_of_cons in Hx as [->|Hx]; [|by apply Hall].
        apply Hsub. set_solver.
      * set_solver.
      * rewrite length_app in Hsize. simpl in Hsize.
        rewrite size_union in Hsize by set_solver.
        rewrite size_singleton in Hsize. lia.
Qed.

(** ** The path back along the parents *)

Lemma follow_parents_chain (env : MazeEnv F) (d : Coord -> nat) (lo : nat)
    (cur : list Coord) (st : search_state) (n : nat) :
  bfs_inv env d lo cur st ->
  forall x fuel out, x ∈ visited st -> d x = n -> (n < fuel)%nat ->
    exists p,
      follow_parents fuel (s_parents st) (Some x) out
      = Ok (out ++ reverse (start (maze env) :: p))
      /\ walk (maze_adj (maze env)) (start (maze env)) p x
      /\ length p = n.
Proof.
  intros Hinv. pose proof Hinv as [(Hs1 & Hs2 & Hs3) _ _ Hpar _ _ _ _ _ _ _].
  induction n as [|n IH]; intros x fuel out Hx Hdx Hfuel;
    (destruct fuel as [|fuel]; [lia|]); simpl.
  - assert (x = start (maze env)) as ->.
    { destruct (decide (x = start (maze env))) as [|Hne]; [done|].
      destruct (Hpar x Hx Hne) as (p & _ & _ & _ & Hd). lia. }
    rewrite Hs3. simpl. exists []. split; [|done].
    by destruct fuel.
  - assert (Hne : x <> start (maze env)) by (intros ->; lia).
    destruct (Hpar x Hx Hne) as (p0 & Hp0 & Hp0v & Hadj & Hd).
    rewrite Hp0. simpl.
    destruct (IH p0 fuel (out ++ [x]) Hp0v) as (p & Hfollow & Hw & Hlen);
      [lia|lia|].
    exists (p ++ [x]). rewrite Hfollow. split; [|split].
    + f_equal. rewrite <- app_assoc. f_equal.
      by rewrite app_comm_cons, reverse_app.
    + eapply walk_app; [exact Hw|]. simpl. done.
    + rewrite length_app. simpl. lia.
Qed.

Lemma bfs_visited_dom (env : MazeEnv F) (d : Coord -> nat) (lo : nat)
    (cur : list Coord) (st : search_state) :
  bfs_inv env d lo cur st -> visited st = dom (s_parents st).
Proof.
  intros Hinv. apply set_eq. intros x.
  rewrite (bi_dom _ _ _ _ _ Hinv), elem_of_dom. done.
Qed.

(** The depth of a discovered cell is below the number of discovered
    cells: the cells on its chain of parents are all different. *)
Lemma bfs_depth_lt_size (env : MazeEnv F) (d : Coord -> nat) (lo : nat)
    (cur : list Coord) (st : search_state) (x : Coord) :
  bfs_inv env d lo cur st -> x ∈ visited st ->
  (d x < size (s_parents st))%nat.
Proof.
  intros Hinv Hx. pose proof Hinv as [(Hs1 & Hs2 & Hs3) _ _ Hpar _ _ _ _ _ _ _].
  assert (Hchain : forall n y, y ∈ visited st -> d y = n ->
            exists C : gset Coord, C ⊆ visited st /\ size C = Datatypes.S n
                                   /\ forall z, z ∈ C -> (d z <= n)%nat).
  { induction n as [|n IH]; intros y Hy Hdy.
    - exists {[y]}. split; [set_solver|]. split; [by rewrite size_singleton|].
      intros z Hz. apply elem_of_singleton in Hz as ->. lia.
    - assert (Hne : y <> start (maze env)) by (intros ->; lia).
      destruct (Hpar y Hy Hne) as (p0 & _ & Hp0v & _ & Hd).
      destruct (IH p0 Hp0v) as (C & Hsub & Hsize & Hle); [lia|].
      exists ({[y]} ∪ C). split; [set_solver|]. split.
      + rewrite size_union, size_singleton, Hsize; [done|].
        intros z Hz1 Hz2. apply elem_of_singleton in Hz1 as ->.
        apply Hle in Hz2. lia.
      + intros z Hz. apply elem_of_union in Hz as [Hz|Hz].
        * apply elem_of_singleton in Hz as ->. lia.
        * apply Hle in Hz. lia. }
  destruct (Hchain (d x) x Hx eq_refl) as (C & Hsub & Hsize & _).
  rewrite <- size_dom, <- (bfs_visited_dom env d lo cur st Hinv).
  apply subseteq_size in Hsub. lia.
Qed.

Lemma reconstruct_path_bfs (env : MazeEnv F) (d : Coord -> nat) (lo : nat)
    (cur : list Coord) (st : search_state) :
  bfs_inv env d lo cur st -> goal (maze env) ∈ visited st ->
  exists p,
    reconstruct_path (s_parents st) (start (maze env)) (goal (maze env))
    = Ok (start (maze env) :: p)
    /\ walk (maze_adj (maze env)) (start (maze env)) p (goal (maze env))
    /\ length p = d (goal (maze env)).
Proof.
  intros Hinv Hg. unfold reconstruct_path.
  destruct (proj1 (bi_dom _ _ _ _ _ Hinv _) Hg) as [pg Hpg]. rewrite Hpg.
  destruct (follow_parents_chain env d lo cur st (d (goal (maze env))) Hinv
              (goal (maze env)) (Datatypes.S (size (s_parents st))) [] Hg eq_refl)
    as (p & Hfollow & Hw & Hlen).
  { pose proof (bfs_depth_lt_size env d lo cur st _ Hinv Hg). lia. }
  rewrite Hfollow. simpl. rewrite reverse_involutive.
  rewrite bool_decide_eq_true_2 by done. by exists p.
Qed.

(** ** One round of BFS *)

Lemma bfs_pop (env : MazeEnv F) (d : Coord -> nat) (lo : nat) (s : Coord)
    (rest : list Coord) (st : search_state) (m : RunMetrics.t F) :
  bfs_inv env d lo [] st -> frontier st = s :: rest -> s <> goal (maze env) ->
  bfs_inv env d (d s) [s]
    (mkSearch rest (visited st) (s_parents st) (s_visited_order st ++ [s]) m).
Proof.
  intros [Hstart Hgrid Hdom Hpar Hopt Hfront Hsorted Hclosed Hcur Hgoal Hexp]
    Hq Hne.
  rewrite Hq in *. apply StronglySorted_inv in Hsorted as [Hsorted Hhead].
  rewrite Forall_forall in Hhead.
  destruct (Hfront s) as [Hsv Hsd]; [left|].
  split; simpl; try done.
  - intros x Hx. destruct (Hfront x) as [Hxv Hxd]; [by right|].
    split; [done|]. specialize (Hhead x Hx). lia.
  - intros x y Hx Hnr Hns Hxy. apply (Hclosed x y); try done.
    + intros Hin. apply elem_of_cons in Hin as [->|Hin]; [|done].
      apply Hns. left.
    + apply not_elem_of_nil.
  - intros x Hx. apply list_elem_of_singleton in Hx as ->. done.
  - intros Hin. apply elem_of_app in Hin as [Hin|Hin]; [done|].
    apply list_elem_of_singleton in Hin. done.
  - intros x Hx Hnr. apply elem_of_app.
    destruct (decide (x = s)) as [->|Hxs]; [right; left|].
    left. apply Hexp; [done|]. intros Hin.
    apply elem_of_cons in Hin as [?|?]; done.
Qed.

(** When all neighbours of [s] are discovered, [s] is done with. *)
Lemma bfs_close (env : MazeEnv F) (d : Coord -> nat) (lo : nat) (s : Coord)
    (st : search_state) (m : RunMetrics.t F) :
  bfs_inv env d lo [s] st ->
  (forall y, maze_adj (maze env) s y -> y ∈ visited st) ->
  bfs_inv env d lo []
    (mkSearch (frontier st) (visited st) (s_parents st) (s_visited_order st) m).
Proof.
  intros [Hstart Hgrid Hdom Hpar Hopt Hfront Hsorted Hclosed Hcur Hgoal Hexp]
    Hall.
  split; simpl; try done.
  - intros x y Hx Hnf _ Hxy.
    destruct (decide (x = s)) as [->|Hxs]; [by apply Hall|].
    apply (Hclosed x y); try done. intros Hin.
    by apply list_elem_of_singleton in Hin.
  - intros x Hx. by apply elem_of_nil in Hx.
Qed.

Lemma size_in_grid (rows cols : Z) (X : gset Coord) :
  (forall x, x ∈ X -> in_grid rows cols x) ->
  (size X <= length (all_cells rows cols))%nat.
Proof.
  intros Hin.
  rewrite <- (size_list_to_set (C := gset Coord) (all_cells rows cols))
    by apply NoDup_all_cells.
  apply subseteq_size. intros x Hx. apply elem_of_list_to_set.
  by apply elem_of_all_cells, Hin.
Qed.

Lemma bfs_step_progress (env : MazeEnv F) (d : Coord -> nat) (lo : nat)
    (st : search_state) :
  maze_ok (maze env) -> bfs_inv env d lo [] st ->
  (exists res st' p pre,
     bfs_step env st = Ok (Return res st')
     /\ path res = start (maze env) :: p
     /\ walk (maze_adj (maze env)) (start (maze env)) p (goal (maze env))
     /\ (forall q, walk (maze_adj (maze env)) (start (maze env)) q
                     (goal (maze env)) -> (length p <= length q)%nat)
     /\ visited_order res = pre ++ [goal (maze env)]
     /\ (goal (maze env) ∉ pre)
     /\ RunMetrics.solved (s_metrics st') = true
     /\ RunMetrics.solution_path_length (s_metrics st') = Z.of_nat (length p))
  \/ (exists st1 d1 lo1,
        bfs_step env st = Ok (Continue st1)
        /\ bfs_inv env d1 lo1 [] st1
        /\ (bfs_measure env st1 < bfs_measure env st)%nat).
Proof.
  intros [Hdims Hstartg Hgoalg Hreach] Hinv.
  unfold bfs_step, search_step.
  destruct (frontier st) as [|s rest] eqn:Hq.
  - (* an empty queue would leave the goal undiscovered *)
    exfalso.
    assert (Hg : goal (maze env) ∈ visited st).
    { assert (Hs : start (maze env) ∈ visited st)
        by (by destruct (bi_start _ _ _ _ _ Hinv)).
      assert (Hcl : forall a b, rtc (maze_adj (maze env)) a b ->
                a ∈ visited st -> b ∈ visited st).
      { intros a b Hab. induction Hab as [|x y z Hxy _ IH]; [done|].
        intros Hx. apply IH. apply (bi_closed _ _ _ _ _ Hinv x y); try done.
        - rewrite Hq. apply not_elem_of_nil.
        - apply not_elem_of_nil. }
      by apply (Hcl _ _ Hreach). }
    apply (bi_goal _ _ _ _ _ Hinv).
    apply (bi_expanded _ _ _ _ _ Hinv); [done|].
    rewrite Hq. apply not_elem_of_nil.
  - destruct (bi_front _ _ _ _ _ Hinv s) as [Hsv Hsd]; [rewrite Hq; left|].
    destruct (bool_decide (s = goal (maze env))) eqn:Hsg.
    + left. apply bool_decide_eq_true in Hsg. subst s.
      unfold search_solved. simpl.
      destruct (reconstruct_path_bfs env d lo [] st Hinv Hsv)
        as (p & -> & Hw & Hlen).
      simpl. eexists _, _, p, (s_visited_order st).
      split; [done|]. simpl. split; [done|]. split; [done|].
      split; [|split; [done|split; [|split; [done|]]]].
      * intros q Hwq. rewrite Hlen. by apply (bi_opt _ _ _ _ _ Hinv).
      * by apply (bi_goal _ _ _ _ _ Hinv).
      * lia.
    + right. apply bool_decide_eq_false in Hsg.
      destruct (neighbors_spec env s Hdims (bi_grid _ _ _ _ _ Hinv s Hsv))
        as (nbs & -> & Hnbs).
      simpl.
      match goal with
      | |- context [bfs_expand s nbs ?st1] =>
          destruct (bfs_expand_inv env (d s) s nbs st1 d)
            as (d' & Hinv' & Hds' & Hall & Hsub & Hsize & Hvo);
            [by apply (bfs_pop env d lo) | done | intros nb Hnb; by apply Hnbs |];
          set (st_e := bfs_expand s nbs st1) in *
      end.
      simpl in Hsub, Hsize.
      eexists _, d', (d s). split; [done|]. split.
      * apply (bfs_close env d' (d s) s st_e); [done|].
        intros y Hy. by apply Hall, Hnbs.
      * unfold bfs_measure. simpl. rewrite Hq. simpl.
        pose proof (size_in_grid _ _ _ (bi_grid _ _ _ _ _ Hinv')) as Hle.
        pose proof (subseteq_size _ _ Hsub) as Hmono. lia.
Qed.

(** ** The whole run *)

Lemma bfs_init_inv (env : MazeEnv F) (metrics : RunMetrics.t F) :
  maze_ok (maze env) ->
  bfs_inv env (fun _ => 0%nat) 0 [] (search_init env metrics)
  /\ (bfs_measure env (search_init env metrics)
      <= length (all_cells (rows (maze env)) (cols (maze env))))%nat.
Proof.
  intros [Hdims Hstart Hgoal Hreach]. split.
  - split; simpl.
    + split; [set_solver|]. split; [done|]. apply lookup_singleton_eq.
    + intros x Hx. apply elem_of_singleton in Hx as ->. done.
    + intros x. rewrite elem_of_singleton. split.
      * intros ->. rewrite lookup_singleton_eq. by eexists.
      * intros [v Hv]. destruct (decide (x = start (maze env))); [done|].
        rewrite lookup_singleton_ne in Hv; done.
    + intros x Hx Hne. apply elem_of_singleton in Hx. done.
    + intros. lia.
    + intros x Hx. apply list_elem_of_singleton in Hx as ->.
      split; [set_solver | lia].
    + repeat constructor.
    + intros x y Hx Hnf. apply elem_of_singleton in Hx as ->.
      exfalso. apply Hnf. left.
    + intros x Hx. by apply elem_of_nil in Hx.
    + apply not_elem_of_nil.
    + intros x Hx Hnf. apply elem_of_singleton in Hx as ->.
      exfalso. apply Hnf. left.
  - unfold bfs_measure.
    change (visited (search_init env metrics))
      with ({[start (maze env)]} : gset Coord).
    change (frontier (search_init env metrics)) with [start (maze env)].
    rewrite size_singleton. simpl length.
    assert (1 <= length (all_cells (rows (maze env)) (cols (maze env))))%nat.
    { rewrite <- (size_singleton (C := gset Coord) (start (maze env))).
      apply size_in_grid. intros x Hx. by apply elem_of_singleton in Hx as ->. }
    lia.
Qed.

Lemma bfs_run (env : MazeEnv F) (fuel : nat) :
  maze_ok (maze env) ->
  forall st d lo, bfs_inv env d lo [] st -> (bfs_measure env st < fuel)%nat ->
  exists res st' p pre,
    run_loop (bfs_step env) fuel st = Ok (res, st')
    /\ path res = start (maze env) :: p
    /\ walk (maze_adj (maze env)) (start (maze env)) p (goal (maze env))
    /\ (forall q, walk (maze_adj (maze env)) (start (maze env)) q
                    (goal (maze env)) -> (length p <= length q)%nat)
    /\ visited_order res = pre ++ [goal (maze env)]
    /\ (goal (maze env) ∉ pre)
    /\ RunMetrics.solved (s_metrics st') = true
    /\ RunMetrics.solution_path_length (s_metrics st') = Z.of_nat (length p).
Proof.
  intros Hok. induction fuel as [|fuel IH]; intros st d lo Hinv Hfuel; [lia|].
  simpl.
  destruct (bfs_step_progress env d lo st Hok Hinv)
    as [(res & st' & p & pre & -> & Hpost)|(st1 & d1 & lo1 & -> & Hinv1 & Hlt)].
  - simpl. by exists res, st', p, pre.
  - simpl. apply (IH st1 d1 lo1); [done|lia].
Qed.

End bfs.

Lemma run_loop_fuel_mono {St} (step : St -> result (round St)) (fuel fuel' : nat)
    (st : St) (r : SolveResult * St) :
  run_loop step fuel st = Ok r -> (fuel <= fuel')%nat ->
  run_loop step fuel' st = Ok r.
Proof.
  revert fuel' st. induction fuel as [|fuel IH]; intros fuel' st; [done|].
  intros Hrun Hle. destruct fuel' as [|fuel']; [lia|]. simpl in *.
  destruct (step st) as [[st1|res st1]|e]; simpl in *; [|done|done].
  apply IH; [done|lia].
Qed.

(** BFS on a well-formed maze: it returns for every fuel above the
    number of cells, with a shortest path. *)
Lemma solve_bfs_shortest {F} `{FloatOps F} `{FloatLib F} (env : MazeEnv F)
    (metrics : RunMetrics.t F) :
  maze_ok (maze env) ->
  exists res metrics' p pre,
    (forall fuel,
       (length (all_cells (rows (maze env)) (cols (maze env))) < fuel)%nat ->
       solve_bfs fuel env metrics = Ok (res, metrics'))
    /\ path res = start (maze env) :: p
    /\ walk (maze_adj (maze env)) (start (maze env)) p (goal (maze env))
    /\ (forall q, walk (maze_adj (maze env)) (start (maze env)) q
                    (goal (maze env)) -> (length p <= length q)%nat)
    /\ visited_order res = pre ++ [goal (maze env)]
    /\ (goal (maze env) ∉ pre)
    /\ RunMetrics.solved metrics' = true
    /\ RunMetrics.solution_path_length metrics' = Z.of_nat (length p).
Proof.
  intros Hok. destruct (bfs_init_inv env metrics Hok) as [Hinv Hm].
  set (n := length (all_cells (rows (maze env)) (cols (maze env)))) in *.
  destruct (bfs_run env (Datatypes.S n) Hok _ _ _ Hinv)
    as (res & st' & p & pre & Hrun & Hpost); [lia|].
  exists res, (s_metrics st'), p, pre. split; [|done].
  intros fuel Hfuel. unfold solve_bfs, bfs_loop.
  rewrite (run_loop_fuel_mono _ (Datatypes.S n) fuel _ _ Hrun) by lia. done.
Qed.

(** The maze of [generate_maze] is one the solvers expect. *)
Lemma generate_maze_ok {R} `{RandomSource R} (HR : RandomSourceOk R)
    (nr nc : Z) (seed : option Z) (s0 : Coord) (g0 : option Coord) :
  2 <= nr -> 2 <= nc -> in_grid nr nc s0 ->
  match g0 with Some g => in_grid nr nc g | None => True end ->
  exists m,
    (forall fuel, (2 * Z.to_nat nr * Z.to_nat nc <= fuel)%nat ->
       generate_maze R fuel nr nc seed s0 g0 = Ok m)
    /\ rows m = nr /\ cols m = nc /\ maze_ok m.
Proof.
  intros Hr Hc Hstart Hgoal.
  destruct (generate_maze_run HR nr nc seed s0 g0 Hr Hc Hstart)
    as (st & _ & Hinv & Hnil & Hgen).
  set (g := match g0 with Some g => g | None => (nr - 1, nc - 1) end) in *.
  exists (mkMaze nr nc (c_walls st) s0 g).
  split; [exact Hgen|]. simpl. split; [done|]. split; [done|].
  pose proof (carve_all_marked nr nc s0 st Hinv Hnil) as Hall.
  assert (Hg : in_grid nr nc g).
  { unfold g. destruct g0; [done|]. split; simpl; lia. }
  split; simpl.
  - by destruct Hinv.
  - done.
  - done.
  - unfold maze_adj. simpl.
    destruct (inv_tree _ _ _ _ Hinv s0 g) as (p & [Hw _] & _);
      try done; try (by apply Hall).
    by eapply walk_rtc.
Qed.

(** C2.  On every maze that [generate_maze] returns (start inside the
    grid, goal the default or inside the grid), [solve_bfs] returns for
    every fuel above the number of cells.  Its path is [start :: p] where
    [p] is a walk from the start to the goal in the open-cell graph and
    no walk from the start to the goal has fewer edges than [p]: the
    edge count [len(path) - 1], which is also [solution_path_length], is
    the shortest-path edge count.  The goal is the last cell expanded and
    was not expanded before: the run stops at the first expansion that
    pops the goal. *)
Theorem solve_bfs_shortest_on_generated {R} `{RandomSource R}
    (HR : RandomSourceOk R) (nr nc : Z) (seed : option Z) (s0 : Coord)
    (g0 : option Coord) :
  2 <= nr -> 2 <= nc -> in_grid nr nc s0 ->
  match g0 with Some g => in_grid nr nc g | None => True end ->
  exists m,
    (forall fuel, (2 * Z.to_nat nr * Z.to_nat nc <= fuel)%nat ->
       generate_maze R fuel nr nc seed s0 g0 = Ok m)
    /\ forall (F : Type) (HF : FloatOps F) (HL : FloatLib F)
              (env : MazeEnv F) (metrics : RunMetrics.t F),
         maze env = m ->
         exists res metrics' p pre,
           (forall fuel, (Z.to_nat nr * Z.to_nat nc < fuel)%nat ->
              solve_bfs fuel env metrics = Ok (res, metrics'))
           /\ path res = start m :: p
           /\ walk (maze_adj m) (start m) p (goal m)
           /\ (forall q, walk (maze_adj m) (start m) q (goal m) ->
                         (length p <= length q)%nat)
           /\ Z.of_nat (length (path res)) - 1 = Z.of_nat (length p)
           /\ RunMetrics.solution_path_length metrics' = Z.of_nat (length p)
           /\ RunMetrics.solved metrics' = true
           /\ visited_order res = pre ++ [goal m]
           /\ (goal m ∉ pre).
Proof.
  intros Hr Hc Hstart Hgoal.
  destruct (generate_maze_ok HR nr nc seed s0 g0 Hr Hc Hstart Hgoal)
    as (m & Hgen & Hrows & Hcols & Hok).
  exists m. split; [exact Hgen|].
  intros F HF HL env metrics Henv. subst m.
  destruct (solve_bfs_shortest env metrics Hok)
    as (res & metrics' & p & pre & Hrun & Hpath & Hw & Hmin & Hvo & Hpre
        & Hsolved & Hlen).
  exists res, metrics', p, pre.
  split; [|split; [done|split; [done|split; [done|split;
    [|split; [done|split; [done|split; done]]]]]]].
  - intros fuel Hfuel. apply Hrun.
    by rewrite length_all_cells, Hrows, Hcols.
  - rewrite Hpath. simpl length. lia.
Qed.

(** BFS on the 3x3 maze of seed 42. *)
Lemma solve_bfs_shortest_on_generated_witness :
  exists m p,
    generate_maze Z 18 3 3 (Some 42) (0, 0) None = Ok m
    /\ (exists res metrics',
          solve_bfs 10 (mkEnv m (-0.01)%float 1%float (-0.05)%float
                          0.99%float 0%float)
            (RunMetrics.fresh "bfs" 3 3 42)
          = Ok (res, metrics')
          /\ path res = start m :: p)
    /\ forall q, walk (maze_adj m) (start m) q (goal m) ->
                 (length p <= length q)%nat.
Proof.
  destruct (solve_bfs_shortest_on_generated lcg_RandomSourceOk 3 3 (Some 42)
              (0, 0) None) as (m & Hgen & Hbfs).
  - lia.
  - lia.
  - unfold in_grid. simpl. lia.
  - exact I.
  - destruct (Hbfs PrimFloat.float _ _
                (mkEnv m (-0.01)%float 1%float (-0.05)%float 0.99%float 0%float)
                (RunMetrics.fresh "bfs" 3 3 42) eq_refl)
      as (res & metrics' & p & pre & Hrun & Hpath & _ & Hmin & _).
    exists m, p. split; [apply Hgen; simpl; lia|].
    split; [|exact Hmin].
    exists res, metrics'. split; [|exact Hpath]. apply Hrun. simpl. lia.
Defined.

(** ** The MDP solvers and the metrics of convergence *)

Section mdp_facts.
Context {F : Type} `{FloatOps F} `{FloatLib F}.

Lemma record_parameters_recorded (env : MazeEnv F) theta metrics :
  recorded_parameters (record_parameters env theta metrics)
  = env_parameters env theta.
Proof. reflexivity. Qed.

Lemma record_parameters_error (env : MazeEnv F) theta metrics :
  RunMetrics.final_convergence_error (record_parameters env theta metrics)
  = RunMetrics.final_convergence_error metrics.
Proof. reflexivity. Qed.

(** The tail of the solvers touches neither the parameters nor the
    convergence error. *)
Lemma policy_result_keeps (env : MazeEnv F) policy vo metrics res metrics' :
  policy_result env policy vo metrics = Ok (res, metrics') ->
  recorded_parameters metrics' = recorded_parameters metrics /\
  RunMetrics.final_convergence_error metrics'
  = RunMetrics.final_convergence_error metrics.
Proof.
  unfold policy_result. intros Hr.
  apply rbind_Ok_inv in Hr as (p & _ & Hr).
  injection Hr as _ <-. by split.
Qed.

(** The loop of value iteration returns the delta of the last sweep it
    ran: with no round at all the initial [delta], otherwise the delta
    of the sweep that produced the values it returns. *)
Lemma vi_loop_last_delta (env : MazeEnv F) theta n :
  forall it V delta vo V' it' delta' vo',
    vi_loop env theta n it V delta vo = Ok (V', it', delta', vo') ->
    (n = O /\ (V', it', delta', vo') = (V, it, delta, vo)) \/
    (exists V0 vo0,
        vi_sweep env (states env) V0 (f_of_Z 0) vo0 = Ok (V', delta', vo') /\
        it < it' <= it + Z.of_nat n).
Proof.
  induction n as [|n IH]; intros it V delta vo V' it' delta' vo' Hl.
  - injection Hl as <- <- <- <-. by left.
  - right. simpl in Hl.
    apply rbind_Ok_inv in Hl as ([[V1 d1] vo1] & Hs & Hl).
    destruct (fltb d1 theta).
    + injection Hl as <- <- <- <-. exists V, vo. split; [done | lia].
    + apply IH in Hl as [[-> Heq] | (V0 & vo0 & Hs' & Hit)].
      * injection Heq as -> -> -> ->. exists V, vo. split; [done | lia].
      * exists V0, vo0. split; [done | lia].
Qed.

(** Value iteration: the parameters are recorded and the convergence
    error is the delta the loop ended with, whether the loop stopped
    below the threshold or at its cap. *)
Lemma solve_value_iteration_metrics (env : MazeEnv F) metrics theta max_iters
    res metrics' :
  solve_value_iteration env metrics theta max_iters = Ok (res, metrics') ->
  recorded_parameters metrics' = env_parameters env theta /\
  exists V it delta vo,
    vi_loop env theta max_iters 0 (zero_values env) (f_of_Z 0) []
    = Ok (V, it, delta, vo) /\
    RunMetrics.value_iteration_steps metrics' = Some it /\
    RunMetrics.final_convergence_error metrics' = Some delta.
Proof.
  unfold solve_value_iteration. intros Hr.
  apply rbind_Ok_inv in Hr as ([[[V it] delta] vo] & Hl & Hr).
  apply rbind_Ok_inv in Hr as (policy & _ & Hr).
  pose proof Hr as Hk. apply policy_result_keeps in Hk as [Hp He].
  split; [by rewrite Hp|].
  exists V, it, delta, vo. split; [done|]. split; [|by rewrite He].
  unfold policy_result in Hr.
  apply rbind_Ok_inv in Hr as (p & _ & Hr).
  by injection Hr as _ <-.
Qed.

(** The outer loop of policy iteration keeps the parameters; it writes
    the convergence error only in a round that finds the policy stable,
    and otherwise leaves the field as it found it. *)
Lemma pi_loop_metrics (env : MazeEnv F) theta max_eval_iters n :
  forall pi_it st st',
    pi_loop env theta max_eval_iters n pi_it st = Ok st' ->
    recorded_parameters (pi_metrics st') = recorded_parameters (pi_metrics st) /\
    (RunMetrics.final_convergence_error (pi_metrics st')
     = Some (pi_final_delta st') \/
     RunMetrics.final_convergence_error (pi_metrics st')
     = RunMetrics.final_convergence_error (pi_metrics st)).
Proof.
  induction n as [|n IH]; intros pi_it st st' Hl.
  - injection Hl as <-. split; [done | by right].
  - simpl in Hl.
    apply rbind_Ok_inv in Hl as ([[V delta] k] & _ & Hl).
    apply rbind_Ok_inv in Hl as ([policy stable] & _ & Hl).
    destruct stable.
    + injection Hl as <-. split; [done | by left].
    + apply IH in Hl as [Hp He]. simpl in Hp, He. by split.
Qed.

(** The variable [final_delta] holds the delta of the last evaluation
    that ran. *)
Lemma pi_loop_final_delta (env : MazeEnv F) theta max_eval_iters n :
  forall pi_it st st',
    pi_loop env theta max_eval_iters n pi_it st = Ok st' ->
    (n = O /\ st' = st) \/
    (exists policy0 V k,
        _policy_evaluation env policy0 theta max_eval_iters
        = Ok (V, pi_final_delta st', k)).
Proof.
  induction n as [|n IH]; intros pi_it st st' Hl.
  - injection Hl as <-. by left.
  - right. simpl in Hl.
    apply rbind_Ok_inv in Hl as ([[V delta] k] & He & Hl).
    apply rbind_Ok_inv in Hl as ([policy stable] & _ & Hl).
    destruct stable.
    + injection Hl as <-. by exists (pi_policy st), V, k.
    + apply IH in Hl as [[-> ->] | Hl]; [|done].
      by exists (pi_policy st), V, k.
Qed.

(** Policy iteration records the parameters at entry. *)
Lemma solve_policy_iteration_parameters (env : MazeEnv F) metrics theta
    max_policy_iters max_eval_iters res metrics' :
  solve_policy_iteration env metrics theta max_policy_iters max_eval_iters
  = Ok (res, metrics') ->
  recorded_parameters metrics' = env_parameters env theta.
Proof.
  unfold solve_policy_iteration, pi_run. intros Hr.
  apply rbind_Ok_inv in Hr as (st & Hl & Hr).
  apply policy_result_keeps in Hr as [Hp _].
  apply pi_loop_metrics in Hl as [Hq _].
  by rewrite Hp, Hq.
Qed.

End mdp_facts.

(** C8.  Both MDP solvers record the discount factor, the threshold and
    the three rewards at entry, and value iteration reports the delta
    of its last sweep even when it stops at its cap; policy iteration
    does not: on the 3x3 maze of seed 2 with [max_policy_iters = 1] the
    one evaluation runs 1078 sweeps and ends with a delta that the run
    keeps in [final_delta], the improvement changes the policy, and
    the solver returns with the parameters recorded but with
    [final_convergence_error] still unset.  The same input with the cap
    of value iteration at one sweep does report the delta. *)
Theorem policy_iteration_cap_leaves_error_unset :
  exists st res metrics' res_vi metrics_vi,
    pi_run env_3x3_seed2 metrics_pi theta_default 1 max_eval_iters_default
    = Ok st /\
    solve_policy_iteration env_3x3_seed2 metrics_pi theta_default 1
      max_eval_iters_default = Ok (res, metrics') /\
    pi_total_eval_sweeps st = 1078 /\
    fltb 0%float (pi_final_delta st) = true /\
    recorded_parameters metrics' = env_parameters env_3x3_seed2 theta_default /\
    RunMetrics.final_convergence_error metrics' = None /\
    solve_value_iteration env_3x3_seed2 metrics_pi theta_default 1
    = Ok (res_vi, metrics_vi) /\
    recorded_parameters metrics_vi = env_parameters env_3x3_seed2 theta_default /\
    RunMetrics.value_iteration_steps metrics_vi = Some 1 /\
    RunMetrics.final_convergence_error metrics_vi = Some 1%float.
Proof.
  destruct (pi_run env_3x3_seed2 metrics_pi theta_default 1
              max_eval_iters_default) as [st|e] eqn:Hst;
    [|by vm_compute in Hst].
  destruct (solve_policy_iteration env_3x3_seed2 metrics_pi theta_default 1
              max_eval_iters_default) as [[res m']|e] eqn:Hpi;
    [|by vm_compute in Hpi].
  destruct (solve_value_iteration env_3x3_seed2 metrics_pi theta_default 1)
    as [[res_vi m_vi]|e] eqn:Hvi; [|by vm_compute in Hvi].
  exists st, res, m', res_vi, m_vi.
  split; [done|]. split; [done|].
  vm_compute in Hst. injection Hst as <-.
  vm_compute in Hpi. injection Hpi as <- <-.
  vm_compute in Hvi. injection Hvi as <- <-.
  repeat split; vm_compute; reflexivity.
Qed.

(** ** More on the priority queue *)

Section PQ_more.
Context {T : Type} `{Countable T}.
Context {P : Type} `{PrioOps P}.

Abbreviation PQItem := (@PQ.PQItem T P).
Abbreviation PriorityQueue := (@PQ.PriorityQueue T _ _ P).

Lemma pop_loop_raises (best : gmap T P) (h : list PQItem) :
  fst (PQ.pop_loop best h) = Raise IndexError <->
  forallb (fun e => negb (PQ.live best e)) h = true.
Proof.
  induction h as [|e h IH]; simpl; [done|].
  destruct (PQ.live best e); simpl; [done|]. exact IH.
Qed.

Lemma pop_loop_result (best : gmap T P) (h : list PQItem) :
  fst (PQ.pop_loop best h) = Raise IndexError
  \/ exists x p, fst (PQ.pop_loop best h) = Ok (x, p).
Proof.
  induction h as [|e h IH]; simpl; [by left|].
  destruct (PQ.live best e); simpl; [right; eauto | exact IH].
Qed.

Lemma live_empty_best (best : gmap T P) (e : PQItem) :
  size best = 0%nat -> PQ.live best e = false.
Proof.
  intros Hs. apply map_size_empty_iff in Hs. subst best.
  unfold PQ.live. by rewrite lookup_empty.
Qed.

Lemma pop_fst (q : PriorityQueue) :
  fst (PQ.pop q) = fst (PQ.pop_loop (PQ._best q) (PQ._heap q)).
Proof. unfold PQ.pop. by destruct (PQ.pop_loop _ _). Qed.

End PQ_more.

(** X1.  [empty()] and [pop()] agree on every queue, well-formed or not:
    [empty()] is [True] exactly when [pop()] raises [IndexError], and
    [False] exactly when [pop()] returns a pair.  [pop()] raises nothing
    but [IndexError], and when it raises it leaves the heap empty. *)
Theorem pq_empty_iff_pop_raises {T : Type} `{Countable T} {P : Type} `{PrioOps P}
    (q : @PQ.PriorityQueue T _ _ P) :
  (PQ.empty q = true <-> fst (PQ.pop q) = Raise IndexError)
  /\ (PQ.empty q = false <-> exists x p, fst (PQ.pop q) = Ok (x, p))
  /\ (forall err, fst (PQ.pop q) = Raise err ->
        err = IndexError /\ PQ._heap (snd (PQ.pop q)) = []
        /\ PQ.empty (snd (PQ.pop q)) = true).
Proof.
  assert (Hiff : PQ.empty q = true <-> fst (PQ.pop q) = Raise IndexError).
  { rewrite pop_fst, pop_loop_raises. unfold PQ.empty.
    rewrite orb_true_iff. split; [|by right].
    intros [Hs|Hall]; [|done].
    apply Nat.eqb_eq in Hs. apply forallb_forall. intros e _.
    by rewrite live_empty_best. }
  split; [exact Hiff|]. split.
  - destruct (pop_loop_result (PQ._best q) (PQ._heap q)) as [Hr|(x & p & Hr)];
      rewrite <- pop_fst in Hr.
    + pose proof (proj2 Hiff Hr) as He. rewrite He, Hr.
      split; [done|]. intros (x & p & ?). done.
    + destruct (PQ.empty q) eqn:He.
      * pose proof (proj1 Hiff eq_refl) as Hr'. congruence.
      * split; [eauto|done].
  - intros err Herr. unfold PQ.pop in *.
    destruct (PQ.pop_loop (PQ._best q) (PQ._heap q)) as [r rest] eqn:E.
    simpl in Herr. subst r.
    destruct (pop_loop_Raise _ _ _ _ E) as (-> & -> & _).
    split; [done|]. split; [done|]. unfold PQ.empty. simpl.
    apply orb_true_r.
Qed.

Section PQ_more2.
Context {T : Type} `{Countable T}.
Context {P : Type} `{PrioOps P}.
Context (HP : PriorityOrder P).

Abbreviation PQItem := (@PQ.PQItem T P).
Abbreviation PriorityQueue := (@PQ.PriorityQueue T _ _ P).

Lemma pop_best (q : PriorityQueue) : PQ._best (snd (PQ.pop q)) = PQ._best q.
Proof. unfold PQ.pop. by destruct (PQ.pop_loop _ _). Qed.

Lemma apply_op_improves (q : PriorityQueue) (o : @PQ.op T P) (x : T) (p : P) :
  PQ.peek_priority q x = Some p ->
  exists p', PQ.peek_priority (PQ.apply_op q o) x = Some p'
             /\ (p' = p \/ plt p' p = true).
Proof.
  clear HP.
  unfold PQ.peek_priority. intros Hx. destruct o as [y p1|]; simpl.
  - unfold PQ.push. destruct (decide (y = x)) as [->|Hne].
    + rewrite Hx. destruct (plt p1 p) eqn:E; simpl.
      * exists p1. rewrite lookup_insert_eq. auto.
      * exists p. auto.
    + destruct (PQ._best q !! y) as [b|]; [destruct (plt p1 b)|]; simpl;
        rewrite ?lookup_insert_ne by done; eauto.
  - rewrite pop_best. eauto.
Qed.

Lemma apply_op_size (q : PriorityQueue) (o : @PQ.op T P) :
  (size (PQ._best q) <= size (PQ._best (PQ.apply_op q o)))%nat.
Proof.
  clear HP. destruct o as [y p1|]; simpl.
  - unfold PQ.push. destruct (PQ._best q !! y) as [b|] eqn:E;
      [destruct (plt p1 b)|]; simpl; try done.
    + rewrite map_size_insert_Some by done. done.
    + rewrite map_size_insert_None by done. lia.
  - by rewrite pop_best.
Qed.

End PQ_more2.

(** X2.  The best-known priority is never forgotten and never gets
    worse: once [peek_priority(x)] is [p], after any further pushes and
    pops it is [p] or a priority below [p].  The length the queue
    reports never goes down. *)
Theorem pq_best_only_improves {T : Type} `{Countable T} {P : Type} `{PrioOps P}
    (HP : PriorityOrder P) (q : @PQ.PriorityQueue T _ _ P)
    (ops : list (@PQ.op T P)) (x : T) (p : P) :
  PQ.peek_priority q x = Some p ->
  (exists p', PQ.peek_priority (foldl PQ.apply_op q ops) x = Some p'
              /\ (p' = p \/ plt p' p = true))
  /\ PQ.len q <= PQ.len (foldl PQ.apply_op q ops).
Proof.
  intros Hx. split.
  - revert q p Hx. induction ops as [|o ops IH]; intros q p Hx; simpl.
    + eauto.
    + destruct (apply_op_improves q o x p Hx) as (p1 & H1 & Hle).
      destruct (IH _ _ H1) as (p' & H' & Hle'). exists p'. split; [done|].
      destruct Hle as [->|Hlt]; [done|]. right.
      destruct Hle' as [->|Hlt']; [done|].
      by eapply (plt_trans P HP).
  - clear Hx. unfold PQ.len. revert q.
    induction ops as [|o ops IH]; intros q; simpl; [lia|].
    specialize (IH (PQ.apply_op q o)).
    pose proof (apply_op_size q o). lia.
Qed.

(** A queue that holds item 1 at priority 5, then a better push, a pop
    and a worse push. *)
Lemma pq_best_only_improves_witness :
  PriorityOrder Z
  /\ PQ.peek_priority (PQ.push (PQ.new : @PQ.PriorityQueue Z _ _ Z) 1 5) 1
     = Some 5
  /\ exists p', PQ.peek_priority
                  (foldl PQ.apply_op (PQ.push PQ.new 1 5)
                     [PQ.Push 1 3; PQ.Pop; PQ.Push 1 4]) 1
                = Some p'
                /\ (p' = 5 \/ plt p' 5 = true).
Proof.
  assert (Hx : PQ.peek_priority
                 (PQ.push (PQ.new : @PQ.PriorityQueue Z _ _ Z) 1 5) 1 = Some 5)
    by (vm_compute; reflexivity).
  split; [exact Z_PriorityOrder|]. split; [exact Hx|].
  exact (proj1 (pq_best_only_improves Z_PriorityOrder _
                  [PQ.Push 1 3; PQ.Pop; PQ.Push 1 4] 1 5 Hx)).
Defined.


Section PQ_drain.
Context {T : Type} `{Countable T}.
Context {P : Type} `{PrioOps P}.
Context (HP : PriorityOrder P).

Abbreviation PQItem := (@PQ.PQItem T P).
Abbreviation PriorityQueue := (@PQ.PriorityQueue T _ _ P).


(** Draining returns the live entries of the heap in heap order. *)
Lemma drain_loop_live (n : nat) :
  forall (h : list PQItem) (t : nat) (best : gmap T P),
    (length h < n)%nat ->
    drain_loop n (PQ.mkPQ h t best)
    = entry_pair <$> filter (fun e => PQ.live best e = true) h.
Proof.
  clear HP.
  induction n as [|n IH]; intros h t best Hn; [lia|].
  simpl. unfold PQ.pop. simpl.
  destruct (PQ.pop_loop best h) as [[[x p]|err] rest] eqn:E.
  - apply pop_loop_Ok in E as (pre & e & -> & <- & <- & Hlive & Hpre).
    rewrite filter_app, filter_cons.
    destruct (decide (PQ.live best e = true)); [|done].
    replace (filter (fun e0 => PQ.live best e0 = true) pre) with (@nil PQItem).
    + simpl. f_equal. apply IH. rewrite length_app in Hn. simpl in Hn. lia.
    + symmetry. clear -Hpre. induction Hpre as [|y pre Hy _ IH]; [done|].
      rewrite filter_cons. destruct (decide (PQ.live best y = true)); [congruence|done].
  - apply pop_loop_Raise in E as (_ & _ & Hall).
    replace (filter (fun e0 => PQ.live best e0 = true) h) with (@nil PQItem);
      [done|].
    symmetry. clear -Hall. induction Hall as [|y pre Hy _ IH]; [done|].
    rewrite filter_cons. destruct (decide (PQ.live best y = true)); [congruence|done].
Qed.

Lemma drain_live (q : PriorityQueue) :
  drain q = entry_pair <$> PQ.live_entries q.
Proof.
  clear HP. destruct q as [h t best]. unfold drain, PQ.live_entries. simpl.
  change (match PQ.pop (PQ.mkPQ h t best) with
          | (Ok xp, q') => xp :: drain_loop (length h) q'
          | (Raise _, _) => []
          end) with (drain_loop (Datatypes.S (length h)) (PQ.mkPQ h t best)).
  apply drain_loop_live. lia.
Qed.

Lemma live_best (best : gmap T P) (e : PQItem) :
  PQ.live best e = true <-> best !! PQ.item e = Some (PQ.priority e).
Proof.
  unfold PQ.live. destruct (best !! PQ.item e) as [b|]; [|done].
  rewrite (peq_eq P HP). split; [by intros -> | by intros [= ->]].
Qed.




End PQ_drain.



Section PQ_fifo.
Context {T : Type} `{Countable T}.
Context {P : Type} `{PrioOps P}.
Context (HP : PriorityOrder P).

Abbreviation PQItem := (@PQ.PQItem T P).
Abbreviation PriorityQueue := (@PQ.PriorityQueue T _ _ P).

(** An entry that is not below any entry of the heap goes to its end. *)
Lemma heappush_last (h : list PQItem) (e : PQItem) :
  Forall (fun y => PQ.item_lt e y = false) h -> PQ.heappush h e = h ++ [e].
Proof.
  clear HP. induction 1 as [|y h Hy _ IH]; simpl; [done|].
  by rewrite Hy, IH.
Qed.

Lemma run_same_priority (p : P) (xs : list T) :
  NoDup xs ->
  PQ._heap (PQ.run ((fun x => PQ.Push x p) <$> xs))
  = imap (fun i x => PQ.mkItem p i x) xs
  /\ PQ._tie (PQ.run ((fun x => PQ.Push x p) <$> xs)) = length xs
  /\ forall x, PQ._best (PQ.run ((fun x => PQ.Push x p) <$> xs)) !! x
               = if decide (x ∈ xs) then Some p else None.
Proof.
  unfold PQ.run. induction xs as [|x xs IH] using rev_ind; intros Hnd.
  - simpl. split; [done|]. split; [done|]. intros x.
    rewrite lookup_empty. destruct (decide (x ∈ [])) as [Hin|]; [|done].
    by apply elem_of_nil in Hin.
  - apply NoDup_app in Hnd as (Hnd & Hdisj & _).
    destruct (IH Hnd) as (Hh & Ht & Hb).
    rewrite fmap_app, foldl_app. simpl.
    set (q := foldl PQ.apply_op PQ.new ((fun x => PQ.Push x p) <$> xs)) in *.
    assert (Hx : x ∉ xs).
    { intros Hin. apply (Hdisj x Hin). by apply list_elem_of_singleton. }
    unfold PQ.push. rewrite Hb. destruct (decide (x ∈ xs)); [done|].
    unfold PQ.enqueue. simpl. rewrite Hh, Ht.
    split; [|split; [rewrite length_app; simpl; lia|]].
    + rewrite imap_app. simpl. rewrite Nat.add_0_r.
      apply heappush_last. apply Forall_forall. intros y Hy.
      apply elem_of_lookup_imap in Hy as (i & z & -> & Hz).
      unfold PQ.item_lt. simpl. rewrite (peq_refl HP).
      apply Nat.ltb_ge. apply lookup_lt_Some in Hz. lia.
    + intros y. destruct (decide (y = x)) as [->|Hne].
      * rewrite lookup_insert_eq.
        destruct (decide (x ∈ xs ++ [x])) as [|Hn]; [done|].
        exfalso. apply Hn. set_solver.
      * rewrite lookup_insert_ne by done. rewrite Hb.
        destruct (decide (y ∈ xs)), (decide (y ∈ xs ++ [x])); try done;
          set_solver.
Qed.

End PQ_fifo.

(** X4.  The tie-breaker is stable: distinct items pushed at one and the
    same priority on a new queue are popped in the order of their
    pushes. *)
Theorem pq_equal_priority_fifo {T : Type} `{Countable T} {P : Type}
    `{PrioOps P} (HP : PriorityOrder P) (p : P) (xs : list T) :
  NoDup xs ->
  drain (PQ.run ((fun x => PQ.Push x p) <$> xs)) = (fun x => (x, p)) <$> xs.
Proof.
  intros Hnd. destruct (run_same_priority HP p xs Hnd) as (Hh & _ & Hb).
  rewrite drain_live. unfold PQ.live_entries. rewrite Hh.
  rewrite filter_all.
  - apply list_eq. intros i. rewrite !list_lookup_fmap, list_lookup_imap.
    by destruct (xs !! i).
  - intros e He. apply elem_of_lookup_imap in He as (i & x & -> & Hx).
    apply (live_best HP). simpl. rewrite Hb.
    destruct (decide (x ∈ xs)) as [|Hn]; [done|].
    exfalso. apply Hn. by eapply list_elem_of_lookup_2.
Qed.

(** Three items at priority 2. *)
Lemma pq_equal_priority_fifo_witness :
  PriorityOrder Z /\ NoDup [7; 3; 9]
  /\ drain (PQ.run [PQ.Push 7 2; PQ.Push 3 2; PQ.Push 9 2])
     = [(7, 2); (3, 2); (9, 2)].
Proof.
  assert (Hnd : NoDup [7; 3; 9]) by compute_done.
  split; [exact Z_PriorityOrder|]. split; [exact Hnd|].
  exact (pq_equal_priority_fifo Z_PriorityOrder (T := Z) 2 [7; 3; 9] Hnd).
Defined.

(** ** More on the generator *)

Lemma raises_only_Ok {A} (E : exn -> Prop) (a : A) : raises_only E (Ok a).
Proof. intros e. discriminate. Qed.

Lemma raises_only_Raise {A} (E : exn -> Prop) (e : exn) :
  E e -> raises_only (A := A) E (Raise e).
Proof. intros He e' [= <-]. done. Qed.

Lemma raises_only_bind {A B} (E : exn -> Prop) (c : result A)
    (k : A -> result B) :
  raises_only E c -> (forall a, raises_only E (k a)) ->
  raises_only E (rbind c k).
Proof.
  intros Hc Hk. destruct c as [a|e]; simpl; [apply Hk|].
  intros e' [= <-]. by apply Hc.
Qed.

Lemma py_index_raises (n : nat) (i : Z) : raises_only index_error (py_index n i).
Proof.
  unfold py_index. repeat case_match;
    (apply raises_only_Ok || by apply raises_only_Raise).
Qed.

Lemma getitem_raises {A} (l : list A) (i : Z) :
  raises_only index_error (getitem l i).
Proof.
  unfold getitem. apply raises_only_bind; [apply py_index_raises|].
  intros k. destruct (l !! k); [apply raises_only_Ok | by apply raises_only_Raise].
Qed.

Lemma setitem_raises {A} (l : list A) (i : Z) (x : A) :
  raises_only index_error (setitem l i x).
Proof.
  unfold setitem. apply raises_only_bind; [apply py_index_raises|].
  intros k. apply raises_only_Ok.
Qed.

Lemma grid_get_raises {A} (g : list (list A)) (r c : Z) :
  raises_only index_error (grid_get g r c).
Proof.
  unfold grid_get. apply raises_only_bind; [apply getitem_raises|].
  intros row. apply getitem_raises.
Qed.

Lemma grid_set_raises {A} (g : list (list A)) (r c : Z) (x : A) :
  raises_only index_error (grid_set g r c x).
Proof.
  unfold grid_set. apply raises_only_bind; [apply getitem_raises|].
  intros row. apply raises_only_bind; [apply setitem_raises|].
  intros row'. apply setitem_raises.
Qed.

Lemma collect_neigh_raises (rows cols : Z) (v : list (list bool)) (r c : Z)
    (dirs : list (Z * Z * Z * Z)) :
  raises_only index_error (collect_neigh rows cols v r c dirs).
Proof.
  induction dirs as [|[[[dr dc] w] w'] dirs IH]; simpl; [apply raises_only_Ok|].
  apply raises_only_bind.
  - case_match; [|apply raises_only_Ok].
    apply raises_only_bind; [apply grid_get_raises|].
    intros b. apply raises_only_Ok.
  - intros keep. apply raises_only_bind; [exact IH|].
    intros rest. apply raises_only_Ok.
Qed.

Lemma choice_raises {R} `{RandomSource R} {A} (g : R) (l : list A) :
  raises_only index_error (choice g l).
Proof.
  unfold choice. destruct l as [|x l]; [by apply raises_only_Raise|].
  destruct (randbelow g (length (x :: l))) as [i g'].
  destruct ((x :: l) !! i); [apply raises_only_Ok | by apply raises_only_Raise].
Qed.

Lemma carve_step_raises {R} `{RandomSource R} (rows cols : Z)
    (st : carve_state R) :
  raises_only index_error (carve_step rows cols st).
Proof.
  unfold carve_step. destruct (c_stack st) as [|[r c] below];
    [apply raises_only_Ok|].
  apply raises_only_bind; [apply collect_neigh_raises|].
  intros neigh. destruct neigh as [|n0 neigh]; [apply raises_only_Ok|].
  apply raises_only_bind; [apply choice_raises|].
  intros [[[[nr nc] wc] wn] g'].
  apply raises_only_bind; [apply grid_get_raises|]. intros m.
  apply raises_only_bind; [apply grid_set_raises|]. intros w1.
  apply raises_only_bind; [apply grid_get_raises|]. intros m'.
  apply raises_only_bind; [apply grid_set_raises|]. intros w2.
  apply raises_only_bind; [apply grid_set_raises|]. intros v'.
  apply raises_only_Ok.
Qed.

Lemma carve_loop_raises {R} `{RandomSource R} (fuel : nat) (rows cols : Z)
    (st : carve_state R) :
  raises_only (fun e => e = IndexError \/ e = OutOfFuel)
    (carve_loop fuel rows cols st).
Proof.
  revert st. induction fuel as [|fuel IH]; intros st; simpl.
  - destruct (c_stack st); [apply raises_only_Ok|].
    apply raises_only_Raise. by right.
  - destruct (c_stack st); [apply raises_only_Ok|].
    apply raises_only_bind; [|exact IH].
    intros e He. left. by apply (carve_step_raises rows cols st).
Qed.

Lemma carve_init_raises {R} `{RandomSource R} (rows cols : Z)
    (seed : option Z) (start : Coord) :
  raises_only index_error (carve_init (R := R) rows cols seed start).
Proof.
  unfold carve_init. destruct start as [sr sc].
  apply raises_only_bind; [apply grid_set_raises|].
  intros v. apply raises_only_Ok.
Qed.

(** X5.  [generate_maze] raises [ValueError] exactly when [rows < 2] or
    [cols < 2], whatever the seed, the start and the goal: nothing in
    the carving loop raises it. *)
Theorem generate_maze_ValueError_iff {R} `{RandomSource R} (fuel : nat)
    (nr nc : Z) (seed : option Z) (s0 : Coord) (g0 : option Coord) :
  generate_maze R fuel nr nc seed s0 g0 = Raise ValueError
  <-> nr < 2 \/ nc < 2.
Proof.
  unfold generate_maze. split.
  - destruct ((nr <? 2) || (nc <? 2)) eqn:E.
    + intros _. apply orb_true_iff in E. rewrite !Z.ltb_lt in E. done.
    + intros Hr. exfalso.
      assert (Hro : raises_only (fun e => e = IndexError \/ e = OutOfFuel)
                (let! st0 := carve_init (R := R) nr nc seed s0 in
                 let! st := carve_loop fuel nr nc st0 in
                 Ok (mkMaze nr nc (c_walls st) s0
                       match g0 with
                       | Some g => g
                       | None => (nr - 1, nc - 1)
                       end))).
      { apply raises_only_bind.
        - intros e He. left. by apply (carve_init_raises nr nc seed s0).
        - intros st0. apply raises_only_bind; [apply carve_loop_raises|].
          intros st. apply raises_only_Ok. }
      destruct (Hro _ Hr); done.
  - intros Hlt. replace ((nr <? 2) || (nc <? 2)) with true; [done|].
    symmetry. apply orb_true_iff. rewrite !Z.ltb_lt. done.
Qed.

(** ** Start cells outside the grid *)

Lemma py_index_out (n : nat) (i : Z) :
  ~ (- Z.of_nat n <= i < Z.of_nat n) -> py_index n i = Raise IndexError.
Proof.
  intros Hout. unfold py_index.
  destruct ((0 <=? i) && (i <? Z.of_nat n)) eqn:E1.
  { apply andb_true_iff in E1. rewrite Z.leb_le, Z.ltb_lt in E1. lia. }
  destruct ((- Z.of_nat n <=? i) && (i <? 0)) eqn:E2; [|done].
  apply andb_true_iff in E2. rewrite Z.leb_le, Z.ltb_lt in E2. lia.
Qed.

Lemma py_index_wrap (n : nat) (i : Z) :
  - Z.of_nat n <= i < Z.of_nat n ->
  exists k, py_index n i = Ok k /\ (k < n)%nat.
Proof.
  intros Hin. unfold py_index.
  destruct ((0 <=? i) && (i <? Z.of_nat n)) eqn:E1.
  { apply andb_true_iff in E1. rewrite Z.leb_le, Z.ltb_lt in E1.
    eexists. split; [done|]. lia. }
  destruct ((- Z.of_nat n <=? i) && (i <? 0)) eqn:E2.
  { apply andb_true_iff in E2. rewrite Z.leb_le, Z.ltb_lt in E2.
    eexists. split; [done|]. lia. }
  apply andb_false_iff in E1, E2.
  rewrite Z.leb_gt, Z.ltb_ge in E1. rewrite Z.leb_gt, Z.ltb_ge in E2. lia.
Qed.

Lemma grid_set_replicate_out {A} (nr nc : Z) (x y : A) (r c : Z) :
  0 <= nr -> 0 <= nc ->
  ~ (- nr <= r < nr /\ - nc <= c < nc) ->
  grid_set (replicate (Z.to_nat nr) (replicate (Z.to_nat nc) x)) r c y
  = Raise IndexError.
Proof.
  intros Hnr Hnc Hout. unfold grid_set, getitem.
  rewrite length_replicate.
  destruct (decide (- nr <= r < nr)) as [Hr|Hr].
  - destruct (py_index_wrap (Z.to_nat nr) r) as (k & -> & Hk); [lia|].
    simpl. rewrite lookup_replicate_2 by done. simpl.
    unfold setitem. rewrite length_replicate.
    rewrite py_index_out; [done|]. lia.
  - rewrite py_index_out; [done|]. lia.
Qed.

Lemma grid_set_replicate_in {A} (nr nc : Z) (x y : A) (r c : Z) :
  - nr <= r < nr -> - nc <= c < nc ->
  exists g, grid_set (replicate (Z.to_nat nr) (replicate (Z.to_nat nc) x)) r c y
            = Ok g.
Proof.
  intros Hr Hc. unfold grid_set, getitem, setitem. rewrite !length_replicate.
  destruct (py_index_wrap (Z.to_nat nr) r) as (k & Hk & Hlt); [lia|].
  rewrite Hk. simpl. rewrite lookup_replicate_2 by done. simpl.
  rewrite !length_replicate.
  destruct (py_index_wrap (Z.to_nat nc) c) as (j & -> & _); [lia|].
  simpl. eauto.
Qed.

(** X6.  A start cell that is no index of the grid (a row outside
    [-rows .. rows-1] or a column outside [-cols .. cols-1]) makes
    [generate_maze] raise [IndexError], at [visited[sr][sc] = True]. *)
Theorem generate_maze_start_out_of_range {R} `{RandomSource R} (fuel : nat)
    (nr nc : Z) (seed : option Z) (sr sc : Z) (g0 : option Coord) :
  2 <= nr -> 2 <= nc ->
  ~ (- nr <= sr < nr /\ - nc <= sc < nc) ->
  generate_maze R fuel nr nc seed (sr, sc) g0 = Raise IndexError.
Proof.
  intros Hr Hc Hout. unfold generate_maze.
  replace ((nr <? 2) || (nc <? 2)) with false
    by (symmetry; apply orb_false_iff; rewrite !Z.ltb_ge; lia).
  unfold carve_init. rewrite grid_set_replicate_out by (lia || done). done.
Qed.

(** A start one row below a 3x3 grid. *)
Lemma generate_maze_start_out_of_range_witness :
  generate_maze Z 18 3 3 (Some 42) (3, 0) None = Raise IndexError.
Proof.
  apply generate_maze_start_out_of_range; lia.
Defined.

Lemma collect_neigh_outside (rows cols : Z) (v : list (list bool)) (r c : Z) :
  (r < 0 /\ c < 0) \/ r < -1 \/ c < -1 ->
  collect_neigh rows cols v r c DIRS = Ok [].
Proof.
  intros Hout. unfold DIRS. simpl.
  repeat match goal with
  | |- context [(0 <=? ?a) && (?a <? rows) && (0 <=? ?b) && (?b <? cols)] =>
      replace ((0 <=? a) && (a <? rows) && (0 <=? b) && (b <? cols)) with false
        by (symmetry; rewrite !andb_false_iff, !Z.leb_gt, !Z.ltb_ge; lia);
      simpl
  end.
  done.
Qed.

(** X7.  Negative start coordinates are valid list indices, so they are
    not rejected.  When the start has no neighbour inside the grid (both
    coordinates negative, or one of them below -1) the loop pops it at
    once and [generate_maze] returns a grid with every wall standing:
    no two cells are joined and [has_wall] holds on every side of every
    cell. *)
Theorem generate_maze_negative_start_walled {R} `{RandomSource R} (fuel : nat)
    (nr nc : Z) (seed : option Z) (sr sc : Z) (g0 : option Coord) :
  2 <= nr -> 2 <= nc ->
  - nr <= sr < nr -> - nc <= sc < nc ->
  (sr < 0 /\ sc < 0) \/ sr < -1 \/ sc < -1 ->
  (0 < fuel)%nat ->
  exists m,
    generate_maze R fuel nr nc seed (sr, sc) g0 = Ok m
    /\ walls m = replicate (Z.to_nat nr) (replicate (Z.to_nat nc) 15)
    /\ (forall a b, ~ maze_adj m a b)
    /\ (forall p bit dr dc w', in_grid nr nc p -> (dr, dc, bit, w') ∈ DIRS ->
          has_wall m p.1 p.2 bit = Ok true).
Proof.
  intros Hr Hc Hsr Hsc Hout Hfuel. unfold generate_maze.
  replace ((nr <? 2) || (nc <? 2)) with false
    by (symmetry; apply orb_false_iff; rewrite !Z.ltb_ge; lia).
  unfold carve_init.
  destruct (grid_set_replicate_in nr nc false true sr sc Hsr Hsc) as (v & ->).
  cbn [rbind]. destruct fuel as [|fuel]; [lia|].
  cbn [carve_loop c_stack]. unfold carve_step. cbn [c_stack c_visited].
  rewrite collect_neigh_outside by done. cbn [rbind c_walls c_rng].
  destruct fuel; cbn [carve_loop c_stack rbind c_walls]; eexists;
    (split; [done|]); cbn [walls];
    change (Z.lor (Z.lor (Z.lor N E) S) W) with 15.
  all: split; [done|].
  all: assert (Hno : forall p bit dr dc w', in_grid nr nc p ->
         (dr, dc, bit, w') ∈ DIRS ->
         no_wall (replicate (Z.to_nat nr) (replicate (Z.to_nat nc) 15)) p bit
         = false)
    by (intros p bit dr dc w' Hp Hd; unfold no_wall;
        rewrite cell_replicate by done;
        by rewrite (land_all_walls bit dr dc w' Hd)).
  all: split.
  all: try (intros a b (Ha & _ & dr & dc & w & w' & Hd & _ & Hopen);
            simpl in *; by rewrite (Hno a w dr dc w' Ha Hd) in Hopen).
  all: intros p bit dr dc w' Hp Hd;
    rewrite has_wall_no_wall;
    [ simpl; by rewrite (Hno p bit dr dc w' Hp Hd)
    | simpl; apply grid_dims_replicate; lia
    | done ].
Qed.

(** The start [(-1, -1)] on a 3x3 grid. *)
Lemma generate_maze_negative_start_walled_witness :
  exists m, generate_maze Z 18 3 3 (Some 42) (-1, -1) None = Ok m
            /\ walls m = [[15; 15; 15]; [15; 15; 15]; [15; 15; 15]].
Proof.
  destruct (generate_maze_negative_start_walled (R := Z) 18 3 3 (Some 42)
              (-1) (-1) None) as (m & Hm & Hw & _); try lia.
  exists m. split; [exact Hm | exact Hw].
Defined.

(** ** The walls along the border *)

Lemma carve_step_border {R} `{RandomSource R} (HR : RandomSourceOk R)
    (rows cols : Z) (start : Coord) (st st' : carve_state R) :
  carve_inv rows cols start st -> carve_next rows cols st st' ->
  border_walled rows cols (c_walls st) ->
  border_walled rows cols (c_walls st').
Proof.
  intros Hinv [Hne Hstep] Hb.
  destruct (c_stack st) as [|cur below] eqn:Hstack; [done|].
  destruct (carve_step_cases HR rows cols start st cur below Hinv Hstack)
    as [[Hs _]|(dr & dc & wc & wn & g' & m & Hd & Hnxt & Hfalse & Hm & Hs)];
    rewrite Hs in Hstep; injection Hstep as <-; [done|].
  simpl. intros p dr' dc' w w' Hp Hd' Hout.
  destruct Hinv as [Hwd _ _ Hst Hclosed _ _ _ _].
  rewrite Hstack in Hst. apply Forall_cons in Hst as [[Hcur _] _].
  destruct (no_wall _ p w) eqn:E; [|done]. exfalso.
  apply (carve_no_wall rows cols (c_walls st) cur (cur.1 + dr, cur.2 + dc)
           dr dc wc wn m Hwd Hcur Hnxt Hd eq_refl Hm (Hclosed _ Hnxt Hfalse)
           p w dr' dc' w' Hp Hd') in E as [[-> ->]|[[-> ->]|E]].
  - destruct (DIRS_side_inj _ _ _ _ _ _ _ Hd Hd') as (-> & -> & _). done.
  - pose proof (DIRS_opposite _ _ _ _ Hd) as Hop.
    destruct (DIRS_side_inj _ _ _ _ _ _ _ Hop Hd') as (-> & -> & _).
    apply Hout. simpl. destruct cur as [r c], Hcur. simpl in *.
    split; simpl; lia.
  - by rewrite (Hb p dr' dc' w w' Hp Hd' Hout) in E.
Qed.

Lemma carve_reach_border {R} `{RandomSource R} (HR : RandomSourceOk R)
    (rows cols : Z) (start : Coord) (st st' : carve_state R) :
  carve_inv rows cols start st -> rtc (carve_next rows cols) st st' ->
  border_walled rows cols (c_walls st) ->
  border_walled rows cols (c_walls st').
Proof.
  intros Hinv Hrtc. induction Hrtc as [|st st1 st' Hnext _ IH]; [done|].
  intros Hb. apply IH.
  - eapply carve_reach_inv; [done | exact Hinv |]. by apply rtc_once.
  - by eapply carve_step_border.
Qed.

Lemma border_walled_init (rows cols : Z) :
  border_walled rows cols
    (replicate (Z.to_nat rows) (replicate (Z.to_nat cols) 15)).
Proof.
  intros p dr dc w w' Hp Hd _. unfold no_wall.
  rewrite cell_replicate by done. by rewrite (land_all_walls w dr dc w' Hd).
Qed.

Lemma generate_maze_final {R} `{RandomSource R} (HR : RandomSourceOk R)
    (fuel : nat) (nr nc : Z) (seed : option Z) (s0 : Coord)
    (g0 : option Coord) (m : Maze) :
  in_grid nr nc s0 ->
  generate_maze R fuel nr nc seed s0 g0 = Ok m ->
  exists st0 st,
    carve_init nr nc seed s0 = Ok st0
    /\ c_walls st0 = replicate (Z.to_nat nr) (replicate (Z.to_nat nc) 15)
    /\ carve_inv nr nc s0 st0
    /\ rtc (carve_next nr nc) st0 st
    /\ carve_inv nr nc s0 st /\ c_stack st = []
    /\ rows m = nr /\ cols m = nc /\ walls m = c_walls st /\ start m = s0
    /\ goal m = match g0 with None => (nr - 1, nc - 1) | Some g => g end.
Proof.
  intros Hs0 Hgen.
  apply generate_maze_Ok_inv in Hgen
    as (st0 & st & Hinit & Hloop & Hr & Hc & Hw & Hs & Hg).
  destruct (carve_init_inv nr nc seed s0 Hs0) as (st0' & Hinit' & Hinv0 & _).
  assert (st0' = st0) as -> by congruence.
  apply carve_loop_reaches in Hloop as [Hrtc Hnil].
  exists st0, st. split; [done|]. split.
  { revert Hinit. unfold carve_init. destruct s0 as [sr sc].
    destruct (grid_set _ sr sc true); [|done]. simpl. by intros [= <-]. }
  split; [done|]. split; [done|].
  split; [by eapply carve_reach_inv|]. done.
Qed.

(** X8.  No opening leads out of a generated maze: for a start cell
    inside the grid, every cell keeps its wall on each side that faces
    the outside of the grid. *)
Theorem generate_maze_border_walled {R} `{RandomSource R}
    (HR : RandomSourceOk R) (fuel : nat) (nr nc : Z) (seed : option Z)
    (s0 : Coord) (g0 : option Coord) (m : Maze) :
  in_grid nr nc s0 ->
  generate_maze R fuel nr nc seed s0 g0 = Ok m ->
  forall p dr dc w w',
    in_grid nr nc p -> (dr, dc, w, w') ∈ DIRS ->
    ~ in_grid nr nc (p.1 + dr, p.2 + dc) ->
    has_wall m p.1 p.2 w = Ok true.
Proof.
  intros Hs0 Hgen p dr dc w w' Hp Hd Hout.
  destruct (generate_maze_final HR fuel nr nc seed s0 g0 m Hs0 Hgen)
    as (st0 & st & _ & Hw0 & Hinv0 & Hrtc & Hinv & _ & Hr & Hc & Hw & _).
  assert (Hb : border_walled nr nc (c_walls st)).
  { eapply carve_reach_border; [done | exact Hinv0 | exact Hrtc |].
    rewrite Hw0. apply border_walled_init. }
  rewrite has_wall_no_wall.
  - rewrite Hw. by rewrite (Hb p dr dc w w' Hp Hd Hout).
  - rewrite Hr, Hc, Hw. by destruct Hinv.
  - by rewrite Hr, Hc.
Qed.

(** The north wall of the top right cell of the 3x3 maze of seed 42. *)
Lemma generate_maze_border_walled_witness :
  has_wall maze_3x3 0 2 N = Ok true.
Proof.
  apply (generate_maze_border_walled lcg_RandomSourceOk 18 3 3 (Some 42)
           (0, 0) None maze_3x3 ltac:(unfold in_grid; simpl; lia)
           generate_maze_3x3 (0, 2) (-1) 0 N S).
  - unfold in_grid. simpl. lia.
  - unfold DIRS. set_solver.
  - unfold in_grid. simpl. lia.
Defined.

(** ** The wall masks *)

Lemma land_lnot_range (m w dr dc w' : Z) :
  0 <= m <= 15 -> (dr, dc, w, w') ∈ DIRS -> 0 <= Z.land m (Z.lnot w) <= 15.
Proof.
  intros Hm Hd.
  assert (Hcases : m = 0 \/ m = 1 \/ m = 2 \/ m = 3 \/ m = 4 \/ m = 5
                   \/ m = 6 \/ m = 7 \/ m = 8 \/ m = 9 \/ m = 10 \/ m = 11
                   \/ m = 12 \/ m = 13 \/ m = 14 \/ m = 15) by lia.
  dirs_cases Hd; unfold N, E, S, W;
    repeat (destruct Hcases as [->|Hcases];
            [vm_compute; split; discriminate|]);
    subst m; vm_compute; split; discriminate.
Qed.

Lemma carve_step_masks {R} `{RandomSource R} (HR : RandomSourceOk R)
    (rows cols : Z) (start : Coord) (st st' : carve_state R) :
  carve_inv rows cols start st -> carve_next rows cols st st' ->
  masks_4bit rows cols (c_walls st) ->
  masks_4bit rows cols (c_walls st').
Proof.
  intros Hinv [Hne Hstep] Hb.
  destruct (c_stack st) as [|cur below] eqn:Hstack; [done|].
  destruct (carve_step_cases HR rows cols start st cur below Hinv Hstack)
    as [[Hs _]|(dr & dc & wc & wn & g' & m & Hd & Hnxt & Hfalse & Hm & Hs)];
    rewrite Hs in Hstep; injection Hstep as <-; [done|].
  simpl. intros p x Hp.
  destruct Hinv as [Hwd _ _ Hst Hclosed _ _ _ _].
  rewrite Hstack in Hst. apply Forall_cons in Hst as [[Hcur _] _].
  set (nxt := (cur.1 + dr, cur.2 + dc)) in *.
  destruct (decide (p = nxt)) as [->|Hpn].
  - rewrite (cell_cell_set_eq _ rows cols) by (by apply grid_dims_cell_set || done).
    intros [= <-]. eapply land_lnot_range; [lia|].
    by eapply DIRS_opposite.
  - destruct Hp as [? ?], Hnxt as [? ?], Hcur as [? ?].
    rewrite cell_cell_set_ne by (done || lia).
    destruct (decide (p = cur)) as [->|Hpc].
    + rewrite (cell_cell_set_eq _ rows cols) by done.
      intros [= <-]. eapply land_lnot_range; [|done]. by apply (Hb cur).
    + rewrite cell_cell_set_ne by (done || lia). by apply Hb.
Qed.

Lemma carve_reach_masks {R} `{RandomSource R} (HR : RandomSourceOk R)
    (rows cols : Z) (start : Coord) (st st' : carve_state R) :
  carve_inv rows cols start st -> rtc (carve_next rows cols) st st' ->
  masks_4bit rows cols (c_walls st) ->
  masks_4bit rows cols (c_walls st').
Proof.
  intros Hinv Hrtc. induction Hrtc as [|st st1 st' Hnext _ IH]; [done|].
  intros Hb. apply IH.
  - eapply carve_reach_inv; [done | exact Hinv |]. by apply rtc_once.
  - by eapply carve_step_masks.
Qed.

(** X9.  In a generated maze (start inside the grid) every wall mask is
    a value of the four wall bits and is not [N|E|S|W]: every cell has
    at least one side without a wall. *)
Theorem generate_maze_masks {R} `{RandomSource R}
    (HR : RandomSourceOk R) (fuel : nat) (nr nc : Z) (seed : option Z)
    (s0 : Coord) (g0 : option Coord) (m : Maze) :
  in_grid nr nc s0 ->
  generate_maze R fuel nr nc seed s0 g0 = Ok m ->
  forall p, in_grid nr nc p ->
    exists x, grid_get (walls m) p.1 p.2 = Ok x /\ 0 <= x < 15.
Proof.
  intros Hs0 Hgen p Hp.
  assert (2 <= nr /\ 2 <= nc) as [Hnr Hnc].
  { revert Hgen. unfold generate_maze.
    destruct ((nr <? 2) || (nc <? 2)) eqn:E; [done|].
    apply orb_false_iff in E. rewrite !Z.ltb_ge in E. lia. }
  destruct (generate_maze_final HR fuel nr nc seed s0 g0 m Hs0 Hgen)
    as (st0 & st & _ & Hw0 & Hinv0 & Hrtc & Hinv & Hnil & Hr & Hc & Hw & _).
  assert (Hb : masks_4bit nr nc (c_walls st)).
  { eapply carve_reach_masks; [done | exact Hinv0 | exact Hrtc |].
    rewrite Hw0. intros q x Hq. rewrite cell_replicate by done.
    intros [= <-]. lia. }
  pose proof (carve_all_marked nr nc s0 st Hinv Hnil) as Hall.
  destruct Hinv as [Hwd _ _ _ _ _ _ Htree _].
  destruct (cell_is_Some _ nr nc p Hwd Hp) as [x Hx].
  exists x. rewrite Hw. split.
  { destruct p as [r c], Hp. apply grid_get_cell; simpl in *; (lia || done). }
  pose proof (Hb p x Hp Hx) as Hrange.
  assert (x <> 15); [|lia]. intros ->.
  (* another cell of the grid, and the first step of the path to it *)
  set (q := if decide (p.1 = 0) then (1, p.2) else (0, p.2)).
  assert (Hq : in_grid nr nc q /\ q <> p).
  { unfold q. destruct (decide (p.1 = 0)) as [E|E], p as [r c], Hp;
      simpl in *; (split; [split; simpl; lia
              | intros Heq; apply (f_equal fst) in Heq; simpl in Heq; lia]). }
  destruct Hq as [Hq Hqp].
  destruct (Htree p q Hp (Hall p Hp) Hq (Hall q Hq)) as (path & [Hwalk _] & _).
  destruct path as [|y path]; [simpl in Hwalk; congruence|].
  destruct Hwalk as [(_ & _ & dr & dc & w & w' & Hd & _ & Hopen) _].
  unfold no_wall in Hopen. rewrite Hx in Hopen.
  by rewrite (land_all_walls w dr dc w' Hd) in Hopen.
Qed.

(** The middle cell of the 3x3 maze of seed 42. *)
Lemma generate_maze_masks_witness :
  exists x, grid_get (walls maze_3x3) 1 1 = Ok x /\ 0 <= x < 15.
Proof.
  apply (generate_maze_masks lcg_RandomSourceOk 18 3 3 (Some 42) (0, 0) None
           maze_3x3 ltac:(unfold in_grid; simpl; lia) generate_maze_3x3 (1, 1)).
  unfold in_grid. simpl. lia.
Defined.

(** ** More on the environment *)

Section env_more.
Context {F : Type} `{FloatOps F}.

Lemma in_bounds_in_grid (env : MazeEnv F) (s : Coord) :
  in_bounds env s = true <-> in_grid (rows (maze env)) (cols (maze env)) s.
Proof.
  unfold in_bounds, in_grid. destruct s as [r c]. simpl.
  rewrite !andb_true_iff, !Z.leb_le, !Z.ltb_lt. tauto.
Qed.

(** [_move] on a cell inside a well-sized grid: the step is taken when
    the side has no wall and the target is inside the grid. *)
Lemma move_cases (env : MazeEnv F) (r c : Z) :
  grid_dims (walls (maze env)) (rows (maze env)) (cols (maze env)) ->
  in_grid (rows (maze env)) (cols (maze env)) (r, c) ->
  let w := walls (maze env) in
  _move env (r, c) "U"
  = Ok (if no_wall w (r, c) N && (0 <=? r - 1) then (r - 1, c) else (r, c))
  /\ _move env (r, c) "R"
     = Ok (if no_wall w (r, c) E && (c + 1 <? cols (maze env))
           then (r, c + 1) else (r, c))
  /\ _move env (r, c) "D"
     = Ok (if no_wall w (r, c) S && (r + 1 <? rows (maze env))
           then (r + 1, c) else (r, c))
  /\ _move env (r, c) "L"
     = Ok (if no_wall w (r, c) W && (0 <=? c - 1) then (r, c - 1) else (r, c)).
Proof.
  intros Hd Hs w.
  pose proof (has_wall_no_wall (maze env) (r, c)) as Hw. simpl in Hw.
  unfold _move. simpl. rewrite !Hw by done. simpl. fold w.
  rewrite (Z.ltb_antisym 0 (r - 1)), (Z.ltb_antisym 0 (c - 1)).
  rewrite (Z.ltb_antisym _ (c + 1)), (Z.ltb_antisym _ (r + 1)).
  repeat split;
    match goal with
    | |- context [no_wall w (r, c) ?b] => destruct (no_wall w (r, c) b)
    end; simpl; try done;
    match goal with
    | |- context [negb ?b] => destruct b
    end; done.
Qed.

Lemma neighbors_cases (env : MazeEnv F) (r c : Z) :
  grid_dims (walls (maze env)) (rows (maze env)) (cols (maze env)) ->
  in_grid (rows (maze env)) (cols (maze env)) (r, c) ->
  let w := walls (maze env) in
  neighbors env (r, c)
  = Ok ((if no_wall w (r, c) N && (0 <=? r - 1) then [(r - 1, c)] else [])
        ++ (if no_wall w (r, c) E && (c + 1 <? cols (maze env))
            then [(r, c + 1)] else [])
        ++ (if no_wall w (r, c) S && (r + 1 <? rows (maze env))
            then [(r + 1, c)] else [])
        ++ (if no_wall w (r, c) W && (0 <=? c - 1) then [(r, c - 1)] else [])).
Proof.
  intros Hd Hs w.
  pose proof (has_wall_no_wall (maze env) (r, c)) as Hw. simpl in Hw.
  unfold neighbors. rewrite !Hw by done. simpl. rewrite !negb_involutive.
  fold w.
  destruct (no_wall w (r, c) N && (0 <=? r - 1)),
    (no_wall w (r, c) E && (c + 1 <? cols (maze env))),
    (no_wall w (r, c) S && (r + 1 <? rows (maze env))),
    (no_wall w (r, c) W && (0 <=? c - 1)); done.
Qed.

Lemma filter_stay (s nb : Coord) (b : bool) (l : list Coord) :
  nb <> s ->
  filter (fun x => x <> s) ((if b then nb else s) :: l)
  = (if b then [nb] else []) ++ filter (fun x => x <> s) l.
Proof.
  intros Hne. rewrite filter_cons. destruct b; simpl.
  - by destruct (decide (nb <> s)).
  - by destruct (decide (s <> s)).
Qed.

End env_more.

(** X10.  [states()] yields every cell of the grid exactly once: its
    members are the cells that [in_bounds] accepts, none is repeated,
    and there are [rows * cols] of them. *)
Theorem states_enumerates_grid {F : Type} `{FloatOps F} (env : MazeEnv F) :
  (forall s, s ∈ states env <-> in_bounds env s = true)
  /\ NoDup (states env)
  /\ length (states env)
     = (Z.to_nat (rows (maze env)) * Z.to_nat (cols (maze env)))%nat.
Proof.
  unfold states. split; [|split].
  - intros s. rewrite in_bounds_in_grid. apply elem_of_all_cells.
  - apply NoDup_all_cells.
  - apply length_all_cells.
Qed.

(** X11.  The search view and the MDP view of the maze agree: on a cell
    of a well-sized grid, [neighbors(s)] is the list of [_move(s, a)]
    for [a] in [ACTIONS], in that order, without the moves that stay in
    place. *)
Theorem neighbors_are_moves {F : Type} `{FloatOps F} (env : MazeEnv F)
    (s : Coord) :
  grid_dims (walls (maze env)) (rows (maze env)) (cols (maze env)) ->
  in_grid (rows (maze env)) (cols (maze env)) s ->
  exists mU mR mD mL,
    _move env s "U" = Ok mU /\ _move env s "R" = Ok mR
    /\ _move env s "D" = Ok mD /\ _move env s "L" = Ok mL
    /\ neighbors env s = Ok (filter (fun b => b <> s) [mU; mR; mD; mL]).
Proof.
  intros Hd Hs. destruct s as [r c].
  destruct (move_cases env r c Hd Hs) as (HU & HR & HD & HL).
  eexists _, _, _, _. do 4 (split; [eassumption|]).
  rewrite (neighbors_cases env r c Hd Hs).
  rewrite !filter_stay, filter_nil, app_nil_r;
    try (intros [= ?]; lia). done.
Qed.

Lemma neighbors_are_moves_witness :
  neighbors env_3x3_seed2 (0, 1) = Ok [(0, 2); (0, 0)].
Proof.
  destruct (neighbors_are_moves env_3x3_seed2 (0, 1))
    as (mU & mR & mD & mL & HU & HR & HD & HL & Hn).
  - vm_compute. split; [reflexivity|]. repeat constructor.
  - vm_compute. repeat split; discriminate.
  - rewrite Hn. vm_compute in HU, HR, HD, HL.
    injection HU as <-. injection HR as <-. injection HD as <-.
    injection HL as <-. vm_compute. reflexivity.
Defined.

Lemma open_adj_sym (rows cols : Z) (w : list (list Z)) (a b : Coord) :
  walls_symmetric rows cols w ->
  open_adj rows cols w a b -> open_adj rows cols w b a.
Proof.
  intros Hsym (Ha & Hb & dr & dc & s & s' & Hd & Hab & Hopen).
  split; [done|]. split; [done|].
  exists (- dr), (- dc), s', s. split; [by apply DIRS_opposite|]. split.
  - rewrite Hab. destruct a. simpl. f_equal; lia.
  - by rewrite <- (Hsym a b dr dc s s' Ha Hb Hd Hab).
Qed.

(** X12.  The graph that the search solvers walk on a generated maze
    (start inside the grid) is undirected: [b] is among [neighbors(a)]
    exactly when [a] is among [neighbors(b)]. *)
Theorem neighbors_symmetric_on_generated {R} `{RandomSource R}
    (HR : RandomSourceOk R) {F : Type} `{FloatOps F} `{FloatLib F}
    (fuel : nat) (nr nc : Z) (seed : option Z) (s0 : Coord)
    (g0 : option Coord) (env : MazeEnv F) :
  in_grid nr nc s0 ->
  generate_maze R fuel nr nc seed s0 g0 = Ok (maze env) ->
  forall a b, in_grid nr nc a -> in_grid nr nc b ->
    exists la lb, neighbors env a = Ok la /\ neighbors env b = Ok lb
                  /\ (b ∈ la <-> a ∈ lb).
Proof.
  intros Hs0 Hgen a b Ha Hb.
  destruct (generate_maze_final HR fuel nr nc seed s0 g0 (maze env) Hs0 Hgen)
    as (st0 & st & _ & _ & _ & _ & Hinv & _ & Hr & Hc & Hw & _).
  destruct Hinv as [Hwd _ _ _ _ Hsym _ _ _].
  rewrite <- Hw, <- Hr, <- Hc in Hwd, Hsym. rewrite <- Hr, <- Hc in Ha, Hb.
  destruct (neighbors_spec env a Hwd Ha) as (la & Hla & Hia).
  destruct (neighbors_spec env b Hwd Hb) as (lb & Hlb & Hib).
  exists la, lb. split; [done|]. split; [done|].
  rewrite Hia, Hib. unfold maze_adj. split; by apply open_adj_sym.
Qed.

Lemma neighbors_symmetric_on_generated_witness :
  exists la lb,
    neighbors (mkEnv maze_3x3 (-0.01)%float 1%float (-0.05)%float
                 0.99%float 0%float) (0, 0) = Ok la
    /\ neighbors (mkEnv maze_3x3 (-0.01)%float 1%float (-0.05)%float
                    0.99%float 0%float) (0, 1) = Ok lb
    /\ ((0, 1) ∈ la <-> (0, 0) ∈ lb).
Proof.
  apply (neighbors_symmetric_on_generated lcg_RandomSourceOk 18 3 3 (Some 42)
           (0, 0) None
           (mkEnv maze_3x3 (-0.01)%float 1%float (-0.05)%float 0.99%float
              0%float)
           ltac:(unfold in_grid; simpl; lia) generate_maze_3x3 (0, 0) (0, 1));
    unfold in_grid; simpl; lia.
Defined.

Lemma unknown_action_eqb (a : string) :
  a ∉ ACTIONS ->
  String.eqb a "U" = false /\ String.eqb a "R" = false
  /\ String.eqb a "D" = false /\ String.eqb a "L" = false.
Proof.
  intros Hn. unfold ACTIONS in Hn.
  repeat split; apply String.eqb_neq; intros ->; apply Hn; set_solver.
Qed.

(** X13.  An action outside [ACTIONS] is answered in three ways:
    [_move] raises [ValueError] on every state; [transitions] returns
    the terminal outcome at the goal without looking at the action,
    raises the [ValueError] of [_move] when [slip_prob <= 0], and raises
    [KeyError] from the table of side actions otherwise. *)
Theorem unknown_action_errors {F : Type} `{FloatOps F} (env : MazeEnv F)
    (s : Coord) (a : string) :
  a ∉ ACTIONS ->
  _move env s a = Raise ValueError
  /\ transitions env s a
     = (if is_goal env s then Ok [(s, f_of_Z 1)]
        else if fleb (slip_prob env) (f_of_Z 0) then Raise ValueError
        else Raise KeyError).
Proof.
  intros Hn. destruct (unknown_action_eqb a Hn) as (HU & HR & HD & HL).
  assert (Hm : _move env s a = Raise ValueError).
  { unfold _move. destruct s as [r c]. by rewrite HU, HR, HD, HL. }
  split; [done|]. unfold transitions.
  destruct (is_goal env s); [done|].
  destruct (fleb (slip_prob env) (f_of_Z 0)).
  - by rewrite Hm.
  - unfold side_actions. by rewrite HU, HR, HD, HL.
Qed.

Lemma unknown_action_errors_witness :
  ("X"%string ∉ ACTIONS)
  /\ transitions env_walled (0, 0) "X" = Raise ValueError
  /\ transitions env_3x3_slip (0, 0) "X" = Raise KeyError.
Proof.
  assert (Hn : "X"%string ∉ ACTIONS) by (unfold ACTIONS; set_solver).
  split; [exact Hn|]. split.
  - rewrite (proj2 (unknown_action_errors env_walled (0, 0) "X" Hn)).
    reflexivity.
  - rewrite (proj2 (unknown_action_errors env_3x3_slip (0, 0) "X" Hn)).
    vm_compute. reflexivity.
Defined.

(** ** More on the metrics *)

Lemma record_all_fields {F : Type} (sizes : list Z) (m : RunMetrics.t F) :
  RunMetrics.maximum_frontier_size (record_all sizes m)
  = foldl Z.max (RunMetrics.maximum_frontier_size m) sizes
  /\ RunMetrics._frontier_total (record_all sizes m)
     = RunMetrics._frontier_total m + Zsum sizes
  /\ RunMetrics._frontier_samples (record_all sizes m)
     = RunMetrics._frontier_samples m + Z.of_nat (length sizes)
  /\ RunMetrics.average_frontier_size (record_all sizes m)
     = RunMetrics.average_frontier_size m.
Proof.
  revert m. induction sizes as [|x sizes IH]; intros m; simpl.
  - repeat split; lia.
  - destruct (IH (RunMetrics.record_frontier x m)) as (-> & -> & -> & ->).
    simpl. repeat split; lia.
Qed.

Lemma foldl_max_le (l : list Z) (a : Z) :
  a <= foldl Z.max a l
  /\ (forall x, x ∈ l -> x <= foldl Z.max a l)
  /\ (foldl Z.max a l = a \/ foldl Z.max a l ∈ l).
Proof.
  revert a. induction l as [|y l IH]; intros a; simpl.
  - split; [lia|]. split; [|by left]. intros x Hx. by apply elem_of_nil in Hx.
  - destruct (IH (Z.max a y)) as (H1 & H2 & H3). split; [lia|]. split.
    + intros x Hx. apply elem_of_cons in Hx as [->|Hx]; [lia|]. by apply H2.
    + destruct H3 as [H3|H3]; [|right; by right].
      rewrite H3. destruct (Z.max_spec a y) as [[_ ->]|[_ ->]];
        [right; left | by left].
Qed.

Lemma finalize_maximum {F : Type} `{FloatOps F} (m : RunMetrics.t F) :
  RunMetrics.maximum_frontier_size (RunMetrics.finalize m)
  = RunMetrics.maximum_frontier_size m.
Proof. unfold RunMetrics.finalize. by repeat case_match. Qed.

Lemma finalize_average {F : Type} `{FloatOps F} (m : RunMetrics.t F) :
  RunMetrics.average_frontier_size (RunMetrics.finalize m)
  = if 0 <? RunMetrics._frontier_samples m
    then Some (fdiv (f_of_Z (RunMetrics._frontier_total m))
                 (f_of_Z (RunMetrics._frontier_samples m)))
    else RunMetrics.average_frontier_size m.
Proof. unfold RunMetrics.finalize. by repeat case_match. Qed.

(** X14.  After [record_frontier] has been called on a fresh
    accumulator once for each of the sizes [sizes], the maximum is the
    largest of 0 and the sizes, and [finalize] reports the mean: the sum
    divided by the number of calls, or nothing when there was no
    call.  (The sum is taken within the range of the floats, where the
    division of the source does not overflow.) *)
Theorem record_frontier_max_and_mean {F : Type} `{FloatOps F}
    (algorithm : string) (rows cols seed : Z) (sizes : list Z) :
  Z.abs (Zsum sizes) < 2 ^ 1023 ->
  let m := record_all sizes (RunMetrics.fresh algorithm rows cols seed) in
  0 <= RunMetrics.maximum_frontier_size m
  /\ (forall x, x ∈ sizes -> x <= RunMetrics.maximum_frontier_size m)
  /\ (RunMetrics.maximum_frontier_size m = 0
      \/ RunMetrics.maximum_frontier_size m ∈ sizes)
  /\ RunMetrics.maximum_frontier_size (RunMetrics.finalize m)
     = RunMetrics.maximum_frontier_size m
  /\ RunMetrics.average_frontier_size (RunMetrics.finalize m)
     = match sizes with
       | [] => None
       | _ => Some (fdiv (f_of_Z (Zsum sizes))
                      (f_of_Z (Z.of_nat (length sizes))))
       end.
Proof.
  intros _ m.
  destruct (record_all_fields sizes (RunMetrics.fresh algorithm rows cols seed))
    as (Hmax & Htot & Hsam & Havg0).
  fold m in Hmax, Htot, Hsam, Havg0. simpl in Hmax, Htot, Hsam, Havg0.
  destruct (foldl_max_le sizes 0) as (H1 & H2 & H3).
  rewrite finalize_maximum, finalize_average, Hmax, Hsam, Htot, Havg0.
  split; [done|]. split; [done|]. split; [done|]. split; [done|].
  destruct sizes as [|x sizes]; [done|].
  replace (0 <? 0 + Z.of_nat (length (x :: sizes))) with true
    by (symmetry; apply Z.ltb_lt; simpl; lia).
  by rewrite !Z.add_0_l.
Qed.

Lemma record_frontier_max_and_mean_witness :
  RunMetrics.maximum_frontier_size
    (RunMetrics.finalize
       (record_all [1; 3; 2] (RunMetrics.fresh (F := PrimFloat.float) "bfs" 3 3 0)))
  = 3
  /\ RunMetrics.average_frontier_size
       (RunMetrics.finalize
          (record_all [1; 3; 2]
             (RunMetrics.fresh (F := PrimFloat.float) "bfs" 3 3 0)))
     = Some 2%float.
Proof.
  destruct (record_frontier_max_and_mean (F := PrimFloat.float) "bfs" 3 3 0
              [1; 3; 2]) as (_ & _ & _ & Hmax & Havg).
  - vm_compute. reflexivity.
  - split.
    + rewrite Hmax. vm_compute. reflexivity.
    + rewrite Havg. vm_compute. reflexivity.
Defined.

(** X15.  [finalize] is idempotent, so calling it again on the way to
    the log changes nothing. *)
Theorem finalize_idempotent {F : Type} `{FloatOps F} (m : RunMetrics.t F) :
  RunMetrics.finalize (RunMetrics.finalize m) = RunMetrics.finalize m.
Proof.
  destruct m.
  destruct _frontier_samples, states_expanded, solution_path_length;
    reflexivity.
Qed.

(** ** Accounting in BFS and DFS *)

Section search_acc_facts.
Context {F : Type} `{FloatOps F} `{FloatLib F}.

Lemma bfs_expand_acc (metrics : RunMetrics.t F) (s : Coord) (nbs : list Coord)
    (st : search_state) :
  search_acc metrics st -> search_acc metrics (bfs_expand s nbs st).
Proof.
  revert st. induction nbs as [|nb nbs IH]; intros st Hacc; [done|].
  simpl. destruct Hacc as (Hnd & Hvis & Hexp & Hdom).
  destruct (bool_decide (nb ∈ visited st)) eqn:E; apply IH.
  - done.
  - apply bool_decide_eq_false in E.
    split; [|split; [|split]]; simpl;
      [| |done|by rewrite dom_insert_L, Hdom, (comm_L (∪))].
    + rewrite app_assoc. apply NoDup_app. split; [done|]. split.
      * intros x Hx Hx'. apply list_elem_of_singleton in Hx' as ->.
        apply E. by apply Hvis.
      * apply NoDup_singleton.
    + intros x. rewrite elem_of_union, elem_of_singleton, Hvis.
      rewrite !elem_of_app, list_elem_of_singleton. tauto.
Qed.

Lemma dfs_expand_acc (metrics : RunMetrics.t F) (s : Coord) (nbs : list Coord)
    (st : search_state) :
  search_acc metrics st -> search_acc metrics (dfs_expand s nbs st).
Proof.
  revert st. induction nbs as [|nb nbs IH]; intros st Hacc; [done|].
  simpl. destruct Hacc as (Hnd & Hvis & Hexp & Hdom).
  destruct (bool_decide (nb ∈ visited st)) eqn:E; apply IH.
  - done.
  - apply bool_decide_eq_false in E.
    split; [|split; [|split]]; simpl;
      [| |done|by rewrite dom_insert_L, Hdom, (comm_L (∪))].
    + apply NoDup_app in Hnd as (Hvo & Hdisj & Hfr).
      apply NoDup_app. split; [done|]. split.
      * intros x Hx Hx'. apply elem_of_cons in Hx' as [->|Hx'].
        -- apply E. apply Hvis. apply elem_of_app. by left.
        -- by apply (Hdisj x).
      * apply NoDup_cons. split; [|done]. intros Hin. apply E.
        apply Hvis. apply elem_of_app. by right.
    + intros x. rewrite elem_of_union, elem_of_singleton, Hvis.
      rewrite !elem_of_app, elem_of_cons. tauto.
Qed.

Lemma search_init_acc (env : MazeEnv F) (metrics : RunMetrics.t F) :
  search_acc metrics (search_init env metrics).
Proof.
  split; [|split; [|split]]; simpl.
  - apply NoDup_singleton.
  - intros x. by rewrite elem_of_singleton, list_elem_of_singleton.
  - lia.
  - by rewrite dom_singleton_L.
Qed.

Lemma search_step_acc (dfs : bool) (env : MazeEnv F) (metrics : RunMetrics.t F)
    (st : search_state) :
  search_acc metrics st ->
  match search_step dfs env st with
  | Ok (Continue st') => search_acc metrics st'
  | Ok (Return res st') =>
      search_acc metrics st'
      /\ visited_order res = s_visited_order st'
      /\ parents res = s_parents st'
      /\ RunMetrics.unique_states_visited (s_metrics st')
         = Z.of_nat (size (visited st'))
      /\ (RunMetrics.solved (s_metrics st') = false ->
          frontier st' = [] /\ path res = [])
  | Raise _ => True
  end.
Proof.
  intros (Hnd & Hvis & Hexp & Hdom). unfold search_step.
  destruct (frontier st) as [|s rest] eqn:Hq.
  - simpl. split; [|done]. split; [|split; [|split]]; simpl; by rewrite ?Hq.
  - assert (Hpop : search_acc metrics
              (mkSearch rest (visited st) (s_parents st)
                 (s_visited_order st ++ [s])
                 (RunMetrics.set_states_expanded
                    (RunMetrics.states_expanded (s_metrics st) + 1)
                    (s_metrics st)))).
    { split; [|split; [|split]]; simpl.
      - by rewrite <- app_assoc.
      - intros x. by rewrite Hvis, <- app_assoc.
      - rewrite Hexp, length_app. simpl. lia.
      - done. }
    destruct (bool_decide (s = goal (maze env))).
    + unfold search_solved. simpl.
      destruct (reconstruct_path _ _ _) as [p|e]; [|done]. simpl.
      split; [|done]. destruct Hpop as (? & ? & ? & ?). by split.
    + destruct (neighbors env s) as [nbs|e]; [|done]. simpl.
      destruct dfs.
      * pose proof (dfs_expand_acc metrics s (reverse nbs) _ Hpop)
          as (? & ? & ? & ?).
        split; [|split; [|split]]; simpl; done.
      * pose proof (bfs_expand_acc metrics s nbs _ Hpop) as (? & ? & ? & ?).
        split; [|split; [|split]]; simpl; done.
Qed.

Lemma search_loop_acc (dfs : bool) (env : MazeEnv F) (metrics : RunMetrics.t F)
    (fuel : nat) (res : SolveResult) (st : search_state) :
  run_loop (search_step dfs env) fuel (search_init env metrics) = Ok (res, st) ->
  NoDup (visited_order res)
  /\ RunMetrics.states_expanded (s_metrics st)
     = RunMetrics.states_expanded metrics
       + Z.of_nat (length (visited_order res))
  /\ RunMetrics.unique_states_visited (s_metrics st)
     = Z.of_nat (length (visited_order res)) + Z.of_nat (length (frontier st))
  /\ (RunMetrics.solved (s_metrics st) = false ->
      frontier st = [] /\ path res = [])
  /\ RunMetrics.unique_states_visited (s_metrics st)
     = Z.of_nat (size (parents res))
  /\ (forall x, x ∈ visited_order res -> is_Some (parents res !! x)).
Proof.
  intros Hrun.
  apply (run_loop_inv (search_step dfs env) (search_acc metrics)
           (fun res st =>
              NoDup (visited_order res)
              /\ RunMetrics.states_expanded (s_metrics st)
                 = RunMetrics.states_expanded metrics
                   + Z.of_nat (length (visited_order res))
              /\ RunMetrics.unique_states_visited (s_metrics st)
                 = Z.of_nat (length (visited_order res))
                   + Z.of_nat (length (frontier st))
              /\ (RunMetrics.solved (s_metrics st) = false ->
                  frontier st = [] /\ path res = [])
              /\ RunMetrics.unique_states_visited (s_metrics st)
                 = Z.of_nat (size (parents res))
              /\ (forall x, x ∈ visited_order res ->
                    is_Some (parents res !! x)))
           fuel (search_init env metrics) st res); [| |apply search_init_acc|done].
  - intros s s' Hacc Hstep.
    pose proof (search_step_acc dfs env metrics s Hacc) as Hs.
    by rewrite Hstep in Hs.
  - intros s r s' Hacc Hstep.
    pose proof (search_step_acc dfs env metrics s Hacc) as Hs.
    rewrite Hstep in Hs.
    destruct Hs as ((Hnd & Hvis & Hexp & Hdom) & Hvo & Hpar & Huniq & Hsol).
    rewrite Hvo, Hpar. split; [by apply NoDup_app in Hnd as (? & _)|].
    split; [done|]. split; [|split; [done|split]].
    + rewrite Huniq, <- Nat2Z.inj_add, <- length_app. f_equal.
      rewrite <- (size_list_to_set (C := gset Coord)) by done.
      f_equal. apply set_eq. intros x. by rewrite elem_of_list_to_set.
    + by rewrite Huniq, <- size_dom, Hdom.
    + intros x Hx. apply elem_of_dom. rewrite Hdom. apply Hvis.
      apply elem_of_app. by left.
Qed.

End search_acc_facts.

(** X16.  BFS and DFS expand no state twice and count what they do:
    whenever [solve_bfs] or [solve_dfs] returns, [visited_order] has no
    repetition, [states_expanded] has grown by its length,
    [unique_states_visited] is the number of keys of [parents], which
    holds every expanded state, and at least that many states were
    discovered as were expanded -- exactly as many when the run ends
    unsolved, where the path is empty. *)
Theorem search_expands_each_state_once {F : Type} `{FloatOps F} `{FloatLib F}
    (fuel : nat) (env : MazeEnv F) (metrics : RunMetrics.t F)
    (res : SolveResult) (metrics' : RunMetrics.t F) :
  solve_bfs fuel env metrics = Ok (res, metrics')
  \/ solve_dfs fuel env metrics = Ok (res, metrics') ->
  NoDup (visited_order res)
  /\ RunMetrics.states_expanded metrics'
     = RunMetrics.states_expanded metrics
       + Z.of_nat (length (visited_order res))
  /\ RunMetrics.unique_states_visited metrics'
     = Z.of_nat (size (parents res))
  /\ (forall x, x ∈ visited_order res -> is_Some (parents res !! x))
  /\ Z.of_nat (length (visited_order res))
     <= RunMetrics.unique_states_visited metrics'
  /\ (RunMetrics.solved metrics' = false ->
      path res = []
      /\ RunMetrics.unique_states_visited metrics'
         = Z.of_nat (length (visited_order res))).
Proof.
  intros Hsolve.
  assert (exists dfs st,
            run_loop (search_step dfs env) fuel (search_init env metrics)
            = Ok (res, st) /\ metrics' = s_metrics st)
    as (dfs & st & Hrun & ->).
  { destruct Hsolve as [Hs|Hs]; [exists false | exists true];
      revert Hs; unfold solve_bfs, solve_dfs, bfs_loop, dfs_loop, bfs_step,
        dfs_step;
      destruct (run_loop _ fuel _) as [[r st]|e]; [|done| |done]; simpl;
      intros [= <- <-]; by exists st. }
  destruct (search_loop_acc dfs env metrics fuel res st Hrun)
    as (Hnd & Hexp & Huniq & Hsol & Hpar & Hin).
  split; [done|]. split; [done|]. split; [done|]. split; [done|].
  split; [lia|]. intros Hf. destruct (Hsol Hf) as [Hfr Hp].
  split; [done|]. rewrite Huniq, Hfr. simpl. lia.
Qed.

Lemma search_expands_each_state_once_witness :
  exists res metrics',
    solve_dfs 10 env_3x3_seed2 metrics_3x3 = Ok (res, metrics')
    /\ NoDup (visited_order res)
    /\ RunMetrics.states_expanded metrics'
       = 0 + Z.of_nat (length (visited_order res)).
Proof.
  destruct (solve_dfs 10 env_3x3_seed2 metrics_3x3) as [[res m']|e] eqn:E;
    [|by vm_compute in E].
  exists res, m'. split; [done|].
  destruct (search_expands_each_state_once 10 env_3x3_seed2 metrics_3x3 res m'
              (or_intror E)) as (Hnd & Hexp & _).
  split; [exact Hnd | exact Hexp].
Defined.

(** ** Accounting in A* *)

Section astar_acc_facts.
Context {F : Type} `{FloatOps F} `{FloatLib F}.

Lemma push_best_dom (q : @PQ.PriorityQueue Coord _ _ F) (x : Coord) (p : F) :
  dom (PQ._best (PQ.push q x p)) = {[x]} ∪ dom (PQ._best q).
Proof.
  unfold PQ.push. destruct (PQ._best q !! x) as [b|] eqn:E.
  - assert (x ∈ dom (PQ._best q)) by (apply elem_of_dom; eauto).
    destruct (plt p b); simpl; rewrite ?dom_insert_L; set_solver.
  - simpl. by rewrite dom_insert_L.
Qed.

Lemma pop_best_eq (q : @PQ.PriorityQueue Coord _ _ F) :
  PQ._best (snd (PQ.pop q)) = PQ._best q.
Proof. unfold PQ.pop. by destruct (PQ.pop_loop _ _). Qed.

Lemma h_metrics (a b : Coord) (kind : string) (m : RunMetrics.t F) :
  snd (_h a b kind m)
  = RunMetrics.set_heuristic_evaluations
      (RunMetrics.heuristic_evaluations m + 1) m.
Proof.
  unfold _h. destruct a, b. by repeat case_match.
Qed.

Lemma astar_expand_acc (env : MazeEnv F) (metrics : RunMetrics.t F)
    (heuristic : string) (s : Coord) (nbs : list Coord)
    (st st' : astar_state) :
  astar_expand env heuristic s nbs st = Ok st' ->
  astar_acc_scan metrics heuristic st ->
  astar_acc_scan metrics heuristic st'
  /\ (size (g st) <= size (g st'))%nat
  /\ RunMetrics.maximum_frontier_size (a_metrics st')
     = RunMetrics.maximum_frontier_size (a_metrics st).
Proof.
  revert st. induction nbs as [|nb nbs IH]; intros st; simpl.
  - intros [= <-] Hacc. split; [done|]. split; [lia | done].
  - destruct (dict_item (g st) s) as [gs|e]; [|done]. simpl.
    intros Hexp (Hnd & Hvo & Hse & Hbest & Hpar & Hev & Hty).
    destruct (g st !! nb) as [gnb|] eqn:Hg.
    + (* a state with a cost on record *)
      rewrite bool_decide_eq_false_2 in Hexp by done. simpl in Hexp.
      assert (Hin : nb ∈ dom (g st)) by (apply elem_of_dom; eauto).
      destruct (fltb (fadd gs (cost env s nb)) gnb) eqn:Hlt.
      * pose proof (h_metrics nb (goal (maze env)) heuristic
                      (RunMetrics.set_repeated_state_updates
                         (RunMetrics.repeated_state_updates
                            (RunMetrics.set_states_generated
                               (RunMetrics.states_generated (a_metrics st) + 1)
                               (a_metrics st)) + 1)
                         (RunMetrics.set_states_generated
                            (RunMetrics.states_generated (a_metrics st) + 1)
                            (a_metrics st)))) as Hm.
        destruct (_h _ _ _ _) as [[h|e] m]; [|done]. simpl in Hm, Hexp.
        subst m.
        apply IH in Hexp as (Hacc' & Hsize' & Hmax'); simpl in *.
        -- split; [done|]. split; [|done].
           rewrite map_size_insert_Some in Hsize' by done. done.
        -- unfold astar_acc_scan. simpl.
           split; [done|]. split; [done|]. split; [done|].
           split; [rewrite push_best_dom, dom_insert_L, Hbest; set_solver|].
           split; [rewrite !dom_insert_L, Hpar; set_solver|].
           split; [|done].
           rewrite map_size_insert_Some by done. lia.
      * apply IH in Hexp as (Hacc' & Hsize' & Hmax'); simpl in *; [done|].
        unfold astar_acc_scan. simpl. do 6 (split; [done|]). done.
    + (* a new state *)
      rewrite bool_decide_eq_true_2 in Hexp by done. simpl in Hexp.
      pose proof (h_metrics nb (goal (maze env)) heuristic
                    (RunMetrics.set_states_generated
                       (RunMetrics.states_generated (a_metrics st) + 1)
                       (a_metrics st))) as Hm.
      destruct (_h _ _ _ _) as [[h|e] m]; [|done]. simpl in Hm, Hexp.
      subst m.
      apply IH in Hexp as (Hacc' & Hsize' & Hmax'); simpl in *.
      * split; [done|]. split; [|done].
        rewrite map_size_insert_None in Hsize' by done. lia.
      * unfold astar_acc_scan. simpl.
        split; [done|]. split; [done|]. split; [done|].
        split; [rewrite push_best_dom, dom_insert_L, Hbest; set_solver|].
        split; [rewrite !dom_insert_L, Hpar; set_solver|].
        split; [|done].
        rewrite map_size_insert_None by done. lia.
Qed.

Lemma astar_init_acc (env : MazeEnv F) (metrics : RunMetrics.t F)
    (heuristic : string) (st0 : astar_state) :
  astar_init env metrics heuristic = Ok st0 ->
  astar_acc metrics heuristic st0.
Proof.
  unfold astar_init.
  pose proof (h_metrics (start (maze env)) (goal (maze env)) heuristic
                (RunMetrics.set_heuristic_type (Some heuristic) metrics)) as Hm.
  destruct (_h _ _ _ _) as [[h0|e] m]; [|done]. simpl in Hm. subst m.
  simpl. intros [= <-]. split; [split; [|split; [|split; [|split; [|split;
    [|split]]]]]|]; simpl.
  - constructor.
  - intros x. split; intros Hx; [by apply elem_of_nil in Hx | set_solver].
  - lia.
  - rewrite push_best_dom. simpl. rewrite !dom_singleton_L, dom_empty_L.
    set_solver.
  - by rewrite !dom_singleton_L.
  - rewrite map_size_singleton. lia.
  - done.
  - unfold PQ.len. rewrite <- size_dom, push_best_dom. simpl.
    rewrite dom_empty_L, union_empty_r_L, size_singleton, map_size_singleton.
    done.
Qed.

Lemma astar_step_acc (env : MazeEnv F) (metrics : RunMetrics.t F)
    (heuristic : string) (st : astar_state) :
  astar_acc metrics heuristic st ->
  match astar_step env heuristic st with
  | Ok (Continue st') => astar_acc metrics heuristic st'
  | Ok (Return res st') =>
      astar_acc metrics heuristic st'
      /\ visited_order res = a_visited_order st'
      /\ parents res = a_parents st'
      /\ RunMetrics.unique_states_visited (a_metrics st')
         = Z.of_nat (size (g st'))
  | Raise _ => True
  end.
Proof.
  intros ((Hnd & Hvo & Hse & Hbest & Hpar & Hev & Hty) & Hmax).
  unfold astar_step.
  pose proof (pop_best_eq (openpq st)) as Hpb.
  destruct (PQ.pop (openpq st)) as [[[s p]|e] pq] eqn:Hpop; simpl in Hpb.
  - simpl. destruct (bool_decide (s ∈ closed st)) eqn:Hcl; simpl.
    { unfold astar_acc, astar_acc_scan. simpl. rewrite Hpb.
      split; [|done]. do 6 (split; [done|]). done. }
    apply bool_decide_eq_false in Hcl.
    assert (Hscan : astar_acc_scan metrics heuristic
              (mkAstar pq (g st) (a_parents st) (closed st ∪ {[s]})
                 (a_visited_order st ++ [s])
                 (RunMetrics.set_states_expanded
                    (RunMetrics.states_expanded (a_metrics st) + 1)
                    (a_metrics st)))).
    { split; [|split; [|split; [|split; [|split; [|split]]]]]; simpl;
        try done.
      - apply NoDup_app. split; [done|]. split; [|apply NoDup_singleton].
        intros x Hx Hx'. apply list_elem_of_singleton in Hx' as ->.
        apply Hcl. by apply Hvo.
      - intros x. rewrite elem_of_app, list_elem_of_singleton, elem_of_union,
          elem_of_singleton, Hvo. done.
      - rewrite Hse, length_app. simpl. lia.
      - by rewrite Hpb. }
    destruct (bool_decide (s = goal (maze env))).
    + destruct (reconstruct_path _ _ _) as [path|e]; [|done]. simpl.
      destruct Hscan as (? & ? & ? & ? & ? & ? & ?).
      unfold astar_acc, astar_acc_scan. simpl.
      split; [|done]. split; [|done]. do 6 (split; [done|]). done.
    + destruct (neighbors env s) as [nbs|e]; [|done]. simpl.
      destruct (astar_expand _ _ _ _ _) as [st1|e] eqn:Hexp; [|done]. simpl.
      destruct (astar_expand_acc env metrics heuristic s nbs _ st1 Hexp Hscan)
        as ((? & ? & ? & Hb1 & ? & ? & ?) & Hsize & Hmax1).
      simpl in Hsize, Hmax1.
      unfold astar_acc, astar_acc_scan. simpl.
      split; [do 6 (split; [done|]); done|].
      unfold PQ.len. rewrite <- size_dom, Hb1, size_dom, Hmax1, Hmax. lia.
  - destruct e; try done. simpl.
    unfold astar_acc, astar_acc_scan. simpl. rewrite Hpb.
    split; [|done]. split; [|done]. do 6 (split; [done|]). done.
Qed.

Lemma astar_loop_acc (env : MazeEnv F) (metrics : RunMetrics.t F)
    (heuristic : string) (fuel : nat) (res : SolveResult)
    (metrics' : RunMetrics.t F) :
  solve_astar fuel env metrics heuristic = Ok (res, metrics') ->
  exists st, metrics' = a_metrics st
    /\ astar_acc metrics heuristic st
    /\ closed st ⊆ dom (g st)
    /\ visited_order res = a_visited_order st
    /\ parents res = a_parents st
    /\ RunMetrics.unique_states_visited (a_metrics st)
       = Z.of_nat (size (g st)).
Proof.
  unfold solve_astar.
  destruct (astar_init env metrics heuristic) as [st0|e] eqn:Hinit; [|done].
  simpl. unfold astar_loop.
  destruct (run_loop _ fuel st0) as [[r st]|e] eqn:Hrun; [|done]. simpl.
  intros [= <- <-]. exists st. split; [done|].
  apply (run_loop_inv (astar_step env heuristic)
           (fun st => astar_acc metrics heuristic st /\ astar_inv st)
           (fun res st =>
              astar_acc metrics heuristic st
              /\ closed st ⊆ dom (g st)
              /\ visited_order res = a_visited_order st
              /\ parents res = a_parents st
              /\ RunMetrics.unique_states_visited (a_metrics st)
                 = Z.of_nat (size (g st)))
           fuel st0 st r); [| | |done].
  - intros s s' [Hacc Hinv] Hstep.
    pose proof (astar_step_acc env metrics heuristic s Hacc) as Hs.
    rewrite Hstep in Hs. split; [done|]. by eapply astar_step_Continue.
  - intros s r' s' [Hacc Hinv] Hstep.
    pose proof (astar_step_acc env metrics heuristic s Hacc) as Hs.
    rewrite Hstep in Hs. destruct Hs as (? & ? & ? & ?).
    destruct (astar_step_Return env heuristic s s' r' Hinv Hstep) as [_ ?].
    done.
  - split; [by eapply astar_init_acc | by eapply astar_init_inv].
Qed.

End astar_acc_facts.

(** X17.  A* expands no state twice: whenever [solve_astar] returns,
    [visited_order] has no repetition, [states_expanded] has grown by
    its length, and every expanded state is a key of [parents], whose
    size is [unique_states_visited]; [heuristic_type] names the
    heuristic of the run. *)
Theorem astar_expands_each_state_once {F : Type} `{FloatOps F} `{FloatLib F}
    (fuel : nat) (env : MazeEnv F) (metrics : RunMetrics.t F)
    (heuristic : string) (res : SolveResult) (metrics' : RunMetrics.t F) :
  solve_astar fuel env metrics heuristic = Ok (res, metrics') ->
  NoDup (visited_order res)
  /\ RunMetrics.states_expanded metrics'
     = RunMetrics.states_expanded metrics
       + Z.of_nat (length (visited_order res))
  /\ RunMetrics.unique_states_visited metrics'
     = Z.of_nat (size (parents res))
  /\ (forall x, x ∈ visited_order res -> is_Some (parents res !! x))
  /\ Z.of_nat (length (visited_order res))
     <= RunMetrics.unique_states_visited metrics'
  /\ RunMetrics.heuristic_type metrics' = Some heuristic.
Proof.
  intros Hsolve.
  destruct (astar_loop_acc env metrics heuristic fuel res metrics' Hsolve)
    as (st & -> & ((Hnd & Hvo & Hse & Hbest & Hpar & Hev & Hty) & Hmax)
        & Hcl & -> & -> & Huniq).
  assert (Hsub : forall x, x ∈ a_visited_order st -> x ∈ dom (a_parents st)).
  { intros x Hx. rewrite Hpar. apply Hcl. by apply Hvo. }
  split; [done|]. split; [done|].
  split; [by rewrite Huniq, <- !size_dom, Hpar|].
  split; [intros x Hx; by apply elem_of_dom, Hsub|].
  split; [|done].
  rewrite Huniq. apply inj_le.
  rewrite <- size_dom, <- Hpar.
  rewrite <- (size_list_to_set (C := gset Coord) (a_visited_order st)) by done.
  apply subseteq_size. intros x Hx. apply elem_of_list_to_set in Hx.
  by apply Hsub.
Qed.

Lemma astar_expands_each_state_once_witness :
  exists res metrics',
    solve_astar 20 env_3x3_seed2 metrics_3x3 "manhattan" = Ok (res, metrics')
    /\ NoDup (visited_order res)
    /\ RunMetrics.states_expanded metrics'
       = 0 + Z.of_nat (length (visited_order res)).
Proof.
  destruct (solve_astar 20 env_3x3_seed2 metrics_3x3 "manhattan")
    as [[res m']|e] eqn:E; [|by vm_compute in E].
  exists res, m'. split; [done|].
  destruct (astar_expands_each_state_once 20 env_3x3_seed2 metrics_3x3
              "manhattan" res m' E) as (Hnd & Hexp & _).
  split; [exact Hnd | exact Hexp].
Defined.

(** X18.  What A* records as the size of its frontier is [len(openpq)],
    the number of items that were ever pushed; so the largest frontier
    on record is the number of discovered states: on return
    [maximum_frontier_size] is [unique_states_visited], unless the
    accumulator came with a larger maximum. *)
Theorem astar_frontier_counts_discovered {F : Type} `{FloatOps F}
    `{FloatLib F} (fuel : nat) (env : MazeEnv F) (metrics : RunMetrics.t F)
    (heuristic : string) (res : SolveResult) (metrics' : RunMetrics.t F) :
  solve_astar fuel env metrics heuristic = Ok (res, metrics') ->
  RunMetrics.maximum_frontier_size metrics'
  = Z.max (RunMetrics.maximum_frontier_size metrics)
      (RunMetrics.unique_states_visited metrics').
Proof.
  intros Hsolve.
  destruct (astar_loop_acc env metrics heuristic fuel res metrics' Hsolve)
    as (st & -> & (_ & Hmax) & _ & _ & _ & Huniq).
  by rewrite Hmax, Huniq.
Qed.

Lemma astar_frontier_counts_discovered_witness :
  exists res metrics',
    solve_astar 20 env_3x3_seed2 metrics_3x3 "manhattan" = Ok (res, metrics')
    /\ RunMetrics.maximum_frontier_size metrics'
       = RunMetrics.unique_states_visited metrics'.
Proof.
  destruct (solve_astar 20 env_3x3_seed2 metrics_3x3 "manhattan")
    as [[res m']|e] eqn:E; [|by vm_compute in E].
  exists res, m'. split; [done|].
  rewrite (astar_frontier_counts_discovered 20 env_3x3_seed2 metrics_3x3
             "manhattan" res m' E).
  vm_compute in E. injection E as _ <-. reflexivity.
Defined.

(** X19.  A* evaluates the heuristic once for the start and once for
    every cost it records: on return the evaluations counted by the run
    are the discovered states plus the repeated updates counted by the
    run. *)
Theorem astar_heuristic_evaluations {F : Type} `{FloatOps F} `{FloatLib F}
    (fuel : nat) (env : MazeEnv F) (metrics : RunMetrics.t F)
    (heuristic : string) (res : SolveResult) (metrics' : RunMetrics.t F) :
  solve_astar fuel env metrics heuristic = Ok (res, metrics') ->
  RunMetrics.heuristic_evaluations metrics'
  - RunMetrics.heuristic_evaluations metrics
  = RunMetrics.unique_states_visited metrics'
    + (RunMetrics.repeated_state_updates metrics'
       - RunMetrics.repeated_state_updates metrics).
Proof.
  intros Hsolve.
  destruct (astar_loop_acc env metrics heuristic fuel res metrics' Hsolve)
    as (st & -> & ((_ & _ & _ & _ & _ & Hev & _) & _) & _ & _ & _ & Huniq).
  rewrite Huniq. lia.
Qed.

Lemma astar_heuristic_evaluations_witness :
  exists res metrics',
    solve_astar 20 env_3x3_seed2 metrics_3x3 "euclidean" = Ok (res, metrics')
    /\ RunMetrics.heuristic_evaluations metrics' - 0
       = RunMetrics.unique_states_visited metrics'
         + (RunMetrics.repeated_state_updates metrics' - 0).
Proof.
  destruct (solve_astar 20 env_3x3_seed2 metrics_3x3 "euclidean")
    as [[res m']|e] eqn:E; [|by vm_compute in E].
  exists res, m'. split; [done|].
  exact (astar_heuristic_evaluations 20 env_3x3_seed2 metrics_3x3
           "euclidean" res m' E).
Defined.

Section astar_raises.
Context {F : Type} `{FloatOps F} `{FloatLib F}.

Lemma h_known (a b : Coord) (kind : string) (m : RunMetrics.t F) :
  known_heuristic kind -> exists h, fst (_h a b kind m) = Ok h.
Proof.
  intros [-> | ->]; unfold _h; destruct a, b; simpl; eauto.
Qed.

Lemma h_unknown (a b : Coord) (kind : string) (m : RunMetrics.t F) :
  ~ known_heuristic kind -> fst (_h a b kind m) = Raise ValueError.
Proof.
  intros Hn. unfold _h. destruct a, b.
  destruct (String.eqb kind "manhattan") eqn:E1.
  { apply String.eqb_eq in E1. exfalso. apply Hn. by left. }
  destruct (String.eqb kind "euclidean") eqn:E2; [|done].
  apply String.eqb_eq in E2. exfalso. apply Hn. by right.
Qed.

Lemma has_wall_raises (m : Maze) (r c bit : Z) :
  raises_only index_error (has_wall m r c bit).
Proof.
  unfold has_wall. apply raises_only_bind; [apply grid_get_raises|].
  intros x. apply raises_only_Ok.
Qed.

Lemma neighbors_raises (env : MazeEnv F) (s : Coord) :
  raises_only index_error (neighbors env s).
Proof.
  unfold neighbors. destruct s as [r c].
  repeat (apply raises_only_bind; [apply has_wall_raises|]; intros ?).
  apply raises_only_Ok.
Qed.

Lemma follow_parents_raises (fuel : nat) (parents : gmap Coord (option Coord))
    (cur : option Coord) (out : list Coord) :
  raises_only (fun e => e = OutOfFuel) (follow_parents fuel parents cur out).
Proof.
  revert cur out. induction fuel as [|fuel IH]; intros cur out; simpl;
    destruct cur; try apply raises_only_Ok; [by apply raises_only_Raise|].
  apply IH.
Qed.

Lemma reconstruct_path_raises (parents : gmap Coord (option Coord))
    (a b : Coord) :
  raises_only (fun e => e = OutOfFuel) (reconstruct_path parents a b).
Proof.
  unfold reconstruct_path. destruct (parents !! b); [|apply raises_only_Ok].
  apply raises_only_bind; [apply follow_parents_raises|].
  intros out. repeat case_match; apply raises_only_Ok.
Qed.

Lemma raises_only_impl {A} (E E' : exn -> Prop) (r : result A) :
  (forall e, E e -> E' e) -> raises_only E r -> raises_only E' r.
Proof. intros Himp Hr e He. by apply Himp, Hr. Qed.

Lemma astar_expand_raises (env : MazeEnv F) (heuristic : string) (s : Coord)
    (nbs : list Coord) (st : astar_state) :
  known_heuristic heuristic ->
  raises_only (fun e => e <> ValueError) (astar_expand env heuristic s nbs st).
Proof.
  intros Hk. revert st. induction nbs as [|nb nbs IH]; intros st; simpl;
    [apply raises_only_Ok|].
  apply raises_only_bind.
  { unfold dict_item. destruct (g st !! s);
      [apply raises_only_Ok | by apply raises_only_Raise]. }
  intros gs. case_match; [|apply IH].
  match goal with
  | |- context [_h ?a ?b ?k ?m] =>
      destruct (h_known a b k m Hk) as (h & Hh);
      destruct (_h a b k m) as [r m'] eqn:E
  end.
  simpl in Hh. subst r. simpl. apply IH.
Qed.

Lemma astar_step_raises (env : MazeEnv F) (heuristic : string)
    (st : astar_state) :
  known_heuristic heuristic ->
  raises_only (fun e => e <> ValueError) (astar_step env heuristic st).
Proof.
  intros Hk. unfold astar_step.
  destruct (PQ.pop (openpq st)) as [[[s p]|e] pq] eqn:Hpop.
  - simpl. case_match; [apply raises_only_Ok|]. case_match.
    + apply raises_only_bind; [|intros; apply raises_only_Ok].
      eapply raises_only_impl; [|apply reconstruct_path_raises].
      by intros e ->.
    + apply raises_only_bind.
      { eapply raises_only_impl; [|apply neighbors_raises]. by intros e ->. }
      intros nbs. apply raises_only_bind; [by apply astar_expand_raises|].
      intros st1. apply raises_only_Ok.
  - apply pop_Raise_IndexError in Hpop as ->. apply raises_only_Ok.
Qed.

Lemma run_loop_raises {St} (step : St -> result (round St)) (E : exn -> Prop)
    (fuel : nat) (st : St) :
  E OutOfFuel -> (forall st, raises_only E (step st)) ->
  raises_only E (run_loop step fuel st).
Proof.
  intros HE Hstep. revert st. induction fuel as [|fuel IH]; intros st; simpl;
    [by apply raises_only_Raise|].
  apply raises_only_bind; [apply Hstep|].
  intros [st1|res st1]; [apply IH | apply raises_only_Ok].
Qed.

End astar_raises.

(** X20.  [solve_astar] raises [ValueError] exactly when the heuristic
    is neither ["manhattan"] nor ["euclidean"]; it raises it then for
    every maze, before any state is expanded. *)
Theorem solve_astar_ValueError_iff {F : Type} `{FloatOps F} `{FloatLib F}
    (fuel : nat) (env : MazeEnv F) (metrics : RunMetrics.t F)
    (heuristic : string) :
  solve_astar fuel env metrics heuristic = Raise ValueError
  <-> heuristic <> "manhattan"%string /\ heuristic <> "euclidean"%string.
Proof.
  unfold solve_astar, astar_init. split.
  - intros Hr.
    destruct (decide (known_heuristic heuristic)) as [Hk|Hn];
      [|unfold known_heuristic in Hn; tauto].
    exfalso.
    match type of Hr with
    | context [_h ?a ?b ?k ?m] =>
        destruct (h_known a b k m Hk) as (h & Hh);
        destruct (_h a b k m) as [r m'] eqn:E
    end.
    simpl in Hh. subst r. simpl in Hr.
    match type of Hr with
    | rbind (astar_loop fuel env heuristic ?st0) ?k = _ =>
        assert (Hro : raises_only (fun e => e <> ValueError)
                  (rbind (astar_loop fuel env heuristic st0) k))
    end.
    { apply raises_only_bind.
      - apply run_loop_raises; [done|].
        intros st. by apply astar_step_raises.
      - intros [res st]. apply raises_only_Ok. }
    by apply (Hro _ Hr).
  - intros [H1 H2].
    match goal with
    | |- context [_h ?a ?b ?k ?m] =>
        pose proof (h_unknown a b k m) as Hh;
        destruct (_h a b k m) as [r m'] eqn:E
    end.
    simpl in Hh. rewrite Hh; [done|].
    intros [?|?]; done.
Qed.

(** ** BFS and DFS as tree searches *)

Section tree_facts.
Context {F : Type} `{FloatOps F} `{FloatLib F}.

(** A cell [nb] that is discovered from the cell [s] under expansion;
    it joins the frontier at either end. *)
Lemma tree_discover (env : MazeEnv F) (d : Coord -> nat) (s nb : Coord)
    (st : search_state) (fr : list Coord) (m : RunMetrics.t F) :
  tree_inv env d [s] st ->
  maze_adj (maze env) s nb -> nb ∉ visited st ->
  (forall x, x ∈ fr <-> x = nb \/ x ∈ frontier st) ->
  tree_inv env (fun x => if decide (x = nb) then size (visited st) else d x)
    [s]
    (mkSearch fr (visited st ∪ {[nb]}) (<[nb := Some s]> (s_parents st))
       (s_visited_order st) m).
Proof.
  intros [Hstart Hgrid Hdom Hpar Hrank Hreach Hfront Hclosed Hcur Hgoal Hexp
            Hord] Hadj Hnb Hfr.
  assert (Hsv : s ∈ visited st) by (apply Hcur; left).
  assert (Hd' : forall x, x ∈ visited st ->
            (if decide (x = nb) then size (visited st) else d x) = d x).
  { intros x Hx. destruct (decide (x = nb)) as [->|]; done. }
  assert (Hsize : size (visited st ∪ {[nb]}) = Datatypes.S (size (visited st))).
  { rewrite size_union by set_solver. rewrite size_singleton. lia. }
  split; simpl.
  - destruct Hstart as (Hs1 & Hs3). split; [set_solver|].
    rewrite lookup_insert_ne; [done|]. intros Heq. apply Hnb. by rewrite Heq.
  - intros x Hx. apply elem_of_union in Hx as [Hx|Hx]; [by apply Hgrid|].
    apply elem_of_singleton in Hx as ->. by destruct Hadj as (_ & ? & _).
  - intros x. rewrite elem_of_union, elem_of_singleton, Hdom.
    destruct (decide (x = nb)) as [->|Hne].
    + rewrite lookup_insert_eq. split; [by eexists | by right].
    + rewrite lookup_insert_ne by done. naive_solver.
  - intros x Hx Hne. apply elem_of_union in Hx as [Hx|Hx].
    + destruct (Hpar x Hx Hne) as (p & Hp & Hpv & Hpx & Hdx).
      exists p. rewrite lookup_insert_ne by (intros Heq; apply Hnb; by rewrite Heq).
      rewrite !Hd' by done. split; [done|]. split; [set_solver|]. done.
    + apply elem_of_singleton in Hx as ->. exists s.
      rewrite lookup_insert_eq. split; [done|]. split; [set_solver|].
      split; [done|]. rewrite (Hd' s) by done.
      destruct (decide (nb = nb)); [|done]. by apply Hrank.
  - intros x Hx. rewrite Hsize. apply elem_of_union in Hx as [Hx|Hx].
    + rewrite Hd' by done. specialize (Hrank x Hx). lia.
    + apply elem_of_singleton in Hx as ->.
      destruct (decide (nb = nb)); [lia|done].
  - intros x Hx. apply elem_of_union in Hx as [Hx|Hx]; [by apply Hreach|].
    apply elem_of_singleton in Hx as ->.
    eapply rtc_r; [by apply Hreach|done].
  - intros x Hx. apply Hfr in Hx as [->|Hx]; [set_solver|].
    apply elem_of_union. left. by apply Hfront.
  - intros x y Hx Hnf Hnc Hxy.
    assert (x <> nb) by (intros ->; apply Hnf, Hfr; by left).
    assert (x ∈ visited st) by set_solver.
    assert (x ∉ frontier st) by (intros Hin; apply Hnf, Hfr; by right).
    apply elem_of_union. left. by apply (Hclosed x y).
  - intros x Hx. apply elem_of_union. left. by apply Hcur.
  - done.
  - intros x Hx Hnf.
    assert (x <> nb) by (intros ->; apply Hnf, Hfr; by left).
    apply Hexp; [set_solver|]. intros Hin. apply Hnf, Hfr. by right.
  - intros x Hx. apply elem_of_union. left. by apply Hord.
Qed.

(** The invariant does not look at the metrics. *)
Lemma tree_inv_metrics (env : MazeEnv F) (d : Coord -> nat)
    (cur : list Coord) (st : search_state) (m : RunMetrics.t F) :
  tree_inv env d cur st ->
  tree_inv env d cur
    (mkSearch (frontier st) (visited st) (s_parents st) (s_visited_order st) m).
Proof. intros [? ? ? ? ? ? ? ? ? ? ? ?]. by split. Qed.

(** The scan of the neighbours of the cell [s] under expansion, in BFS
    and in DFS. *)
Lemma search_expand_cons (dfs : bool) (s nb : Coord) (nbs : list Coord)
    (st : @search_state F) :
  search_expand dfs s (nb :: nbs) st
  = search_expand dfs s nbs
      (let m := RunMetrics.set_states_generated
                  (RunMetrics.states_generated (s_metrics st) + 1)
                  (s_metrics st) in
       if bool_decide (nb ∈ visited st)
       then mkSearch (frontier st) (visited st) (s_parents st)
              (s_visited_order st) m
       else mkSearch (if dfs then nb :: frontier st else frontier st ++ [nb])
              (visited st ∪ {[nb]}) (<[nb := Some s]> (s_parents st))
              (s_visited_order st) m).
Proof.
  unfold search_expand. destruct dfs; simpl;
    destruct (bool_decide (nb ∈ visited st)); reflexivity.
Qed.

Lemma tree_expand_inv (dfs : bool) (env : MazeEnv F) (s : Coord)
    (nbs : list Coord) (st : search_state) (d : Coord -> nat) :
  tree_inv env d [s] st ->
  (forall nb, nb ∈ nbs -> maze_adj (maze env) s nb) ->
  exists d',
    tree_inv env d' [s] (search_expand dfs s nbs st)
    /\ (forall nb, nb ∈ nbs -> nb ∈ visited (search_expand dfs s nbs st))
    /\ visited st ⊆ visited (search_expand dfs s nbs st)
    /\ (size (visited (search_expand dfs s nbs st)) + length (frontier st)
        = size (visited st) + length (frontier (search_expand dfs s nbs st)))%nat
    /\ s_visited_order (search_expand dfs s nbs st) = s_visited_order st.
Proof.
  revert st d. induction nbs as [|nb nbs IH]; intros st d Hinv Hadj.
  - exists d.
    assert (Hnil : search_expand dfs s [] st = st) by (by destruct dfs).
    rewrite Hnil. split; [done|].
    split; [intros nb Hnb; by apply elem_of_nil in Hnb|].
    split; [done|]. split; [lia | done].
  - rewrite search_expand_cons. cbv zeta.
    set (m1 := RunMetrics.set_states_generated
                 (RunMetrics.states_generated (s_metrics st) + 1)
                 (s_metrics st)).
    destruct (decide (nb ∈ visited st)) as [Hvis|Hvis].
    + rewrite bool_decide_eq_true_2 by done.
      set (st1 := mkSearch (frontier st) (visited st) (s_parents st)
                    (s_visited_order st) m1).
      destruct (IH st1 d) as (d' & Hinv' & Hall & Hsub & Hsize & Hvo).
      { by apply tree_inv_metrics. }
      { intros x Hx. apply Hadj. by right. }
      exists d'. split; [done|]. split; [|done].
      intros x Hx. apply elem_of_cons in Hx as [->|Hx];
        [by apply Hsub | by apply Hall].
    + rewrite bool_decide_eq_false_2 by done.
      set (fr := if dfs then nb :: frontier st else frontier st ++ [nb]).
      set (st1 := mkSearch fr (visited st ∪ {[nb]})
                    (<[nb := Some s]> (s_parents st)) (s_visited_order st) m1).
      destruct (IH st1 (fun x => if decide (x = nb)
                                 then size (visited st) else d x))
        as (d' & Hinv' & Hall & Hsub & Hsize & Hvo).
      { apply tree_discover; [done | apply Hadj; left | done |].
        intros x. unfold fr. destruct dfs.
        - by rewrite elem_of_cons.
        - rewrite elem_of_app, list_elem_of_singleton. tauto. }
      { intros x Hx. apply Hadj. by right. }
      assert (Hlen : length fr = Datatypes.S (length (frontier st))).
      { unfold fr. destruct dfs; [done|].
        rewrite length_app. simpl. lia. }
      assert (Hsz : size (visited st ∪ {[nb]})
                    = Datatypes.S (size (visited st))).
      { rewrite size_union by (apply disjoint_singleton_r; done).
        rewrite size_singleton. lia. }
      change (visited st1) with (visited st ∪ {[nb]}) in Hsub, Hsize.
      change (frontier st1) with fr in Hsize.
      change (s_visited_order st1) with (s_visited_order st) in Hvo.
      exists d'. split; [done|]. split; [|split; [|split; [|done]]].
      * intros x Hx. apply elem_of_cons in Hx as [->|Hx]; [|by apply Hall].
        apply Hsub. apply elem_of_union. right. by apply elem_of_singleton.
      * intros x Hx. apply Hsub. apply elem_of_union. by left.
      * rewrite Hsz, Hlen in Hsize. lia.
Qed.

(** ** The path back along the parents *)

Lemma tree_follow_parents (env : MazeEnv F) (d : Coord -> nat)
    (cur : list Coord) (st : search_state) (n : nat) :
  tree_inv env d cur st ->
  forall x fuel out, x ∈ visited st -> (d x <= n)%nat -> (n < fuel)%nat ->
    exists p,
      follow_parents fuel (s_parents st) (Some x) out
      = Ok (out ++ reverse (start (maze env) :: p))
      /\ walk (maze_adj (maze env)) (start (maze env)) p x
      /\ NoDup (start (maze env) :: p)
      /\ Forall (fun y => (d y <= d x)%nat) (start (maze env) :: p).
Proof.
  intros Hinv. pose proof Hinv as [(Hs1 & Hs3) _ _ Hpar _ _ _ _ _ _ _ _].
  induction n as [|n IH]; intros x fuel out Hx Hdx Hfuel;
    (destruct fuel as [|fuel]; [lia|]); simpl.
  - assert (x = start (maze env)) as ->.
    { destruct (decide (x = start (maze env))) as [|Hne]; [done|].
      destruct (Hpar x Hx Hne) as (p & _ & _ & _ & Hd). lia. }
    rewrite Hs3. simpl. exists []. split; [by destruct fuel|].
    split; [done|]. split; [apply NoDup_singleton|]. by repeat constructor.
  - destruct (decide (x = start (maze env))) as [->|Hne].
    { rewrite Hs3. simpl. exists []. split; [by destruct fuel|].
      split; [done|]. split; [apply NoDup_singleton|]. by repeat constructor. }
    destruct (Hpar x Hx Hne) as (p0 & Hp0 & Hp0v & Hadj & Hd).
    rewrite Hp0. simpl.
    destruct (IH p0 fuel (out ++ [x]) Hp0v) as (p & Hfollow & Hw & Hnd & Hle);
      [lia|lia|].
    exists (p ++ [x]). rewrite Hfollow. split; [|split; [|split]].
    + f_equal. rewrite <- app_assoc. f_equal.
      by rewrite app_comm_cons, reverse_app.
    + eapply walk_app; [exact Hw|]. simpl. done.
    + rewrite app_comm_cons. apply NoDup_app. split; [done|].
      split; [|apply NoDup_singleton].
      intros y Hy Hy'. apply list_elem_of_singleton in Hy' as ->.
      rewrite Forall_forall in Hle. specialize (Hle x Hy). lia.
    + rewrite app_comm_cons. apply Forall_app. split.
      * eapply Forall_impl; [exact Hle|]. simpl. intros y Hy. lia.
      * by repeat constructor.
Qed.

Lemma tree_visited_dom (env : MazeEnv F) (d : Coord -> nat)
    (cur : list Coord) (st : search_state) :
  tree_inv env d cur st -> visited st = dom (s_parents st).
Proof.
  intros Hinv. apply set_eq. intros x.
  rewrite (ti_dom _ _ _ _ Hinv), elem_of_dom. done.
Qed.

Lemma tree_reconstruct_path (env : MazeEnv F) (d : Coord -> nat)
    (cur : list Coord) (st : search_state) :
  tree_inv env d cur st -> goal (maze env) ∈ visited st ->
  exists p,
    reconstruct_path (s_parents st) (start (maze env)) (goal (maze env))
    = Ok (start (maze env) :: p)
    /\ simple_path (maze_adj (maze env)) (start (maze env)) p (goal (maze env)).
Proof.
  intros Hinv Hg. unfold reconstruct_path.
  destruct (proj1 (ti_dom _ _ _ _ Hinv _) Hg) as [pg Hpg]. rewrite Hpg.
  destruct (tree_follow_parents env d cur st (d (goal (maze env))) Hinv
              (goal (maze env)) (Datatypes.S (size (s_parents st))) [] Hg)
    as (p & Hfollow & Hw & Hnd & _); [lia| |].
  { pose proof (ti_rank _ _ _ _ Hinv _ Hg) as Hr.
    rewrite (tree_visited_dom env d cur st Hinv), size_dom in Hr. lia. }
  rewrite Hfollow. simpl. rewrite reverse_involutive.
  rewrite bool_decide_eq_true_2 by done. exists p. by split.
Qed.

(** ** One round *)

Lemma tree_pop (env : MazeEnv F) (d : Coord -> nat) (s : Coord)
    (rest : list Coord) (st : search_state) (m : RunMetrics.t F) :
  tree_inv env d [] st -> frontier st = s :: rest -> s <> goal (maze env) ->
  tree_inv env d [s]
    (mkSearch rest (visited st) (s_parents st) (s_visited_order st ++ [s]) m).
Proof.
  intros [Hstart Hgrid Hdom Hpar Hrank Hreach Hfront Hclosed Hcur Hgoal Hexp
            Hord] Hq Hne.
  rewrite Hq in *.
  assert (Hsv : s ∈ visited st) by (apply Hfront; left).
  split; simpl; try done.
  - intros x Hx. apply Hfront. by right.
  - intros x y Hx Hnr Hns Hxy. apply (Hclosed x y); try done.
    + intros Hin. apply elem_of_cons in Hin as [->|Hin]; [|done].
      apply Hns. left.
    + apply not_elem_of_nil.
  - intros x Hx. by apply list_elem_of_singleton in Hx as ->.
  - intros Hin. apply elem_of_app in Hin as [Hin|Hin]; [done|].
    apply list_elem_of_singleton in Hin. done.
  - intros x Hx Hnr. apply elem_of_app.
    destruct (decide (x = s)) as [->|Hxs]; [right; left|].
    left. apply Hexp; [done|]. intros Hin.
    apply elem_of_cons in Hin as [?|?]; done.
  - intros x Hx. apply elem_of_app in Hx as [Hx|Hx]; [by apply Hord|].
    by apply list_elem_of_singleton in Hx as ->.
Qed.

(** When all neighbours of [s] are discovered, [s] is done with. *)
Lemma tree_close (env : MazeEnv F) (d : Coord -> nat) (s : Coord)
    (st : search_state) (m : RunMetrics.t F) :
  tree_inv env d [s] st ->
  (forall y, maze_adj (maze env) s y -> y ∈ visited st) ->
  tree_inv env d []
    (mkSearch (frontier st) (visited st) (s_parents st) (s_visited_order st) m).
Proof.
  intros [Hstart Hgrid Hdom Hpar Hrank Hreach Hfront Hclosed Hcur Hgoal Hexp
            Hord] Hall.
  split; simpl; try done.
  - intros x y Hx Hnf _ Hxy.
    destruct (decide (x = s)) as [->|Hxs]; [by apply Hall|].
    apply (Hclosed x y); try done. intros Hin.
    by apply list_elem_of_singleton in Hin.
  - intros x Hx. by apply elem_of_nil in Hx.
Qed.

(** With an empty frontier the discovered cells are the cells that can
    be reached from the start, and all of them are expanded. *)
Lemma tree_exhausted (env : MazeEnv F) (d : Coord -> nat)
    (st : search_state) :
  tree_inv env d [] st -> frontier st = [] ->
  (forall x, x ∈ s_visited_order st
             <-> rtc (maze_adj (maze env)) (start (maze env)) x)
  /\ ~ rtc (maze_adj (maze env)) (start (maze env)) (goal (maze env)).
Proof.
  intros Hinv Hq.
  assert (Hcl : forall a b, rtc (maze_adj (maze env)) a b ->
            a ∈ visited st -> b ∈ visited st).
  { intros a b Hab. induction Hab as [|x y z Hxy _ IH]; [done|].
    intros Hx. apply IH. apply (ti_closed _ _ _ _ Hinv x y); try done.
    - rewrite Hq. apply not_elem_of_nil.
    - apply not_elem_of_nil. }
  assert (Hvo : forall x, x ∈ s_visited_order st
                          <-> rtc (maze_adj (maze env)) (start (maze env)) x).
  { intros x. split.
    - intros Hx. by apply (ti_reach _ _ _ _ Hinv), (ti_order _ _ _ _ Hinv).
    - intros Hx. apply (ti_expanded _ _ _ _ Hinv).
      + apply (Hcl _ _ Hx). by destruct (ti_start _ _ _ _ Hinv).
      + rewrite Hq. apply not_elem_of_nil. }
  split; [done|]. intros Hr. apply (ti_goal _ _ _ _ Hinv). by apply Hvo.
Qed.

(** The three ways a round can go. *)
Lemma tree_step (dfs : bool) (env : MazeEnv F) (d : Coord -> nat)
    (st : search_state) :
  grid_dims (walls (maze env)) (rows (maze env)) (cols (maze env)) ->
  tree_inv env d [] st ->
  (exists st',
     search_step dfs env st = Ok (Return (mkResult [] (s_visited_order st)
                                            (s_parents st)) st')
     /\ RunMetrics.solved (s_metrics st') = false
     /\ (forall x, x ∈ s_visited_order st
                   <-> rtc (maze_adj (maze env)) (start (maze env)) x)
     /\ ~ rtc (maze_adj (maze env)) (start (maze env)) (goal (maze env)))
  \/ (exists res st' p,
        search_step dfs env st = Ok (Return res st')
        /\ path res = start (maze env) :: p
        /\ simple_path (maze_adj (maze env)) (start (maze env)) p
             (goal (maze env))
        /\ visited_order res = s_visited_order st ++ [goal (maze env)]
        /\ (goal (maze env) ∉ s_visited_order st)
        /\ RunMetrics.solved (s_metrics st') = true
        /\ RunMetrics.solution_path_length (s_metrics st')
           = Z.of_nat (length p))
  \/ (exists st1 d1,
        search_step dfs env st = Ok (Continue st1)
        /\ tree_inv env d1 [] st1
        /\ (bfs_measure env st1 < bfs_measure env st)%nat).
Proof.
  intros Hdims Hinv. unfold search_step.
  destruct (frontier st) as [|s rest] eqn:Hq.
  - left. destruct (tree_exhausted env d st Hinv Hq) as [Hvo Hnr].
    eexists. split; [reflexivity|]. done.
  - right.
    assert (Hsv : s ∈ visited st).
    { apply (ti_front _ _ _ _ Hinv). rewrite Hq. left. }
    destruct (bool_decide (s = goal (maze env))) eqn:Hsg.
    + left. apply bool_decide_eq_true in Hsg. subst s.
      unfold search_solved. simpl.
      destruct (tree_reconstruct_path env d [] st Hinv Hsv) as (p & -> & Hsp).
      simpl. eexists _, _, p.
      split; [done|]. simpl. split; [done|]. split; [done|].
      split; [done|]. split; [by apply (ti_goal _ _ _ _ Hinv)|].
      split; [done|]. lia.
    + right. apply bool_decide_eq_false in Hsg.
      destruct (neighbors_spec env s Hdims (ti_grid _ _ _ _ Hinv s Hsv))
        as (nbs & -> & Hnbs).
      simpl.
      set (st0 := mkSearch rest (visited st) (s_parents st)
                    (s_visited_order st ++ [s])
                    (RunMetrics.set_states_expanded
                       (RunMetrics.states_expanded (s_metrics st) + 1)
                       (s_metrics st))).
      assert (Hpop : tree_inv env d [s] st0) by (by apply tree_pop).
      destruct (tree_expand_inv dfs env s (if dfs then reverse nbs else nbs)
                  st0 d Hpop)
        as (d' & Hinv' & Hall & Hsub & Hsize & Hvo).
      { intros nb Hnb. apply Hnbs. destruct dfs; [|done].
        by rewrite elem_of_reverse in Hnb. }
      assert (Hst_e : search_expand dfs s (if dfs then reverse nbs else nbs) st0
                      = (if dfs then dfs_expand s (reverse nbs) st0
                         else bfs_expand s nbs st0)) by (by destruct dfs).
      rewrite Hst_e in Hinv', Hall, Hsub, Hsize, Hvo.
      set (st_e := if dfs then dfs_expand s (reverse nbs) st0
                   else bfs_expand s nbs st0) in *.
      change (visited st0) with (visited st) in Hsub, Hsize.
      change (frontier st0) with rest in Hsize.
      eexists _, d'. split; [done|]. split.
      * apply (tree_close env d' s st_e); [done|].
        intros y Hy. apply Hall. destruct dfs; [|by apply Hnbs].
        rewrite elem_of_reverse. by apply Hnbs.
      * unfold bfs_measure. simpl. rewrite Hq. simpl.
        pose proof (size_in_grid _ _ _ (ti_grid _ _ _ _ Hinv')) as Hle.
        pose proof (subseteq_size _ _ Hsub) as Hmono. lia.
Qed.

(** ** The whole run *)

Lemma tree_init_inv (env : MazeEnv F) (metrics : RunMetrics.t F) :
  in_grid (rows (maze env)) (cols (maze env)) (start (maze env)) ->
  tree_inv env (fun _ => 0%nat) [] (search_init env metrics)
  /\ (bfs_measure env (search_init env metrics)
      <= length (all_cells (rows (maze env)) (cols (maze env))))%nat.
Proof.
  intros Hstart. split.
  - split; simpl.
    + split; [set_solver|]. apply lookup_singleton_eq.
    + intros x Hx. apply elem_of_singleton in Hx as ->. done.
    + intros x. rewrite elem_of_singleton. split.
      * intros ->. rewrite lookup_singleton_eq. by eexists.
      * intros [v Hv]. destruct (decide (x = start (maze env))); [done|].
        rewrite lookup_singleton_ne in Hv; done.
    + intros x Hx Hne. apply elem_of_singleton in Hx. done.
    + intros x Hx.
      change (0 < size ({[start (maze env)]} : gset Coord))%nat.
      rewrite size_singleton. lia.
    + intros x Hx. apply elem_of_singleton in Hx as ->. done.
    + intros x Hx. apply list_elem_of_singleton in Hx as ->. set_solver.
    + intros x y Hx Hnf. apply elem_of_singleton in Hx as ->.
      exfalso. apply Hnf. left.
    + intros x Hx. by apply elem_of_nil in Hx.
    + apply not_elem_of_nil.
    + intros x Hx Hnf. apply elem_of_singleton in Hx as ->.
      exfalso. apply Hnf. left.
    + intros x Hx. by apply elem_of_nil in Hx.
  - unfold bfs_measure.
    change (visited (search_init env metrics))
      with ({[start (maze env)]} : gset Coord).
    change (frontier (search_init env metrics)) with [start (maze env)].
    rewrite size_singleton. simpl length.
    assert (1 <= length (all_cells (rows (maze env)) (cols (maze env))))%nat.
    { rewrite <- (size_singleton (C := gset Coord) (start (maze env))).
      apply size_in_grid. intros x Hx. by apply elem_of_singleton in Hx as ->. }
    lia.
Qed.

Lemma tree_run (dfs : bool) (env : MazeEnv F) (fuel : nat) :
  grid_dims (walls (maze env)) (rows (maze env)) (cols (maze env)) ->
  forall st d, tree_inv env d [] st -> (bfs_measure env st < fuel)%nat ->
  exists res st',
    run_loop (search_step dfs env) fuel st = Ok (res, st')
    /\ search_outcome env res st'.
Proof.
  intros Hdims. induction fuel as [|fuel IH]; intros st d Hinv Hfuel; [lia|].
  simpl.
  destruct (tree_step dfs env d st Hdims Hinv)
    as [(st' & -> & Hpost)|[(res & st' & p & -> & Hpost)
                           |(st1 & d1 & -> & Hinv1 & Hlt)]].
  - simpl. eexists _, st'. split; [done|]. left. simpl. by split.
  - simpl. exists res, st'. split; [done|]. right.
    exists p, (s_visited_order st). tauto.
  - simpl. apply (IH st1 d1); [done|lia].
Qed.

Lemma search_run (dfs : bool) (env : MazeEnv F) (metrics : RunMetrics.t F) :
  grid_dims (walls (maze env)) (rows (maze env)) (cols (maze env)) ->
  in_grid (rows (maze env)) (cols (maze env)) (start (maze env)) ->
  exists res st',
    (forall fuel,
       (length (all_cells (rows (maze env)) (cols (maze env))) < fuel)%nat ->
       run_loop (search_step dfs env) fuel (search_init env metrics)
       = Ok (res, st'))
    /\ search_outcome env res st'.
Proof.
  intros Hdims Hstart. destruct (tree_init_inv env metrics Hstart) as [Hinv Hm].
  set (n := length (all_cells (rows (maze env)) (cols (maze env)))) in *.
  destruct (tree_run dfs env (Datatypes.S n) Hdims _ _ Hinv)
    as (res & st' & Hrun & Hpost); [lia|].
  exists res, st'. split; [|done].
  intros fuel Hfuel.
  by rewrite (run_loop_fuel_mono _ (Datatypes.S n) fuel _ _ Hrun) by lia.
Qed.

End tree_facts.

Lemma solve_search_run {F : Type} `{FloatOps F} `{FloatLib F} (dfs : bool)
    (env : MazeEnv F) (metrics : RunMetrics.t F) (fuel : nat)
    (res : SolveResult) (st : search_state) :
  run_loop (search_step dfs env) fuel (search_init env metrics) = Ok (res, st) ->
  (if dfs then solve_dfs fuel env metrics else solve_bfs fuel env metrics)
  = Ok (res, s_metrics st).
Proof.
  intros Hrun. destruct dfs;
    unfold solve_dfs, solve_bfs, dfs_loop, bfs_loop, dfs_step, bfs_step;
    by rewrite Hrun.
Qed.

(** X21.  DFS finds a way whenever there is one: on a well-sized maze
    whose goal can be reached from the start, [solve_dfs] returns within
    as many rounds as the grid has cells, solved, and its path is a
    walk from the start to the goal through open sides that visits no
    cell twice; [solution_path_length] counts its edges, and the goal
    is the last state expanded. *)
Theorem solve_dfs_simple_path {F : Type} `{FloatOps F} `{FloatLib F}
    (env : MazeEnv F) (metrics : RunMetrics.t F) :
  maze_ok (maze env) ->
  exists res metrics' p pre,
    (forall fuel,
       (length (all_cells (rows (maze env)) (cols (maze env))) < fuel)%nat ->
       solve_dfs fuel env metrics = Ok (res, metrics'))
    /\ path res = start (maze env) :: p
    /\ simple_path (maze_adj (maze env)) (start (maze env)) p (goal (maze env))
    /\ visited_order res = pre ++ [goal (maze env)]
    /\ (goal (maze env) ∉ pre)
    /\ RunMetrics.solved metrics' = true
    /\ RunMetrics.solution_path_length metrics' = Z.of_nat (length p).
Proof.
  intros [Hdims Hstart _ Hreach].
  destruct (search_run true env metrics Hdims Hstart)
    as (res & st' & Hrun & [(_ & _ & _ & Hno)|(p & pre & Hpost)]); [done|].
  exists res, (s_metrics st'), p, pre. split; [|done].
  intros fuel Hfuel. by apply (solve_search_run true), Hrun.
Qed.

Lemma generate_maze_3x3_seed2 :
  generate_maze Z 18 3 3 (Some 2) (0, 0) None = Ok maze_3x3_seed2.
Proof. vm_compute. reflexivity. Qed.

Lemma maze_3x3_seed2_ok : maze_ok maze_3x3_seed2.
Proof.
  destruct (generate_maze_ok lcg_RandomSourceOk 3 3 (Some 2) (0, 0) None)
    as (m & Hgen & _ & _ & Hok).
  - lia.
  - lia.
  - unfold in_grid. simpl. lia.
  - exact I.
  - assert (Hm : generate_maze Z 18 3 3 (Some 2) (0, 0) None = Ok m)
      by (apply Hgen; simpl; lia).
    rewrite generate_maze_3x3_seed2 in Hm.
    assert (Hmm : maze_3x3_seed2 = m)
      by exact (f_equal (fun r => match r with Ok x => x | Raise _ => m end) Hm).
    rewrite Hmm. exact Hok.
Qed.

Lemma solve_dfs_simple_path_witness :
  maze_ok (maze env_3x3_seed2)
  /\ exists res metrics' p,
       solve_dfs 10 env_3x3_seed2 metrics_3x3 = Ok (res, metrics')
       /\ path res = (0, 0) :: p
       /\ NoDup ((0, 0) :: p).
Proof.
  split; [exact maze_3x3_seed2_ok|].
  destruct (solve_dfs_simple_path env_3x3_seed2 metrics_3x3 maze_3x3_seed2_ok)
    as (res & m' & p & pre & Hrun & Hpath & [_ Hnd] & _).
  exists res, m', p. split; [|split; [exact Hpath | exact Hnd]].
  apply Hrun. vm_compute. lia.
Defined.

(** X22.  BFS and DFS decide reachability.  On a well-sized grid with
    the start inside it, each of them returns within as many rounds as
    the grid has cells; the run is solved exactly when the goal can be
    reached from the start through open sides, and then the path is a
    walk from the start to the goal that visits no cell twice; an
    unsolved run returns the empty path after expanding exactly the
    cells that can be reached from the start. *)
Theorem search_solved_iff_reachable {F : Type} `{FloatOps F} `{FloatLib F}
    (env : MazeEnv F) (metrics : RunMetrics.t F) (dfs : bool) :
  grid_dims (walls (maze env)) (rows (maze env)) (cols (maze env)) ->
  in_grid (rows (maze env)) (cols (maze env)) (start (maze env)) ->
  exists res metrics',
    (forall fuel,
       (length (all_cells (rows (maze env)) (cols (maze env))) < fuel)%nat ->
       (if dfs then solve_dfs fuel env metrics else solve_bfs fuel env metrics)
       = Ok (res, metrics'))
    /\ (RunMetrics.solved metrics' = true
        <-> rtc (maze_adj (maze env)) (start (maze env)) (goal (maze env)))
    /\ (RunMetrics.solved metrics' = true ->
        exists p, path res = start (maze env) :: p
                  /\ simple_path (maze_adj (maze env)) (start (maze env)) p
                       (goal (maze env)))
    /\ (RunMetrics.solved metrics' = false ->
        path res = []
        /\ forall x, x ∈ visited_order res
                     <-> rtc (maze_adj (maze env)) (start (maze env)) x).
Proof.
  intros Hdims Hstart.
  destruct (search_run dfs env metrics Hdims Hstart)
    as (res & st' & Hrun & Hout).
  exists res, (s_metrics st'). split.
  { intros fuel Hfuel. by apply solve_search_run, Hrun. }
  destruct Hout as [(Hp & Hs & Hvo & Hno)|(p & pre & Hp & Hsp & _ & _ & Hs & _)].
  - rewrite Hs. split; [split; [done|intros Hr; by destruct Hno]|].
    split; [done|]. done.
  - rewrite Hs. split; [split; [|done]|split; [|done]].
    + intros _. destruct Hsp as [Hw _]. by eapply walk_rtc.
    + intros _. by exists p.
Qed.

Lemma search_solved_iff_reachable_witness :
  exists res metrics',
    solve_bfs 5 env_walled metrics0 = Ok (res, metrics')
    /\ RunMetrics.solved metrics' = false
    /\ ~ rtc (maze_adj (maze env_walled)) (0, 0) (1, 1).
Proof.
  destruct (search_solved_iff_reachable env_walled metrics0 false)
    as (res & m' & Hrun & Hiff & _).
  - vm_compute. split; [reflexivity|]. repeat constructor.
  - vm_compute. repeat split; discriminate.
  - exists res, m'. specialize (Hrun 5%nat ltac:(vm_compute; lia)).
    split; [exact Hrun|].
    assert (Hs : RunMetrics.solved m' = false).
    { simpl in Hrun. vm_compute in Hrun. by injection Hrun as _ <-. }
    split; [exact Hs|]. intros Hr. apply Hiff in Hr. congruence.
Defined.

(** X23.  A generated maze (start inside the grid, goal the default or
    inside the grid) has one simple path from the start to the goal,
    and both BFS and DFS return it: the two solvers give the same path
    and the same [solution_path_length]. *)
Theorem dfs_bfs_same_path_on_generated {R} `{RandomSource R}
    (HR : RandomSourceOk R) {F : Type} `{FloatOps F} `{FloatLib F}
    (fuel0 : nat) (nr nc : Z) (seed : option Z) (s0 : Coord)
    (g0 : option Coord) (env : MazeEnv F) (mb md : RunMetrics.t F) :
  in_grid nr nc s0 ->
  match g0 with Some g => in_grid nr nc g | None => True end ->
  generate_maze R fuel0 nr nc seed s0 g0 = Ok (maze env) ->
  exists res_b mb' res_d md' p,
    (forall fuel, (Z.to_nat nr * Z.to_nat nc < fuel)%nat ->
       solve_bfs fuel env mb = Ok (res_b, mb')
       /\ solve_dfs fuel env md = Ok (res_d, md'))
    /\ path res_b = s0 :: p /\ path res_d = s0 :: p
    /\ simple_path (maze_adj (maze env)) s0 p (goal (maze env))
    /\ (forall q, simple_path (maze_adj (maze env)) s0 q (goal (maze env)) ->
                  q = p)
    /\ RunMetrics.solution_path_length mb' = Z.of_nat (length p)
    /\ RunMetrics.solution_path_length md' = Z.of_nat (length p).
Proof.
  intros Hs0 Hg0 Hgen.
  assert (2 <= nr /\ 2 <= nc) as [Hnr Hnc].
  { revert Hgen. unfold generate_maze.
    destruct ((nr <? 2) || (nc <? 2)) eqn:E; [done|].
    apply orb_false_iff in E. rewrite !Z.ltb_ge in E. lia. }
  destruct (generate_maze_final HR fuel0 nr nc seed s0 g0 (maze env) Hs0 Hgen)
    as (st0 & st & _ & _ & _ & _ & Hinv & Hnil & Hr & Hc & Hw & Hst & Hgo).
  pose proof (carve_all_marked nr nc s0 st Hinv Hnil) as Hall.
  destruct Hinv as [Hwd _ _ _ _ _ _ Htree _].
  assert (Hg : in_grid nr nc (goal (maze env))).
  { rewrite Hgo. destruct g0; [done|]. split; simpl; lia. }
  destruct (Htree s0 (goal (maze env)) Hs0 (Hall _ Hs0) Hg (Hall _ Hg))
    as (p & Hp & Huniq).
  assert (Hadj : maze_adj (maze env) = open_adj nr nc (c_walls st)).
  { unfold maze_adj. by rewrite Hr, Hc, Hw. }
  rewrite <- Hadj in Hp, Huniq.
  assert (Hdims : grid_dims (walls (maze env)) (rows (maze env))
                    (cols (maze env))) by (by rewrite Hr, Hc, Hw).
  assert (Hstart : in_grid (rows (maze env)) (cols (maze env))
                     (start (maze env))) by (by rewrite Hr, Hc, Hst).
  assert (Hreach : rtc (maze_adj (maze env)) (start (maze env))
                     (goal (maze env))).
  { rewrite Hst. destruct Hp as [Hw' _]. by eapply walk_rtc. }
  destruct (search_run false env mb Hdims Hstart)
    as (res_b & stb & Hrunb & [(_ & _ & _ & Hno)|(pb & preb & Hpb & Hspb & _ & _
                                                  & _ & Hlb)]); [done|].
  destruct (search_run true env md Hdims Hstart)
    as (res_d & std & Hrund & [(_ & _ & _ & Hno)|(pd & pred & Hpd & Hspd & _ & _
                                                  & _ & Hld)]); [done|].
  rewrite Hst in Hpb, Hpd, Hspb, Hspd.
  apply Huniq in Hspb, Hspd. subst pb pd.
  exists res_b, (s_metrics stb), res_d, (s_metrics std), p.
  split; [|done].
  intros fuel Hfuel. rewrite length_all_cells, Hr, Hc in Hrunb, Hrund.
  split.
  - by apply (solve_search_run false), Hrunb.
  - by apply (solve_search_run true), Hrund.
Qed.

Lemma dfs_bfs_same_path_on_generated_witness :
  exists res_b mb' res_d md',
    solve_bfs 10 env_3x3_seed2 metrics_3x3 = Ok (res_b, mb')
    /\ solve_dfs 10 env_3x3_seed2 metrics_3x3 = Ok (res_d, md')
    /\ path res_b = path res_d.
Proof.
  destruct (dfs_bfs_same_path_on_generated lcg_RandomSourceOk 18 3 3 (Some 2)
              (0, 0) None env_3x3_seed2 metrics_3x3 metrics_3x3)
    as (res_b & mb' & res_d & md' & p & Hrun & Hb & Hd & _).
  - unfold in_grid. simpl. lia.
  - exact I.
  - exact generate_maze_3x3_seed2.
  - exists res_b, mb', res_d, md'.
    destruct (Hrun 10%nat ltac:(simpl; lia)) as [Hrb Hrd].
    split; [exact Hrb|]. split; [exact Hrd|]. by rewrite Hb, Hd.
Defined.

